(** * gliner-onnx.js: span enumeration, batching and decoding

    A shallow embedding of the TypeScript sources of the GLiNER ONNX runtime
    (src/gliner1/{runtime,processor,decoder}.ts, src/gliner2/{runtime,decoder,
    utils,constants,config}.ts) and the properties of its specification.

    Conventions of the embedding.
    - A JS array is a [list]; [arr[i]] is stdpp's lookup [arr !! i], which is
      [None] exactly where JS reads [undefined].
    - Array indices, lengths and character offsets are [nat].
    - A JS string is the list of its UTF-16 code units ([list N]).
    - A finite JS number that carries a score or a logit is a rational [Q]
      (every finite double is one); comparisons are the exact ones. The
      numbers that a model session answers and the thresholds are finite
      throughout. A [Float32Array] that the program fills itself is a
      [list (option Q)] where a read outside an array can reach it: the
      cell is [None] where the array holds [NaN].
    - [for (let i = 0; i < n; i++) body] is [forRange n body], a left fold
      over [0, 1, ..., n-1] that threads the mutated locals. *)

From Stdlib Require Import QArith Lqa Ascii String.
From stdpp Require Import base list numbers strings gmap sorting.

Local Open Scope nat_scope.

(* ===================================================================== *)
(** * Part I. The program                                                  *)
(* ===================================================================== *)

(** ** Common vocabulary *)

Abbreviation jsstring := (list N).

(** The code units of an ASCII literal, to write examples legibly. *)
Definition utf16 (s : string) : list N :=
  map (λ c, N_of_ascii c) (list_ascii_of_string s).

(** [for (let i = 0; i < n; i++) { st = body(i, st) }]. *)
Definition forRange {S : Type} (n : nat) (body : nat → S → S) (st : S) : S :=
  fold_left (λ acc i, body i acc) (seq 0 n) st.

(** The same loop when the body may fail (a thrown [TypeError], or a read
    that a non-null assertion promised and the array does not have): the
    first failure ends the loop. *)
Definition forRangeM {S : Type} (n : nat) (body : nat → S → option S) (st : S)
  : option S :=
  fold_left (λ acc i, acc ≫= body i) (seq 0 n) (Some st).

(** [s.slice(from, to)] for non-negative integer arguments: the code units at
    positions [from, to), clamped to the length of [s]; empty if [to <= from]. *)
Definition slice {A : Type} (s : list A) (from to : nat) : list A :=
  take (to - from) (drop from s).

(** ** Array.prototype.sort and the shared selection loop *)

(** The sign of the number a comparator returns: [Lt] negative, [Eq] zero,
    [Gt] positive. Nothing else of that number is observed by [sort]. *)
Definition signQ (q : Q) : comparison := (q ?= 0)%Q.
Definition signZ (z : Z) : comparison := (z ?= 0)%Z.

(** [arr.sort(cmp)] is stable (ECMAScript 2019): [a] is placed before [b] when
    [cmp(a, b) < 0], and elements that compare equal keep their relative
    order. For a consistent comparator that result is unique; it is computed
    here by insertion from the right. [sortInsert cmp x l] puts [x], which
    stood before every element of [l], after exactly the leading elements
    that sort strictly before it. *)
Fixpoint sortInsert {A : Type} (cmp : A → A → comparison) (x : A) (l : list A)
  : list A :=
  match l with
  | [] => [x]
  | y :: l' =>
      match cmp y x with
      | Lt => y :: sortInsert cmp x l'
      | _ => x :: y :: l'
      end
  end.

Definition jsSort {A : Type} (cmp : A → A → comparison) (l : list A) : list A :=
  foldr (sortInsert cmp) [] l.

(** The loop shared by [greedySearch] (gliner1/decoder.ts) and
    [deduplicateEntities] (gliner2/decoder.ts):
    [for (const x of sorted) { if (!kept.some((e) => conflicts(x, e))) kept.push(x) }]. *)
Definition acceptLoop {A : Type} (conflicts : A → A → bool) (sorted : list A)
  : list A :=
  fold_left (λ kept x,
    let hasOverlap := existsb (λ existing, conflicts x existing) kept in
    if negb hasOverlap then kept ++ [x] else kept) sorted [].

(** types.ts, [interface Entity]. *)
Record Entity := mkEntity {
  text : jsstring;
  label : jsstring;
  start : nat;
  end_ : nat;
  score : Q
}.
(** ** ScoreTransform *)

(** [a < b] on rationals, as a boolean ([Qle_bool] is [<=]). *)
Definition Qlt_bool (a b : Q) : bool := negb (Qle_bool b a).

(** The floating-point primitives the score transforms are built from:
    [Math.exp], the IEEE-754 double operations [+], [-], [*], [/], unary [-]
    (each with its rounding), and [fround], the rounding a value undergoes
    when it is stored into a [Float32Array]. They are left abstract: no
    property below depends on how they round. *)
Class FloatOps := {
  Math_exp : Q → Q;
  fadd : Q → Q → Q;
  fsub : Q → Q → Q;
  fmul : Q → Q → Q;
  fdiv : Q → Q → Q;
  fneg : Q → Q;
  fround : Q → Q
}.

(** gliner1/decoder.ts and gliner2/utils.ts define the same [sigmoid]. *)
Definition sigmoid `{FloatOps} (x : Q) : Q :=
  if Qle_bool 0 x then fdiv 1 (fadd 1 (Math_exp (fneg x)))
  else
    let expX := Math_exp x in
    fdiv expX (fadd 1 expX).

(** gliner2/utils.ts, [sigmoidArray]: the result is a [Float32Array]. *)
Definition sigmoidArray `{FloatOps} (values : list Q) : list Q :=
  map (λ v, fround (sigmoid v)) values.

(** gliner2/utils.ts, [softmax]. The running maximum starts at [-Infinity],
    below every finite value: it is [None] until the first element is seen.
    [sum] accumulates the double [expVal], while the cell [result[i]] holds
    its [Float32Array] rounding, which the last loop reads back. *)
Definition softmax `{FloatOps} (values : list Q) : list Q :=
  let maxVal := fold_left (λ (maxVal : option Q) val,
      match maxVal with
      | None => Some val
      | Some m => if Qlt_bool m val then Some val else Some m
      end) values None in
  match maxVal with
  | None => []
  | Some m =>
      let expVals := map (λ v, Math_exp (fsub v m)) values in
      let sum := fold_left (λ sum expVal, fadd sum expVal) expVals 0%Q in
      map (λ expVal, fround (fdiv (fround expVal) sum)) expVals
  end.

(** An instance for running examples: exact rational arithmetic, cells kept
    in lowest terms, and a monotone rational stand-in for the exponential
    ([1 + x] for [x >= 0], [1 / (1 - x)] below). *)
#[export] Instance rationalOps : FloatOps := {|
  Math_exp x := if Qle_bool 0 x then Qred (1 + x) else Qred (1 / (1 - x));
  fadd a b := Qred (a + b);
  fsub a b := Qred (a - b);
  fmul a b := Qred (a * b);
  fdiv a b := Qred (a / b);
  fneg a := Qred (- a);
  fround := Qred
|}.
(** ** Regular expressions (the fragment the word patterns use) *)

(** ECMAScript backtracking semantics, for patterns without captures,
    back-references or assertions. [matches r s] lists, in the order the
    backtracking matcher would find them, the remainders of [s] after each
    way [r] matches a prefix of [s]; the first one is the match [exec]
    reports. Quantifiers are greedy, and, as in ECMAScript's RepeatMatcher,
    an iteration of [*] that consumes nothing is rejected. *)
Inductive regex :=
  | Class (p : N → bool)   (* one code unit: a literal, [...], \w, \S *)
  | Eps                    (* the empty pattern *)
  | Seq (r1 r2 : regex)
  | Alt (r1 r2 : regex)    (* r1|r2 *)
  | Star (r : regex).      (* r* *)

Definition Plus (r : regex) : regex := Seq r (Star r).      (* r+ *)
Definition Opt (r : regex) : regex := Alt r Eps.            (* r? *)
Definition AtLeast2 (r : regex) : regex := Seq r (Plus r).  (* r{2,} *)

(** The iterations of [r*] from [s], [m] being the matcher of [r]: first
    one more iteration (if it consumes something) followed by the rest, then
    no further iteration. An iteration consumes at least one code unit, so
    [length s] bounds their number. *)
Fixpoint matchStar (m : list N → list (list N)) (fuel : nat) (s : list N)
  : list (list N) :=
  match fuel with
  | 0 => [s]
  | S fuel' =>
      flat_map (λ s', if length s' <? length s then matchStar m fuel' s' else [])
               (m s) ++ [s]
  end.

Fixpoint matches (r : regex) (s : list N) : list (list N) :=
  match r with
  | Class p =>
      match s with
      | c :: s' => if p c then [s'] else []
      | [] => []
      end
  | Eps => [s]
  | Seq r1 r2 => flat_map (matches r2) (matches r1 s)
  | Alt r1 r2 => matches r1 s ++ matches r2 s
  | Star r' => matchStar (matches r') (length s) s
  end.

(** The search of [exec] from position [pos], where [s] is the text from
    [pos] on: the leftmost position with a match, and the end of the first
    match there. *)
Fixpoint search (pattern : regex) (s : list N) (pos : nat) : option (nat * nat) :=
  match matches pattern s with
  | rest :: _ => Some (pos, pos + (length s - length rest))
  | [] =>
      match s with
      | [] => None
      | _ :: s' => search pattern s' (S pos)
      end
  end.

(** [pattern.exec(text)] for a pattern with the [g] flag, whose [lastIndex]
    is the state: the match (its index and end) and the new [lastIndex],
    which is the end of the match, or 0 when there is none. *)
Definition exec (pattern : regex) (text : list N) (lastIndex : nat)
  : option (nat * nat) * nat :=
  if length text <? lastIndex then (None, 0)
  else
    match search pattern (drop lastIndex text) lastIndex with
    | Some (index, e) => (Some (index, e), e)
    | None => (None, 0)
    end.

(** [while ((match = pattern.exec(text)) !== null) { yield [match[0],
    match.index, pattern.lastIndex] }], run to its end. An empty match would
    leave [lastIndex] in place and the loop would never end: [None] when
    [fuel] iterations did not reach the end. The final [lastIndex] is
    returned with the tokens. *)
Fixpoint execAll (fuel : nat) (pattern : regex) (text : list N) (lastIndex : nat)
  : option (list (list N * nat * nat)) * nat :=
  match fuel with
  | 0 => (None, lastIndex)
  | S fuel' =>
      match exec pattern text lastIndex with
      | (None, lastIndex') => (Some [], lastIndex')
      | (Some (index, e), lastIndex') =>
          let '(rest, final) := execAll fuel' pattern text lastIndex' in
          ((λ tokens, (slice text index e, index, e) :: tokens) <$> rest, final)
      end
  end.

(** *** Character classes *)

Definition inRange (lo hi c : N) : bool := ((lo <=? c) && (c <=? hi))%N.
Definition isLower (c : N) : bool := inRange 97 122 c.   (* a-z *)
Definition isUpper (c : N) : bool := inRange 65 90 c.    (* A-Z *)
Definition isDigit (c : N) : bool := inRange 48 57 c.    (* 0-9 *)

(** [\w] is [A-Za-z0-9_], with or without the [i] flag (no [u] flag). *)
Definition isWordChar (c : N) : bool :=
  isLower c || isUpper c || isDigit c || (c =? 95)%N.

(** [\s]: ECMAScript WhiteSpace and LineTerminator code points. *)
Definition isSpace (c : N) : bool :=
  inRange 9 13 c            (* TAB, LF, VT, FF, CR *)
  || (c =? 32)%N            (* SPACE *)
  || (c =? 160)%N           (* NO-BREAK SPACE *)
  || (c =? 5760)%N          (* U+1680 *)
  || inRange 8192 8202 c    (* U+2000 .. U+200A *)
  || inRange 8232 8233 c    (* U+2028, U+2029 *)
  || (c =? 8239)%N          (* U+202F *)
  || (c =? 8287)%N          (* U+205F *)
  || (c =? 12288)%N         (* U+3000 *)
  || (c =? 65279)%N.        (* U+FEFF *)

Definition nonSpace : regex := Class (λ c, negb (isSpace c)).   (* \S, [^\s] *)
Definition wordChar : regex := Class isWordChar.                (* \w *)

(** A literal code unit, case-sensitively. *)
Definition chr (a : ascii) : regex := Class (λ c, (c =? N_of_ascii a)%N).

(** A literal code unit under the [i] flag (without [u]): a letter matches in
    either case; no code unit above 127 is folded onto an ASCII one. *)
Definition chri (a : ascii) : regex :=
  let n := N_of_ascii a in
  Class (λ c, (c =? n)%N
              || (isLower n && (c =? n - 32)%N)
              || (isUpper n && (c =? n + 32)%N)).

(** A literal string under the [i] flag. *)
Fixpoint liti (s : string) : regex :=
  match s with
  | EmptyString => Eps
  | String a s' => Seq (chri a) (liti s')
  end.

(** [\w+(?:[-_]\w+)*], the word rule shared by both patterns. *)
Definition wordRun : regex :=
  Seq (Plus wordChar)
      (Star (Seq (Class (λ c, (c =? 45)%N || (c =? 95)%N)) (Plus wordChar))).
(** ** Effects: errors, collaborator calls, and the splitter's RegExp *)

(** errors.ts gives [ValidationError], [ConfigurationError] (and
    [ModelNotFoundError], raised only while loading). The other ways a call
    can end without a result: a [TypeError] thrown by the JS runtime, the
    plain [Error] of [getFirstOutput], a rejection by the external tokenizer
    or tensor engine, a read that a non-null assertion ([!]) promised and the
    array does not have, and a loop that would not end. *)
Inductive error :=
  | ValidationError (message : string)
  | ConfigurationError (message : string)
  | TypeError
  | PlainError (message : string)
  | CollaboratorFailure
  | UndefinedRead
  | Diverges.

(** Calls into the external collaborators, in the order they are made. *)
Inductive event :=
  | TokenizerCall (text : jsstring)
  | EngineCall (session : string).

(** What a call can observe and change besides its arguments: the calls made
    so far, and the [lastIndex] of the RegExp object owned by GLiNER1's
    [WhitespaceTokenSplitter]. *)
Record World := {
  calls : list event;
  patternLastIndex : nat
}.

Definition M (A : Type) : Type := World → (error + A) * World.

#[export] Instance M_ret : MRet M := λ A a w, (inr a, w).
#[export] Instance M_bind : MBind M := λ A B f m w,
  match m w with
  | (inl e, w') => (inl e, w')
  | (inr a, w') => f a w'
  end.

Definition throw {A : Type} (e : error) : M A := λ w, (inl e, w).

Definition emit (ev : event) : M unit :=
  λ w, (inr (), {| calls := calls w ++ [ev];
                   patternLastIndex := patternLastIndex w |}).

(** [x!] for an array read [x]. *)
Definition assertDefined {A : Type} (x : option A) : M A :=
  match x with
  | Some a => mret a
  | None => throw UndefinedRead
  end.

(** A pure computation that throws a [TypeError] where it is [None]. *)
Definition orTypeError {A : Type} (x : option A) : M A :=
  match x with
  | Some a => mret a
  | None => throw TypeError
  end.

(** [for (const x of l) { st = body(x, st) }] with effects. *)
Fixpoint forEachM {A S : Type} (l : list A) (body : A → S → M S) (st : S) : M S :=
  match l with
  | [] => mret st
  | x :: l' => st' ← body x st; forEachM l' body st'
  end.

(** [s.trim()]: strips leading and trailing WhiteSpace and LineTerminator
    code units, the set [\s] matches. *)
Fixpoint dropWhile {A : Type} (p : A → bool) (l : list A) : list A :=
  match l with
  | x :: l' => if p x then dropWhile p l' else l
  | [] => []
  end.

Definition trim (s : jsstring) : jsstring :=
  reverse (dropWhile isSpace (reverse (dropWhile isSpace s))).
(** ** SpanLattice *)

Module GLiNER1Lattice.

(** processor.ts, [SpanProcessor.buildSpans], the body executed for one
    element [tokens] of [batchTokens], with [textLength = tokens.length].
    [textLength - 1] is only evaluated inside the outer loop, where
    [textLength >= 1], so the truncated subtraction of [nat] is the exact one. *)
Definition buildSpansRow (maxWidth textLength : nat)
  : list (nat * nat) * list bool :=
  forRange textLength (λ startIdx st,
    forRange maxWidth (λ width '(spanIdx, spanMask),
      let endIdx := Nat.min (startIdx + width) (textLength - 1) in
      (spanIdx ++ [(startIdx, endIdx)],
       spanMask ++ [bool_decide (endIdx < textLength)])) st)
    ([], []).

(** [buildSpans(batchTokens)]: one row per example, in order. *)
Definition buildSpans {T : Type} (maxWidth : nat) (batchTokens : list (list T))
  : list (list (nat * nat)) * list (list bool) :=
  fold_left (λ '(spanIdxs, spanMasks) tokens,
    let '(spanIdx, spanMask) := buildSpansRow maxWidth (length tokens) in
    (spanIdxs ++ [spanIdx], spanMasks ++ [spanMask]))
    batchTokens ([], []).

End GLiNER1Lattice.

Module GLiNER2Lattice.

Record SpanIndices := {
  spanStart : list nat;
  spanEnd : list nat;
  numSpans : nat
}.

(** decoder.ts, [generateSpans(seqLen, maxWidth)]. *)
Definition generateSpans (seqLen maxWidth : nat) : SpanIndices :=
  let '(starts, ends) :=
    forRange seqLen (λ i st,
      forRange maxWidth (λ j '(spanStart, spanEnd),
        if bool_decide (i + j < seqLen)
        then (spanStart ++ [i], spanEnd ++ [i + j])
        else (spanStart ++ [0], spanEnd ++ [0])) st)
      ([], []) in
  {| spanStart := starts; spanEnd := ends; numSpans := length starts |}.

End GLiNER2Lattice.

(** ** OverlapResolver (gliner1/decoder.ts) *)

Module GLiNER1Decoder.

(** gliner1/types.ts, [type RawSpan = [text, start, end, label, score]];
    the fields are the tuple positions 0 to 4. *)
Record RawSpan := mkRawSpan {
  span_text : jsstring;   (* span[0] *)
  span_start : nat;       (* span[1] *)
  span_end : nat;         (* span[2] *)
  span_label : jsstring;  (* span[3] *)
  span_score : Q          (* span[4] *)
}.

Definition spansOverlap (start1 end1 start2 end2 : nat)
    (allowNested allowMultiLabel : bool) : bool :=
  if (start1 =? start2) && (end1 =? end2) then negb allowMultiLabel
  else if (end2 <? start1) || (end1 <? start2) then false
  else if allowNested then
    let isNested := ((start1 <=? start2) && (end2 <=? end1))
                    || ((start2 <=? start1) && (end1 <=? end2)) in
    if isNested then false else true
  else true.

(** [(a, b) => b[4] - a[4]] and [(a, b) => a[1] - b[1]]. *)
Definition byScoreDesc (a b : RawSpan) : comparison :=
  signQ (span_score b - span_score a).
Definition byStartAsc (a b : RawSpan) : comparison :=
  signZ (Z.of_nat (span_start a) - Z.of_nat (span_start b)).

(** The argument of [selected.some(...)] in [greedySearch]. *)
Definition overlaps (flatNer multiLabel : bool) (span existing : RawSpan) : bool :=
  spansOverlap (span_start span) (span_end span)
               (span_start existing) (span_end existing) (negb flatNer) multiLabel.

Definition greedySearch (spans : list RawSpan) (flatNer multiLabel : bool)
  : list RawSpan :=
  let sorted := jsSort byScoreDesc spans in
  let selected := acceptLoop (overlaps flatNer multiLabel) sorted in
  jsSort byStartAsc selected.

(** *** SpanDecoder *)

Definition DEFAULT_THRESHOLD : Q := 1 # 2.
Definition ENTITY_ID_OFFSET : nat := 1.

(** [SpanDecoder.extractSpans]; [maxWidth] is the decoder's field
    ([config.maxWidth]). The result is [None] when the source throws: the
    [push] on [spans[batchIdx]] for a [batchIdx] outside [spans].

    Division by a zero stride: when [batchStride] is 0, [idx / batchStride]
    is [Infinity] or [NaN], [charStartOffsets[batchIdx]] is [undefined] and
    the element is skipped. [tokenStride] and [entityCount] are factors of
    [batchStride], so past that test every divisor is positive and
    [Math.floor(a / b)], [a % b] are the quotient and remainder of [nat]. *)
Definition extractSpans `{FloatOps} (maxWidth : nat)
    (batchSize inputLength entityCount : nat) (texts : list jsstring)
    (batchIds : list nat) (charStartOffsets charEndOffsets : list (list nat))
    (idToClass : gmap nat jsstring) (modelOutput : list Q) (threshold : Q)
  : option (list (list RawSpan)) :=
  let spans : list (list RawSpan) := replicate batchSize [] in
  let batchStride := inputLength * maxWidth * entityCount in
  let tokenStride := maxWidth * entityCount in
  let widthStride := entityCount in
  forRangeM (length modelOutput) (λ idx spans,
    raw ← modelOutput !! idx;
    let prob := sigmoid raw in
    if Qlt_bool prob threshold then Some spans
    else if batchStride =? 0 then Some spans
    else
      let batchIdx := idx / batchStride in
      let startToken := (idx / tokenStride) mod inputLength in
      let endToken := startToken + (idx / widthStride) mod maxWidth in
      let entityIdx := idx mod entityCount in
      match charStartOffsets !! batchIdx, charEndOffsets !! batchIdx with
      | Some starts, Some ends =>
          if (length starts <=? startToken) || (length ends <=? endToken)
          then Some spans
          else
            let globalBatchIdx := default 0 (batchIds !! batchIdx) in
            let text := default [] (texts !! globalBatchIdx) in
            startChar ← starts !! startToken;
            endChar ← ends !! endToken;
            row ← spans !! batchIdx;
            Some (<[batchIdx :=
                     row ++ [ {| span_text := slice text startChar endChar;
                                 span_start := startChar;
                                 span_end := endChar;
                                 span_label :=
                                   default [] (idToClass !! (entityIdx + ENTITY_ID_OFFSET));
                                 span_score := prob |} ]]> spans)
      | _, _ => Some spans
      end) spans.

(** [interface DecoderOptions], with the defaults of [decode] applied. *)
Record DecoderOptions := {
  opt_threshold : option Q;
  opt_flatNer : option bool;
  opt_multiLabel : option bool
}.

(** [SpanDecoder.decode]. *)
Definition decode `{FloatOps} (maxWidth : nat)
    (batchSize inputLength entityCount : nat) (texts : list jsstring)
    (batchIds : list nat) (charStartOffsets charEndOffsets : list (list nat))
    (idToClass : gmap nat jsstring) (modelOutput : list Q) (options : DecoderOptions)
  : option (list (list RawSpan)) :=
  let threshold := default DEFAULT_THRESHOLD (opt_threshold options) in
  let flatNer := default true (opt_flatNer options) in
  let multiLabel := default false (opt_multiLabel options) in
  spans ← extractSpans maxWidth batchSize inputLength entityCount texts batchIds
             charStartOffsets charEndOffsets idToClass modelOutput threshold;
  Some (map (λ batchSpans, greedySearch batchSpans flatNer multiLabel) spans).

End GLiNER1Decoder.

(** ** Entity de-duplication (gliner2/decoder.ts) *)

Module GLiNER2Dedup.

Definition byScoreDesc (a b : Entity) : comparison := signQ (score b - score a).

(** The argument of [kept.some(...)]; labels are compared with [===]. *)
Definition sameLabelIntersect (entity existing : Entity) : bool :=
  bool_decide (label entity = label existing)
  && (start entity <? end_ existing) && (start existing <? end_ entity).

Definition deduplicateEntities (entities : list Entity) : list Entity :=
  match entities with
  | [] => []
  | _ => acceptLoop sameLabelIntersect (jsSort byScoreDesc entities)
  end.

End GLiNER2Dedup.
(** ** ClassificationDecoder and entity decoding (gliner2/decoder.ts) *)

Module GLiNER2Decoder.
Import GLiNER2Dedup.

(** [type ClassificationResult = Record<string, number>]: a plain JS object
    used as a map from label to score, given by its own properties. A
    property holds [None] where the object holds [undefined]. *)
Abbreviation ClassificationResult := (gmap jsstring (option Q)).

(** [results[label] = p] for a number [p] and an object made by [{}]: the
    assignment defines or overwrites the own property [label], unless
    [label] is ['__proto__'], the one accessor a plain object inherits; its
    setter does nothing when it is given a number, so nothing is stored. *)
Definition assign (label : jsstring) (p : Q) (results : ClassificationResult)
  : ClassificationResult :=
  if decide (label = utf16 "__proto__") then results else <[label := Some p]> results.

(** [decodeMultiLabel]. [labels[i]] is defined for every [i] the loop visits;
    where [probabilities[i]] is [undefined] the comparison
    [undefined >= threshold] is false and nothing is stored. *)
Definition decodeMultiLabel `{FloatOps} (logits : list Q) (labels : list jsstring)
    (threshold : Q) : ClassificationResult :=
  let probabilities := sigmoidArray logits in
  forRange (length labels) (λ i (results : ClassificationResult),
    match probabilities !! i, labels !! i with
    | Some p, Some l => if Qle_bool threshold p then assign l p results else results
    | _, _ => results
    end) ∅.

(** [decodeSingleLabel]. [bestProb] starts as [probabilities[0]], which is
    [undefined] for an empty logit array, and a comparison with [undefined]
    is false. The key of the object literal is computed, so it names an own
    property whatever the label is; [labels[bestIdx]] is [undefined] only
    for an empty label list, and the key is then the string ['undefined']. *)
Definition decodeSingleLabel `{FloatOps} (logits : list Q) (labels : list jsstring)
  : ClassificationResult :=
  let probabilities := softmax logits in
  let '(bestIdx, bestProb) :=
    fold_left (λ '(bestIdx, bestProb) i,
      match probabilities !! i, bestProb with
      | Some p, Some best =>
          if Qlt_bool best p then (i, Some p) else (bestIdx, bestProb)
      | _, _ => (bestIdx, bestProb)
      end) (seq 1 (length labels - 1)) (0, probabilities !! 0) in
  {[ default (utf16 "undefined") (labels !! bestIdx) := bestProb ]}.

(** [interface NerScoreData]. A cell of [scores] is [None] where the
    [Float32Array] holds [NaN]. *)
Record NerScoreData := {
  scores : list (option Q);
  wordSpanStart : list nat;
  wordSpanEnd : list nat;
  spanCount : nat
}.

(** [x >= n] for an array read [x]: false where [x] is [undefined]. *)
Definition reaches (x : option nat) (n : nat) : bool :=
  match x with
  | Some i => n <=? i
  | None => false
  end.

(** [decodeEntities]. A score cell that is [undefined] or [NaN] fails the
    comparison [score >= threshold] and is skipped. The result is [None]
    where the source throws a [TypeError]: when a score passes and
    [wordOffsets[startWord]] or [wordOffsets[endWord]] is [undefined], whose
    component is then read. [labels[labelIdx]] is defined for every
    [labelIdx] the loop visits. *)
Definition decodeEntities (scoreData : NerScoreData) (wordCount : nat)
    (labels : list jsstring) (wordOffsets : list (nat * nat)) (text : jsstring)
    (threshold : Q) : option (list Entity) :=
  let labelCount := length labels in
  entities ← forRangeM (spanCount scoreData) (λ spanIdx entities,
    let startWord := wordSpanStart scoreData !! spanIdx in
    let endWord := wordSpanEnd scoreData !! spanIdx in
    if reaches startWord wordCount || reaches endWord wordCount then Some entities
    else
      forRangeM labelCount (λ labelIdx entities,
        match scores scoreData !! (spanIdx * labelCount + labelIdx) with
        | Some (Some score) =>
            if Qle_bool threshold score then
              startOffset ← startWord ≫= (wordOffsets !!.);
              endOffset ← endWord ≫= (wordOffsets !!.);
              label ← labels !! labelIdx;
              Some (entities ++ [ {| text := slice text startOffset.1 endOffset.2;
                                     label := label;
                                     start := startOffset.1;
                                     end_ := endOffset.2;
                                     score := score |} ])
            else Some entities
        | _ => Some entities
        end) entities) [];
  Some (deduplicateEntities entities).

End GLiNER2Decoder.
(** ** WordSplitter *)

Module GLiNER1Splitter.

(** processor.ts: [private readonly pattern = /\w+(?:[-_]\w+)*|\S/g]. *)
Definition pattern : regex := Alt wordRun nonSpace.

(** [WhitespaceTokenSplitter.split(text)], consumed to its end (as
    [tokenizeTexts] does). The splitter owns one RegExp object; its
    [lastIndex] is the state threaded through: [split] first resets it to 0.
    The iteration bound [length text + 1] is never reached
    (see [split_total]). *)
Definition split (lastIndex : nat) (text : jsstring)
  : option (list (jsstring * nat * nat)) * nat :=
  let lastIndex := 0 in
  execAll (S (length text)) pattern text lastIndex.

End GLiNER1Splitter.

Module GLiNER2Splitter.

(** constants.ts, [WORD_PATTERN], alternative by alternative. The flags are
    [gi]; classes are spelled out with both letter cases. *)

(** [(?:https?:\/\/[^\s]+|www\.[^\s]+)] *)
Definition urlRule : regex :=
  Alt (Seq (liti "http") (Seq (Opt (chri "s")) (Seq (liti "://") (Plus nonSpace))))
      (Seq (liti "www.") (Plus nonSpace)).

(** [[a-z0-9._%+-]+@[a-z0-9.-]+\.[a-z]{2,}] *)
Definition emailRule : regex :=
  let localChar := Class (λ c, isLower c || isUpper c || isDigit c
      || (c =? 46)%N || (c =? 95)%N || (c =? 37)%N || (c =? 43)%N || (c =? 45)%N) in
  let domainChar := Class (λ c, isLower c || isUpper c || isDigit c
      || (c =? 46)%N || (c =? 45)%N) in
  let letter := Class (λ c, isLower c || isUpper c) in
  Seq (Plus localChar)
    (Seq (chr "@") (Seq (Plus domainChar) (Seq (chr ".") (AtLeast2 letter)))).

(** [@[a-z0-9_]+] *)
Definition mentionRule : regex :=
  Seq (chr "@")
      (Plus (Class (λ c, isLower c || isUpper c || isDigit c || (c =? 95)%N))).

Definition WORD_PATTERN : regex :=
  Alt urlRule (Alt emailRule (Alt mentionRule (Alt wordRun nonSpace))).

(** [createWordPattern()] returns a fresh RegExp, whose [lastIndex] is 0;
    the loops of [tokenizeText] and [tokenizeWords] run it over the
    lower-cased text. *)
Definition splitWords (lowerText : jsstring) : option (list (jsstring * nat * nat)) :=
  (execAll (S (length lowerText)) WORD_PATTERN lowerText 0).1.

End GLiNER2Splitter.
(** ** BatchAssembler (gliner1/processor.ts) *)

Module GLiNER1Processor.
Import GLiNER1Lattice.

Definition ENTITY_MARKER : jsstring := utf16 "<<ENT>>".
Definition SEPARATOR_MARKER : jsstring := utf16 "<<SEP>>".
Definition CLS_TOKEN_ID : Z := 1.
Definition PAD_VALUE : Z := 0.

(** gliner1/types.ts, [interface GLiNER1Tokenizer]: the external tokenizer,
    deterministic and free of side effects; token ids are integers. *)
Record GLiNER1Tokenizer := {
  encode : jsstring → list Z;
  sep_token_id : Z
}.

(** A cell of a padded [spanMasks] row: [buildSpans] pushes booleans, and
    [padArrays] fills with [PAD_VALUE as T], the number 0. *)
Inductive MaskCell :=
  | MaskBool (b : bool)
  | MaskNum (z : Z).

(** gliner1/types.ts, [interface ProcessorBatch]. *)
Record ProcessorBatch := {
  inputsIds : list (list Z);
  attentionMasks : list (list Z);
  wordsMasks : list (list Z);
  textLengths : list nat;
  spanIdxs : list (list (nat * nat));
  spanMasks : list (list MaskCell);
  idToClass : gmap nat jsstring;
  batchTokens : list (list jsstring);
  batchWordsStartIdx : list (list nat);
  batchWordsEndIdx : list (list nat)
}.

(** [this.splitter.split(text)], consumed by [for ... of]: runs on the
    RegExp state of the world. *)
Definition splitM (text : jsstring) : M (list (jsstring * nat * nat)) :=
  λ w,
    let '(tokens, lastIndex) := GLiNER1Splitter.split (patternLastIndex w) text in
    let w' := {| calls := calls w; patternLastIndex := lastIndex |} in
    match tokens with
    | Some tokens => (inr tokens, w')
    | None => (inl Diverges, w')
    end.

Definition tokenizeTexts (texts : list jsstring)
  : M (list (list jsstring) * list (list nat) * list (list nat)) :=
  forEachM texts (λ text '(batchTokens, batchStarts, batchEnds),
    triples ← splitM text;
    let '(tokens, starts, ends) :=
      fold_left (λ '(tokens, starts, ends) '(token, start, end_),
                   (tokens ++ [token], starts ++ [start], ends ++ [end_]))
                triples ([], [], []) in
    mret (batchTokens ++ [tokens], batchStarts ++ [starts], batchEnds ++ [ends]))
    ([], [], []).

Definition buildIdToClass (entities : list jsstring) : gmap nat jsstring :=
  forRange (length entities) (λ i (idToClass : gmap nat jsstring),
    match entities !! i with
    | Some entity => <[i + 1 := entity]> idToClass
    | None => idToClass
    end) ∅.

Definition buildInputSequences (batchTokens : list (list jsstring))
    (entities : list jsstring)
  : list (list jsstring) * list nat * list nat :=
  fold_left (λ '(inputTexts, textLengths, promptLengths) tokens,
    let textLengths := textLengths ++ [length tokens] in
    let inputText := fold_left (λ inputText entity,
                        inputText ++ [ENTITY_MARKER; entity]) entities [] in
    let inputText := inputText ++ [SEPARATOR_MARKER] in
    let promptLengths := promptLengths ++ [length inputText] in
    let inputText := inputText ++ tokens in
    (inputTexts ++ [inputText], textLengths, promptLengths))
    batchTokens ([], [], []).

(** [this.tokenizer.encode(word)]: a call to the external tokenizer. *)
Definition callEncode (tokenizer : GLiNER1Tokenizer) (word : jsstring) : M (list Z) :=
  _ ← emit (TokenizerCall word);
  mret (encode tokenizer word).

(** The innermost loop of [encodeInputs], over the sub-tokens of one word;
    the state is [(inputIds, attentionMask, wordsMask, wordCounter)]. *)
Definition encodeWord (promptLength wordIdx : nat) (wordTokenIds : list Z)
    (st : list Z * list Z * list Z * Z) : list Z * list Z * list Z * Z :=
  forRange (length wordTokenIds)
    (λ tokenIdx '(inputIds, attentionMask, wordsMask, wordCounter),
      match wordTokenIds !! tokenIdx with
      | Some tokenId =>
          let inputIds := inputIds ++ [tokenId] in
          let attentionMask := attentionMask ++ [1%Z] in
          if wordIdx <? promptLength then
            (inputIds, attentionMask, wordsMask ++ [PAD_VALUE], wordCounter)
          else if tokenIdx =? 0 then
            (inputIds, attentionMask, wordsMask ++ [wordCounter], (wordCounter + 1)%Z)
          else
            (inputIds, attentionMask, wordsMask ++ [PAD_VALUE], wordCounter)
      | None => (inputIds, attentionMask, wordsMask, wordCounter)
      end) st.

Definition encodeInputs (tokenizer : GLiNER1Tokenizer)
    (inputTexts : list (list jsstring)) (promptLengths : list nat)
  : M (list (list Z) * list (list Z) * list (list Z)) :=
  forEachM (seq 0 (length inputTexts))
    (λ batchIdx '(inputsIds, attentionMasks, wordsMasks),
      promptLength ← assertDefined (promptLengths !! batchIdx);
      tokens ← assertDefined (inputTexts !! batchIdx);
      '(inputIds, attentionMask, wordsMask, _) ←
        forEachM (seq 0 (length tokens)) (λ wordIdx st,
          word ← assertDefined (tokens !! wordIdx);
          encoded ← callEncode tokenizer word;
          let wordTokenIds := slice encoded 1 (length encoded - 1) in
          mret (encodeWord promptLength wordIdx wordTokenIds st))
          ([CLS_TOKEN_ID], [1%Z], [PAD_VALUE], 1%Z);
      mret (inputsIds ++ [inputIds ++ [sep_token_id tokenizer]],
            attentionMasks ++ [attentionMask ++ [1%Z]],
            wordsMasks ++ [wordsMask ++ [PAD_VALUE]]))
    ([], [], []).

(** [padArrays<T>(arrays)]; [pad] is [PAD_VALUE as T]. [Math.max(...)] of no
    lengths is [-Infinity], but then there is no row to pad. *)
Definition padArrays {T : Type} (pad : T) (arrays : list (list T)) : list (list T) :=
  let maxLength := max_list (map length arrays) in
  map (λ arr, arr ++ replicate (maxLength - length arr) pad) arrays.

(** [padSpanArrays(arrays)]. Every span is a two-element array, so
    [spanDim = arrays[0]?.[0]?.length ?? 2] is 2 and the padding entry is
    [[0, 0]]. *)
Definition padSpanArrays (arrays : list (list (nat * nat))) : list (list (nat * nat)) :=
  let maxLength := max_list (map length arrays) in
  map (λ arr, arr ++ replicate (maxLength - length arr) (0, 0)) arrays.

(** [SpanProcessor.prepareBatch]; [maxWidth] and [tokenizer] are the
    processor's fields. *)
Definition prepareBatch (maxWidth : nat) (tokenizer : GLiNER1Tokenizer)
    (texts : list jsstring) (entities : list jsstring) : M ProcessorBatch :=
  '(batchTokens, batchWordsStartIdx, batchWordsEndIdx) ← tokenizeTexts texts;
  let idToClass := buildIdToClass entities in
  let '(inputTokens, textLengths, promptLengths) :=
    buildInputSequences batchTokens entities in
  '(inputsIds, attentionMasks, wordsMasks) ←
    encodeInputs tokenizer inputTokens promptLengths;
  let '(spanIdxs, spanMasks) := buildSpans maxWidth batchTokens in
  mret {| inputsIds := padArrays PAD_VALUE inputsIds;
          attentionMasks := padArrays PAD_VALUE attentionMasks;
          wordsMasks := padArrays PAD_VALUE wordsMasks;
          textLengths := textLengths;
          spanIdxs := padSpanArrays spanIdxs;
          spanMasks := padArrays (MaskNum PAD_VALUE) (map (map MaskBool) spanMasks);
          idToClass := idToClass;
          batchTokens := batchTokens;
          batchWordsStartIdx := batchWordsStartIdx;
          batchWordsEndIdx := batchWordsEndIdx |}.

End GLiNER1Processor.
(** ** The GLiNER1 runtime (gliner1/runtime.ts) *)

Module GLiNER1Runtime.
Import GLiNER1Processor GLiNER1Decoder.

Definition DEFAULT_THRESHOLD : Q := 1 # 2.
Definition ONNX_OUTPUT_LOGITS : string := "logits".

(** [new ort.Tensor(type, data, dims)]: ['int64'] data are BigInts,
    ['bool'] data the cells of the padded span masks. *)
Inductive TensorData :=
  | Int64Data (data : list Z)
  | BoolData (data : list MaskCell).

Record Tensor := {
  tensor_data : TensorData;
  tensor_dims : list nat
}.

(** The named inputs handed to [session.run]. *)
Record Feeds := {
  input_ids : Tensor;
  attention_mask : Tensor;
  words_mask : Tensor;
  text_lengths : Tensor;
  span_idx : Tensor;
  span_mask : Tensor
}.

(** The named outputs of the engine, each with its [data], in the order of
    [Object.keys]. *)
Abbreviation Outputs := (list (string * list Q)).

Definition output (name : string) (results : Outputs) : option (list Q) :=
  snd <$> List.find (λ kv, String.eqb kv.1 name) results.

(** The fields of a [GLiNER1ONNXRuntime]: the processor's and decoder's
    [config.maxWidth], the tokenizer, and the inference session, an external
    function of the feeds that may reject. *)
Record Runtime := {
  maxWidth : nat;
  tokenizer : GLiNER1Tokenizer;
  session_run : Feeds → option Outputs
}.

Definition toBigIntFlat (arrays : list (list Z)) : list Z := concat arrays.

Definition toBigIntFlat3D (arrays : list (list (nat * nat))) : list Z :=
  flat_map (λ '(s, e), [Z.of_nat s; Z.of_nat e]) (concat arrays).

Definition buildTensors (batch : ProcessorBatch) : Feeds :=
  let batchSize := length (inputsIds batch) in
  let tokenCount := default 0 (length <$> inputsIds batch !! 0) in
  let spanCount := default 0 (length <$> spanIdxs batch !! 0) in
  {| input_ids := {| tensor_data := Int64Data (toBigIntFlat (inputsIds batch));
                     tensor_dims := [batchSize; tokenCount] |};
     attention_mask := {| tensor_data := Int64Data (toBigIntFlat (attentionMasks batch));
                          tensor_dims := [batchSize; tokenCount] |};
     words_mask := {| tensor_data := Int64Data (toBigIntFlat (wordsMasks batch));
                      tensor_dims := [batchSize; tokenCount] |};
     text_lengths := {| tensor_data := Int64Data (map Z.of_nat (textLengths batch));
                        tensor_dims := [batchSize; 1] |};
     span_idx := {| tensor_data := Int64Data (toBigIntFlat3D (spanIdxs batch));
                    tensor_dims := [batchSize; spanCount; 2] |};
     span_mask := {| tensor_data := BoolData (concat (spanMasks batch));
                     tensor_dims := [batchSize; spanCount] |} |}.

(** [await this.session.run(feeds)]. *)
Definition callSession (rt : Runtime) (feeds : Feeds) : M Outputs :=
  _ ← emit (EngineCall "session");
  match session_run rt feeds with
  | Some results => mret results
  | None => throw CollaboratorFailure
  end.

Definition convertToEntities (spans : list RawSpan) : list Entity :=
  map (λ span, {| text := span_text span;
                  label := span_label span;
                  start := span_start span;
                  end_ := span_end span;
                  score := span_score span |}) spans.

(** [runInference]. [Math.max(...batch.textLengths)] is over a non-empty
    list on every path that reaches it from a public method. *)
Definition runInference `{FloatOps} (rt : Runtime) (texts : list jsstring)
    (entities : list jsstring) (threshold : Q) : M (list (list RawSpan)) :=
  batch ← prepareBatch (maxWidth rt) (tokenizer rt) texts entities;
  let feeds := buildTensors batch in
  results ← callSession rt feeds;
  match output ONNX_OUTPUT_LOGITS results with
  | None => throw (ConfigurationError "Model output missing logits")
  | Some logits =>
      let batchSize := length (batchTokens batch) in
      let inputLength := max_list (textLengths batch) in
      let batchIds := seq 0 batchSize in
      orTypeError
        (decode (maxWidth rt) batchSize inputLength (length entities) texts batchIds
           (batchWordsStartIdx batch) (batchWordsEndIdx batch) (idToClass batch)
           logits {| opt_threshold := Some threshold;
                     opt_flatNer := None; opt_multiLabel := None |})
  end.

(** [extractEntities(text, labels, options)]; [threshold] is
    [options.threshold]. *)
Definition extractEntities `{FloatOps} (rt : Runtime) (text : jsstring)
    (labels : list jsstring) (threshold : option Q) : M (list Entity) :=
  let threshold := default DEFAULT_THRESHOLD threshold in
  if length (trim text) =? 0 then throw (ValidationError "Text cannot be empty")
  else if length labels =? 0 then throw (ValidationError "Labels cannot be empty")
  else
    rawResult ← runInference rt [text] labels threshold;
    mret (convertToEntities (default [] (rawResult !! 0))).

(** [extractEntitiesBatch(texts, labels, options)]. *)
Definition extractEntitiesBatch `{FloatOps} (rt : Runtime) (texts : list jsstring)
    (labels : list jsstring) (threshold : option Q) : M (list (list Entity)) :=
  let threshold := default DEFAULT_THRESHOLD threshold in
  if length texts =? 0 then throw (ValidationError "Texts cannot be empty")
  else if length labels =? 0 then throw (ValidationError "Labels cannot be empty")
  else
    rawResult ← runInference rt texts labels threshold;
    mret (map (λ batchSpans, convertToEntities batchSpans) rawResult).

End GLiNER1Runtime.
(** ** The GLiNER2 runtime (gliner2/runtime.ts, utils.ts, constants.ts) *)

Module GLiNER2Runtime.
Import GLiNER2Lattice GLiNER2Decoder.

Definition DEFAULT_THRESHOLD : Q := 1 # 2.
Definition SCHEMA_OPEN : jsstring := utf16 "(".
Definition SCHEMA_CLOSE : jsstring := utf16 ")".
Definition NER_TASK_NAME : jsstring := utf16 "entities".
Definition CLASSIFICATION_TASK_NAME : jsstring := utf16 "category".

(** What [input_ids.tolist()] returns: a flat or a nested array of ids. *)
Inductive TolistResult :=
  | Flat (ids : list Z)
  | Nested (ids : list (list Z)).

(** utils.ts, [extractTokenIds]; [Array.isArray(tolistResult[0])] is false
    for an empty outer array, whose flattening is empty either way. *)
Definition extractTokenIds (tolistResult : TolistResult) : list Z :=
  match tolistResult with
  | Nested ids => concat ids
  | Flat ids => ids
  end.

Abbreviation Outputs := (list (string * list Q)).

(** config.ts: the fields of [GLiNER2Config] the runtime reads. *)
Record GLiNER2Config := {
  hiddenSize : nat;
  maxWidth : nat;
  token_P : Z;          (* specialTokens['[P]'] *)
  token_L : Z;          (* specialTokens['[L]'] *)
  token_E : Z;          (* specialTokens['[E]'] *)
  token_SEP_TEXT : Z    (* specialTokens['[SEP_TEXT]'] *)
}.

(** The fields of a [GLiNER2ONNXRuntime]: the configuration, the tokenizer
    (called with [add_special_tokens: false]) and the four sessions, external
    functions of their named inputs that may reject; and the built-in
    [String.prototype.toLowerCase]. What a session answers holds finite
    numbers; a [Float32Array] that the program fills and hands to a session
    can hold [NaN], and such a cell is [None]. *)
Record Runtime := {
  config : GLiNER2Config;
  tokenizer : jsstring → TolistResult;
  encoder_run : list Z → list Z → list nat → option Outputs;
  classifier_run : list (option Q) → list nat → option Outputs;
  spanRep_run :
    list (option Q) → list nat → list Z → list Z → list nat → option Outputs;
  countEmbed_run : list (option Q) → list nat → option Outputs;
  toLowerCase : jsstring → jsstring
}.

(** [extractTokenIds((await this.tokenizer(text, ...)).input_ids.tolist())]. *)
Definition callTokenizer (rt : Runtime) (text : jsstring) : M (list Z) :=
  _ ← emit (TokenizerCall text);
  mret (extractTokenIds (tokenizer rt text)).

Definition callEngine (session : string) (result : option Outputs) : M Outputs :=
  _ ← emit (EngineCall session);
  match result with
  | Some outputs => mret outputs
  | None => throw CollaboratorFailure
  end.

(** utils.ts, [getFirstOutput]. *)
Definition getFirstOutput (result : Outputs) : M (list Q) :=
  match result with
  | [] => throw (PlainError "ONNX result has no outputs")
  | (_, data) :: _ => mret data
  end.

(** utils.ts, [copyEmbeddings]. The result array starts zero-filled;
    [positions[i]] is defined for every [i] the loop visits. A read outside
    the source gives [undefined], which a [Float32Array] stores as [NaN]:
    the cell written is the lookup itself. *)
Definition copyEmbeddings (source : list Q) (positions : list nat) (hiddenSize : nat)
  : list (option Q) :=
  let count := length positions in
  forRange count (λ i result,
    let sourceOffset := default 0 (positions !! i) * hiddenSize in
    let destOffset := i * hiddenSize in
    forRange hiddenSize (λ j result,
      <[destOffset + j := source !! (sourceOffset + j)]> result) result)
    (replicate (count * hiddenSize) (Some 0%Q)).

(** utils.ts, [sliceHiddenStates]. *)
Definition sliceHiddenStates (source : list Q) (startIdx length_ hiddenSize : nat)
  : list (option Q) :=
  forRange length_ (λ i result,
    let sourceOffset := (startIdx + i) * hiddenSize in
    let destOffset := i * hiddenSize in
    forRange hiddenSize (λ j result,
      <[destOffset + j := source !! (sourceOffset + j)]> result) result)
    (replicate (length_ * hiddenSize) (Some 0%Q)).

(** decoder.ts, [computeDotProductScores]. A product with an [undefined]
    read is [NaN], and so is every sum and the sigmoid that follow: the
    accumulator is [None] from there on, and the cell stored is [NaN]. *)
Definition computeDotProductScores `{FloatOps} (spanRep labelRep : list Q)
    (spanCount labelCount hiddenSize : nat) : list (option Q) :=
  forRange spanCount (λ spanIdx scores,
    forRange labelCount (λ labelIdx scores,
      let dotProduct := forRangeM hiddenSize (λ hiddenIdx dotProduct,
        a ← spanRep !! (spanIdx * hiddenSize + hiddenIdx);
        b ← labelRep !! (labelIdx * hiddenSize + hiddenIdx);
        Some (fadd dotProduct (fmul a b))) 0%Q in
      <[spanIdx * labelCount + labelIdx :=
          (λ dotProduct, fround (sigmoid dotProduct)) <$> dotProduct]> scores)
      scores)
    (replicate (spanCount * labelCount) (Some 0%Q)).

Definition validateInput (text : jsstring) (labels : list jsstring) : M unit :=
  if length (trim text) =? 0 then throw (ValidationError "Text cannot be empty")
  else if length labels =? 0 then throw (ValidationError "Labels cannot be empty")
  else mret ().

(** [buildSchemaInput(taskName, labels, labelTokenKey)]; [labelTokenId] is
    [this.specialTokens[labelTokenKey]]. *)
Definition buildSchemaInput (rt : Runtime) (taskName : jsstring)
    (labels : list jsstring) (labelTokenId : Z) : M (list Z * list nat) :=
  let pId := token_P (config rt) in
  let sepTextId := token_SEP_TEXT (config rt) in
  openTokens ← callTokenizer rt SCHEMA_OPEN;
  let tokens := openTokens in
  let tokens := tokens ++ [pId] in
  taskTokens ← callTokenizer rt taskName;
  let tokens := tokens ++ taskTokens in
  let tokens := tokens ++ openTokens in
  '(tokens, labelPositions) ←
    forEachM labels (λ label '(tokens, labelPositions),
      let labelPositions := labelPositions ++ [length tokens] in
      let tokens := tokens ++ [labelTokenId] in
      labelEncoded ← callTokenizer rt label;
      mret (tokens ++ labelEncoded, labelPositions)) (tokens, []);
  closeTokens ← callTokenizer rt SCHEMA_CLOSE;
  let tokens := tokens ++ closeTokens ++ closeTokens in
  let tokens := tokens ++ [sepTextId] in
  mret (tokens, labelPositions).

(** The matches of a fresh [createWordPattern()] over [lowerText]. *)
Definition wordMatches (lowerText : jsstring) : M (list (jsstring * nat * nat)) :=
  match GLiNER2Splitter.splitWords lowerText with
  | Some words => mret words
  | None => throw Diverges
  end.

Definition tokenizeText (rt : Runtime) (text : jsstring) : M (list Z) :=
  let lowerText := toLowerCase rt text in
  words ← wordMatches lowerText;
  forEachM words (λ '(word, _, _) tokens,
    wordEncoded ← callTokenizer rt word;
    mret (tokens ++ wordEncoded)) [].

(** [tokenizeWords]: the state is
    [(tokens, wordOffsets, firstTokenPositions, tokenIdx)]. *)
Definition tokenizeWords (rt : Runtime) (text : jsstring)
  : M (list Z * list (nat * nat) * list nat) :=
  let lowerText := toLowerCase rt text in
  words ← wordMatches lowerText;
  '(tokens, wordOffsets, firstTokenPositions, _) ←
    forEachM words (λ '(word, index, _) '(tokens, wordOffsets, firstTokenPositions, tokenIdx),
      let wordOffsets := wordOffsets ++ [(index, index + length word)] in
      let firstTokenPositions := firstTokenPositions ++ [tokenIdx] in
      wordTokens ← callTokenizer rt word;
      mret (tokens ++ wordTokens, wordOffsets, firstTokenPositions,
            tokenIdx + length wordTokens)) ([], [], [], 0);
  mret (tokens, wordOffsets, firstTokenPositions).

Definition encode (rt : Runtime) (tokens : list Z) : M (list Q) :=
  let inputIds := tokens in
  let attentionMask := replicate (length tokens) 1%Z in
  let seqLen := length tokens in
  result ← callEngine "encoder" (encoder_run rt inputIds attentionMask [1; seqLen]);
  getFirstOutput result.

Definition runClassifier (rt : Runtime) (labelEmbeddings : list (option Q))
    (labelCount : nat)
  : M (list Q) :=
  result ← callEngine "classifier"
             (classifier_run rt labelEmbeddings [labelCount; hiddenSize (config rt)]);
  getFirstOutput result.

Definition getSpanRepresentations (rt : Runtime) (hiddenStates : list (option Q))
    (seqLen : nat)
    (spanStart spanEnd : list nat) (spanCount : nat) : M (list Q) :=
  result ← callEngine "span_rep"
             (spanRep_run rt hiddenStates [1; seqLen; hiddenSize (config rt)]
                (map Z.of_nat spanStart) (map Z.of_nat spanEnd) [1; spanCount]);
  getFirstOutput result.

Definition transformLabelEmbeddings (rt : Runtime) (labelEmbeddings : list (option Q))
    (labelCount : nat) : M (list Q) :=
  result ← callEngine "count_embed"
             (countEmbed_run rt labelEmbeddings [labelCount; hiddenSize (config rt)]);
  getFirstOutput result.

Definition computeNerScores `{FloatOps} (rt : Runtime) (textHidden : list (option Q))
    (textTokenCount wordCount : nat) (firstTokenPositions : list nat)
    (labelEmbeddings : list (option Q)) (labelCount : nat) : M NerScoreData :=
  let spans := generateSpans wordCount (maxWidth (config rt)) in
  let wordSpanStart := spanStart spans in
  let wordSpanEnd := spanEnd spans in
  let spanCount := numSpans spans in
  let tokenSpanStart :=
    map (λ wordIdx, default 0 (firstTokenPositions !! wordIdx)) wordSpanStart in
  let tokenSpanEnd :=
    map (λ wordIdx, default 0 (firstTokenPositions !! wordIdx)) wordSpanEnd in
  spanRepresentations ←
    getSpanRepresentations rt textHidden textTokenCount tokenSpanStart tokenSpanEnd
      spanCount;
  transformedLabels ← transformLabelEmbeddings rt labelEmbeddings labelCount;
  let scores :=
    computeDotProductScores spanRepresentations transformedLabels
      spanCount labelCount (hiddenSize (config rt)) in
  mret {| scores := scores; wordSpanStart := wordSpanStart;
          wordSpanEnd := wordSpanEnd; spanCount := spanCount |}.

(** [classify(text, labels, options)]. *)
Definition classify `{FloatOps} (rt : Runtime) (text : jsstring)
    (labels : list jsstring) (threshold : option Q) (multiLabel : option bool)
  : M ClassificationResult :=
  let threshold := default DEFAULT_THRESHOLD threshold in
  let multiLabel := default false multiLabel in
  _ ← validateInput text labels;
  '(tokens, labelPositions) ←
    buildSchemaInput rt CLASSIFICATION_TASK_NAME labels (token_L (config rt));
  textTokens ← tokenizeText rt text;
  let allTokens := tokens ++ textTokens in
  hiddenStates ← encode rt allTokens;
  let labelEmbeddings :=
    copyEmbeddings hiddenStates labelPositions (hiddenSize (config rt)) in
  logits ← runClassifier rt labelEmbeddings (length labels);
  mret (if multiLabel then decodeMultiLabel logits labels threshold
        else decodeSingleLabel logits labels).

(** [extractEntities(text, labels, options)]. *)
Definition extractEntities `{FloatOps} (rt : Runtime) (text : jsstring)
    (labels : list jsstring) (threshold : option Q) : M (list Entity) :=
  let threshold := default DEFAULT_THRESHOLD threshold in
  _ ← validateInput text labels;
  '(schemaTokens, labelPositions) ←
    buildSchemaInput rt NER_TASK_NAME labels (token_E (config rt));
  let textStartIdx := length schemaTokens in
  '(textTokens, wordOffsets, firstTokenPositions) ← tokenizeWords rt text;
  let allTokens := schemaTokens ++ textTokens in
  hiddenStates ← encode rt allTokens;
  let labelEmbeddings :=
    copyEmbeddings hiddenStates labelPositions (hiddenSize (config rt)) in
  let textTokenCount := length allTokens - textStartIdx in
  let wordCount := length wordOffsets in
  if (textTokenCount =? 0) || (wordCount =? 0) then mret []
  else
    let textHidden :=
      sliceHiddenStates hiddenStates textStartIdx textTokenCount
        (hiddenSize (config rt)) in
    scores ← computeNerScores rt textHidden textTokenCount wordCount
               firstTokenPositions labelEmbeddings (length labels);
    orTypeError (decodeEntities scores wordCount labels wordOffsets text threshold).

End GLiNER2Runtime.
(** ** Loading the configuration (gliner2/config.ts, constants.ts) *)

Module GLiNER2Configuration.

Definition CONFIG_FILE : string := "config.json".
Definition GLINER2_CONFIG_FILE : string := "gliner2_config.json".
Definition TOKEN_P : string := "[P]".
Definition TOKEN_L : string := "[L]".
Definition TOKEN_E : string := "[E]".
Definition TOKEN_SEP_TEXT : string := "[SEP_TEXT]".
Definition REQUIRED_SPECIAL_TOKENS : list string :=
  [TOKEN_P; TOKEN_L; TOKEN_E; TOKEN_SEP_TEXT].

(** [type Precision = 'fp32' | 'fp16'] and [keyof OnnxModelFiles], with the
    strings they are. *)
Inductive Precision := fp32 | fp16.

Definition precisionKey (precision : Precision) : string :=
  match precision with fp32 => "fp32" | fp16 => "fp16" end.

Inductive ModelName := encoder | classifier | span_rep | count_embed.

Definition modelKey (model : ModelName) : string :=
  match model with
  | encoder => "encoder"
  | classifier => "classifier"
  | span_rep => "span_rep"
  | count_embed => "count_embed"
  end.

(** A number as [JSON.parse] can return it: a finite one, or an infinity
    (for a literal such as [1e999]). *)
Inductive number :=
  | Finite (q : Q)
  | Infinity (negative : bool).

(** A value as [JSON.parse] returns it. The members of an object are listed
    in the order of the text; of two members with the same key the later one
    is the one the object has. *)
#[local] Unset Elimination Schemes.
Inductive json :=
  | JNull
  | JBool (b : bool)
  | JNumber (n : number)
  | JString (s : string)
  | JArray (items : list json)
  | JObject (members : list (string * json)).
#[local] Set Elimination Schemes.

(** What a call can throw: a [ConfigurationError], or another [Error]
    (of [fs], a [SyntaxError] of [JSON.parse], a [TypeError]), each with its
    message. *)
Inductive thrown :=
  | ConfigurationError (message : string)
  | OtherError (message : string).

(** The host functions the loader calls: [fs.existsSync], [fs.readFileSync]
    with the encoding ['utf-8'] (the content, or the message of the error it
    throws), [JSON.parse] (the value, or the message of its [SyntaxError]),
    [path.join] on two strings, [Object.keys], and the messages of the
    [TypeError]s that reading a property of [null] and joining a path with
    something that is not a string throw. *)
Record Host := {
  existsSync : string → bool;
  readFileSync : string → string + string;
  JSON_parse : string → string + json;
  path_join : string → string → string;
  Object_keys : json → list string;
  nullReadMessage : string → string;
  pathArgumentMessage : option json → string
}.

(** [value[key]] for one of the keys that are read (['hidden_size'],
    ['max_width'], ['special_tokens'], ['onnx_files'], the name of a special
    token, of a precision or of a model): [None] is [undefined]. None of
    these keys is an array index, ['length'] or the name of an inherited
    property, so only an object can have one, and reading it from [null]
    throws. *)
Definition getMember (host : Host) (value : json) (key : string)
  : thrown + option json :=
  match value with
  | JNull => inl (OtherError (nullReadMessage host key))
  | JObject members => inr (snd <$> last (filter (λ m, m.1 = key) members))
  | _ => inr None
  end.

(** [typeof value === 'number'] and
    [typeof value === 'object' && value !== null], for a value that may be
    [undefined]. *)
Definition isNumber (value : option json) : bool :=
  match value with Some (JNumber _) => true | _ => false end.

Definition isObject (value : option json) : bool :=
  match value with Some (JArray _) | Some (JObject _) => true | _ => false end.

(** [key in value] for a non-null object [value] and one of the required
    token names, none of which an array or a prototype has. *)
Definition hasMember (value : json) (key : string) : bool :=
  match value with
  | JObject members => bool_decide (key ∈ members.*1)
  | _ => false
  end.

(** [!value]: [undefined], [null], [false], [0] and the empty string are
    falsy. *)
Definition falsy (value : option json) : bool :=
  match value with
  | None | Some JNull | Some (JBool false) | Some (JString EmptyString) => true
  | Some (JNumber (Finite q)) => Qeq_bool q 0
  | _ => false
  end.

(** [try { body } catch (e) { if (e instanceof ConfigurationError) throw e;
    throw new ConfigurationError(`Invalid ${file}: ${e.message}`) }]. *)
Definition rethrowInvalid {A : Type} (file : string) (body : thrown + A) : thrown + A :=
  match body with
  | inl (OtherError message) =>
      inl (ConfigurationError ("Invalid " +:+ file +:+ ": " +:+ message))
  | _ => body
  end.

(** [interface TransformerConfig]. *)
Record TransformerConfig := { hidden_size : number }.

(** [interface GLiNER2ConfigFile]; the two objects are kept as parsed. *)
Record GLiNER2ConfigFile := {
  max_width : number;
  special_tokens : json;
  onnx_files : json
}.

Definition loadTransformerConfig (host : Host) (modelPath : string)
  : thrown + TransformerConfig :=
  let configPath := path_join host modelPath CONFIG_FILE in
  if negb (existsSync host configPath) then
    inl (ConfigurationError (CONFIG_FILE +:+ " not found in " +:+ modelPath))
  else
    rethrowInvalid CONFIG_FILE
      (match readFileSync host configPath with
       | inl message => inl (OtherError message)
       | inr content =>
           match JSON_parse host content with
           | inl message => inl (OtherError message)
           | inr config =>
               match getMember host config "hidden_size" with
               | inl e => inl e
               | inr hiddenSize =>
                   match hiddenSize with
                   | Some (JNumber n) => inr {| hidden_size := n |}
                   | _ => inl (ConfigurationError (CONFIG_FILE +:+ " missing hidden_size"))
                   end
               end
           end
       end).

Definition loadGliner2Config (host : Host) (modelPath : string)
  : thrown + GLiNER2ConfigFile :=
  let configPath := path_join host modelPath GLINER2_CONFIG_FILE in
  if negb (existsSync host configPath) then
    inl (ConfigurationError (GLINER2_CONFIG_FILE +:+ " not found in " +:+ modelPath))
  else
    rethrowInvalid GLINER2_CONFIG_FILE
      (match readFileSync host configPath with
       | inl message => inl (OtherError message)
       | inr content =>
           match JSON_parse host content with
           | inl message => inl (OtherError message)
           | inr config =>
               match getMember host config "max_width" with
               | inl e => inl e
               | inr maxWidth =>
                   match maxWidth with
                   | Some (JNumber n) =>
                       match getMember host config "special_tokens" with
                       | inl e => inl e
                       | inr (Some specialTokens) =>
                           if negb (isObject (Some specialTokens)) then
                             inl (ConfigurationError
                                    (GLINER2_CONFIG_FILE +:+ " missing special_tokens"))
                           else
                             let missingTokens :=
                               List.filter (λ token, negb (hasMember specialTokens token))
                                 REQUIRED_SPECIAL_TOKENS in
                             if 0 <? length missingTokens then
                               inl (ConfigurationError
                                      (GLINER2_CONFIG_FILE +:+ " missing special tokens: "
                                       +:+ String.concat ", " missingTokens))
                             else
                               match getMember host config "onnx_files" with
                               | inl e => inl e
                               | inr (Some onnxFiles) =>
                                   if negb (isObject (Some onnxFiles)) then
                                     inl (ConfigurationError
                                            (GLINER2_CONFIG_FILE +:+ " missing onnx_files"))
                                   else
                                     inr {| max_width := n;
                                            special_tokens := specialTokens;
                                            onnx_files := onnxFiles |}
                               | inr None =>
                                   inl (ConfigurationError
                                          (GLINER2_CONFIG_FILE +:+ " missing onnx_files"))
                               end
                       | inr None =>
                           inl (ConfigurationError
                                  (GLINER2_CONFIG_FILE +:+ " missing special_tokens"))
                       end
                   | _ => inl (ConfigurationError (GLINER2_CONFIG_FILE +:+ " missing max_width"))
                   end
               end
           end
       end).

(** [class GLiNER2Config]: the fields its constructor sets. *)
Record GLiNER2Config := {
  modelPath : string;
  hiddenSize : number;
  maxWidth : number;
  specialTokens : json;
  onnxFiles : json
}.

(** [GLiNER2Config.load(modelPath, options)]; [maxWidthOption] is
    [options.maxWidth]. *)
Definition load (host : Host) (modelPath : string) (maxWidthOption : option number)
  : thrown + GLiNER2Config :=
  match loadTransformerConfig host modelPath with
  | inl e => inl e
  | inr transformerConfig =>
      match loadGliner2Config host modelPath with
      | inl e => inl e
      | inr gliner2Config =>
          inr {| modelPath := modelPath;
                 hiddenSize := hidden_size transformerConfig;
                 maxWidth := default (max_width gliner2Config) maxWidthOption;
                 specialTokens := special_tokens gliner2Config;
                 onnxFiles := onnx_files gliner2Config |}
      end
  end.

(** [getOnnxFiles(precision)]: the value stored for the precision, whatever
    it is, if it is truthy. *)
Definition getOnnxFiles (host : Host) (config : GLiNER2Config) (precision : Precision)
  : thrown + json :=
  let available := Object_keys host (onnxFiles config) in
  if length available =? 0 then
    inl (ConfigurationError ("No onnx_files found in " +:+ GLINER2_CONFIG_FILE))
  else
    match getMember host (onnxFiles config) (precisionKey precision) with
    | inl e => inl e
    | inr files =>
        match files with
        | Some files' =>
            if falsy files then
              inl (ConfigurationError
                     ("Precision '" +:+ precisionKey precision
                      +:+ "' not available. Available: " +:+ String.concat ", " available))
            else inr files'
        | None =>
            inl (ConfigurationError
                   ("Precision '" +:+ precisionKey precision
                    +:+ "' not available. Available: " +:+ String.concat ", " available))
        end
    end.

(** [getOnnxPath(precision, model)]: [path.join] throws a [TypeError] for an
    argument that is not a string. *)
Definition getOnnxPath (host : Host) (config : GLiNER2Config) (precision : Precision)
    (model : ModelName) : thrown + string :=
  match getOnnxFiles host config precision with
  | inl e => inl e
  | inr files =>
      match getMember host files (modelKey model) with
      | inl e => inl e
      | inr (Some (JString file)) => inr (path_join host (modelPath config) file)
      | inr other => inl (OtherError (pathArgumentMessage host other))
      end
  end.

End GLiNER2Configuration.

(** Two hosts for running examples. In [craftedHost] every file exists and
    holds its own path, and parsing a path gives the configuration of a small
    model; in [nullHost] every file exists and parses to [null]. *)
Definition craftedHost : GLiNER2Configuration.Host :=
  {| GLiNER2Configuration.existsSync := λ _, true;
     GLiNER2Configuration.readFileSync := λ path, inr path;
     GLiNER2Configuration.JSON_parse := λ content,
       if String.eqb content "model/config.json" then
         inr (GLiNER2Configuration.JObject
                [("hidden_size"%string,
                  GLiNER2Configuration.JNumber (GLiNER2Configuration.Finite 768))])
       else
         inr (GLiNER2Configuration.JObject
                [("max_width"%string,
                  GLiNER2Configuration.JNumber (GLiNER2Configuration.Finite 8));
                 ("special_tokens"%string,
                  GLiNER2Configuration.JObject
                    [("[P]"%string,
                      GLiNER2Configuration.JNumber (GLiNER2Configuration.Finite 3));
                     ("[L]"%string,
                      GLiNER2Configuration.JNumber (GLiNER2Configuration.Finite 4));
                     ("[E]"%string,
                      GLiNER2Configuration.JNumber (GLiNER2Configuration.Finite 5));
                     ("[SEP_TEXT]"%string,
                      GLiNER2Configuration.JNumber (GLiNER2Configuration.Finite 6))]);
                 ("onnx_files"%string,
                  GLiNER2Configuration.JObject
                    [("fp32"%string,
                      GLiNER2Configuration.JObject
                        [("encoder"%string,
                          GLiNER2Configuration.JString "encoder.onnx")])])]);
     GLiNER2Configuration.path_join := λ a b, a +:+ "/" +:+ b;
     GLiNER2Configuration.Object_keys := λ value,
       match value with
       | GLiNER2Configuration.JObject members => members.*1
       | _ => []
       end;
     GLiNER2Configuration.nullReadMessage := λ key,
       "Cannot read properties of null (reading '" +:+ key +:+ "')";
     GLiNER2Configuration.pathArgumentMessage := λ _,
       "The path argument must be of type string" |}.

Definition nullHost : GLiNER2Configuration.Host :=
  {| GLiNER2Configuration.existsSync := λ _, true;
     GLiNER2Configuration.readFileSync := λ path, inr path;
     GLiNER2Configuration.JSON_parse := λ _, inr GLiNER2Configuration.JNull;
     GLiNER2Configuration.path_join := λ a b, a +:+ "/" +:+ b;
     GLiNER2Configuration.Object_keys := λ _, [];
     GLiNER2Configuration.nullReadMessage := λ key,
       "Cannot read properties of null (reading '" +:+ key +:+ "')";
     GLiNER2Configuration.pathArgumentMessage := λ _,
       "The path argument must be of type string" |}.
(** ** Vocabulary of the statements *)

(** No two entries at different positions of [l] conflict. *)
Inductive NoConflict {A : Type} (conflicts : A → A → bool) : list A → Prop :=
  | NoConflict_nil : NoConflict conflicts []
  | NoConflict_cons x l :
      Forall (λ y, conflicts x y = false ∧ conflicts y x = false) l →
      NoConflict conflicts l →
      NoConflict conflicts (x :: l).

(** [y] stands at an earlier position of [l] than (an occurrence of) [x]. *)
Definition Before {A : Type} (l : list A) (y x : A) : Prop :=
  ∃ l1 l2, l = l1 ++ x :: l2 ∧ y ∈ l1.

(** The first of [rules], in order, that matches a prefix of [s], with the
    remainder its first match leaves. *)
Fixpoint firstRule (rules : list regex) (s : list N) : option (list N) :=
  match rules with
  | [] => None
  | r :: rules' =>
      match matches r s with
      | rest :: _ => Some rest
      | [] => firstRule rules' s
      end
  end.

(** What the element at flat index [idx] of the score array contributes,
    following the specification of the span decoder: the example it belongs
    to and the candidate, if it yields one. *)
Definition candidateAt `{FloatOps} (maxWidth inputLength entityCount : nat)
    (texts : list jsstring) (batchIds : list nat)
    (charStartOffsets charEndOffsets : list (list nat))
    (idToClass : gmap nat jsstring) (modelOutput : list Q) (threshold : Q)
    (idx : nat) : option (nat * GLiNER1Decoder.RawSpan) :=
  raw ← modelOutput !! idx;
  let batchIndex := idx / (inputLength * maxWidth * entityCount) in
  let startToken := (idx / (maxWidth * entityCount)) mod inputLength in
  let endToken := startToken + (idx / entityCount) mod maxWidth in
  let labelIndex := idx mod entityCount in
  if (0 <? inputLength * maxWidth * entityCount)
     && Qle_bool threshold (sigmoid raw) then
    starts ← charStartOffsets !! batchIndex;
    ends ← charEndOffsets !! batchIndex;
    startChar ← starts !! startToken;
    endChar ← ends !! endToken;
    let text := default [] (texts !! default 0 (batchIds !! batchIndex)) in
    Some (batchIndex,
          {| GLiNER1Decoder.span_text := slice text startChar endChar;
             GLiNER1Decoder.span_start := startChar;
             GLiNER1Decoder.span_end := endChar;
             GLiNER1Decoder.span_label := default [] (idToClass !! (labelIndex + 1));
             GLiNER1Decoder.span_score := sigmoid raw |})
  else None.

(** A sufficient syntactic condition for a pattern never to match the empty
    string. *)
Fixpoint consumes (r : regex) : bool :=
  match r with
  | Class _ => true
  | Eps => false
  | Seq r1 r2 => consumes r1 || consumes r2
  | Alt r1 r2 => consumes r1 && consumes r2
  | Star _ => false
  end.

(** [tokens] is the tokenization of [text] from position [pos] on under the
    rule list [rules]: at each step the leftmost position where some rule
    applies is taken, the token there is the first match of the first rule
    that applies, and scanning resumes at the token's end. *)
Inductive Tokenized (rules : list regex) (text : list N)
  : nat → list (list N * nat * nat) → Prop :=
  | Tokenized_end pos :
      pos ≤ length text →
      (∀ p, pos ≤ p ≤ length text → firstRule rules (drop p text) = None) →
      Tokenized rules text pos []
  | Tokenized_token pos index e tokens :
      pos ≤ index ∧ index < e ∧ e ≤ length text →
      (∀ p, pos ≤ p < index → firstRule rules (drop p text) = None) →
      firstRule rules (drop index text) = Some (drop e text) →
      Tokenized rules text e tokens →
      Tokenized rules text pos ((slice text index e, index, e) :: tokens).

(** [m] always ends with a result, and the result satisfies [P]. *)
Definition returns {A : Type} (m : M A) (P : A → Prop) : Prop :=
  ∀ w, ∃ a w', m w = (inr a, w') ∧ P a.

(** [m] never ends with a [ValidationError]. *)
Definition noValidationError {A : Type} (m : M A) : Prop :=
  ∀ w e w', m w = (inl e, w') → ∀ message, e ≠ ValidationError message.

(** The sub-token ids a word contributes to the input sequence:
    [tokenizer.encode(word).slice(1, -1)]. *)
Definition subTokens (tokenizer : GLiNER1Processor.GLiNER1Tokenizer)
    (word : jsstring) : list Z :=
  let encoded := GLiNER1Processor.encode tokenizer word in
  slice encoded 1 (length encoded - 1).

(** The prompt that precedes the words of every example. *)
Definition promptOf (entities : list jsstring) : list jsstring :=
  flat_map (λ entity, [GLiNER1Processor.ENTITY_MARKER; entity]) entities
  ++ [GLiNER1Processor.SEPARATOR_MARKER].

(** The word triples of a text, as GLiNER1's splitter yields them. *)
Definition wordsOf (text : jsstring) : list (jsstring * nat * nat) :=
  default [] (GLiNER1Splitter.split 0 text).1.

(** The unpadded row of token ids of an input sequence (prompt, then words):
    the start token, the sub-tokens of every word, the separator id. *)
Definition inputRow (tokenizer : GLiNER1Processor.GLiNER1Tokenizer)
    (inputText : list jsstring) : list Z :=
  [GLiNER1Processor.CLS_TOKEN_ID] ++ flat_map (subTokens tokenizer) inputText
  ++ [GLiNER1Processor.sep_token_id tokenizer].

(** ** Stand-ins for the collaborators, for running examples *)

(** A call-counting stub in place of the tokenizer: every word is encoded as
    the two special tokens alone, so that it contributes no sub-token. *)
Definition stubTokenizer : GLiNER1Processor.GLiNER1Tokenizer :=
  {| GLiNER1Processor.encode := λ _, [1%Z; 2%Z];
     GLiNER1Processor.sep_token_id := 2%Z |}.

(** A tokenizer that encodes every word as one sub-token between the two
    special tokens. *)
Definition unitTokenizer : GLiNER1Processor.GLiNER1Tokenizer :=
  {| GLiNER1Processor.encode := λ _, [1%Z; 7%Z; 2%Z];
     GLiNER1Processor.sep_token_id := 2%Z |}.

(** The world before any call. *)
Definition world0 : World := {| calls := []; patternLastIndex := 0 |}.

(** GLiNER1 and GLiNER2 runtimes whose tokenizer is a stub and whose
    sessions reject every request. *)
Definition stubRuntime1 : GLiNER1Runtime.Runtime :=
  {| GLiNER1Runtime.maxWidth := 12;
     GLiNER1Runtime.tokenizer := stubTokenizer;
     GLiNER1Runtime.session_run := λ _, None |}.

Definition stubRuntime2 : GLiNER2Runtime.Runtime :=
  {| GLiNER2Runtime.config :=
       {| GLiNER2Runtime.hiddenSize := 1; GLiNER2Runtime.maxWidth := 8;
          GLiNER2Runtime.token_P := 3; GLiNER2Runtime.token_L := 4;
          GLiNER2Runtime.token_E := 5; GLiNER2Runtime.token_SEP_TEXT := 6 |};
     GLiNER2Runtime.tokenizer := λ _, GLiNER2Runtime.Flat [];
     GLiNER2Runtime.encoder_run := λ _ _ _, None;
     GLiNER2Runtime.classifier_run := λ _ _, None;
     GLiNER2Runtime.spanRep_run := λ _ _ _ _ _, None;
     GLiNER2Runtime.countEmbed_run := λ _ _, None;
     GLiNER2Runtime.toLowerCase := λ s, s |}.

(** A GLiNER1 runtime whose session answers every request with an empty
    [logits] output. *)
Definition quietRuntime1 : GLiNER1Runtime.Runtime :=
  {| GLiNER1Runtime.maxWidth := 12;
     GLiNER1Runtime.tokenizer := unitTokenizer;
     GLiNER1Runtime.session_run := λ _, Some [("logits"%string, [])] |}.

(** A GLiNER1 runtime whose session answers with a crafted score tensor for
    one text of six words, width 12 and three labels: raw score 3 at the
    one-word spans of words 0, 3 and 5 for labels 0, 1 and 2 respectively,
    and -3 everywhere else. *)
Definition craftedRuntime1 : GLiNER1Runtime.Runtime :=
  {| GLiNER1Runtime.maxWidth := 12;
     GLiNER1Runtime.tokenizer := unitTokenizer;
     GLiNER1Runtime.session_run := λ _,
       Some [("logits"%string,
              map (λ idx, if (idx =? 0) || (idx =? 109) || (idx =? 182)
                          then 3%Q else (-3)%Q) (seq 0 216))] |}.
(** ** Vocabulary of the further properties *)

(** A pattern whose character classes hold no whitespace code unit. *)
Fixpoint spaceFree (r : regex) : Prop :=
  match r with
  | Class p => ∀ c, p c = true → isSpace c = false
  | Eps => True
  | Seq r1 r2 => spaceFree r1 ∧ spaceFree r2
  | Alt r1 r2 => spaceFree r1 ∧ spaceFree r2
  | Star r' => spaceFree r'
  end.

(** [m] always ends with the result [a], having made exactly the collaborator
    calls [evs], in that order. *)
Definition evaluates {A : Type} (m : M A) (a : A) (evs : list event) : Prop :=
  ∀ w, ∃ w', m w = (inr a, w') ∧ calls w' = calls w ++ evs.

(** The word counter of [encodeInputs] after the words [words], the first of
    which has index [wordIdx]: it advances at every word past the prompt
    that has a sub-token. *)
Fixpoint wordCounterFrom (tokenizer : GLiNER1Processor.GLiNER1Tokenizer)
    (promptLength wordIdx : nat) (wordCounter : Z) (words : list jsstring) : Z :=
  match words with
  | [] => wordCounter
  | word :: words' =>
      wordCounterFrom tokenizer promptLength (S wordIdx)
        (if (wordIdx <? promptLength) || (length (subTokens tokenizer word) =? 0)
         then wordCounter else (wordCounter + 1)%Z)
        words'
  end.

(** The words-mask cells of the words [words]: 0 at every sub-token of a
    prompt word; past the prompt, the running word counter at the first
    sub-token of a word and 0 at its other sub-tokens. *)
Fixpoint wordsMaskFrom (tokenizer : GLiNER1Processor.GLiNER1Tokenizer)
    (promptLength wordIdx : nat) (wordCounter : Z) (words : list jsstring) : list Z :=
  match words with
  | [] => []
  | word :: words' =>
      (if wordIdx <? promptLength
       then replicate (length (subTokens tokenizer word)) 0%Z
       else match subTokens tokenizer word with
            | [] => []
            | _ :: rest => wordCounter :: replicate (length rest) 0%Z
            end)
      ++ wordsMaskFrom tokenizer promptLength (S wordIdx)
           (wordCounterFrom tokenizer promptLength wordIdx wordCounter [word]) words'
  end.

(** The unpadded words-mask row of an input sequence: 0 for the start token,
    the cells of the words, 0 for the separator. *)
Definition wordsMaskRow (tokenizer : GLiNER1Processor.GLiNER1Tokenizer)
    (promptLength : nat) (inputText : list jsstring) : list Z :=
  [0%Z] ++ wordsMaskFrom tokenizer promptLength 0 1 inputText ++ [0%Z].

(** The word tokens of every text of a batch. *)
Definition wordTokens (texts : list jsstring) : list (list jsstring) :=
  map (λ text, map (λ t, t.1.1) (wordsOf text)) texts.

(** The batch [prepareBatch] assembles, as a function of its arguments. *)
Definition batchOf (maxWidth : nat) (tokenizer : GLiNER1Processor.GLiNER1Tokenizer)
    (texts entities : list jsstring) : GLiNER1Processor.ProcessorBatch :=
  let prompt := promptOf entities in
  {| GLiNER1Processor.inputsIds :=
       GLiNER1Processor.padArrays 0%Z
         (map (λ tokens, inputRow tokenizer (prompt ++ tokens)) (wordTokens texts));
     GLiNER1Processor.attentionMasks :=
       GLiNER1Processor.padArrays 0%Z
         (map (λ tokens, replicate (length (inputRow tokenizer (prompt ++ tokens))) 1%Z)
            (wordTokens texts));
     GLiNER1Processor.wordsMasks :=
       GLiNER1Processor.padArrays 0%Z
         (map (λ tokens, wordsMaskRow tokenizer (length prompt) (prompt ++ tokens))
            (wordTokens texts));
     GLiNER1Processor.textLengths := map length (wordTokens texts);
     GLiNER1Processor.spanIdxs :=
       GLiNER1Processor.padSpanArrays
         (map (λ tokens, (GLiNER1Lattice.buildSpansRow maxWidth (length tokens)).1)
            (wordTokens texts));
     GLiNER1Processor.spanMasks :=
       GLiNER1Processor.padArrays (GLiNER1Processor.MaskNum 0)
         (map (λ tokens,
                 map GLiNER1Processor.MaskBool
                   (GLiNER1Lattice.buildSpansRow maxWidth (length tokens)).2)
            (wordTokens texts));
     GLiNER1Processor.idToClass := GLiNER1Processor.buildIdToClass entities;
     GLiNER1Processor.batchTokens := wordTokens texts;
     GLiNER1Processor.batchWordsStartIdx :=
       map (λ text, map (λ t, t.1.2) (wordsOf text)) texts;
     GLiNER1Processor.batchWordsEndIdx :=
       map (λ text, map (λ t, t.2) (wordsOf text)) texts |}.

(** The tokenizer calls of [prepareBatch]: for every text, one call per
    prompt word and one per word of the text. *)
Definition tokenizerCalls (texts entities : list jsstring) : list event :=
  flat_map (λ tokens, map TokenizerCall (promptOf entities ++ tokens))
           (wordTokens texts).

(** The outcome of [runInference], as a function of its arguments and of
    what the session answers. *)
Definition inferenceOf `{FloatOps} (rt : GLiNER1Runtime.Runtime)
    (texts entities : list jsstring) (threshold : Q)
  : error + list (list GLiNER1Decoder.RawSpan) :=
  let batch := batchOf (GLiNER1Runtime.maxWidth rt) (GLiNER1Runtime.tokenizer rt)
                 texts entities in
  match GLiNER1Runtime.session_run rt (GLiNER1Runtime.buildTensors batch) with
  | None => inl CollaboratorFailure
  | Some results =>
      match GLiNER1Runtime.output GLiNER1Runtime.ONNX_OUTPUT_LOGITS results with
      | None => inl (ConfigurationError "Model output missing logits")
      | Some logits =>
          match GLiNER1Decoder.decode (GLiNER1Runtime.maxWidth rt) (length texts)
                  (max_list (map length (wordTokens texts))) (length entities) texts
                  (seq 0 (length texts))
                  (map (λ text, map (λ t, t.1.2) (wordsOf text)) texts)
                  (map (λ text, map (λ t, t.2) (wordsOf text)) texts)
                  (GLiNER1Processor.buildIdToClass entities) logits
                  {| GLiNER1Decoder.opt_threshold := Some threshold;
                     GLiNER1Decoder.opt_flatNer := None;
                     GLiNER1Decoder.opt_multiLabel := None |} with
          | Some raw => inr raw
          | None => inl TypeError
          end
      end
  end.

(** What GLiNER1 returns for one text [input]: every entity starts at the
    start of a word and ends at the end of the same or a later word, fewer
    than [maxWidth] words further; its text is the slice of the input
    between its offsets; its label is one of the requested labels and its
    score is at least the threshold; the entities are in ascending order of
    start offset, and no two of them overlap or touch. *)
Definition entitiesWellFormed (maxWidth : nat) (input : jsstring)
    (labels : list jsstring) (threshold : Q) (entities : list Entity) : Prop :=
  Forall (λ e,
      (∃ first last, first ≤ last ∧ last < first + maxWidth
         ∧ (λ t, t.1.2) <$> wordsOf input !! first = Some (start e)
         ∧ (λ t, t.2) <$> wordsOf input !! last = Some (end_ e))
      ∧ start e < end_ e ∧ end_ e ≤ length input
      ∧ text e = slice input (start e) (end_ e)
      ∧ label e ∈ labels
      ∧ (threshold <= score e)%Q) entities
  ∧ StronglySorted (λ a b, start a ≤ start b) entities
  ∧ ∀ i j a b, i ≠ j → entities !! i = Some a → entities !! j = Some b →
      end_ a < start b ∨ end_ b < start a.

(** The number of elements a tensor holds, and the number its [dims]
    announce. *)
Definition tensorSize (t : GLiNER1Runtime.Tensor) : nat :=
  match GLiNER1Runtime.tensor_data t with
  | GLiNER1Runtime.Int64Data data => length data
  | GLiNER1Runtime.BoolData data => length data
  end.

Definition dimsProduct (t : GLiNER1Runtime.Tensor) : nat :=
  foldr Nat.mul 1 (GLiNER1Runtime.tensor_dims t).

(** The ids the GLiNER2 tokenizer yields for a string:
    [extractTokenIds((await tokenizer(s, ...)).input_ids.tolist())]. *)
Definition idsOf (rt : GLiNER2Runtime.Runtime) (s : jsstring) : list Z :=
  GLiNER2Runtime.extractTokenIds (GLiNER2Runtime.tokenizer rt s).

(** The part of the schema prefix that precedes the labels:
    [( [P] task (]. *)
Definition schemaHead (rt : GLiNER2Runtime.Runtime) (taskName : jsstring) : list Z :=
  idsOf rt GLiNER2Runtime.SCHEMA_OPEN
  ++ [GLiNER2Runtime.token_P (GLiNER2Runtime.config rt)]
  ++ idsOf rt taskName ++ idsOf rt GLiNER2Runtime.SCHEMA_OPEN.

(** The label part: each label is its marker token followed by its ids. *)
Definition schemaLabels (rt : GLiNER2Runtime.Runtime) (labelTokenId : Z)
    (labels : list jsstring) : list Z :=
  flat_map (λ label, labelTokenId :: idsOf rt label) labels.

(** The schema prefix: [( [P] task ( [L] label ... ) ) [SEP_TEXT]]. *)
Definition schemaTokens (rt : GLiNER2Runtime.Runtime) (taskName : jsstring)
    (labels : list jsstring) (labelTokenId : Z) : list Z :=
  schemaHead rt taskName ++ schemaLabels rt labelTokenId labels
  ++ idsOf rt GLiNER2Runtime.SCHEMA_CLOSE ++ idsOf rt GLiNER2Runtime.SCHEMA_CLOSE
  ++ [GLiNER2Runtime.token_SEP_TEXT (GLiNER2Runtime.config rt)].

(** The position of the marker token of each label in the schema prefix. *)
Definition schemaPositions (rt : GLiNER2Runtime.Runtime) (taskName : jsstring)
    (labels : list jsstring) (labelTokenId : Z) : list nat :=
  map (λ i, length (schemaHead rt taskName)
            + length (schemaLabels rt labelTokenId (take i labels)))
      (seq 0 (length labels)).

(** The tokenizer calls of [buildSchemaInput]. *)
Definition schemaCalls (taskName : jsstring) (labels : list jsstring) : list event :=
  [TokenizerCall GLiNER2Runtime.SCHEMA_OPEN; TokenizerCall taskName]
  ++ map TokenizerCall labels ++ [TokenizerCall GLiNER2Runtime.SCHEMA_CLOSE].

(** The words of a text as GLiNER2 sees them: the matches of the word
    pattern over the lower-cased text. *)
Definition wordsOf2 (rt : GLiNER2Runtime.Runtime) (text : jsstring)
  : list (jsstring * nat * nat) :=
  default [] (GLiNER2Splitter.splitWords (GLiNER2Runtime.toLowerCase rt text)).

(** The dot product as [computeDotProductScores] accumulates it: from 0,
    left to right, each step one multiplication and one addition. *)
Definition dotProductOf `{FloatOps} (a b : list Q) : Q :=
  fold_left (λ dotProduct '(x, y), fadd dotProduct (fmul x y)) (zip a b) 0%Q.

(** Row [i] of a row-major matrix with rows of [hiddenSize] cells. *)
Definition matrixRow (m : list Q) (hiddenSize i : nat) : list Q :=
  take hiddenSize (drop (i * hiddenSize) m).

(** What GLiNER2 returns for a text: every entity runs from the start of a
    word to the end of the same or a later word, fewer than [maxWidth] words
    further, the words being those of the lower-cased text; its text is the
    slice of the text as given between these offsets; its label is one of
    the requested labels and its score is at least the threshold. The
    entities are in descending order of score, and no two entities with the
    same label intersect. *)
Definition entitiesWellFormed2 (rt : GLiNER2Runtime.Runtime) (input : jsstring)
    (labels : list jsstring) (threshold : Q) (entities : list Entity) : Prop :=
  Forall (λ e,
      (∃ first last,
         first ≤ last
         ∧ last < first + GLiNER2Runtime.maxWidth (GLiNER2Runtime.config rt)
         ∧ (λ t, t.1.2) <$> wordsOf2 rt input !! first = Some (start e)
         ∧ (λ t, t.2) <$> wordsOf2 rt input !! last = Some (end_ e))
      ∧ start e < end_ e
      ∧ end_ e ≤ length (GLiNER2Runtime.toLowerCase rt input)
      ∧ text e = slice input (start e) (end_ e)
      ∧ label e ∈ labels
      ∧ (threshold <= score e)%Q) entities
  ∧ StronglySorted (λ a b, (score b <= score a)%Q) entities
  ∧ ∀ i j a b, i ≠ j → entities !! i = Some a → entities !! j = Some b →
      ¬ (label a = label b ∧ start a < end_ b ∧ start b < end_ a).

(** The candidate that [decodeEntities] derives from the score cell of span
    [spanIdx] and label [labelIdx], if the cell yields one. *)
Definition entityCandidate (scoreData : GLiNER2Decoder.NerScoreData) (wordCount : nat)
    (labels : list jsstring) (wordOffsets : list (nat * nat)) (input : jsstring)
    (threshold : Q) (spanIdx labelIdx : nat) (e : Entity) : Prop :=
  ∃ startWord endWord startOffset endOffset,
    GLiNER2Decoder.wordSpanStart scoreData !! spanIdx = Some startWord
    ∧ GLiNER2Decoder.wordSpanEnd scoreData !! spanIdx = Some endWord
    ∧ startWord < wordCount ∧ endWord < wordCount
    ∧ GLiNER2Decoder.scores scoreData !! (spanIdx * length labels + labelIdx)
      = Some (Some (score e))
    ∧ (threshold <= score e)%Q
    ∧ wordOffsets !! startWord = Some startOffset
    ∧ wordOffsets !! endWord = Some endOffset
    ∧ labels !! labelIdx = Some (label e)
    ∧ start e = startOffset.1 ∧ end_ e = endOffset.2
    ∧ text e = slice input startOffset.1 endOffset.2.

(** A session answers a request: the call resolves, with at least one
    output, whatever its length. *)
Definition answers (result : option GLiNER2Runtime.Outputs) : Prop :=
  ∃ output rest, result = Some (output :: rest).

(** The tokenizer calls of a GLiNER2 request: the schema prefix, then the
    words of the lower-cased text, one call per word. *)
Definition requestCalls (rt : GLiNER2Runtime.Runtime) (taskName : jsstring)
    (labels : list jsstring) (text : jsstring) : list event :=
  schemaCalls taskName labels ++ map (λ t, TokenizerCall t.1.1) (wordsOf2 rt text).

(** The token ids of the words of a text, in order. *)
Definition textTokens (rt : GLiNER2Runtime.Runtime) (text : jsstring) : list Z :=
  flat_map (λ t, idsOf rt t.1.1) (wordsOf2 rt text).

(** A GLiNER2 runtime for running examples: one token per tokenizer call, a
    hidden size of 1, an encoder that answers 1 for every token, a span model
    that favours the first span, a label transform that answers 1 for every
    label and a classifier that favours the first label. *)
Definition craftedRuntime2 : GLiNER2Runtime.Runtime :=
  {| GLiNER2Runtime.config :=
       {| GLiNER2Runtime.hiddenSize := 1; GLiNER2Runtime.maxWidth := 2;
          GLiNER2Runtime.token_P := 3; GLiNER2Runtime.token_L := 4;
          GLiNER2Runtime.token_E := 5; GLiNER2Runtime.token_SEP_TEXT := 6 |};
     GLiNER2Runtime.tokenizer := λ _, GLiNER2Runtime.Nested [[7%Z]];
     GLiNER2Runtime.encoder_run := λ inputIds _ _,
       Some [("last_hidden_state"%string, map (λ _, 1%Q) inputIds)];
     GLiNER2Runtime.classifier_run := λ labelEmbeddings _,
       Some [("logits"%string, 2%Q :: replicate (length labelEmbeddings - 1) 0%Q)];
     GLiNER2Runtime.spanRep_run := λ _ _ spanStart _ _,
       Some [("span_rep"%string, 3%Q :: replicate (length spanStart - 1) (-3)%Q)];
     GLiNER2Runtime.countEmbed_run := λ labelEmbeddings _,
       Some [("embeddings"%string, map (λ _, 1%Q) labelEmbeddings)];
     GLiNER2Runtime.toLowerCase := λ s, s |}.

(** A GLiNER2 runtime whose sessions answer with arrays that are too short
    for the request: each answers one output, which is empty. *)
Definition shortRuntime2 : GLiNER2Runtime.Runtime :=
  {| GLiNER2Runtime.config :=
       {| GLiNER2Runtime.hiddenSize := 1; GLiNER2Runtime.maxWidth := 2;
          GLiNER2Runtime.token_P := 3; GLiNER2Runtime.token_L := 4;
          GLiNER2Runtime.token_E := 5; GLiNER2Runtime.token_SEP_TEXT := 6 |};
     GLiNER2Runtime.tokenizer := λ _, GLiNER2Runtime.Nested [[7%Z]];
     GLiNER2Runtime.encoder_run := λ _ _ _, Some [("last_hidden_state"%string, [])];
     GLiNER2Runtime.classifier_run := λ _ _, Some [("logits"%string, [])];
     GLiNER2Runtime.spanRep_run := λ _ _ _ _ _, Some [("span_rep"%string, [])];
     GLiNER2Runtime.countEmbed_run := λ _ _, Some [("embeddings"%string, [])];
     GLiNER2Runtime.toLowerCase := λ s, s |}.

(** What the score range relies on, of the floating-point primitives, over
    finite values. Each holds for IEEE-754 arithmetic rounded to nearest:
    the exponential of a non-positive number lies in [0, 1] and that of zero
    is one; negation turns a non-negative number non-positive; a number
    minus a larger one is non-positive, and minus itself is zero; the sum of
    two non-negative numbers is at least each of them; the quotient of a
    non-negative number by a larger positive one lies in [0, 1]; rounding to
    single precision keeps a number within [0, 1], both bounds being single
    precision numbers. *)
Definition unitIntervalLaws `{FloatOps} : Prop :=
  (∀ y, (y <= 0)%Q → (0 <= Math_exp y <= 1)%Q)
  ∧ Math_exp 0%Q = 1%Q
  ∧ (∀ x, (0 <= x)%Q → (fneg x <= 0)%Q)
  ∧ (∀ v m, (v <= m)%Q → (fsub v m <= 0)%Q)
  ∧ (∀ m, fsub m m = 0%Q)
  ∧ (∀ a b, (0 <= a)%Q → (0 <= b)%Q → (a <= fadd a b)%Q ∧ (b <= fadd a b)%Q)
  ∧ (∀ a b, (0 <= a <= b)%Q → (0 < b)%Q → (0 <= fdiv a b <= 1)%Q)
  ∧ (∀ v, (0 <= v <= 1)%Q → (0 <= fround v <= 1)%Q).
(* ===================================================================== *)
(** * Part II. Properties                                                  *)
(* ===================================================================== *)

(** ** Loops as comprehensions *)

Lemma forRange_S {S : Type} (n : nat) (body : nat → S → S) (st : S) :
  forRange (Datatypes.S n) body st = body n (forRange n body st).
Proof.
  unfold forRange. rewrite seq_S, fold_left_app. reflexivity.
Qed.

(** A loop whose body pushes one element per iteration onto two arrays builds
    the two images of the index range. *)
Lemma forRange_push2 {A B : Type} (f : nat → A) (g : nat → B) n xs ys :
  forRange n (λ i '(l1, l2), (l1 ++ [f i], l2 ++ [g i])) (xs, ys)
  = (xs ++ map f (seq 0 n), ys ++ map g (seq 0 n)).
Proof.
  induction n as [|n IH].
  - cbn. by rewrite !app_nil_r.
  - rewrite forRange_S, IH, seq_S, !map_app, !app_assoc. reflexivity.
Qed.

Lemma forRange_ext {S : Type} n (b1 b2 : nat → S → S) st :
  (∀ i s, i < n → b1 i s = b2 i s) → forRange n b1 st = forRange n b2 st.
Proof.
  induction n as [|n IH]; intros Hb; [done|].
  rewrite !forRange_S, IH by (intros; apply Hb; lia). apply Hb. lia.
Qed.

(** Two nested pushing loops build the row-major comprehension. *)
Lemma forRange_nested_push2 {A B : Type} (f : nat → nat → A) (g : nat → nat → B)
    n w xs ys :
  forRange n (λ i st,
      forRange w (λ j '(l1, l2), (l1 ++ [f i j], l2 ++ [g i j])) st) (xs, ys)
  = (xs ++ flat_map (λ i, map (f i) (seq 0 w)) (seq 0 n),
     ys ++ flat_map (λ i, map (g i) (seq 0 w)) (seq 0 n)).
Proof.
  induction n as [|n IH].
  - cbn. by rewrite !app_nil_r.
  - rewrite forRange_S, IH, forRange_push2, seq_S, !flat_map_app. cbn.
    by rewrite !app_nil_r, !app_assoc.
Qed.

(** Position [i * w + j] of a row-major comprehension. *)
Lemma lookup_row_major {A : Type} (f : nat → nat → A) n w i j :
  i < n → j < w →
  flat_map (λ i, map (f i) (seq 0 w)) (seq 0 n) !! (i * w + j) = Some (f i j).
Proof.
  revert i. induction n as [|n IH]; intros i Hi Hj; [lia|].
  rewrite seq_S, flat_map_app. cbn. rewrite app_nil_r.
  assert (Hlen : ∀ m, length (flat_map (λ i, map (f i) (seq 0 w)) (seq 0 m)) = m * w).
  { clear. induction m as [|m IHm]; [done|].
    rewrite seq_S, flat_map_app, length_app, IHm. cbn.
    rewrite app_nil_r, length_map, length_seq. lia. }
  destruct (decide (i = n)) as [->|Hne].
  - rewrite lookup_app_r by (rewrite Hlen; lia).
    rewrite Hlen, Nat.add_comm, Nat.add_sub.
    rewrite list_lookup_fmap, lookup_seq_lt by done. reflexivity.
  - rewrite lookup_app_l by (rewrite Hlen; nia). apply IH; lia.
Qed.

Lemma length_row_major {A : Type} (f : nat → nat → A) n w :
  length (flat_map (λ i, map (f i) (seq 0 w)) (seq 0 n)) = n * w.
Proof.
  induction n as [|n IH]; [done|].
  rewrite seq_S, flat_map_app, length_app, IH. cbn.
  rewrite app_nil_r, length_map, length_seq. lia.
Qed.


Lemma forRangeM_S {S : Type} (n : nat) (body : nat → S → option S) (st : S) :
  forRangeM (Datatypes.S n) body st = forRangeM n body st ≫= body n.
Proof.
  unfold forRangeM. rewrite seq_S, fold_left_app. reflexivity.
Qed.

Lemma forRangeM_ext {S : Type} n (b1 b2 : nat → S → option S) st :
  (∀ i s, i < n → b1 i s = b2 i s) → forRangeM n b1 st = forRangeM n b2 st.
Proof.
  induction n as [|n IH]; intros Hb; [done|].
  rewrite !forRangeM_S, IH by (intros; apply Hb; lia).
  destruct (forRangeM n b2 st) as [s|]; [|done]. apply Hb. lia.
Qed.
(** ** SpanLattice *)

Import GLiNER1Lattice GLiNER2Lattice.

Lemma buildSpansRow_comprehension w n :
  buildSpansRow w n =
  (flat_map (λ i, map (λ j, (i, Nat.min (i + j) (n - 1))) (seq 0 w)) (seq 0 n),
   flat_map (λ i, map (λ j, bool_decide (Nat.min (i + j) (n - 1) < n)) (seq 0 w))
     (seq 0 n)).
Proof.
  unfold buildSpansRow.
  exact (forRange_nested_push2
           (λ i j, (i, Nat.min (i + j) (n - 1)))
           (λ i j, bool_decide (Nat.min (i + j) (n - 1) < n)) n w [] []).
Qed.

Lemma generateSpans_comprehension n w :
  generateSpans n w =
  let starts := flat_map (λ i, map (λ j, if bool_decide (i + j < n) then i else 0)
                                (seq 0 w)) (seq 0 n) in
  {| spanStart := starts;
     spanEnd := flat_map (λ i, map (λ j, if bool_decide (i + j < n) then i + j else 0)
                                (seq 0 w)) (seq 0 n);
     numSpans := length starts |}.
Proof.
  unfold generateSpans.
  rewrite (forRange_ext n _
    (λ i st, forRange w (λ j '(l1, l2),
       (l1 ++ [if bool_decide (i + j < n) then i else 0],
        l2 ++ [if bool_decide (i + j < n) then i + j else 0])) st)).
  - rewrite forRange_nested_push2. reflexivity.
  - intros i s _. apply forRange_ext. intros j [l1 l2] _.
    by destruct (bool_decide (i + j < n)).
Qed.

(** The batch-level function is the row function applied to every example. *)
Lemma buildSpans_rows {T : Type} w (batchTokens : list (list T)) :
  buildSpans w batchTokens =
  (map (λ tokens, (buildSpansRow w (length tokens)).1) batchTokens,
   map (λ tokens, (buildSpansRow w (length tokens)).2) batchTokens).
Proof.
  unfold buildSpans.
  enough (H : ∀ xs ys,
    fold_left (λ '(spanIdxs, spanMasks) tokens,
      let '(spanIdx, spanMask) := buildSpansRow w (length tokens) in
      (spanIdxs ++ [spanIdx], spanMasks ++ [spanMask])) batchTokens (xs, ys)
    = (xs ++ map (λ tokens, (buildSpansRow w (length tokens)).1) batchTokens,
       ys ++ map (λ tokens, (buildSpansRow w (length tokens)).2) batchTokens))
    by apply (H [] []).
  induction batchTokens as [|t ts IH]; intros xs ys; cbn.
  - by rewrite !app_nil_r.
  - destruct (buildSpansRow w (length t)) as [si sm] eqn:E. rewrite IH. cbn.
    by rewrite <- !app_assoc.
Qed.

(** The validity flag of [buildSpans] is computed from the clamped end index,
    which is always below the text length: every flag is [true]. *)
Lemma buildSpansRow_mask_true w n b : b ∈ (buildSpansRow w n).2 → b = true.
Proof.
  rewrite buildSpansRow_comprehension. cbn [snd].
  rewrite list_elem_of_In, in_flat_map. intros (i & Hi & Hb).
  apply in_seq in Hi. apply in_map_iff in Hb as (j & <- & _).
  apply bool_decide_eq_true. lia.
Qed.

Example buildSpansRow_2_2 :
  buildSpansRow 2 2 = ([(0, 0); (0, 1); (1, 1); (1, 1)], [true; true; true; true]).
Proof. reflexivity. Qed.

Example generateSpans_2_2 :
  generateSpans 2 2 =
  {| spanStart := [0; 0; 1; 0]; spanEnd := [0; 1; 1; 0]; numSpans := 4 |}.
Proof. reflexivity. Qed.

(** C1 (as amended). Both lattices hold exactly [n * w] entries in row-major
    order (start index outermost, width offset innermost), and are empty for
    [n = 0]. In GLiNER1's [buildSpans] the entry for (start, width) is
    [(start, min(start+width, n-1))]. In GLiNER2's [generateSpans] it is
    [(start, start+width)] when [start+width < n] and the sentinel [(0, 0)]
    otherwise. *)
Theorem span_lattice_shape (n w : nat) :
  let row := buildSpansRow w n in
  let g := generateSpans n w in
  (length row.1 = n * w ∧ length row.2 = n * w ∧
   length (spanStart g) = n * w ∧ length (spanEnd g) = n * w ∧ numSpans g = n * w)
  ∧ (∀ start width, start < n → width < w →
       row.1 !! (start * w + width) = Some (start, Nat.min (start + width) (n - 1))
       ∧ spanStart g !! (start * w + width)
         = Some (if bool_decide (start + width < n) then start else 0)
       ∧ spanEnd g !! (start * w + width)
         = Some (if bool_decide (start + width < n) then start + width else 0))
  ∧ (n = 0 → row = ([], []) ∧ spanStart g = [] ∧ spanEnd g = [] ∧ numSpans g = 0).
Proof.
  intros row g. subst row g.
  rewrite buildSpansRow_comprehension, generateSpans_comprehension. cbn.
  rewrite !length_row_major. repeat split; try done.
  - apply (lookup_row_major (λ i j, (i, Nat.min (i + j) (n - 1)))); done.
  - apply (lookup_row_major (λ i j, if bool_decide (i + j < n) then i else 0)); done.
  - apply (lookup_row_major (λ i j, if bool_decide (i + j < n) then i + j else 0)); done.
  - by subst n.
  - by subst n.
  - by subst n.
  - by subst n.
Qed.

(** C1 (as stated) fails on [generateSpans]: for [n = 2], [w = 2] the entry of
    (start 1, width 1) is the sentinel [(0, 0)], not [(1, min(2, 1)) = (1, 1)]. *)
Lemma generateSpans_not_clamped :
  ¬ (∀ n w start width, start < n → width < w →
       spanStart (generateSpans n w) !! (start * w + width) = Some start
       ∧ spanEnd (generateSpans n w) !! (start * w + width)
         = Some (Nat.min (start + width) (n - 1))).
Proof.
  intros H. destruct (H 2 2 1 1) as [Hs _]; [lia..|]. vm_compute in Hs. discriminate.
Qed.
(** ** The stable sort *)

Section JsSort.
Context {A : Type} (cmp : A → A → comparison).

Lemma sortInsert_perm x l : sortInsert cmp x l ≡ₚ x :: l.
Proof.
  induction l as [|y l IH]; cbn; [done|].
  destruct (cmp y x); try done.
  rewrite IH. apply Permutation_swap.
Qed.

Lemma jsSort_perm l : jsSort cmp l ≡ₚ l.
Proof.
  induction l as [|x l IH]; cbn; [done|].
  by rewrite sortInsert_perm, IH.
Qed.

Lemma jsSort_length l : length (jsSort cmp l) = length l.
Proof. by rewrite jsSort_perm. Qed.

Lemma jsSort_elem_of x l : x ∈ jsSort cmp l ↔ x ∈ l.
Proof. by rewrite jsSort_perm. Qed.

(** Sortedness, for a comparator that decides a total preorder [le]:
    [cmp y x] is negative only if [le y x], and otherwise [le x y]. *)
Section Sorted.
Context (le : relation A) `{!Transitive le}.
Hypothesis cmp_Lt : ∀ x y, cmp y x = Lt → le y x.
Hypothesis cmp_not_Lt : ∀ x y, cmp y x ≠ Lt → le x y.

Lemma sortInsert_sorted x l :
  StronglySorted le l → StronglySorted le (sortInsert cmp x l).
Proof.
  induction 1 as [|y l Hs IH Hy]; cbn.
  - repeat constructor.
  - destruct (cmp y x) eqn:E.
    + constructor; [by constructor|]. constructor.
      * apply cmp_not_Lt. congruence.
      * eapply Forall_impl; [exact Hy|]. intros z Hz.
        transitivity y; [apply cmp_not_Lt; congruence|done].
    + constructor; [done|]. rewrite sortInsert_perm.
      constructor; [by apply cmp_Lt|done].
    + constructor; [by constructor|]. constructor.
      * apply cmp_not_Lt. congruence.
      * eapply Forall_impl; [exact Hy|]. intros z Hz.
        transitivity y; [apply cmp_not_Lt; congruence|done].
Qed.

Lemma jsSort_sorted l : StronglySorted le (jsSort cmp l).
Proof.
  induction l as [|x l IH]; cbn; [constructor|]. by apply sortInsert_sorted.
Qed.
End Sorted.

(** Stability: the entries of one tie class (a predicate that no entry shares
    with an entry sorting strictly before it) keep their relative order. *)
Lemma sortInsert_stable (P : A → bool) x s :
  (∀ x y, P x = true → cmp y x = Lt → P y = false) →
  filter (λ x, P x = true) (sortInsert cmp x s) = filter (λ x, P x = true) (x :: s).
Proof.
  intros HP. induction s as [|y s IHs]; [done|].
  change (sortInsert cmp x (y :: s))
    with (match cmp y x with Lt => y :: sortInsert cmp x s | _ => x :: y :: s end).
  destruct (cmp y x) eqn:E; try done.
  rewrite (filter_cons _ y), IHs, !filter_cons.
  destruct (decide (P x = true)) as [Hx|Hx]; [|done].
  rewrite !(decide_False (P := P y = true)); [done|..];
    by rewrite (HP x y Hx E).
Qed.

Lemma jsSort_stable (P : A → bool) l :
  (∀ x y, P x = true → cmp y x = Lt → P y = false) →
  filter (λ x, P x = true) (jsSort cmp l) = filter (λ x, P x = true) l.
Proof.
  intros HP. induction l as [|x l IH]; [done|].
  change (jsSort cmp (x :: l)) with (sortInsert cmp x (jsSort cmp l)).
  by rewrite sortInsert_stable, !filter_cons, IH.
Qed.

End JsSort.

(** ** Sorting what is sorted *)

(** A sublist of a sorted list is sorted. *)
Lemma StronglySorted_sublist {A : Type} (R : relation A) (l1 l2 : list A) :
  l1 `sublist_of` l2 → StronglySorted R l2 → StronglySorted R l1.
Proof.
  induction 1 as [|x l1 l2 Hs IH|x l1 l2 Hs IH]; intros H2.
  - constructor.
  - apply StronglySorted_inv in H2 as [H2 Hx]. constructor; [by apply IH|].
    rewrite Forall_forall in *. intros y Hy. apply Hx.
    by eapply elem_of_sublist.
  - apply StronglySorted_inv in H2 as [H2 _]. by apply IH.
Qed.

(** Sorting, for a comparator that decides a total preorder [le] exactly. *)
Section SortedInput.
Context {A : Type} (cmp : A → A → comparison) (le : relation A) `{!Transitive le}.
Hypothesis cmp_Lt : ∀ x y, cmp y x = Lt → le y x.
Hypothesis cmp_not_Lt : ∀ x y, cmp y x ≠ Lt → le x y.
Hypothesis le_not_Lt : ∀ x y, le x y → cmp y x ≠ Lt.

(** Sorting a sorted list changes nothing. *)
Lemma jsSort_sorted_id l : StronglySorted le l → jsSort cmp l = l.
Proof.
  induction 1 as [|x l Hs IH Hx]; [done|].
  change (jsSort cmp (x :: l)) with (sortInsert cmp x (jsSort cmp l)). rewrite IH.
  destruct l as [|y l]; [done|]. cbn [sortInsert].
  apply Forall_cons in Hx as [Hxy _]. apply le_not_Lt in Hxy.
  by destruct (cmp y x).
Qed.

Lemma sortInsert_head_ge x s :
  Forall (le x) s → sortInsert cmp x s = x :: s.
Proof.
  destruct s as [|y s]; [done|]. intros [Hxy _]%Forall_cons. cbn [sortInsert].
  apply le_not_Lt in Hxy. by destruct (cmp y x).
Qed.

Lemma filter_sortInsert (P : A → Prop) `{!∀ x, Decision (P x)} x s :
  StronglySorted le s →
  filter P (sortInsert cmp x s)
  = if decide (P x) then sortInsert cmp x (filter P s) else filter P s.
Proof.
  induction 1 as [|y s Hs IH Hy]; cbn [sortInsert].
  - rewrite filter_cons, filter_nil. by destruct (decide (P x)).
  - destruct (cmp y x) eqn:E.
    1,3: rewrite (filter_cons _ x); destruct (decide (P x)); [|done];
      rewrite sortInsert_head_ge; [done|];
      assert (Hxy : le x y) by (apply cmp_not_Lt; congruence);
      apply Forall_forall; intros z Hz; apply list_elem_of_filter in Hz as [_ Hz];
      apply elem_of_cons in Hz as [->|Hz]; [done|];
      rewrite Forall_forall in Hy; transitivity y; [done|by apply Hy].
    rewrite (filter_cons _ y), IH, (filter_cons _ y).
    destruct (decide (P x)), (decide (P y)); try done.
    cbn [sortInsert]. by rewrite E.
Qed.

(** Selecting entries commutes with sorting. *)
Lemma filter_jsSort (P : A → Prop) `{!∀ x, Decision (P x)} l :
  filter P (jsSort cmp l) = jsSort cmp (filter P l).
Proof.
  induction l as [|x l IH]; [done|].
  change (jsSort cmp (x :: l)) with (sortInsert cmp x (jsSort cmp l)).
  rewrite filter_sortInsert by (by apply jsSort_sorted).
  rewrite filter_cons, IH. by destruct (decide (P x)).
Qed.

End SortedInput.

(** Two lists sorted by the same key that agree on every key class are
    equal. *)
Lemma sorted_by_key_unique {A : Type} (key : A → nat) (l1 l2 : list A) :
  StronglySorted (λ a b, key a ≤ key b) l1 →
  StronglySorted (λ a b, key a ≤ key b) l2 →
  (∀ k, filter (λ x, key x = k) l1 = filter (λ x, key x = k) l2) →
  l1 = l2.
Proof.
  intros H1. revert l2. induction H1 as [|a l1 Hs1 IH Ha]; intros l2 H2 Hf.
  - destruct l2 as [|b l2]; [done|]. specialize (Hf (key b)).
    rewrite filter_nil, filter_cons, decide_True in Hf by done. done.
  - destruct l2 as [|b l2].
    { specialize (Hf (key a)). rewrite filter_nil, filter_cons, decide_True in Hf by done.
      done. }
    apply StronglySorted_inv in H2 as [H2 Hb].
    assert (Hab : key a = key b).
    { apply Nat.le_antisymm.
      - pose proof (Hf (key b)) as Hfb.
        rewrite (filter_cons _ b), decide_True in Hfb by done.
        assert (Hin : b ∈ filter (λ x, key x = key b) (a :: l1))
          by (rewrite Hfb; by left).
        apply list_elem_of_filter in Hin as [_ Hin].
        apply elem_of_cons in Hin as [->|Hin]; [done|].
        rewrite Forall_forall in Ha. by apply Ha.
      - pose proof (Hf (key a)) as Hfa.
        rewrite (filter_cons _ a), decide_True in Hfa by done.
        assert (Hin : a ∈ filter (λ x, key x = key a) (b :: l2))
          by (rewrite <- Hfa; by left).
        apply list_elem_of_filter in Hin as [_ Hin].
        apply elem_of_cons in Hin as [->|Hin]; [done|].
        rewrite Forall_forall in Hb. by apply Hb. }
    assert (a = b) as <-.
    { specialize (Hf (key a)).
      rewrite !filter_cons, decide_True in Hf by done.
      rewrite decide_True in Hf by done. congruence. }
    f_equal. apply IH; [done|]. intros k. specialize (Hf k).
    rewrite !filter_cons in Hf. destruct (decide (key a = k)); congruence.
Qed.

(** Stability once more, for a tie class given as a decidable proposition. *)
Section StableProp.
Context {A : Type} (cmp : A → A → comparison).
Context (P : A → Prop) `{!∀ x, Decision (P x)}.
Hypothesis tie_class : ∀ x y, P x → cmp y x = Lt → ¬ P y.

Lemma sortInsert_keeps_class x s :
  filter P (sortInsert cmp x s) = filter P (x :: s).
Proof.
  induction s as [|y s IHs]; [done|]. cbn [sortInsert].
  destruct (cmp y x) eqn:E; try done.
  rewrite (filter_cons _ y), IHs, !filter_cons.
  destruct (decide (P x)) as [Hx|Hx]; [|done].
  by rewrite !(decide_False (P := P y)) by by apply (tie_class x).
Qed.

Lemma jsSort_keeps_class l : filter P (jsSort cmp l) = filter P l.
Proof.
  induction l as [|x l IH]; [done|].
  change (jsSort cmp (x :: l)) with (sortInsert cmp x (jsSort cmp l)).
  by rewrite sortInsert_keeps_class, !filter_cons, IH.
Qed.
End StableProp.

(** A strongly sorted list relates every earlier entry to every later one. *)
Lemma StronglySorted_before {A : Type} (R : relation A) l y x :
  StronglySorted R l → Before l y x → R y x.
Proof.
  intros Hs (l1 & l2 & -> & Hy).
  induction l1 as [|z l1 IH]; [by apply elem_of_nil in Hy|].
  cbn in Hs. apply StronglySorted_inv in Hs as [Hs Hz].
  apply elem_of_cons in Hy as [->|Hy]; [|by apply IH].
  rewrite Forall_forall in Hz. apply Hz. apply elem_of_app. right. by left.
Qed.

(** ** The selection loop *)

Section AcceptLoop.
Context {A : Type} (conflicts : A → A → bool).

Lemma acceptLoop_snoc l x :
  acceptLoop conflicts (l ++ [x]) =
  if existsb (conflicts x) (acceptLoop conflicts l)
  then acceptLoop conflicts l
  else acceptLoop conflicts l ++ [x].
Proof.
  unfold acceptLoop. rewrite fold_left_app. cbn.
  by destruct (existsb _ _).
Qed.

Lemma acceptLoop_sublist l : acceptLoop conflicts l `sublist_of` l.
Proof.
  induction l as [|x l IH] using rev_ind; [done|].
  rewrite acceptLoop_snoc. destruct (existsb _ _).
  - by apply sublist_inserts_r.
  - by apply sublist_app.
Qed.

Lemma acceptLoop_elem_of x l : x ∈ acceptLoop conflicts l → x ∈ l.
Proof. intros Hx. eapply elem_of_sublist; [done|apply acceptLoop_sublist]. Qed.

Lemma existsb_false_Forall (f : A → bool) l :
  existsb f l = false ↔ Forall (λ y, f y = false) l.
Proof.
  induction l as [|y l IH]; cbn.
  - split; [constructor|done].
  - rewrite orb_false_iff, Forall_cons, IH. done.
Qed.

Lemma existsb_true_elem_of (f : A → bool) l :
  existsb f l = true ↔ ∃ y, y ∈ l ∧ f y = true.
Proof.
  rewrite existsb_exists. by setoid_rewrite list_elem_of_In.
Qed.

(** Every candidate is either kept or conflicts with an entry kept before it
    was examined. *)
Lemma acceptLoop_dominated l x :
  x ∈ l →
  x ∈ acceptLoop conflicts l
  ∨ ∃ y, y ∈ acceptLoop conflicts l ∧ conflicts x y = true ∧ Before l y x.
Proof.
  induction l as [|z l IH] using rev_ind; [by intros ?%elem_of_nil|].
  intros Hx. rewrite acceptLoop_snoc.
  apply elem_of_app in Hx as [Hx|Hx].
  - destruct (IH Hx) as [Hk|(y & Hy & Hc & l1 & l2 & -> & Hb)].
    + left. destruct (existsb _ _); [done|apply elem_of_app; by left].
    + right. exists y. split; [destruct (existsb _ _); [done|apply elem_of_app; by left]|].
      split; [done|]. exists l1, (l2 ++ [z]). by rewrite <- app_assoc.
  - apply list_elem_of_singleton in Hx as ->.
    destruct (existsb _ _) eqn:E;
      [|left; apply elem_of_app; right; by apply list_elem_of_singleton].
    right. apply existsb_true_elem_of in E as (y & Hy & Hc).
    exists y. repeat split; [done..|].
    exists l, []. split; [done|]. by apply acceptLoop_elem_of.
Qed.

Lemma NoConflict_snoc l x :
  NoConflict conflicts l →
  Forall (λ y, conflicts x y = false ∧ conflicts y x = false) l →
  NoConflict conflicts (l ++ [x]).
Proof.
  induction 1 as [|z l Hz Hl IH]; intros Hx; cbn.
  - repeat constructor.
  - apply Forall_cons in Hx as [[Hxz Hzx] Hx]. constructor; [|by apply IH].
    apply Forall_app. split; [done|]. by repeat constructor.
Qed.

Lemma NoConflict_lookup l i j a b :
  NoConflict conflicts l → i ≠ j → l !! i = Some a → l !! j = Some b →
  conflicts a b = false.
Proof.
  intros Hl. revert i j. induction Hl as [|z l Hz Hl IH]; intros i j Hij Hi Hj.
  - by rewrite lookup_nil in Hi.
  - rewrite Forall_forall in Hz.
    destruct i as [|i], j as [|j]; cbn in *; simplify_eq.
    + apply Hz. by eapply list_elem_of_lookup_2.
    + apply Hz. by eapply list_elem_of_lookup_2.
    + eapply IH; [|done..]. congruence.
Qed.

Lemma NoConflict_perm l1 l2 :
  l1 ≡ₚ l2 → NoConflict conflicts l1 → NoConflict conflicts l2.
Proof.
  induction 1 as [|x l1 l2 Hp IH|x y l|l1 l2 l3 _ IH1 _ IH2]; intros H.
  - done.
  - inversion H as [|? ? Hx Hl]; subst. constructor; [by rewrite <- Hp|by apply IH].
  - inversion H as [|? ? Hy Hl]; subst. inversion Hl as [|? ? Hx Hl']; subst.
    apply Forall_cons in Hy as [[Hyx Hxy] Hy].
    constructor; [by constructor|]. by constructor.
  - by apply IH2, IH1.
Qed.

Section Symmetric.
Hypothesis conflicts_sym : ∀ a b, conflicts a b = conflicts b a.

Lemma acceptLoop_NoConflict l : NoConflict conflicts (acceptLoop conflicts l).
Proof.
  induction l as [|x l IH] using rev_ind; [constructor|].
  rewrite acceptLoop_snoc. destruct (existsb _ _) eqn:E; [done|].
  apply NoConflict_snoc; [done|].
  apply existsb_false_Forall in E. eapply Forall_impl; [exact E|].
  intros y Hy. cbn in Hy. by rewrite <- (conflicts_sym x y).
Qed.
End Symmetric.

(** Nothing is dropped from a list that is already free of conflicts. *)
Lemma acceptLoop_id l : NoConflict conflicts l → acceptLoop conflicts l = l.
Proof.
  induction l as [|x l IH] using rev_ind; [done|]. intros H.
  assert (Hl : NoConflict conflicts l ∧ Forall (λ y, conflicts x y = false) l).
  { clear IH. induction l as [|z l IHl]; [by repeat constructor|].
    cbn in H. inversion H as [|? ? Hz Hl]; subst.
    apply Forall_app in Hz as [Hz Hzx]. apply Forall_singleton in Hzx as [Hzx Hxz].
    destruct (IHl Hl) as [? ?]. split; [by constructor|by constructor]. }
  destruct Hl as [Hl Hx]. rewrite acceptLoop_snoc, IH by done.
  by rewrite (proj2 (existsb_false_Forall _ _) Hx).
Qed.

End AcceptLoop.
(** ** Comparators *)

Lemma signQ_sub_Lt (a b : Q) : signQ (a - b) = Lt ↔ (a < b)%Q.
Proof. unfold signQ. rewrite <- Qlt_alt. split; intros; lra. Qed.

Lemma signQ_sub_not_Lt (a b : Q) : signQ (a - b) ≠ Lt ↔ (b <= a)%Q.
Proof. unfold signQ. rewrite <- Qge_alt. split; intros; lra. Qed.

Lemma signZ_sub_Lt (a b : Z) : signZ (a - b) = Lt ↔ (a < b)%Z.
Proof. unfold signZ. rewrite Z.compare_lt_iff. lia. Qed.

Lemma signZ_sub_not_Lt (a b : Z) : signZ (a - b) ≠ Lt ↔ (b ≤ a)%Z.
Proof. unfold signZ. rewrite Z.compare_nlt_iff. lia. Qed.

#[local] Instance Qle_flip_trans {A : Type} (f : A → Q) :
  Transitive (λ a b, (f b <= f a)%Q).
Proof. intros a b c H1 H2. lra. Qed.

#[local] Instance nat_key_le_trans {A : Type} (f : A → nat) :
  Transitive (λ a b, f a ≤ f b).
Proof. intros a b c H1 H2. lia. Qed.

(** ** OverlapResolver *)

Import GLiNER1Decoder.

Lemma jsSort_byScoreDesc_sorted spans :
  StronglySorted (λ a b, (span_score b <= span_score a)%Q) (jsSort byScoreDesc spans).
Proof.
  apply jsSort_sorted; [apply _|..]; unfold byScoreDesc; intros x y.
  - intros Hlt. apply (proj1 (signQ_sub_Lt _ _)) in Hlt. lra.
  - intros Hge. by apply (proj1 (signQ_sub_not_Lt _ _)) in Hge.
Qed.

Lemma jsSort_byStartAsc_sorted spans :
  StronglySorted (λ a b, span_start a ≤ span_start b) (jsSort byStartAsc spans).
Proof.
  apply jsSort_sorted; [apply _|..]; unfold byStartAsc; intros x y.
  - intros Hlt. apply (proj1 (signZ_sub_Lt _ _)) in Hlt. lia.
  - intros Hge. apply (proj1 (signZ_sub_not_Lt _ _)) in Hge. lia.
Qed.

Lemma spansOverlap_sym s1 e1 s2 e2 nested multi :
  spansOverlap s1 e1 s2 e2 nested multi = spansOverlap s2 e2 s1 e1 nested multi.
Proof.
  unfold spansOverlap.
  rewrite (Nat.eqb_sym s2 s1), (Nat.eqb_sym e2 e1).
  rewrite (orb_comm (e1 <? s2)).
  rewrite (orb_comm ((s2 <=? s1) && (e1 <=? e2))). reflexivity.
Qed.

Lemma overlaps_sym flatNer multiLabel a b :
  overlaps flatNer multiLabel a b = overlaps flatNer multiLabel b a.
Proof. apply spansOverlap_sym. Qed.

(** The decision table of [spansOverlap], clause by clause. *)
Lemma spansOverlap_table s1 e1 s2 e2 allowNested allowMultiLabel :
  let same := s1 = s2 ∧ e1 = e2 in
  let disjoint := s1 > e2 ∨ s2 > e1 in
  let nested := (s1 ≤ s2 ∧ e1 ≥ e2) ∨ (s2 ≤ s1 ∧ e2 ≥ e1) in
  let r := spansOverlap s1 e1 s2 e2 allowNested allowMultiLabel in
  (same → r = negb allowMultiLabel)
  ∧ (¬ same → disjoint → r = false)
  ∧ (¬ same → ¬ disjoint → allowNested = true → nested → r = false)
  ∧ (¬ same → ¬ disjoint → allowNested = false ∨ ¬ nested → r = true).
Proof.
  cbn zeta. unfold spansOverlap.
  destruct (Nat.eqb_spec s1 s2), (Nat.eqb_spec e1 e2),
    (Nat.ltb_spec e2 s1), (Nat.ltb_spec e1 s2),
    (Nat.leb_spec s1 s2), (Nat.leb_spec e2 e1),
    (Nat.leb_spec s2 s1), (Nat.leb_spec e1 e2), allowNested;
    cbn; repeat split; intros; try done; try lia.
  all: try (exfalso; lia).
  all: try match goal with H : _ ∨ _ |- _ => destruct H; try done; exfalso; lia end.
Qed.

(** C3. [greedySearch] sorts the candidates by score, highest first (stably),
    examines them in that order and accepts a candidate exactly when
    [spansOverlap] reports no conflict with an entity accepted before it; the
    accepted entities are returned in ascending order of start offset. The
    conflict predicate is the stated decision table. Consequently no two
    returned entities conflict, and every candidate that is not returned
    conflicts with a returned entity whose score is at least its own. *)
Theorem greedySearch_spec (spans : list RawSpan) (flatNer multiLabel : bool) :
  let conflicts := overlaps flatNer multiLabel in
  let sorted := jsSort byScoreDesc spans in
  let accepted := acceptLoop conflicts in
  let result := greedySearch spans flatNer multiLabel in
  (sorted ≡ₚ spans
   ∧ StronglySorted (λ a b, (span_score b <= span_score a)%Q) sorted
   ∧ ∀ q, filter (λ x, Qeq_bool (span_score x) q = true) sorted
          = filter (λ x, Qeq_bool (span_score x) q = true) spans)
  ∧ (∀ pre x post, sorted = pre ++ x :: post →
       accepted (pre ++ [x]) =
       if existsb (conflicts x) (accepted pre) then accepted pre
       else accepted pre ++ [x])
  ∧ (∀ a b,
       let same := span_start a = span_start b ∧ span_end a = span_end b in
       let disjoint := span_start a > span_end b ∨ span_start b > span_end a in
       let nested := (span_start a ≤ span_start b ∧ span_end a ≥ span_end b)
                     ∨ (span_start b ≤ span_start a ∧ span_end b ≥ span_end a) in
       (same → conflicts a b = negb multiLabel)
       ∧ (¬ same → disjoint → conflicts a b = false)
       ∧ (¬ same → ¬ disjoint → flatNer = false → nested → conflicts a b = false)
       ∧ (¬ same → ¬ disjoint → flatNer = true ∨ ¬ nested → conflicts a b = true))
  ∧ (result ≡ₚ accepted sorted
     ∧ StronglySorted (λ a b, span_start a ≤ span_start b) result)
  ∧ (∀ i j a b, i ≠ j → result !! i = Some a → result !! j = Some b →
       conflicts a b = false)
  ∧ (∀ x, x ∈ spans →
       x ∈ result
       ∨ ∃ y, y ∈ result ∧ conflicts x y = true ∧ (span_score x <= span_score y)%Q).
Proof.
  intros conflicts sorted accepted result.
  assert (Hres : result ≡ₚ accepted sorted) by apply jsSort_perm.
  split; [|split; [|split; [|split; [|split]]]].
  - split; [apply jsSort_perm|]. split; [apply jsSort_byScoreDesc_sorted|].
    intros q. apply (jsSort_stable byScoreDesc (λ x, Qeq_bool (span_score x) q)).
    intros x y Hx Hlt. cbn beta in *. unfold byScoreDesc in Hlt.
    apply (proj1 (signQ_sub_Lt _ _)) in Hlt. apply Qeq_bool_iff in Hx.
    apply not_true_is_false. intros Hy. apply Qeq_bool_iff in Hy.
    rewrite Hx, Hy in Hlt. by apply Qlt_irrefl in Hlt.
  - intros pre x post _. apply acceptLoop_snoc.
  - intros a b. cbn zeta.
    pose proof (spansOverlap_table (span_start a) (span_end a) (span_start b)
                  (span_end b) (negb flatNer) multiLabel) as H.
    cbn zeta in H. destruct H as (H1 & H2 & H3 & H4).
    repeat split; [done|done|..].
    + intros Hs Hd ->. by apply H3.
    + intros Hs Hd [->|Hn]; apply H4; auto.
  - split; [done|apply jsSort_byStartAsc_sorted].
  - intros i j a b Hij Hi Hj.
    eapply (NoConflict_lookup conflicts result); [|done..].
    eapply NoConflict_perm; [symmetry; exact Hres|].
    apply acceptLoop_NoConflict, overlaps_sym.
  - intros x Hx.
    assert (Hxs : x ∈ sorted) by (by apply jsSort_elem_of).
    destruct (acceptLoop_dominated conflicts sorted x Hxs) as [Hk|(y & Hy & Hc & Hb)].
    + left. by rewrite Hres.
    + right. exists y. split; [by rewrite Hres|]. split; [done|].
      apply (StronglySorted_before
               (λ a b, (span_score b <= span_score a)%Q) sorted y x); [|done].
      apply jsSort_byScoreDesc_sorted.
Qed.

(** The second pass sees a list that is in ascending order of start offset
    and, within one start offset, in descending order of score. *)
Lemma byStartAsc_keeps_start k l :
  filter (λ x, span_start x = k) (jsSort byStartAsc l)
  = filter (λ x, span_start x = k) l.
Proof.
  apply jsSort_keeps_class. intros x y Hx Hlt Hy. unfold byStartAsc in Hlt.
  apply (proj1 (signZ_sub_Lt _ _)) in Hlt. lia.
Qed.

Lemma byScoreDesc_sorted_id l :
  StronglySorted (λ a b, (span_score b <= span_score a)%Q) l →
  jsSort byScoreDesc l = l.
Proof.
  apply jsSort_sorted_id. intros x y Hle Hlt. unfold byScoreDesc in Hlt.
  apply (proj1 (signQ_sub_Lt _ _)) in Hlt. lra.
Qed.

Lemma filter_byScoreDesc (P : RawSpan → Prop) `{!∀ x, Decision (P x)} l :
  filter P (jsSort byScoreDesc l) = jsSort byScoreDesc (filter P l).
Proof.
  apply (filter_jsSort byScoreDesc (λ a b, (span_score b <= span_score a)%Q));
    unfold byScoreDesc; intros x y.
  - intros Hlt. apply (proj1 (signQ_sub_Lt _ _)) in Hlt. lra.
  - intros Hge. by apply (proj1 (signQ_sub_not_Lt _ _)) in Hge.
  - intros Hle Hlt. apply (proj1 (signQ_sub_Lt _ _)) in Hlt. lra.
Qed.

(** C7. Resolving the overlaps of an already resolved list changes nothing:
    the second pass returns the same entities, in the same order. *)
Theorem greedySearch_idempotent (spans : list RawSpan) (flatNer multiLabel : bool) :
  greedySearch (greedySearch spans flatNer multiLabel) flatNer multiLabel
  = greedySearch spans flatNer multiLabel.
Proof.
  set (once := greedySearch spans flatNer multiLabel).
  assert (Hnc : NoConflict (overlaps flatNer multiLabel) (jsSort byScoreDesc once)).
  { eapply NoConflict_perm; [symmetry; apply jsSort_perm|].
    subst once. unfold greedySearch. cbn zeta.
    eapply NoConflict_perm; [symmetry; apply jsSort_perm|].
    apply acceptLoop_NoConflict, overlaps_sym. }
  unfold greedySearch at 1. cbn zeta. rewrite acceptLoop_id by done.
  apply (sorted_by_key_unique span_start);
    [apply jsSort_byStartAsc_sorted|apply jsSort_byStartAsc_sorted|].
  intros k. rewrite byStartAsc_keeps_start, filter_byScoreDesc.
  apply byScoreDesc_sorted_id.
  subst once. unfold greedySearch. cbn zeta. rewrite byStartAsc_keeps_start.
  eapply StronglySorted_sublist; [|apply jsSort_byScoreDesc_sorted].
  etransitivity; [apply sublist_filter|apply acceptLoop_sublist].
Qed.
(** ** Entity de-duplication (GLiNER2) *)

Import GLiNER2Dedup GLiNER2Decoder.

Lemma deduplicateEntities_unfold entities :
  deduplicateEntities entities
  = acceptLoop sameLabelIntersect (jsSort GLiNER2Dedup.byScoreDesc entities).
Proof. by destruct entities. Qed.

Lemma sameLabelIntersect_true a b :
  sameLabelIntersect a b = true
  ↔ label a = label b ∧ start a < end_ b ∧ end_ a > start b.
Proof.
  unfold sameLabelIntersect.
  rewrite !andb_true_iff, bool_decide_eq_true, !Nat.ltb_lt. intuition lia.
Qed.

Lemma sameLabelIntersect_sym a b : sameLabelIntersect a b = sameLabelIntersect b a.
Proof.
  apply eq_true_iff_eq. rewrite !sameLabelIntersect_true.
  split; intros (-> & ? & ?); repeat split; lia.
Qed.

Lemma jsSort_entities_sorted entities :
  StronglySorted (λ a b, (score b <= score a)%Q)
    (jsSort GLiNER2Dedup.byScoreDesc entities).
Proof.
  apply jsSort_sorted; [apply _|..]; unfold GLiNER2Dedup.byScoreDesc; intros x y.
  - intros Hlt. apply (proj1 (signQ_sub_Lt _ _)) in Hlt. lra.
  - intros Hge. by apply (proj1 (signQ_sub_not_Lt _ _)) in Hge.
Qed.

Lemma forRangeM_inv {S : Type} (P : S → Prop) n (body : nat → S → option S) st r :
  P st → (∀ i s s', P s → body i s = Some s' → P s') →
  forRangeM n body st = Some r → P r.
Proof.
  intros H0 Hstep. unfold forRangeM. revert r.
  induction n as [|n IH]; intros r; [cbn; congruence|].
  rewrite seq_S, fold_left_app. cbn.
  destruct (fold_left _ (seq 0 n) (Some st)) as [s|] eqn:E; [|done].
  cbn. intros Hr. eapply Hstep; [|exact Hr]. by apply IH.
Qed.

(** C9. Among the entities [deduplicateEntities] returns, no two at different
    positions carry the same label and intersecting character ranges
    ([a.start < b.end] and [a.end > b.start]); every candidate that is dropped
    intersects a returned entity of its own label whose score is at least as
    high. Entities with different labels never exclude one another, whatever
    their ranges. The function takes the candidate list alone, and
    [decodeEntities] returns its result unchanged. *)
Theorem deduplicateEntities_spec (entities : list Entity) :
  let kept := deduplicateEntities entities in
  kept ⊆+ entities
  ∧ (∀ i j a b, i ≠ j → kept !! i = Some a → kept !! j = Some b →
       ¬ (label a = label b ∧ start a < end_ b ∧ end_ a > start b))
  ∧ (∀ x, x ∈ entities →
       x ∈ kept
       ∨ ∃ y, y ∈ kept ∧ label x = label y ∧ start x < end_ y ∧ end_ x > start y
              ∧ (score x <= score y)%Q)
  ∧ (∀ x y, label x ≠ label y → deduplicateEntities [x; y] ≡ₚ [x; y])
  ∧ (∀ scoreData wordCount labels wordOffsets text threshold out,
       decodeEntities scoreData wordCount labels wordOffsets text threshold
         = Some out →
       ∃ candidates, out = deduplicateEntities candidates).
Proof.
  intros kept. subst kept. rewrite deduplicateEntities_unfold.
  split; [|split; [|split; [|split]]].
  - rewrite <- (jsSort_perm GLiNER2Dedup.byScoreDesc entities) at 2.
    apply sublist_submseteq, acceptLoop_sublist.
  - intros i j a b Hij Hi Hj Hc. apply sameLabelIntersect_true in Hc.
    assert (Hn : sameLabelIntersect a b = false); [|congruence].
    eapply (NoConflict_lookup sameLabelIntersect _ i j a b); [|done..].
    apply acceptLoop_NoConflict, sameLabelIntersect_sym.
  - intros x Hx.
    assert (Hxs : x ∈ jsSort GLiNER2Dedup.byScoreDesc entities)
      by (by apply jsSort_elem_of).
    destruct (acceptLoop_dominated sameLabelIntersect _ x Hxs)
      as [Hk|(y & Hy & Hc & Hb)]; [by left|right].
    exists y. apply sameLabelIntersect_true in Hc as (? & ? & ?).
    repeat split; [done..|].
    eapply (StronglySorted_before (λ a b, (score b <= score a)%Q)); [|done].
    apply jsSort_entities_sorted.
  - intros x y Hl. rewrite deduplicateEntities_unfold.
    rewrite acceptLoop_id; [apply jsSort_perm|].
    eapply NoConflict_perm; [symmetry; apply jsSort_perm|].
    assert (Hxy : sameLabelIntersect x y = false).
    { apply not_true_is_false. rewrite sameLabelIntersect_true. tauto. }
    constructor; [|repeat constructor].
    constructor; [|constructor]. by rewrite (sameLabelIntersect_sym y x).
  - intros scoreData wordCount labels wordOffsets text threshold out.
    unfold decodeEntities. intros H.
    destruct (forRangeM _ _ _) as [candidates|]; [|done].
    cbn in H. exists candidates. congruence.
Qed.
(** ** ClassificationDecoder *)

Lemma Qlt_bool_iff (a b : Q) : Qlt_bool a b = true ↔ (a < b)%Q.
Proof.
  unfold Qlt_bool. rewrite negb_true_iff, <- not_true_iff_false, Qle_bool_iff.
  split; [apply Qnot_le_lt|apply Qlt_not_le].
Qed.

Lemma Qlt_bool_false (a b : Q) : Qlt_bool a b = false ↔ (b <= a)%Q.
Proof. unfold Qlt_bool. by rewrite negb_false_iff, Qle_bool_iff. Qed.

Section Classification.
Context `{FloatOps}.

Lemma length_softmax values : length (softmax values) = length values.
Proof.
  unfold softmax. destruct values as [|v values]; [done|]. cbn [fold_left].
  assert (Hm : ∀ l m, ∃ m', fold_left (λ (maxVal : option Q) val,
      match maxVal with
      | None => Some val
      | Some m => if Qlt_bool m val then Some val else Some m
      end) l (Some m) = Some m').
  { induction l as [|x l IH]; intros m; cbn; [by eexists|].
    destruct (Qlt_bool m x); apply IH. }
  destruct (Hm values v) as [m' ->]. by rewrite !length_map.
Qed.


Import GLiNER2Decoder.

(** The arg-max loop of [decodeSingleLabel] over the indices [1 .. m]. *)
Lemma argmax_loop (probs : list Q) p0 m :
  probs !! 0 = Some p0 →
  ∃ best p,
    fold_left (λ '(bestIdx, bestProb) i,
      match probs !! i, bestProb with
      | Some p, Some best =>
          if Qlt_bool best p then (i, Some p) else (bestIdx, bestProb)
      | _, _ => (bestIdx, bestProb)
      end) (seq 1 m) (0, Some p0) = (best, Some p)
    ∧ best < S m
    ∧ probs !! best = Some p
    ∧ (∀ j q, j < S m → probs !! j = Some q → (q <= p)%Q)
    ∧ (∀ j q, j < best → probs !! j = Some q → (q < p)%Q).
Proof.
  intros H0. induction m as [|m (best & p & Hf & Hb & Hp & Hmax & Hfirst)].
  - exists 0, p0. cbn. repeat split; [lia|done|..].
    + intros j q Hj Hq. assert (j = 0) as -> by lia. simplify_eq. apply Qle_refl.
    + intros j q Hj. lia.
  - rewrite seq_S, fold_left_app, Hf. cbn.
    destruct (probs !! S m) as [pm|] eqn:Em.
    + destruct (Qlt_bool p pm) eqn:Elt.
      * apply Qlt_bool_iff in Elt. exists (S m), pm.
        repeat split; [lia|done|..].
        -- intros j q Hj Hq. destruct (decide (j = S m)) as [->|Hne].
           ++ simplify_eq. apply Qle_refl.
           ++ assert (q <= p)%Q by (apply (Hmax j); [lia|done]). lra.
        -- intros j q Hj Hq.
           assert (q <= p)%Q by (apply (Hmax j); [lia|done]). lra.
      * apply Qlt_bool_false in Elt. exists best, p.
        repeat split; [lia|done|..|done].
        intros j q Hj Hq. destruct (decide (j = S m)) as [->|Hne].
        -- by simplify_eq.
        -- apply (Hmax j); [lia|done].
    + exists best, p. repeat split; [lia|done|..|done].
      intros j q Hj Hq. destruct (decide (j = S m)) as [->|Hne]; [congruence|].
      apply (Hmax j); [lia|done].
Qed.

(** Without a first probability the loop changes nothing. *)
Lemma argmax_loop_undefined (probs : list Q) l :
  fold_left (λ '(bestIdx, bestProb) i,
    match probs !! i, bestProb with
    | Some p, Some best =>
        if Qlt_bool best p then (i, Some p) else (bestIdx, bestProb)
    | _, _ => (bestIdx, bestProb)
    end) l (0, @None Q) = (0, None).
Proof. induction l as [|i l IH]; [done|]. cbn. by destruct (probs !! i). Qed.

Lemma decodeSingleLabel_argmax logits labels :
  logits ≠ [] → labels ≠ [] →
  ∃ best l p,
    decodeSingleLabel logits labels = {[ l := Some p ]}
    ∧ labels !! best = Some l
    ∧ softmax logits !! best = Some p
    ∧ (∀ j q, j < length labels → softmax logits !! j = Some q → (q <= p)%Q)
    ∧ (∀ j q, j < best → softmax logits !! j = Some q → (q < p)%Q).
Proof.
  intros Hlogits Hlabels. unfold decodeSingleLabel. cbn zeta.
  destruct (softmax logits !! 0) as [p0|] eqn:E0.
  2:{ apply lookup_ge_None in E0. rewrite length_softmax in E0.
      destruct logits; [done|cbn in E0; lia]. }
  destruct (argmax_loop (softmax logits) p0 (length labels - 1) E0)
    as (best & p & -> & Hb & Hp & Hmax & Hfirst).
  assert (Hlen : 0 < length labels) by (destruct labels; [done|cbn; lia]).
  destruct (lookup_lt_is_Some_2 labels best) as [l Hl]; [lia|].
  exists best, l, p. rewrite Hl. cbn. repeat split; [done..| |done].
  intros j q Hj. apply Hmax. lia.
Qed.

(** The one entry of [decodeSingleLabel], for any logits: a requested label,
    with a softmax probability, or with [undefined] when there is no logit. *)
Lemma decodeSingleLabel_entry logits labels :
  labels ≠ [] →
  ∃ l v, decodeSingleLabel logits labels = {[ l := v ]} ∧ l ∈ labels
         ∧ match v with
           | Some p => p ∈ softmax logits
           | None => logits = []
           end.
Proof.
  intros Hlabels. destruct (decide (logits = [])) as [->|Hlogits].
  - unfold decodeSingleLabel. cbn zeta.
    change (softmax [] !! 0) with (@None Q). rewrite argmax_loop_undefined.
    destruct labels as [|l labels]; [done|]. exists l, None. cbn.
    split; [done|]. split; [by left|done].
  - destruct (decodeSingleLabel_argmax logits labels Hlogits Hlabels)
      as (best & l & p & -> & Hl & Hp & _).
    exists l, (Some p). split; [done|]. split; by eapply list_elem_of_lookup_2.
Qed.

(** The partial result of [decodeMultiLabel] after [k] iterations. *)
Lemma decodeMultiLabel_inv (probs : list Q) (labels : list jsstring) threshold k :
  let R := forRange k (λ i (results : ClassificationResult),
    match probs !! i, labels !! i with
    | Some p, Some l => if Qle_bool threshold p then assign l p results else results
    | _, _ => results
    end) ∅ in
  (∀ l v, R !! l = Some v →
     l ≠ utf16 "__proto__"
     ∧ ∃ i p, i < k ∧ labels !! i = Some l ∧ probs !! i = Some p ∧ v = Some p
              ∧ (threshold <= p)%Q)
  ∧ (∀ i l p, i < k → labels !! i = Some l → probs !! i = Some p →
       (threshold <= p)%Q → l ≠ utf16 "__proto__" → is_Some (R !! l))
  ∧ (NoDup labels → ∀ i l p, i < k → labels !! i = Some l → probs !! i = Some p →
       (threshold <= p)%Q → l ≠ utf16 "__proto__" → R !! l = Some (Some p)).
Proof.
  induction k as [|k IH]; cbn zeta.
  - split; [|split].
    + intros l p. unfold forRange. cbn. by rewrite lookup_empty.
    + intros; lia.
    + intros; lia.
  - cbn zeta in IH. destruct IH as (IH1 & IH2 & IH3). rewrite forRange_S.
    set (R := forRange k _ ∅) in *.
    assert (Hkeep :
      (∀ l v, R !! l = Some v →
         l ≠ utf16 "__proto__"
         ∧ ∃ i p, i < S k ∧ labels !! i = Some l ∧ probs !! i = Some p ∧ v = Some p
                  ∧ (threshold <= p)%Q)).
    { intros l v Hl. destruct (IH1 l v Hl) as (Hne & i & p & ? & ?).
      split; [done|]. exists i, p. split; [lia|done]. }
    destruct (probs !! k) as [pk|] eqn:Ep, (labels !! k) as [lk|] eqn:El.
    2-4: (split; [exact Hkeep|split]);
      [ intros i l p Hi Hl Hp Hpass Hne; destruct (decide (i = k)) as [->|];
        [congruence|]; apply (IH2 i l p); [lia|done..]
      | intros Hnd i l p Hi Hl Hp Hpass Hne; destruct (decide (i = k)) as [->|];
        [congruence|]; apply (IH3 Hnd i l p); [lia|done..] ].
    destruct (Qle_bool threshold pk) eqn:Epass.
    + apply Qle_bool_iff in Epass. unfold assign.
      destruct (decide (lk = utf16 "__proto__")) as [Hproto|Hproto].
      { split; [exact Hkeep|split].
        - intros i l p Hi Hl Hp Hpass Hne. destruct (decide (i = k)) as [->|].
          + congruence.
          + apply (IH2 i l p); [lia|done..].
        - intros Hnd i l p Hi Hl Hp Hpass Hne. destruct (decide (i = k)) as [->|].
          + congruence.
          + apply (IH3 Hnd i l p); [lia|done..]. }
      split; [|split].
      * intros l v. destruct (decide (lk = l)) as [->|Hne].
        -- rewrite lookup_insert_eq. intros [= <-]. split; [done|].
           exists k, pk. repeat split; [lia|done..].
        -- rewrite lookup_insert_ne by done. apply Hkeep.
      * intros i l p Hi Hl Hp Hpass Hnp. destruct (decide (lk = l)) as [->|Hne].
        -- rewrite lookup_insert_eq. by eexists.
        -- rewrite lookup_insert_ne by done.
           destruct (decide (i = k)) as [->|]; [congruence|].
           apply (IH2 i l p); [lia|done..].
      * intros Hnd i l p Hi Hl Hp Hpass Hnp. destruct (decide (i = k)) as [->|Hik].
        -- simplify_eq. by rewrite lookup_insert_eq.
        -- destruct (decide (lk = l)) as [->|Hne].
           ++ exfalso. apply Hik. by eapply NoDup_lookup.
           ++ rewrite lookup_insert_ne by done. apply (IH3 Hnd i l p); [lia|done..].
    + assert (Hfail : ¬ (threshold <= pk)%Q).
      { rewrite <- Qle_bool_iff. congruence. }
      split; [exact Hkeep|split].
      * intros i l p Hi Hl Hp Hpass Hnp. destruct (decide (i = k)) as [->|].
        -- by simplify_eq.
        -- apply (IH2 i l p); [lia|done..].
      * intros Hnd i l p Hi Hl Hp Hpass Hnp. destruct (decide (i = k)) as [->|].
        -- by simplify_eq.
        -- apply (IH3 Hnd i l p); [lia|done..].
Qed.

End Classification.

Import GLiNER2Decoder.




(** The example of the specification: logits [2.0, 0.1, -1.0] over the labels
    a, b, c select the label a alone. *)
Example decodeSingleLabel_abc :
  ∃ p, decodeSingleLabel [2; 1 # 10; -1]%Q [utf16 "a"; utf16 "b"; utf16 "c"]
       = {[ utf16 "a" := Some p ]}.
Proof. eexists. vm_compute. reflexivity. Qed.
(** ** SpanDecoder *)

Section SpanDecoder.
Import GLiNER1Decoder.
Context `{FloatOps}.
Context (maxWidth batchSize inputLength entityCount : nat).
Context (texts : list jsstring) (batchIds : list nat).
Context (charStartOffsets charEndOffsets : list (list nat)).
Context (idToClass : gmap nat jsstring) (modelOutput : list Q) (threshold : Q).

Let cand := candidateAt maxWidth inputLength entityCount texts batchIds
              charStartOffsets charEndOffsets idToClass modelOutput threshold.

(** The candidates of example [b] among the first [k] flat indices, in
    index order. *)
Let rowOf (b k : nat) : list RawSpan :=
  omap (λ idx, '(b', r) ← cand idx; if decide (b' = b) then Some r else None)
       (seq 0 k).

(** One iteration of the loop of [extractSpans]. *)
Let body (idx : nat) (spans : list (list RawSpan)) : option (list (list RawSpan)) :=
  match cand idx with
  | None => Some spans
  | Some (b, r) => row ← spans !! b; Some (<[b := row ++ [r]]> spans)
  end.

Lemma extractSpans_body :
  extractSpans maxWidth batchSize inputLength entityCount texts batchIds
    charStartOffsets charEndOffsets idToClass modelOutput threshold
  = forRangeM (length modelOutput) body (replicate batchSize []).
Proof.
  unfold extractSpans. cbn zeta.
  apply forRangeM_ext. intros idx spans Hidx.
  unfold body, cand, candidateAt.
  destruct (lookup_lt_is_Some_2 modelOutput idx Hidx) as [raw ->].
  cbn [mbind option_bind].
  unfold Qlt_bool, ENTITY_ID_OFFSET.
  destruct (Qle_bool threshold (sigmoid raw)); cbn [negb andb];
    [|by rewrite andb_false_r].
  rewrite andb_true_r.
  destruct (inputLength * maxWidth * entityCount) as [|stride] eqn:Es; [done|].
  change (S stride =? 0) with false. change (0 <? S stride) with true. cbv iota.
  destruct (charStartOffsets !! _) as [starts|]; [|done].
  destruct (charEndOffsets !! _) as [ends|]; [|done].
  cbn [mbind option_bind].
  destruct (Nat.leb_spec (length starts)
              ((idx / (maxWidth * entityCount)) mod inputLength)) as [Hs|Hs].
  { cbn [orb]. by rewrite (proj2 (lookup_ge_None _ _) Hs). }
  destruct (lookup_lt_is_Some_2 _ _ Hs) as [startChar ->].
  cbn [orb mbind option_bind].
  match goal with |- context [length ends <=? ?t] =>
    destruct (Nat.leb_spec (length ends) t) as [He|He] end.
  { by rewrite (proj2 (lookup_ge_None _ _) He). }
  destruct (lookup_lt_is_Some_2 _ _ He) as [endChar ->].
  cbn [mbind option_bind]. reflexivity.
Qed.

Lemma cand_batch idx b r : cand idx = Some (b, r) → b < length charStartOffsets.
Proof.
  unfold cand, candidateAt. intros Hc.
  destruct (modelOutput !! idx) as [raw|]; [cbn in Hc|done].
  destruct (_ && _); [|done].
  destruct (charStartOffsets !! _) as [starts|] eqn:Es; [|done].
  apply lookup_lt_Some in Es.
  destruct (charEndOffsets !! _) as [ends|]; [cbn in Hc|done].
  destruct (starts !! _); [cbn in Hc|done].
  destruct (ends !! _); [cbn in Hc|done]. by simplify_eq.
Qed.

Lemma rowOf_S b k :
  rowOf b (S k) = rowOf b k ++
    match cand k with
    | Some (b', r) => if decide (b' = b) then [r] else []
    | None => []
    end.
Proof.
  unfold rowOf. rewrite seq_S, omap_app. f_equal. cbn.
  destruct (cand k) as [[b' r]|]; [cbn|done]. by destruct (decide (b' = b)).
Qed.

Lemma extractSpans_rows k :
  length charStartOffsets ≤ batchSize →
  ∃ spans, forRangeM k body (replicate batchSize []) = Some spans
           ∧ length spans = batchSize
           ∧ ∀ b, b < batchSize → spans !! b = Some (rowOf b k).
Proof.
  intros Hlen. induction k as [|k (spans & Hk & Hl & Hrows)].
  - exists (replicate batchSize []). split; [done|]. split; [apply length_replicate|].
    intros b Hb. by rewrite lookup_replicate_2.
  - rewrite forRangeM_S, Hk. cbn [mbind option_bind]. unfold body at 1.
    destruct (cand k) as [[b' r]|] eqn:Ec.
    + pose proof (cand_batch k b' r Ec) as Hb'.
      rewrite (Hrows b') by lia. cbn [mbind option_bind].
      eexists. split; [done|]. split; [by rewrite length_insert|].
      intros b Hb. rewrite rowOf_S, Ec.
      destruct (decide (b' = b)) as [->|Hne].
      * rewrite list_lookup_insert_eq by lia. done.
      * rewrite list_lookup_insert_ne by done. rewrite app_nil_r. by apply Hrows.
    + exists spans. split; [done|]. split; [done|].
      intros b Hb. rewrite rowOf_S, Ec, app_nil_r. by apply Hrows.
Qed.

Lemma elem_of_rowOf b k r :
  r ∈ rowOf b k ↔ ∃ idx, idx < k ∧ cand idx = Some (b, r).
Proof.
  unfold rowOf. rewrite list_elem_of_omap. split.
  - intros (idx & Hidx & Hc). apply elem_of_seq in Hidx.
    destruct (cand idx) as [[b' r']|] eqn:Ec; [cbn in Hc|done].
    destruct (decide (b' = b)) as [->|]; [|done]. simplify_eq.
    exists idx. split; [lia|done].
  - intros (idx & Hidx & Hc). exists idx. split; [apply elem_of_seq; lia|].
    rewrite Hc. cbn. by rewrite decide_True.
Qed.

(** The candidate of a flat index, spelled out. *)
Lemma cand_spec idx b r :
  cand idx = Some (b, r) ↔
  ∃ raw starts ends startChar endChar,
    modelOutput !! idx = Some raw
    ∧ 0 < inputLength * maxWidth * entityCount
    ∧ (threshold <= sigmoid raw)%Q
    ∧ b = idx / (inputLength * maxWidth * entityCount)
    ∧ charStartOffsets !! b = Some starts
    ∧ charEndOffsets !! b = Some ends
    ∧ starts !! ((idx / (maxWidth * entityCount)) mod inputLength) = Some startChar
    ∧ ends !! ((idx / (maxWidth * entityCount)) mod inputLength
               + (idx / entityCount) mod maxWidth) = Some endChar
    ∧ r = {| span_text :=
               slice (default [] (texts !! default 0 (batchIds !! b))) startChar endChar;
             span_start := startChar;
             span_end := endChar;
             span_label := default [] (idToClass !! (idx mod entityCount + 1));
             span_score := sigmoid raw |}.
Proof.
  unfold cand, candidateAt. split.
  - intros Hc. destruct (modelOutput !! idx) as [raw|]; [cbn [mbind option_bind] in Hc|done].
    destruct (_ && _) eqn:Eg; [|done].
    apply andb_true_iff in Eg as [Hpos%Nat.ltb_lt Hthr%Qle_bool_iff].
    destruct (charStartOffsets !! _) as [starts|] eqn:Es; [cbn [mbind option_bind] in Hc|done].
    destruct (charEndOffsets !! _) as [ends|] eqn:Ee; [cbn [mbind option_bind] in Hc|done].
    destruct (starts !! _) as [startChar|] eqn:Esc; [cbn [mbind option_bind] in Hc|done].
    destruct (ends !! _) as [endChar|] eqn:Eec; [cbn [mbind option_bind] in Hc|done].
    simplify_eq. by exists raw, starts, ends, startChar, endChar.
  - intros (raw & starts & ends & startChar & endChar
            & -> & Hpos & Hthr & -> & H0 & H1 & H2 & H3 & ->).
    cbn [mbind option_bind].
    apply Nat.ltb_lt in Hpos. apply Qle_bool_iff in Hthr. rewrite Hpos, Hthr.
    cbn [andb]. rewrite H0, H1. cbn [mbind option_bind]. rewrite H2, H3. done.
Qed.

End SpanDecoder.

Import GLiNER1Processor GLiNER1Decoder.

(** The id-to-class map is 1-based: id [i + 1] names [entities[i]], and id 0
    names nothing. *)
Lemma buildIdToClass_lookup (entities : list jsstring) :
  buildIdToClass entities !! 0 = None
  ∧ ∀ i, buildIdToClass entities !! (i + 1) = entities !! i.
Proof.
  unfold buildIdToClass.
  assert (Hk : ∀ k, k ≤ length entities →
    let R := forRange k (λ i (idToClass : gmap nat jsstring),
               match entities !! i with
               | Some entity => <[i + 1 := entity]> idToClass
               | None => idToClass
               end) ∅ in
    R !! 0 = None ∧ ∀ i, R !! (i + 1) = if decide (i < k) then entities !! i else None).
  { induction k as [|k IH]; intros Hle; cbn zeta.
    - split; [done|]. intros i. rewrite decide_False by lia. done.
    - rewrite forRange_S. destruct IH as [IH0 IHi]; [lia|].
      destruct (lookup_lt_is_Some_2 entities k) as [e He]; [lia|]. rewrite He.
      split.
      + rewrite lookup_insert_ne by lia. done.
      + intros i. destruct (decide (i = k)) as [->|Hne].
        * rewrite lookup_insert_eq, decide_True by lia. done.
        * rewrite lookup_insert_ne by lia. rewrite IHi.
          destruct (decide (i < k)), (decide (i < S k)); try done; lia. }
  destruct (Hk (length entities)) as [H0 Hi]; [done|]. split; [done|].
  intros i. rewrite Hi. destruct (decide (i < length entities)); [done|].
  symmetry. apply lookup_ge_None. lia.
Qed.

(** C2. With offset tables for at most [batchSize] examples, [extractSpans]
    returns one row per example, and a candidate is in the row of example [b]
    exactly when it comes from a flat index [idx] of the score array such
    that: the strides are positive and [b = floor(idx / (inputLength *
    maxWidth * entityCount))]; the sigmoid of the raw value is not below the
    threshold; [startToken = floor(idx / (maxWidth * entityCount)) mod
    inputLength] and [endToken = startToken + floor(idx / entityCount) mod
    maxWidth] lie inside that example's start and end offset tables. The
    candidate's text is the slice of the example's text between the two
    character offsets, its label is the entry [idx mod entityCount + 1] of
    the id-to-class map, its score the sigmoid. Rows list their candidates in
    index order, and the id-to-class map built from the labels is 1-based. *)
Theorem extractSpans_spec `{FloatOps}
    (maxWidth batchSize inputLength entityCount : nat)
    (texts : list jsstring) (batchIds : list nat)
    (charStartOffsets charEndOffsets : list (list nat))
    (idToClass : gmap nat jsstring) (modelOutput : list Q) (threshold : Q) :
  length charStartOffsets ≤ batchSize →
  ∃ spans,
    extractSpans maxWidth batchSize inputLength entityCount texts batchIds
      charStartOffsets charEndOffsets idToClass modelOutput threshold = Some spans
    ∧ length spans = batchSize
    ∧ (∀ b r,
         (∃ row, spans !! b = Some row ∧ r ∈ row) ↔
         (∃ idx raw starts ends startChar endChar,
            modelOutput !! idx = Some raw
            ∧ 0 < inputLength * maxWidth * entityCount
            ∧ (threshold <= sigmoid raw)%Q
            ∧ b = idx / (inputLength * maxWidth * entityCount)
            ∧ charStartOffsets !! b = Some starts
            ∧ charEndOffsets !! b = Some ends
            ∧ starts !! ((idx / (maxWidth * entityCount)) mod inputLength)
              = Some startChar
            ∧ ends !! ((idx / (maxWidth * entityCount)) mod inputLength
                       + (idx / entityCount) mod maxWidth) = Some endChar
            ∧ r = {| span_text :=
                       slice (default [] (texts !! default 0 (batchIds !! b)))
                             startChar endChar;
                     span_start := startChar;
                     span_end := endChar;
                     span_label := default [] (idToClass !! (idx mod entityCount + 1));
                     span_score := sigmoid raw |}))
    ∧ (∀ b, b < batchSize →
         spans !! b = Some (omap (λ idx,
             '(b', r) ← candidateAt maxWidth inputLength entityCount texts batchIds
                          charStartOffsets charEndOffsets idToClass modelOutput
                          threshold idx;
             if decide (b' = b) then Some r else None)
           (seq 0 (length modelOutput))))
    ∧ (∀ entities : list jsstring,
         buildIdToClass entities !! 0 = None
         ∧ ∀ i, buildIdToClass entities !! (i + 1) = entities !! i).
Proof.
  intros Hlen. rewrite extractSpans_body.
  destruct (extractSpans_rows maxWidth batchSize inputLength entityCount texts
              batchIds charStartOffsets charEndOffsets idToClass modelOutput
              threshold (length modelOutput) Hlen) as (spans & Hs & Hl & Hrows).
  exists spans. split; [done|]. split; [done|]. split; [|split].
  - intros b r. split.
    + intros (row & Hrow & Hr).
      assert (Hb : b < batchSize) by (rewrite <- Hl; by eapply lookup_lt_Some).
      rewrite (Hrows b Hb) in Hrow. injection Hrow as <-.
      apply elem_of_rowOf in Hr as (idx & _ & Hc).
      apply cand_spec in Hc as (raw & starts & ends & sc & ec & Hc).
      by exists idx, raw, starts, ends, sc, ec.
    + intros (idx & raw & starts & ends & sc & ec & Hc).
      assert (Hcand : candidateAt maxWidth inputLength entityCount texts batchIds
                        charStartOffsets charEndOffsets idToClass modelOutput
                        threshold idx = Some (b, r)).
      { apply cand_spec. by exists raw, starts, ends, sc, ec. }
      assert (Hb : b < batchSize).
      { pose proof (cand_batch _ _ _ _ _ _ _ _ _ _ _ _ _ Hcand). lia. }
      eexists. split; [by apply Hrows|]. apply elem_of_rowOf.
      exists idx. split; [|done]. destruct Hc as (Hraw & _).
      by eapply lookup_lt_Some.
  - done.
  - apply buildIdToClass_lookup.
Qed.

(** Two words, width 2, one label: the scores at flat indices 0 and 2 (the
    one-word spans) pass; index 1 is below the threshold and index 3 ends
    past the last word. *)
Example extractSpans_ab_cd :
  extractSpans (H := rationalOps) 2 1 2 1 [utf16 "ab cd"] [0] [[0; 3]] [[2; 5]]
    {[1 := utf16 "x"]} [3; -3; 3; 3]%Q (1 # 2)%Q
  = Some [[ {| span_text := utf16 "ab"; span_start := 0; span_end := 2;
               span_label := utf16 "x"; span_score := (4 # 5)%Q |};
            {| span_text := utf16 "cd"; span_start := 3; span_end := 5;
               span_label := utf16 "x"; span_score := (4 # 5)%Q |} ]].
Proof. vm_compute. reflexivity. Qed.

Lemma extractSpans_witness :
  length [[0; 3]] ≤ 1
  ∧ ∃ spans,
      extractSpans (H := rationalOps) 2 1 2 1 [utf16 "ab cd"] [0] [[0; 3]] [[2; 5]]
        {[1 := utf16 "x"]} [3; -3; 3; 3]%Q (1 # 2)%Q = Some spans
      ∧ length spans = 1.
Proof.
  split; [cbn; lia|].
  destruct (extractSpans_spec (H := rationalOps) 2 1 2 1 [utf16 "ab cd"] [0]
              [[0; 3]] [[2; 5]] {[1 := utf16 "x"]} [3; -3; 3; 3]%Q (1 # 2)%Q)
    as (spans & Hs & Hl & _); [cbn; lia|].
  exists spans. by split.
Defined.
(** ** The regular-expression matcher *)

Lemma elem_of_flat_map {A B : Type} (f : A → list B) (l : list A) (y : B) :
  y ∈ flat_map f l ↔ ∃ x, x ∈ l ∧ y ∈ f x.
Proof.
  rewrite list_elem_of_In, in_flat_map.
  by setoid_rewrite list_elem_of_In.
Qed.

Lemma matchStar_suffix (m : list N → list (list N)) :
  (∀ s rest, rest ∈ m s → rest `suffix_of` s) →
  ∀ fuel s rest, rest ∈ matchStar m fuel s → rest `suffix_of` s.
Proof.
  intros Hm. induction fuel as [|fuel IH]; intros s rest; cbn [matchStar].
  - by intros ->%list_elem_of_singleton.
  - rewrite elem_of_app, elem_of_flat_map, list_elem_of_singleton.
    intros [(mid & Hmid & Hrest)| ->]; [|done].
    destruct (length mid <? length s); [|by apply elem_of_nil in Hrest].
    transitivity mid; [by apply IH|by apply Hm].
Qed.

(** Every match leaves a suffix of the input. *)
Lemma matches_suffix r s rest : rest ∈ matches r s → rest `suffix_of` s.
Proof.
  revert s rest. induction r as [p| |r1 IH1 r2 IH2|r1 IH1 r2 IH2|r IH];
    intros s rest; cbn [matches].
  - destruct s as [|c s]; [by intros ?%elem_of_nil|].
    destruct (p c); [|by intros ?%elem_of_nil].
    intros ->%list_elem_of_singleton. by apply suffix_cons_r.
  - by intros ->%list_elem_of_singleton.
  - rewrite elem_of_flat_map. intros (mid & Hmid & Hrest).
    transitivity mid; [by apply IH2|by apply IH1].
  - rewrite elem_of_app. intros [?|?]; [by apply IH1|by apply IH2].
  - by apply matchStar_suffix.
Qed.

Lemma matches_consumes r s rest :
  consumes r = true → rest ∈ matches r s → length rest < length s.
Proof.
  revert s rest. induction r as [p| |r1 IH1 r2 IH2|r1 IH1 r2 IH2|r IH];
    intros s rest Hc; cbn [matches]; cbn in Hc; try done.
  - destruct s as [|c s]; [by intros ?%elem_of_nil|].
    destruct (p c); [|by intros ?%elem_of_nil].
    intros ->%list_elem_of_singleton. cbn. lia.
  - rewrite elem_of_flat_map. intros (mid & Hmid & Hrest).
    pose proof (suffix_length _ _ (matches_suffix _ _ _ Hmid)).
    pose proof (suffix_length _ _ (matches_suffix _ _ _ Hrest)).
    apply orb_true_iff in Hc as [Hc|Hc].
    + specialize (IH1 _ _ Hc Hmid). lia.
    + specialize (IH2 _ _ Hc Hrest). lia.
  - apply andb_true_iff in Hc as [Hc1 Hc2].
    rewrite elem_of_app. intros [?|?]; [by apply IH1|by apply IH2].
Qed.

Lemma suffix_is_drop {A : Type} (rest s : list A) :
  rest `suffix_of` s → rest = drop (length s - length rest) s.
Proof.
  intros [pre ->]. rewrite length_app.
  replace (length pre + length rest - length rest) with (length pre) by lia.
  by rewrite drop_app_length.
Qed.

(** The first match of an alternation is the first match of its first
    alternative that matches. *)
Lemma head_matches_Alt r1 r2 s :
  head (matches (Alt r1 r2) s)
  = match matches r1 s with rest :: _ => Some rest | [] => head (matches r2 s) end.
Proof. cbn [matches]. by destruct (matches r1 s). Qed.

Lemma firstRule_single r s : firstRule [r] s = head (matches r s).
Proof. cbn. by destruct (matches r s). Qed.

(** *** The search and the [exec] loop *)

Section ExecLoop.
Context (pattern : regex) (rules : list regex).
Hypothesis pattern_rules : ∀ s, head (matches pattern s) = firstRule rules s.
Hypothesis pattern_consumes : consumes pattern = true.

Lemma search_spec (text : list N) (pos : nat) :
  pos ≤ length text →
  match search pattern (drop pos text) pos with
  | Some (index, e) =>
      pos ≤ index ∧ index < e ∧ e ≤ length text
      ∧ (∀ p, pos ≤ p < index → firstRule rules (drop p text) = None)
      ∧ firstRule rules (drop index text) = Some (drop e text)
  | None => ∀ p, pos ≤ p ≤ length text → firstRule rules (drop p text) = None
  end.
Proof.
  intros Hpos. remember (length text - pos) as n eqn:Hn.
  revert pos Hpos Hn. induction n as [|n IH]; intros pos Hpos Hn.
  - assert (pos = length text) as -> by lia. rewrite drop_all. cbn [search].
    destruct (matches pattern []) as [|rest l] eqn:Em.
    + intros p Hp. assert (p = length text) as -> by lia.
      by rewrite drop_all, <- pattern_rules, Em.
    + assert (Hr : rest ∈ matches pattern []) by (rewrite Em; by left).
      apply (matches_consumes _ _ _ pattern_consumes) in Hr. cbn in Hr. lia.
  - destruct (drop pos text) as [|c s'] eqn:Ed.
    { apply (f_equal length) in Ed. rewrite length_drop in Ed. cbn in Ed. lia. }
    cbn [search]. destruct (matches pattern (c :: s')) as [|rest l] eqn:Em.
    + assert (Hs' : s' = drop (S pos) text).
      { replace (S pos) with (pos + 1) by lia.
        by rewrite <- drop_drop, Ed. }
      rewrite Hs'. specialize (IH (S pos)).
      assert (Hlen : pos < length text).
      { apply (f_equal length) in Ed. rewrite length_drop in Ed. cbn in Ed. lia. }
      specialize (IH ltac:(lia) ltac:(lia)).
      assert (H0 : firstRule rules (drop pos text) = None)
        by (by rewrite Ed, <- pattern_rules, Em).
      destruct (search pattern (drop (S pos) text) (S pos)) as [[index e]|].
      * destruct IH as (? & ? & ? & Hgap & Hm). repeat split; [lia|lia|lia| |done].
        intros p Hp. destruct (decide (p = pos)) as [->|]; [done|].
        apply Hgap. lia.
      * intros p Hp. destruct (decide (p = pos)) as [->|]; [done|].
        apply IH. lia.
    + assert (Hr : rest ∈ matches pattern (c :: s')) by (rewrite Em; by left).
      pose proof (matches_consumes _ _ _ pattern_consumes Hr) as Hlt.
      pose proof (matches_suffix _ _ _ Hr) as Hsuf.
      pose proof (suffix_length _ _ Hsuf) as Hle.
      assert (Hdl : length (c :: s') = length text - pos)
        by (by rewrite <- Ed, length_drop).
      repeat split; [lia|lia|lia|intros; lia|].
      rewrite Ed, <- pattern_rules, Em. cbn [head]. f_equal.
      pose proof (suffix_is_drop _ _ Hsuf) as Hrest.
      rewrite <- Ed, drop_drop in Hrest. by rewrite <- Ed.
Qed.

(** The loop ends within [length text - lastIndex + 1] iterations, leaves
    [lastIndex] at 0, and yields the tokenization from [lastIndex] on. *)
Lemma execAll_spec (text : list N) (fuel lastIndex : nat) :
  lastIndex ≤ length text → length text - lastIndex < fuel →
  ∃ tokens, execAll fuel pattern text lastIndex = (Some tokens, 0)
            ∧ Tokenized rules text lastIndex tokens.
Proof.
  revert lastIndex. induction fuel as [|fuel IH]; intros lastIndex Hle Hfuel; [lia|].
  cbn [execAll]. unfold exec.
  destruct (Nat.ltb_spec (length text) lastIndex) as [?|_]; [lia|].
  pose proof (search_spec text lastIndex Hle) as Hs.
  destruct (search pattern (drop lastIndex text) lastIndex) as [[index e]|].
  - destruct Hs as (H1 & H2 & H3 & Hgap & Hm).
    destruct (IH e) as (tokens & -> & Htok); [lia|lia|].
    eexists. split; [reflexivity|]. by constructor.
  - exists []. split; [done|]. by constructor.
Qed.

End ExecLoop.
(** ** WordSplitter *)

Lemma firstRule_None rules s r :
  firstRule rules s = None → r ∈ rules → matches r s = [].
Proof.
  induction rules as [|r' rules IH]; [by intros _ ?%elem_of_nil|].
  cbn [firstRule]. destruct (matches r' s) eqn:E; [|done].
  intros Hn [->|Hr]%elem_of_cons; [done|by apply IH].
Qed.

(** A position that no rule list containing [\S] matches at holds a
    whitespace code unit. *)
Lemma unmatched_is_space rules (text : list N) p c :
  nonSpace ∈ rules → firstRule rules (drop p text) = None →
  text !! p = Some c → isSpace c = true.
Proof.
  intros Hin Hnone Hc. pose proof (firstRule_None _ _ _ Hnone Hin) as Hm.
  rewrite (drop_S _ _ _ Hc) in Hm. cbn in Hm.
  destruct (isSpace c); [done|]. cbn in Hm. discriminate.
Qed.

(** The tokenization relation determines the token sequence. *)
Lemma Tokenized_unique rules text pos tokens1 tokens2 :
  Tokenized rules text pos tokens1 → Tokenized rules text pos tokens2 →
  tokens1 = tokens2.
Proof.
  intros H1. revert tokens2.
  induction H1 as [pos Hpos Hnone|pos index e tokens (Hi1 & Hi2 & Hi3) Hgap Hm Ht IH];
    intros tokens2 H2; inversion H2 as [? ? Hnone2|? index2 e2 tokens' (Hj1 & Hj2 & Hj3) Hgap2 Hm2 Ht2];
    subst.
  - done.
  - rewrite Hnone in Hm2 by lia. done.
  - rewrite Hnone2 in Hm by lia. done.
  - assert (index = index2) as <-.
    { destruct (Nat.lt_total index index2) as [Hlt|[?|Hlt]]; [|done|].
      - rewrite Hgap2 in Hm by lia. done.
      - rewrite Hgap in Hm2 by lia. done. }
    assert (e = e2) as <-.
    { rewrite Hm in Hm2. injection Hm2 as Hd.
      apply (f_equal length) in Hd. rewrite !length_drop in Hd. lia. }
    f_equal. by apply IH.
Qed.

Lemma pattern1_rules s :
  head (matches GLiNER1Splitter.pattern s) = firstRule [wordRun; nonSpace] s.
Proof.
  unfold GLiNER1Splitter.pattern. rewrite head_matches_Alt. cbn [firstRule].
  destruct (matches wordRun s); [|done]. by destruct (matches nonSpace s).
Qed.

Lemma pattern2_rules s :
  head (matches GLiNER2Splitter.WORD_PATTERN s)
  = firstRule [GLiNER2Splitter.urlRule; GLiNER2Splitter.emailRule;
               GLiNER2Splitter.mentionRule; wordRun; nonSpace] s.
Proof.
  unfold GLiNER2Splitter.WORD_PATTERN. rewrite head_matches_Alt. cbn [firstRule].
  destruct (matches GLiNER2Splitter.urlRule s); [|done].
  rewrite head_matches_Alt. destruct (matches GLiNER2Splitter.emailRule s); [|done].
  rewrite head_matches_Alt. destruct (matches GLiNER2Splitter.mentionRule s); [|done].
  rewrite head_matches_Alt. destruct (matches wordRun s); [|done].
  by destruct (matches nonSpace s).
Qed.

(** Both splitters always end, whatever the text. *)
Lemma split_total (text : jsstring) :
  ∃ tokens, (∀ lastIndex, GLiNER1Splitter.split lastIndex text = (Some tokens, 0))
            ∧ Tokenized [wordRun; nonSpace] text 0 tokens.
Proof.
  destruct (execAll_spec GLiNER1Splitter.pattern [wordRun; nonSpace]
              pattern1_rules eq_refl text (S (length text)) 0)
    as (tokens & He & Ht); [lia..|].
  exists tokens. split; [|done]. intros lastIndex. exact He.
Qed.

Lemma splitWords_total (lowerText : jsstring) :
  ∃ tokens, GLiNER2Splitter.splitWords lowerText = Some tokens
            ∧ Tokenized [GLiNER2Splitter.urlRule; GLiNER2Splitter.emailRule;
                         GLiNER2Splitter.mentionRule; wordRun; nonSpace]
                lowerText 0 tokens.
Proof.
  destruct (execAll_spec GLiNER2Splitter.WORD_PATTERN _ pattern2_rules eq_refl
              lowerText (S (length lowerText)) 0) as (tokens & He & Ht); [lia..|].
  exists tokens. unfold GLiNER2Splitter.splitWords. by rewrite He.
Qed.

Example split_email_gliner1 :
  GLiNER1Splitter.split 0 (utf16 "a@b.co")
  = (Some [(utf16 "a", 0, 1); (utf16 "@", 1, 2); (utf16 "b", 2, 3);
           (utf16 ".", 3, 4); (utf16 "co", 4, 6)], 0).
Proof. vm_compute. reflexivity. Qed.

Example split_email_gliner2 :
  GLiNER2Splitter.splitWords (utf16 "a@b.co") = Some [(utf16 "a@b.co", 0, 6)].
Proof. vm_compute. reflexivity. Qed.

Example split_hyphens :
  (GLiNER1Splitter.split 0 (utf16 "well-known a--b -c x_y")).1
  = Some [(utf16 "well-known", 0, 10); (utf16 "a", 11, 12); (utf16 "-", 12, 13);
          (utf16 "-", 13, 14); (utf16 "b", 14, 15); (utf16 "-", 16, 17);
          (utf16 "c", 17, 18); (utf16 "x_y", 19, 22)].
Proof. vm_compute. reflexivity. Qed.

(** C8 (as amended). For every text both word splitters end with a token
    sequence that the text alone determines (GLiNER1's does not depend on
    the [lastIndex] its RegExp was left with). Tokens are found left to
    right: scanning skips whitespace only, and the token at the first
    non-whitespace position is the first match of the first rule that
    applies there, with its text equal to the slice between its offsets.
    GLiNER2's WORD_PATTERN has the rules, in priority order: URL, e-mail
    address, @-mention, word run ([\w+] pieces joined by single [-] or [_]),
    single non-whitespace code unit. GLiNER1's WhitespaceTokenSplitter has
    the last two rules only. *)
Theorem word_splitters_spec (text : jsstring) :
  (∃ tokens,
     (∀ lastIndex, GLiNER1Splitter.split lastIndex text = (Some tokens, 0))
     ∧ Tokenized [wordRun; nonSpace] text 0 tokens
     ∧ ∀ tokens', Tokenized [wordRun; nonSpace] text 0 tokens' → tokens' = tokens)
  ∧ (∃ tokens,
       GLiNER2Splitter.splitWords text = Some tokens
       ∧ Tokenized [GLiNER2Splitter.urlRule; GLiNER2Splitter.emailRule;
                    GLiNER2Splitter.mentionRule; wordRun; nonSpace] text 0 tokens
       ∧ ∀ tokens', Tokenized [GLiNER2Splitter.urlRule; GLiNER2Splitter.emailRule;
                               GLiNER2Splitter.mentionRule; wordRun; nonSpace]
                      text 0 tokens' → tokens' = tokens)
  ∧ (∀ rules p c, nonSpace ∈ rules → firstRule rules (drop p text) = None →
       text !! p = Some c → isSpace c = true).
Proof.
  split; [|split].
  - destruct (split_total text) as (tokens & Hs & Ht). exists tokens.
    split; [done|]. split; [done|]. intros tokens' Ht'.
    by eapply Tokenized_unique.
  - destruct (splitWords_total text) as (tokens & Hs & Ht). exists tokens.
    split; [done|]. split; [done|]. intros tokens' Ht'.
    by eapply Tokenized_unique.
  - intros rules p c. apply unmatched_is_space.
Qed.

(** C8 (as stated) fails on GLiNER1's splitter: it has no URL, e-mail or
    mention rule, and splits "a@b.co" into five tokens where the five-rule
    set yields the single e-mail token. *)
Lemma whitespace_splitter_has_no_email_rule :
  ¬ (∀ text tokens,
       (GLiNER1Splitter.split 0 text).1 = Some tokens →
       Tokenized [GLiNER2Splitter.urlRule; GLiNER2Splitter.emailRule;
                  GLiNER2Splitter.mentionRule; wordRun; nonSpace] text 0 tokens).
Proof.
  intros H. specialize (H (utf16 "a@b.co") _ (f_equal fst split_email_gliner1)).
  destruct (splitWords_total (utf16 "a@b.co")) as (tokens2 & Hs & Ht).
  rewrite split_email_gliner2 in Hs. injection Hs as <-.
  pose proof (Tokenized_unique _ _ _ _ _ H Ht) as Heq. discriminate Heq.
Qed.
(** ** Reasoning about effectful code *)

Lemma bind_unfold {A B : Type} (m : M A) (f : A → M B) (w : World) :
  (m ≫= f) w = match m w with
               | (inl e, w') => (inl e, w')
               | (inr a, w') => f a w'
               end.
Proof. reflexivity. Qed.

Lemma returns_ret {A : Type} (a : A) (P : A → Prop) : P a → returns (mret a) P.
Proof. intros Ha w. by exists a, w. Qed.

Lemma returns_bind {A B : Type} (m : M A) (f : A → M B) (P : A → Prop) (Q : B → Prop) :
  returns m P → (∀ a, P a → returns (f a) Q) → returns (m ≫= f) Q.
Proof.
  intros Hm Hf w. destruct (Hm w) as (a & w' & Hw & Ha).
  rewrite bind_unfold, Hw. by apply Hf.
Qed.

Lemma returns_ret_bind {A B : Type} (a : A) (f : A → M B) (Q : B → Prop) :
  returns (f a) Q → returns (mret a ≫= f) Q.
Proof. intros Hf w. exact (Hf w). Qed.

Lemma returns_weaken {A : Type} (m : M A) (P Q : A → Prop) :
  returns m P → (∀ a, P a → Q a) → returns m Q.
Proof.
  intros Hm HPQ w. destruct (Hm w) as (a & w' & Hw & Ha). exists a, w'. auto.
Qed.

Lemma returns_emit ev : returns (emit ev) (λ _, True).
Proof. intros w. by eexists _, _. Qed.

Lemma returns_assertDefined {A : Type} (x : option A) (a : A) (P : A → Prop) :
  x = Some a → P a → returns (assertDefined x) P.
Proof. intros -> Ha. by apply returns_ret. Qed.

(** A loop over a list, with an invariant on the processed prefix. *)
Lemma returns_forEachM {A S : Type} (I : list A → S → Prop)
    (l : list A) (body : A → S → M S) (st : S) :
  I [] st →
  (∀ pre x post s, l = pre ++ x :: post → I pre s →
     returns (body x s) (I (pre ++ [x]))) →
  returns (forEachM l body st) (I l).
Proof.
  intros H0 Hstep.
  enough (Hgen : ∀ post pre s, l = pre ++ post → I pre s →
            returns (forEachM post body s) (I l)) by (by apply (Hgen l [] st)).
  induction post as [|x post IH]; intros pre s Hl Hs.
  - rewrite app_nil_r in Hl. subst pre. by apply returns_ret.
  - cbn [forEachM]. eapply returns_bind; [by eapply Hstep|].
    intros s' Hs'. apply (IH (pre ++ [x])); [|done]. by rewrite <- app_assoc.
Qed.

Lemma noValidationError_ret {A : Type} (a : A) : noValidationError (mret a).
Proof. intros w e w' Hw. inversion Hw. Qed.

Lemma noValidationError_bind {A B : Type} (m : M A) (f : A → M B) :
  noValidationError m → (∀ a, noValidationError (f a)) →
  noValidationError (m ≫= f).
Proof.
  intros Hm Hf w e w'. rewrite bind_unfold.
  destruct (m w) as [[e'|a] w1] eqn:Hw.
  - intros [= <- <-]. by eapply Hm.
  - apply Hf.
Qed.

Lemma noValidationError_throw {A : Type} (e : error) :
  (∀ message, e ≠ ValidationError message) → noValidationError (@throw A e).
Proof. intros He w e' w' [= <- <-]. done. Qed.

Lemma noValidationError_emit ev : noValidationError (emit ev).
Proof. intros w e w' Hw. inversion Hw. Qed.

Lemma noValidationError_assertDefined {A : Type} (x : option A) :
  noValidationError (assertDefined x).
Proof.
  destruct x; [apply noValidationError_ret|by apply noValidationError_throw].
Qed.

Lemma noValidationError_orTypeError {A : Type} (x : option A) :
  noValidationError (orTypeError x).
Proof.
  destruct x; [apply noValidationError_ret|by apply noValidationError_throw].
Qed.

Lemma noValidationError_forEachM {A S : Type} (l : list A) (body : A → S → M S) st :
  (∀ x s, noValidationError (body x s)) → noValidationError (forEachM l body st).
Proof.
  intros Hb. revert st. induction l as [|x l IH]; intros st; cbn [forEachM].
  - apply noValidationError_ret.
  - apply noValidationError_bind; [apply Hb|apply IH].
Qed.

(** A call that always returns cannot end with an error. *)
Lemma returns_noValidationError {A : Type} (m : M A) (P : A → Prop) :
  returns m P → noValidationError m.
Proof.
  intros Hm w e w' Hw. destruct (Hm w) as (a & w1 & Hw1 & _). congruence.
Qed.

Create HintDb novalidation.

#[local] Hint Resolve noValidationError_ret noValidationError_emit
  noValidationError_assertDefined noValidationError_orTypeError : novalidation.
(** ** BatchAssembler *)

Section Processor.
Import GLiNER1Lattice GLiNER1Processor.

Lemma seq_split_middle n (pre post : list nat) x :
  seq 0 n = pre ++ x :: post → x = length pre ∧ x < n.
Proof.
  intros Hs.
  assert (Hx : seq 0 n !! length pre = Some x).
  { rewrite Hs, lookup_app_r by lia. by rewrite Nat.sub_diag. }
  apply lookup_seq in Hx. lia.
Qed.

(** *** Padding *)

Lemma padArrays_spec {T : Type} (pad : T) (arrays : list (list T)) :
  let maxLength := max_list (map length arrays) in
  length (padArrays pad arrays) = length arrays
  ∧ Forall (λ row, length row = maxLength) (padArrays pad arrays)
  ∧ Forall2 (λ row arr, length arr ≤ maxLength
                        ∧ row = arr ++ replicate (maxLength - length arr) pad)
      (padArrays pad arrays) arrays.
Proof.
  cbn zeta. unfold padArrays.
  assert (Hle : Forall (λ arr, length arr ≤ max_list (map length arrays)) arrays).
  { apply Forall_forall. intros arr Harr. apply max_list_elem_of_le.
    apply list_elem_of_fmap. by exists arr. }
  split; [by rewrite length_map|]. split.
  - apply Forall_map. eapply Forall_impl; [exact Hle|]. intros arr Harr.
    cbn beta in *. rewrite length_app, length_replicate. lia.
  - apply Forall2_fmap_l, Forall_Forall2_diag.
    eapply Forall_impl; [exact Hle|]. by intros arr Harr.
Qed.

Lemma padSpanArrays_padArrays arrays : padSpanArrays arrays = padArrays (0, 0) arrays.
Proof. reflexivity. Qed.

(** *** Tokenization of the batch *)

Lemma push_triples (triples : list (jsstring * nat * nat)) ts ss es :
  fold_left (λ '(tokens, starts, ends) '(token, start, end_),
               (tokens ++ [token], starts ++ [start], ends ++ [end_]))
            triples (ts, ss, es)
  = (ts ++ map (λ t, t.1.1) triples, ss ++ map (λ t, t.1.2) triples,
     es ++ map (λ t, t.2) triples).
Proof.
  revert ts ss es. induction triples as [|[[t s] e] triples IH]; intros ts ss es; cbn.
  - by rewrite !app_nil_r.
  - rewrite IH. by rewrite <- !app_assoc.
Qed.

Lemma splitM_returns text :
  returns (splitM text) (λ triples, triples = wordsOf text).
Proof.
  intros w. unfold splitM, wordsOf.
  destruct (split_total text) as (tokens & Hs & _).
  rewrite (Hs (patternLastIndex w)), (Hs 0). by eexists _, _.
Qed.

Lemma tokenizeTexts_returns texts :
  returns (tokenizeTexts texts) (λ r,
    r = (map (λ text, map (λ t, t.1.1) (wordsOf text)) texts,
         map (λ text, map (λ t, t.1.2) (wordsOf text)) texts,
         map (λ text, map (λ t, t.2) (wordsOf text)) texts)).
Proof.
  unfold tokenizeTexts.
  eapply returns_weaken.
  - apply (returns_forEachM (λ pre r,
      r = (map (λ text, map (λ t, t.1.1) (wordsOf text)) pre,
           map (λ text, map (λ t, t.1.2) (wordsOf text)) pre,
           map (λ text, map (λ t, t.2) (wordsOf text)) pre))); [done|].
    intros pre text post [[bt bs] be] _ [= -> -> ->].
    eapply returns_bind; [apply splitM_returns|]. intros triples ->.
    rewrite push_triples. apply returns_ret. by rewrite !map_app.
  - done.
Qed.

(** *** Input sequences *)

Lemma prompt_fold entities acc :
  fold_left (λ inputText entity, inputText ++ [ENTITY_MARKER; entity]) entities acc
  = acc ++ flat_map (λ entity, [ENTITY_MARKER; entity]) entities.
Proof.
  revert acc. induction entities as [|e entities IH]; intros acc; cbn.
  - by rewrite app_nil_r.
  - rewrite IH. by rewrite <- app_assoc.
Qed.

Lemma buildInputSequences_spec batchTokens entities :
  buildInputSequences batchTokens entities
  = (map (λ tokens, promptOf entities ++ tokens) batchTokens,
     map length batchTokens,
     map (λ _, length (promptOf entities)) batchTokens).
Proof.
  unfold buildInputSequences.
  enough (Hgen : ∀ xs ys zs,
    fold_left (λ '(inputTexts, textLengths, promptLengths) tokens,
      let textLengths := textLengths ++ [length tokens] in
      let inputText := fold_left (λ inputText entity,
                          inputText ++ [ENTITY_MARKER; entity]) entities [] in
      let inputText := inputText ++ [SEPARATOR_MARKER] in
      let promptLengths := promptLengths ++ [length inputText] in
      let inputText := inputText ++ tokens in
      (inputTexts ++ [inputText], textLengths, promptLengths))
      batchTokens (xs, ys, zs)
    = (xs ++ map (λ tokens, promptOf entities ++ tokens) batchTokens,
       ys ++ map length batchTokens,
       zs ++ map (λ _, length (promptOf entities)) batchTokens))
    by apply (Hgen [] [] []).
  induction batchTokens as [|tokens batchTokens IH]; intros xs ys zs; cbn.
  - by rewrite !app_nil_r.
  - rewrite IH, prompt_fold. cbn. unfold promptOf. by rewrite <- !app_assoc.
Qed.

(** *** Encoding *)

Lemma encodeWord_spec promptLength wordIdx (wordTokenIds : list Z) ids att wm c :
  encodeWord promptLength wordIdx wordTokenIds (ids, att, wm, c)
  = (ids ++ wordTokenIds,
     att ++ replicate (length wordTokenIds) 1%Z,
     wm ++ (if wordIdx <? promptLength
            then replicate (length wordTokenIds) PAD_VALUE
            else match wordTokenIds with
                 | [] => []
                 | _ :: rest => c :: replicate (length rest) PAD_VALUE
                 end),
     if (wordIdx <? promptLength) || (length wordTokenIds =? 0) then c
     else (c + 1)%Z).
Proof.
  unfold encodeWord.
  assert (Hk : ∀ k, k ≤ length wordTokenIds →
    forRange k (λ tokenIdx '(inputIds, attentionMask, wordsMask, wordCounter),
      match wordTokenIds !! tokenIdx with
      | Some tokenId =>
          let inputIds := inputIds ++ [tokenId] in
          let attentionMask := attentionMask ++ [1%Z] in
          if wordIdx <? promptLength then
            (inputIds, attentionMask, wordsMask ++ [PAD_VALUE], wordCounter)
          else if tokenIdx =? 0 then
            (inputIds, attentionMask, wordsMask ++ [wordCounter], (wordCounter + 1)%Z)
          else
            (inputIds, attentionMask, wordsMask ++ [PAD_VALUE], wordCounter)
      | None => (inputIds, attentionMask, wordsMask, wordCounter)
      end) (ids, att, wm, c)
    = (ids ++ take k wordTokenIds,
       att ++ replicate k 1%Z,
       wm ++ (if wordIdx <? promptLength then replicate k PAD_VALUE
              else match k with
                   | 0 => []
                   | S k' => c :: replicate k' PAD_VALUE
                   end),
       if (wordIdx <? promptLength) || (k =? 0) then c else (c + 1)%Z)).
  { induction k as [|k IH]; intros Hle.
    - unfold forRange. cbn [seq fold_left replicate Nat.eqb].
      rewrite take_0, orb_true_r. destruct (wordIdx <? promptLength);
        by rewrite !app_nil_r.
    - rewrite forRange_S, IH by lia.
      destruct (lookup_lt_is_Some_2 wordTokenIds k) as [t Ht]; [lia|].
      rewrite Ht. cbn zeta. rewrite (take_S_r _ _ _ Ht).
      rewrite (replicate_S_end k 1%Z), !app_assoc.
      destruct (wordIdx <? promptLength); cbn [orb].
      + by rewrite (replicate_S_end k PAD_VALUE), !app_assoc.
      + destruct k as [|k]; cbn [Nat.eqb].
        * by rewrite !app_nil_r.
        * rewrite (replicate_S_end k PAD_VALUE). by rewrite <- !app_assoc. }
  rewrite Hk by lia. rewrite firstn_all.
  destruct wordTokenIds; reflexivity.
Qed.

Context (tokenizer : GLiNER1Tokenizer).

Lemma callEncode_returns word :
  returns (callEncode tokenizer word) (λ ids, ids = encode tokenizer word).
Proof. intros w. by eexists _, _. Qed.

#[local] Abbreviation idsRow := (inputRow tokenizer).

Lemma encodeInputs_returns inputTexts promptLengths :
  length promptLengths = length inputTexts →
  returns (encodeInputs tokenizer inputTexts promptLengths) (λ '(ids, att, wm),
    ids = map idsRow inputTexts
    ∧ att = map (λ inputText, replicate (length (idsRow inputText)) 1%Z) inputTexts
    ∧ Forall2 (λ w inputText, length w = length (idsRow inputText)) wm inputTexts).
Proof.
  intros Hlen. unfold encodeInputs.
  eapply returns_weaken.
  - apply (returns_forEachM (λ pre '(ids, att, wm),
      let done_ := take (length pre) inputTexts in
      ids = map idsRow done_
      ∧ att = map (λ inputText, replicate (length (idsRow inputText)) 1%Z) done_
      ∧ Forall2 (λ w inputText, length w = length (idsRow inputText)) wm done_)).
    { cbn. by repeat split. }
    intros pre batchIdx post [[ids att] wm] Hseq (-> & -> & Hwm).
    apply seq_split_middle in Hseq as [-> Hlt].
    destruct (lookup_lt_is_Some_2 promptLengths (length pre)) as [p Hp]; [lia|].
    destruct (lookup_lt_is_Some_2 inputTexts (length pre)) as [tokens Ht]; [lia|].
    rewrite Hp, Ht. cbn [assertDefined].
    do 2 apply returns_ret_bind.
    eapply returns_bind.
    + apply (returns_forEachM (λ wpre '(inputIds, attentionMask, wordsMask, c),
        let words := take (length wpre) tokens in
        inputIds = [CLS_TOKEN_ID] ++ flat_map (subTokens tokenizer) words
        ∧ attentionMask = replicate (length inputIds) 1%Z
        ∧ length wordsMask = length inputIds)).
      { cbn. by repeat split. }
      intros wpre wordIdx wpost [[[iids iatt] iwm] c] Hwseq (-> & -> & Hiwm).
      apply seq_split_middle in Hwseq as [-> Hwlt].
      destruct (lookup_lt_is_Some_2 tokens (length wpre)) as [word Hw]; [lia|].
      rewrite Hw. cbn [assertDefined].
      apply returns_ret_bind.
      eapply returns_bind; [apply callEncode_returns|]. intros encoded ->.
      rewrite encodeWord_spec. apply returns_ret. cbn zeta.
      change (slice (encode tokenizer word) 1 (length (encode tokenizer word) - 1))
        with (subTokens tokenizer word).
      rewrite (length_app wpre). cbn [length].
      rewrite Nat.add_1_r, (take_S_r _ _ _ Hw), flat_map_app.
      cbn [flat_map]. rewrite app_nil_r.
      split; [by rewrite <- !app_assoc|]. split.
      * by rewrite (length_app (_ ++ _)), replicate_add.
      * rewrite (length_app iwm), Hiwm, (length_app (_ ++ _)). f_equal.
        destruct (length wpre <? p); [by rewrite length_replicate|].
        destruct (subTokens tokenizer word); cbn [length];
          [done|by rewrite length_replicate].
    + intros [[[iids iatt] iwm] c] (-> & -> & Hiwm). apply returns_ret. cbn zeta.
      rewrite length_seq, firstn_all in *.
      rewrite (length_app pre). cbn [length].
      rewrite Nat.add_1_r, (take_S_r _ _ _ Ht), !map_app.
      cbn [map].
      assert (Hrow : ([CLS_TOKEN_ID] ++ flat_map (subTokens tokenizer) tokens)
                     ++ [sep_token_id tokenizer] = idsRow tokens)
        by (unfold inputRow; by rewrite <- !app_assoc).
      rewrite Hrow. split; [done|]. split.
      * do 2 f_equal. rewrite <- Hrow, (length_app (_ ++ _)), replicate_add. done.
      * apply Forall2_app; [done|]. constructor; [|constructor].
        rewrite <- Hrow, (length_app iwm), Hiwm, (length_app (_ ++ _)). done.
  - intros [[ids att] wm]. cbn zeta. by rewrite length_seq, firstn_all.
Qed.

End Processor.

Import GLiNER1Lattice GLiNER1Processor.

Lemma prepareBatch_returns maxWidth tokenizer texts entities :
  returns (prepareBatch maxWidth tokenizer texts entities) (λ batch,
    let bt := map (λ text, map (λ t, t.1.1) (wordsOf text)) texts in
    batchTokens batch = bt
    ∧ batchWordsStartIdx batch = map (λ text, map (λ t, t.1.2) (wordsOf text)) texts
    ∧ batchWordsEndIdx batch = map (λ text, map (λ t, t.2) (wordsOf text)) texts
    ∧ idToClass batch = buildIdToClass entities
    ∧ textLengths batch = map length bt
    ∧ inputsIds batch
      = padArrays PAD_VALUE
          (map (λ tokens, inputRow tokenizer (promptOf entities ++ tokens)) bt)
    ∧ attentionMasks batch
      = padArrays PAD_VALUE
          (map (λ tokens,
             replicate (length (inputRow tokenizer (promptOf entities ++ tokens))) 1%Z)
             bt)
    ∧ (∃ wm, wordsMasks batch = padArrays PAD_VALUE wm
             ∧ Forall2 (λ w tokens,
                  length w = length (inputRow tokenizer (promptOf entities ++ tokens)))
                  wm bt)
    ∧ spanIdxs batch
      = padSpanArrays (map (λ tokens, (buildSpansRow maxWidth (length tokens)).1) bt)
    ∧ spanMasks batch
      = padArrays (MaskNum PAD_VALUE)
          (map (λ tokens, map MaskBool (buildSpansRow maxWidth (length tokens)).2) bt)).
Proof.
  unfold prepareBatch.
  eapply returns_bind; [apply tokenizeTexts_returns|].
  intros [[bt bs] be] [= -> -> ->].
  rewrite buildInputSequences_spec.
  eapply returns_bind; [apply encodeInputs_returns; by rewrite !length_map|].
  intros [[ids att] wm] (-> & -> & Hwm).
  rewrite buildSpans_rows. apply returns_ret. cbn zeta. cbn [batchTokens
    batchWordsStartIdx batchWordsEndIdx idToClass textLengths inputsIds
    attentionMasks wordsMasks spanIdxs spanMasks].
  rewrite !map_map. repeat split; try done.
  exists wm. split; [done|]. by apply Forall2_fmap_r in Hwm.
Qed.

Lemma length_buildSpansRow w n :
  length (buildSpansRow w n).1 = n * w ∧ length (buildSpansRow w n).2 = n * w.
Proof.
  rewrite buildSpansRow_comprehension. cbn [fst snd].
  by rewrite !length_row_major.
Qed.

Lemma length_subTokens tokenizer word :
  length (subTokens tokenizer word) = length (encode tokenizer word) - 2.
Proof.
  unfold subTokens, slice. cbn zeta. rewrite length_take, length_drop. lia.
Qed.

Lemma length_inputRow_ge tokenizer inputText :
  (∀ word, 3 ≤ length (encode tokenizer word)) →
  length inputText ≤ length (inputRow tokenizer inputText).
Proof.
  intros Henc. unfold inputRow. rewrite !length_app. cbn [length].
  enough (length inputText ≤ length (flat_map (subTokens tokenizer) inputText)) by lia.
  induction inputText as [|word l IH]; [done|].
  cbn [flat_map]. rewrite length_app, length_subTokens. cbn [length].
  specialize (Henc word). lia.
Qed.

(** Rows padded from [f]-images of the examples. *)
Lemma padArrays_rows {T E : Type} (pad : T) (f : E → list T) (examples : list E) :
  let maxLength := max_list (map (λ e, length (f e)) examples) in
  Forall2 (λ row e, row = f e ++ replicate (maxLength - length (f e)) pad)
    (padArrays pad (map f examples)) examples
  ∧ Forall (λ row, length row = maxLength) (padArrays pad (map f examples))
  ∧ Forall (λ e, length (f e) ≤ maxLength) examples.
Proof.
  cbn zeta. destruct (padArrays_spec pad (map f examples)) as (_ & Hlen & Hrows).
  cbn zeta in Hlen, Hrows. rewrite map_map in Hlen, Hrows.
  apply Forall2_fmap_r in Hrows. split; [|split; [done|]].
  - eapply Forall2_impl; [exact Hrows|]. by intros row e [_ ->].
  - apply Forall_forall. intros e He. apply max_list_elem_of_le.
    apply list_elem_of_fmap. by exists e.
Qed.

(** C4 (as amended). [prepareBatch] always returns a batch. Along the token
    axis the rows of token ids, attention masks and word masks are the
    unpadded rows of the examples, right-padded with 0 to the one batch-wide
    maximum length; along the span axis the rows of span index pairs and span
    masks are the lattice rows, right-padded with [(0, 0)] and 0 to the
    batch-wide maximum [max (n * maxWidth)]. The true length of each example,
    its word count, is stored in [textLengths]; it is at most the padded span
    row length when [maxWidth >= 1], and at most the padded token row length
    when the tokenizer returns at least three ids for every word (so that
    [slice(1, -1)] leaves at least one sub-token per word). *)
Theorem prepareBatch_padding (maxWidth : nat) (tokenizer : GLiNER1Tokenizer)
    (texts entities : list jsstring) (w : World) :
  ∃ batch w',
    prepareBatch maxWidth tokenizer texts entities w = (inr batch, w')
    ∧ let words := map (λ text, map (λ t, t.1.1) (wordsOf text)) texts in
      let row := λ tokens, inputRow tokenizer (promptOf entities ++ tokens) in
      let tokenLength := max_list (map (λ tokens, length (row tokens)) words) in
      let spanLength := max_list (map (λ tokens, length tokens * maxWidth) words) in
      textLengths batch = map length words
      ∧ Forall2 (λ padded tokens,
           padded = row tokens ++ replicate (tokenLength - length (row tokens)) 0%Z)
          (inputsIds batch) words
      ∧ Forall2 (λ padded tokens,
           padded = replicate (length (row tokens)) 1%Z
                    ++ replicate (tokenLength - length (row tokens)) 0%Z)
          (attentionMasks batch) words
      ∧ Forall2 (λ padded tokens,
           ∃ mask, length mask = length (row tokens)
                   ∧ padded = mask ++ replicate (tokenLength - length mask) 0%Z)
          (wordsMasks batch) words
      ∧ Forall2 (λ padded tokens,
           padded = (buildSpansRow maxWidth (length tokens)).1
                    ++ replicate (spanLength - length tokens * maxWidth) (0, 0))
          (spanIdxs batch) words
      ∧ Forall2 (λ padded tokens,
           padded = map MaskBool (buildSpansRow maxWidth (length tokens)).2
                    ++ replicate (spanLength - length tokens * maxWidth) (MaskNum 0))
          (spanMasks batch) words
      ∧ (Forall (λ padded, length padded = tokenLength) (inputsIds batch)
         ∧ Forall (λ padded, length padded = tokenLength) (attentionMasks batch)
         ∧ Forall (λ padded, length padded = tokenLength) (wordsMasks batch)
         ∧ Forall (λ padded, length padded = spanLength) (spanIdxs batch)
         ∧ Forall (λ padded, length padded = spanLength) (spanMasks batch))
      ∧ (1 ≤ maxWidth → Forall (λ n, n ≤ spanLength) (textLengths batch))
      ∧ ((∀ word, 3 ≤ length (encode tokenizer word)) →
         Forall (λ n, n ≤ tokenLength) (textLengths batch)).
Proof.
  destruct (prepareBatch_returns maxWidth tokenizer texts entities w)
    as (batch & w' & Hrun & Hbatch).
  exists batch, w'. split; [done|]. cbn zeta in *.
  destruct Hbatch as (Hbt & _ & _ & _ & Htl & Hids & Hatt & (wm & Hwm & Hwml)
                      & Hsi & Hsm).
  set (words := map (λ text, map (λ t, t.1.1) (wordsOf text)) texts) in *.
  set (row := λ tokens, inputRow tokenizer (promptOf entities ++ tokens)) in *.
  (* token axis *)
  destruct (padArrays_rows PAD_VALUE row words) as (Hi1 & Hi2 & Hi3).
  destruct (padArrays_rows PAD_VALUE (λ tokens, replicate (length (row tokens)) 1%Z)
              words) as (Ha1 & Ha2 & _).
  cbn zeta in Hi1, Hi2, Hi3, Ha1, Ha2.
  assert (Hl1 : map (λ e, length (replicate (length (row e)) 1%Z)) words
                = map (λ e, length (row e)) words).
  { apply map_ext. intros. by rewrite length_replicate. }
  rewrite Hl1 in Ha1, Ha2.
  assert (Hwmlen : map length wm = map (λ e, length (row e)) words).
  { clear -Hwml. induction Hwml; cbn; [done|]. by f_equal. }
  destruct (padArrays_spec PAD_VALUE wm) as (_ & Hw2 & Hw1).
  cbn zeta in Hw1, Hw2. rewrite Hwmlen in Hw1, Hw2.
  (* span axis *)
  destruct (padArrays_rows (0, 0)
              (λ tokens, (buildSpansRow maxWidth (length tokens)).1) words)
    as (Hs1 & Hs2 & _).
  destruct (padArrays_rows (MaskNum PAD_VALUE)
              (λ tokens, map MaskBool (buildSpansRow maxWidth (length tokens)).2)
              words) as (Hm1 & Hm2 & _).
  cbn zeta in Hs1, Hs2, Hm1, Hm2.
  assert (Hl2 : map (λ e, length (buildSpansRow maxWidth (length e)).1) words
                = map (λ e, length e * maxWidth) words).
  { apply map_ext. intros. apply length_buildSpansRow. }
  assert (Hl3 : map (λ e, length (map MaskBool (buildSpansRow maxWidth (length e)).2))
                  words = map (λ e, length e * maxWidth) words).
  { apply map_ext. intros. rewrite length_map. apply length_buildSpansRow. }
  rewrite Hl2 in Hs1, Hs2. rewrite Hl3 in Hm1, Hm2.
  rewrite Htl, Hids, Hatt, Hwm, Hsi, Hsm, padSpanArrays_padArrays.
  split; [done|]. split; [done|]. split.
  { eapply Forall2_impl; [exact Ha1|]. intros padded tokens ->.
    by rewrite length_replicate. }
  split.
  { revert Hw1. unfold row.
    generalize (max_list (map (λ e, length
                  (inputRow tokenizer (promptOf entities ++ e))) words)) as M.
    generalize (padArrays PAD_VALUE wm) as padded. clear -Hwml.
    induction Hwml as [|mask tokens wm' words' Hm Hwml IH]; intros padded M Hw1.
    - apply Forall2_nil_inv_r in Hw1 as ->. constructor.
    - apply Forall2_cons_inv_r in Hw1 as (p & ps & [_ ->] & Hps & ->).
      constructor; [by exists mask|by apply IH]. }
  split.
  { eapply Forall2_impl; [exact Hs1|]. intros padded tokens ->.
    by rewrite (proj1 (length_buildSpansRow _ _)). }
  split.
  { eapply Forall2_impl; [exact Hm1|]. intros padded tokens ->.
    by rewrite length_map, (proj2 (length_buildSpansRow _ _)). }
  split; [done|]. split.
  - intros Hw. apply Forall_map, Forall_forall. intros tokens Ht.
    transitivity (length tokens * maxWidth); [nia|].
    apply max_list_elem_of_le, list_elem_of_fmap. by exists tokens.
  - intros Henc. apply Forall_map, Forall_forall. intros tokens Ht.
    transitivity (length (row tokens)).
    + unfold row. etransitivity; [|by apply length_inputRow_ge].
      rewrite length_app. lia.
    + apply max_list_elem_of_le, list_elem_of_fmap. by exists tokens.
Qed.

(** C4 (as stated) fails along the token axis: with a tokenizer stub that
    yields no sub-token, the text "a b c" has true length 3 while its padded
    row of token ids holds the start and separator ids only. *)
Lemma true_length_exceeds_token_row :
  ¬ (∀ maxWidth tokenizer texts entities w batch w',
       texts ≠ [] → entities ≠ [] →
       prepareBatch maxWidth tokenizer texts entities w = (inr batch, w') →
       Forall2 (λ n padded, n ≤ length padded) (textLengths batch) (inputsIds batch)).
Proof.
  intros H.
  pose proof (H 12 stubTokenizer [utf16 "a b c"] [utf16 "x"] world0) as H1.
  destruct (prepareBatch 12 stubTokenizer [utf16 "a b c"] [utf16 "x"] world0)
    as [[e|batch] w'] eqn:E; vm_compute in E; [discriminate|].
  specialize (H1 batch w' ltac:(done) ltac:(done) eq_refl).
  injection E as <- _. cbn in H1.
  apply Forall2_cons_1 in H1 as [H1 _]. cbn in H1. lia.
Qed.

Lemma prepareBatch_padding_example :
  ∃ batch w',
    prepareBatch 2 unitTokenizer [utf16 "a b c"; utf16 "d"] [utf16 "x"] world0
      = (inr batch, w')
    ∧ inputsIds batch = [[1; 7; 7; 7; 7; 7; 7; 2]; [1; 7; 7; 7; 7; 2; 0; 0]]%Z
    ∧ attentionMasks batch = [[1; 1; 1; 1; 1; 1; 1; 1]; [1; 1; 1; 1; 1; 1; 0; 0]]%Z
    ∧ wordsMasks batch = [[0; 0; 0; 0; 1; 2; 3; 0]; [0; 0; 0; 0; 1; 0; 0; 0]]%Z
    ∧ textLengths batch = [3; 1]
    ∧ spanIdxs batch = [[(0, 0); (0, 1); (1, 1); (1, 2); (2, 2); (2, 2)];
                        [(0, 0); (0, 0); (0, 0); (0, 0); (0, 0); (0, 0)]].
Proof.
  destruct (prepareBatch 2 unitTokenizer [utf16 "a b c"; utf16 "d"] [utf16 "x"] world0)
    as [[e|batch] w'] eqn:E; vm_compute in E; [discriminate|].
  injection E as <- <-. eexists _, _. split; [reflexivity|]. by repeat split.
Qed.
(** ** Validation and error flow *)

Lemma dropWhile_nil {A : Type} (p : A → bool) (l : list A) :
  dropWhile p l = [] ↔ Forall (λ x, p x = true) l.
Proof.
  induction l as [|x l IH]; cbn.
  - split; [constructor|done].
  - destruct (p x) eqn:E.
    + rewrite IH, Forall_cons. tauto.
    + split; [done|]. intros [Hx _]%Forall_cons. congruence.
Qed.

Lemma dropWhile_Forall {A : Type} (p : A → bool) (l : list A) :
  Forall (λ x, p x = true) (dropWhile p l) → Forall (λ x, p x = true) l.
Proof.
  induction l as [|x l IH]; cbn; [done|].
  destruct (p x) eqn:E; [|done]. intros H. constructor; [done|by apply IH].
Qed.

(** [text.trim().length === 0] exactly when every code unit is whitespace. *)
Lemma trim_nil (text : jsstring) :
  trim text = [] ↔ Forall (λ c, isSpace c = true) text.
Proof.
  unfold trim. split.
  - intros Ht. apply (f_equal reverse) in Ht. rewrite reverse_involutive in Ht.
    rewrite reverse_nil in Ht.
    pose proof (proj1 (dropWhile_nil isSpace _) Ht) as Hf.
    apply (dropWhile_Forall isSpace), (proj1 (Forall_reverse _ _)). exact Hf.
  - intros Hs. by rewrite (proj2 (dropWhile_nil isSpace text) Hs).
Qed.

Lemma length_zero_iff_nil' {A : Type} (l : list A) : (length l =? 0) = true ↔ l = [].
Proof. destruct l; cbn; split; done. Qed.

Lemma isWordChar_range c : isWordChar c = true → (48 ≤ c ≤ 122)%N.
Proof.
  unfold isWordChar, isLower, isUpper, isDigit, inRange.
  rewrite !orb_true_iff, !andb_true_iff, !N.leb_le, N.eqb_eq. lia.
Qed.

Lemma isSpace_range c : isSpace c = true → (c ≤ 32 ∨ 160 ≤ c)%N.
Proof.
  unfold isSpace, inRange.
  rewrite !orb_true_iff, !andb_true_iff, !N.leb_le, !N.eqb_eq. lia.
Qed.

Lemma firstRule_space c s :
  isSpace c = true → firstRule [wordRun; nonSpace] (c :: s) = None.
Proof.
  intros Hc.
  assert (Hw : isWordChar c = false).
  { apply not_true_is_false. intros Hw%isWordChar_range.
    apply isSpace_range in Hc. lia. }
  cbn. by rewrite Hw, Hc.
Qed.

(** A text of whitespace only has no words. *)
Lemma wordsOf_blank (text : jsstring) : trim text = [] → wordsOf text = [].
Proof.
  intros Hb%trim_nil. unfold wordsOf.
  destruct (split_total text) as (tokens & Hs & Ht). rewrite (Hs 0). cbn.
  inversion Ht as [|? index e tokens' (H1 & H2 & H3) _ Hm _]; [done|]. subst.
  destruct (lookup_lt_is_Some_2 text index) as [c Hc]; [lia|].
  rewrite (drop_S _ _ _ Hc), firstRule_space in Hm; [done|].
  rewrite Forall_forall in Hb. apply Hb. by eapply list_elem_of_lookup_2.
Qed.

(** Steps through the structure of an effectful definition. *)
Ltac novalid :=
  repeat first
    [ apply noValidationError_ret
    | apply noValidationError_emit
    | apply noValidationError_assertDefined
    | apply noValidationError_orTypeError
    | apply noValidationError_throw; intros; discriminate
    | apply noValidationError_forEachM; intros
    | apply noValidationError_bind; [|intros]
    | match goal with
      | |- noValidationError (match ?x with _ => _ end) => destruct x
      | |- noValidationError (if ?x then _ else _) => destruct x
      end ].

Section Runtime1.
Import GLiNER1Processor GLiNER1Decoder GLiNER1Runtime.
Context `{FloatOps} (rt : Runtime).

Lemma runInference_noValidationError texts entities threshold :
  noValidationError (runInference rt texts entities threshold).
Proof.
  unfold runInference.
  apply noValidationError_bind.
  { eapply returns_noValidationError, prepareBatch_returns. }
  intros batch. unfold callSession. novalid.
Qed.

Lemma callSession_returns feeds results :
  session_run rt feeds = Some results →
  returns (callSession rt feeds) (λ r, r = results).
Proof. intros Hr w. unfold callSession. rewrite bind_unfold. cbn. rewrite Hr. by eexists _, _. Qed.

Lemma runInference_returns texts entities threshold :
  (∀ feeds, ∃ results logits,
     session_run rt feeds = Some results
     ∧ output ONNX_OUTPUT_LOGITS results = Some logits) →
  returns (runInference rt texts entities threshold) (λ raw,
    length raw = length texts
    ∧ ∀ i text, texts !! i = Some text → trim text = [] → raw !! i = Some []).
Proof.
  intros Hengine. unfold runInference.
  eapply returns_bind; [apply prepareBatch_returns|].
  intros batch Hb. cbn zeta in Hb.
  destruct Hb as (Hbt & Hbs & Hbe & _ & Htl & _).
  destruct (Hengine (buildTensors batch)) as (results & logits & Hrun & Hout).
  eapply returns_bind; [by apply callSession_returns|]. intros ? ->.
  rewrite Hout. unfold decode. cbn zeta. cbn [opt_threshold opt_flatNer opt_multiLabel from_option id].
  rewrite extractSpans_body.
  destruct (extractSpans_rows (maxWidth rt) (length (batchTokens batch))
              (max_list (textLengths batch)) (length entities) texts
              (seq 0 (length (batchTokens batch))) (batchWordsStartIdx batch)
              (batchWordsEndIdx batch) (idToClass batch) logits threshold
              (length logits))
    as (spans & -> & Hlen & Hrows).
  { rewrite Hbt, Hbs, !length_map. done. }
  cbn [mbind option_bind orTypeError]. apply returns_ret.
  rewrite length_map, Hlen, Hbt, length_map. split; [done|].
  intros i text Hi Hblank.
  assert (Hilt : i < length spans).
  { rewrite Hlen, Hbt, length_map. by eapply lookup_lt_Some. }
  destruct (lookup_lt_is_Some_2 spans i Hilt) as [row Hrow].
  rewrite list_lookup_fmap, Hrow. cbn. f_equal.
  destruct row as [|r row]; [done|]. exfalso.
  rewrite Hrows in Hrow by lia. injection Hrow as Hrow.
  assert (Hr : r ∈ r :: row) by (by left). rewrite <- Hrow in Hr.
  apply elem_of_rowOf in Hr as (idx & _ & Hc).
  apply cand_spec in Hc as (raw & starts & ends & sc & ec & _ & _ & _ & _
                            & Hs & _ & Hsc & _).
  rewrite Hbs, list_lookup_fmap, Hi in Hs. cbn in Hs.
  rewrite (wordsOf_blank text Hblank) in Hs. injection Hs as <-.
  by rewrite lookup_nil in Hsc.
Qed.

End Runtime1.

Section Runtime2.
Import GLiNER2Lattice GLiNER2Decoder GLiNER2Runtime.
Context `{FloatOps} (rt : Runtime).

Lemma validateInput_pass text labels :
  trim text ≠ [] → labels ≠ [] → validateInput text labels = mret ().
Proof.
  intros Ht Hl. unfold validateInput.
  destruct (trim text); [done|]. by destruct labels.
Qed.

Lemma validateInput_fail text labels w :
  trim text = [] ∨ labels = [] →
  ∃ message, validateInput text labels w = (inl (ValidationError message), w).
Proof.
  unfold validateInput. intros [Ht|Hl].
  - rewrite Ht. by eexists.
  - subst labels. destruct (length (trim text) =? 0); by eexists.
Qed.

Lemma callTokenizer_noValidationError text :
  noValidationError (callTokenizer rt text).
Proof. unfold callTokenizer. novalid. Qed.

Lemma callEngine_noValidationError session result :
  noValidationError (callEngine session result).
Proof. unfold callEngine. novalid. Qed.

Lemma getFirstOutput_noValidationError result :
  noValidationError (getFirstOutput result).
Proof. unfold getFirstOutput. novalid. Qed.

#[local] Hint Resolve callTokenizer_noValidationError
  callEngine_noValidationError getFirstOutput_noValidationError : novalidation.

Ltac novalid2 :=
  repeat first
    [ apply callTokenizer_noValidationError
    | apply callEngine_noValidationError
    | apply getFirstOutput_noValidationError
    | progress novalid ].

Lemma buildSchemaInput_noValidationError taskName labels labelTokenId :
  noValidationError (buildSchemaInput rt taskName labels labelTokenId).
Proof. unfold buildSchemaInput. novalid2. Qed.

Lemma wordMatches_noValidationError lowerText :
  noValidationError (wordMatches lowerText).
Proof. unfold wordMatches. novalid. Qed.

Lemma tokenizeText_noValidationError text :
  noValidationError (tokenizeText rt text).
Proof.
  unfold tokenizeText. cbn zeta.
  apply noValidationError_bind; [apply wordMatches_noValidationError|].
  intros words. apply noValidationError_forEachM. intros [[word ?] ?] tokens.
  novalid2.
Qed.

Lemma tokenizeWords_noValidationError text :
  noValidationError (tokenizeWords rt text).
Proof.
  unfold tokenizeWords. cbn zeta.
  apply noValidationError_bind; [apply wordMatches_noValidationError|].
  intros words. apply noValidationError_bind.
  - apply noValidationError_forEachM. intros [[word ?] ?] [[[? ?] ?] ?]. novalid2.
  - intros [[[? ?] ?] ?]. novalid.
Qed.

Lemma encode_noValidationError tokens : noValidationError (encode rt tokens).
Proof. unfold encode. novalid2. Qed.

Lemma runClassifier_noValidationError labelEmbeddings labelCount :
  noValidationError (runClassifier rt labelEmbeddings labelCount).
Proof. unfold runClassifier. novalid2. Qed.

Lemma computeNerScores_noValidationError textHidden textTokenCount wordCount
    firstTokenPositions labelEmbeddings labelCount :
  noValidationError (computeNerScores rt textHidden textTokenCount wordCount
                       firstTokenPositions labelEmbeddings labelCount).
Proof.
  unfold computeNerScores, getSpanRepresentations, transformLabelEmbeddings.
  novalid2.
Qed.

Lemma classify_after_validation text labels threshold multiLabel :
  trim text ≠ [] → labels ≠ [] →
  noValidationError (classify rt text labels threshold multiLabel).
Proof.
  intros Ht Hl. unfold classify. cbn zeta. rewrite (validateInput_pass _ _ Ht Hl).
  apply noValidationError_bind; [apply noValidationError_ret|]. intros _.
  apply noValidationError_bind; [apply buildSchemaInput_noValidationError|].
  intros [tokens labelPositions].
  apply noValidationError_bind; [apply tokenizeText_noValidationError|]. intros.
  apply noValidationError_bind; [apply encode_noValidationError|]. intros.
  apply noValidationError_bind; [apply runClassifier_noValidationError|]. intros.
  apply noValidationError_ret.
Qed.

Lemma extractEntities2_after_validation text labels threshold :
  trim text ≠ [] → labels ≠ [] →
  noValidationError (extractEntities rt text labels threshold).
Proof.
  intros Ht Hl. unfold extractEntities. cbn zeta.
  rewrite (validateInput_pass _ _ Ht Hl).
  apply noValidationError_bind; [apply noValidationError_ret|]. intros _.
  apply noValidationError_bind; [apply buildSchemaInput_noValidationError|].
  intros [schemaTokens labelPositions].
  apply noValidationError_bind; [apply tokenizeWords_noValidationError|].
  intros [[textTokens wordOffsets] firstTokenPositions].
  apply noValidationError_bind; [apply encode_noValidationError|]. intros.
  destruct (_ || _); [apply noValidationError_ret|].
  apply noValidationError_bind; [apply computeNerScores_noValidationError|]. intros.
  apply noValidationError_orTypeError.
Qed.

End Runtime2.

(** C5 (as amended). For the single-text operations (GLiNER1's
    [extractEntities], GLiNER2's [extractEntities] and [classify]): if the
    text is empty or consists of whitespace only, or the label list is empty,
    the call ends with a [ValidationError] and leaves the world as it found
    it: no tokenizer call and no engine call has been made. If the text has a
    non-whitespace character and the label list is non-empty, the call never
    ends with a [ValidationError]. *)
Theorem validation_before_collaborators `{FloatOps}
    (rt1 : GLiNER1Runtime.Runtime) (rt2 : GLiNER2Runtime.Runtime)
    (text : jsstring) (labels : list jsstring)
    (threshold : option Q) (multiLabel : option bool) (w : World) :
  (trim text = [] ∨ labels = [] →
     (∃ message, GLiNER1Runtime.extractEntities rt1 text labels threshold w
                 = (inl (ValidationError message), w))
     ∧ (∃ message, GLiNER2Runtime.extractEntities rt2 text labels threshold w
                   = (inl (ValidationError message), w))
     ∧ (∃ message, GLiNER2Runtime.classify rt2 text labels threshold multiLabel w
                   = (inl (ValidationError message), w)))
  ∧ (trim text ≠ [] → labels ≠ [] →
     noValidationError (GLiNER1Runtime.extractEntities rt1 text labels threshold)
     ∧ noValidationError (GLiNER2Runtime.extractEntities rt2 text labels threshold)
     ∧ noValidationError
         (GLiNER2Runtime.classify rt2 text labels threshold multiLabel)).
Proof.
  split.
  - intros Hbad. split; [|split].
    + unfold GLiNER1Runtime.extractEntities. cbn zeta. destruct Hbad as [Ht|Hl].
      * rewrite Ht. by eexists.
      * subst labels. destruct (length (trim text) =? 0); by eexists.
    + destruct (validateInput_fail text labels w Hbad) as [message Hv].
      exists message. unfold GLiNER2Runtime.extractEntities. cbn zeta.
      by rewrite bind_unfold, Hv.
    + destruct (validateInput_fail text labels w Hbad) as [message Hv].
      exists message. unfold GLiNER2Runtime.classify. cbn zeta.
      by rewrite bind_unfold, Hv.
  - intros Ht Hl. split; [|split].
    + unfold GLiNER1Runtime.extractEntities. cbn zeta.
      destruct (trim text); [done|]. destruct labels; [done|]. cbn [length Nat.eqb].
      apply noValidationError_bind; [apply runInference_noValidationError|].
      intros. apply noValidationError_ret.
    + by apply extractEntities2_after_validation.
    + by apply classify_after_validation.
Qed.

(** C5 (as stated) fails for a text that is not empty but blank: a single
    space with one label ends with a [ValidationError]. *)
Lemma blank_text_is_rejected :
  ¬ (∀ (rt : GLiNER1Runtime.Runtime) text labels threshold,
       text ≠ [] → labels ≠ [] →
       noValidationError
         (GLiNER1Runtime.extractEntities (H := rationalOps) rt text labels threshold)).
Proof.
  intros H.
  specialize (H stubRuntime1 (utf16 " ") [utf16 "x"] None
                ltac:(done) ltac:(done) world0
                (ValidationError "Text cannot be empty") world0 eq_refl
                "Text cannot be empty"%string).
  by apply H.
Qed.

Example validation_makes_no_call :
  GLiNER2Runtime.classify (H := rationalOps) stubRuntime2 (utf16 "") [utf16 "x"]
    None None world0
  = (inl (ValidationError "Text cannot be empty"), world0)
  ∧ GLiNER2Runtime.classify (H := rationalOps) stubRuntime2 (utf16 "hi") [] None None
      world0
    = (inl (ValidationError "Labels cannot be empty"), world0)
  ∧ GLiNER2Runtime.classify (H := rationalOps) stubRuntime2 (utf16 "hi") [utf16 "x"]
      None None world0
    = (inl CollaboratorFailure,
       {| calls := [TokenizerCall (utf16 "("); TokenizerCall (utf16 "category");
                    TokenizerCall (utf16 "x"); TokenizerCall (utf16 ")");
                    TokenizerCall (utf16 "hi"); EngineCall "encoder"];
          patternLastIndex := 0 |}).
Proof. repeat split; vm_compute; reflexivity. Qed.

Example batch_accepts_what_single_rejects :
  (GLiNER1Runtime.extractEntitiesBatch (H := rationalOps) quietRuntime1
     [utf16 "  "] [utf16 "x"] None world0).1 = inr [[]]
  ∧ GLiNER1Runtime.extractEntities (H := rationalOps) quietRuntime1
      (utf16 "  ") [utf16 "x"] None world0
    = (inl (ValidationError "Text cannot be empty"), world0).
Proof. split; vm_compute; reflexivity. Qed.
(** ** Worked examples *)

Import GLiNER1Lattice GLiNER2Lattice GLiNER1Decoder GLiNER1Processor.

(** The round trip of the specification: "John works at Google in Seattle"
    with the labels person, organization, location and threshold 0.5, through
    the splitter, the batch assembler, an engine stub that returns a score
    tensor with three cells above the threshold, the span decoder and the
    overlap resolver. *)
Example round_trip_john_google_seattle :
  (GLiNER1Runtime.extractEntities (H := rationalOps) craftedRuntime1
     (utf16 "John works at Google in Seattle")
     [utf16 "person"; utf16 "organization"; utf16 "location"]
     (Some (1 # 2)%Q) world0).1
  = inr [ {| text := utf16 "John"; label := utf16 "person";
             start := 0; end_ := 4; score := (4 # 5)%Q |};
          {| text := utf16 "Google"; label := utf16 "organization";
             start := 14; end_ := 20; score := (4 # 5)%Q |};
          {| text := utf16 "Seattle"; label := utf16 "location";
             start := 24; end_ := 31; score := (4 # 5)%Q |} ].
Proof. vm_compute. reflexivity. Qed.

(** The nested-span policy of the specification: spans (0,4) and (1,2)
    both survive when flat NER is disabled; with flat NER enabled only the
    higher-scoring one does. *)
Example greedySearch_nested :
  let outer := {| span_text := utf16 "abcd"; span_start := 0; span_end := 4;
                  span_label := utf16 "x"; span_score := (9 # 10)%Q |} in
  let inner := {| span_text := utf16 "b"; span_start := 1; span_end := 2;
                  span_label := utf16 "y"; span_score := (8 # 10)%Q |} in
  greedySearch [inner; outer] false false = [outer; inner]
  ∧ greedySearch [inner; outer] true false = [outer].
Proof. split; reflexivity. Qed.

(** Identical spans with different labels: both survive with multi-label
    enabled, only the higher-scoring one otherwise. *)
Example greedySearch_multi_label :
  let a := {| span_text := utf16 "ab"; span_start := 0; span_end := 2;
              span_label := utf16 "x"; span_score := (9 # 10)%Q |} in
  let b := {| span_text := utf16 "ab"; span_start := 0; span_end := 2;
              span_label := utf16 "y"; span_score := (8 # 10)%Q |} in
  greedySearch [b; a] true true = [a; b]
  ∧ greedySearch [b; a] true false = [a].
Proof. split; reflexivity. Qed.

(** Same-label intersecting entities are de-duplicated; entities with other
    labels stay, whatever their ranges. *)
Example deduplicateEntities_labels :
  let e1 := {| text := utf16 "abcde"; label := utf16 "x"; start := 0; end_ := 5;
               score := (9 # 10)%Q |} in
  let e2 := {| text := utf16 "abcde"; label := utf16 "y"; start := 0; end_ := 5;
               score := (8 # 10)%Q |} in
  let e3 := {| text := utf16 "defgh"; label := utf16 "y"; start := 3; end_ := 8;
               score := (7 # 10)%Q |} in
  GLiNER2Dedup.deduplicateEntities [e3; e2; e1] = [e1; e2].
Proof. reflexivity. Qed.

(** ** Instances of the theorems *)

Lemma span_lattice_shape_witness :
  (1 < 3 ∧ 1 < 2)
  ∧ (buildSpansRow 2 3).1 !! (1 * 2 + 1) = Some (1, Nat.min (1 + 1) (3 - 1))
  ∧ spanStart (generateSpans 3 2) !! (1 * 2 + 1) = Some 1
  ∧ spanEnd (generateSpans 3 2) !! (1 * 2 + 1) = Some 2.
Proof.
  split; [lia|].
  destruct (span_lattice_shape 3 2) as (_ & H & _). exact (H 1 1 ltac:(lia) ltac:(lia)).
Defined.

Lemma greedySearch_spec_witness :
  let a := {| span_text := utf16 "ab"; span_start := 0; span_end := 2;
              span_label := utf16 "x"; span_score := (9 # 10)%Q |} in
  let b := {| span_text := utf16 "bc"; span_start := 1; span_end := 3;
              span_label := utf16 "y"; span_score := (8 # 10)%Q |} in
  b ∈ [b; a]
  ∧ (b ∈ greedySearch [b; a] true false
     ∨ ∃ y, y ∈ greedySearch [b; a] true false
            ∧ overlaps true false b y = true
            ∧ (span_score b <= span_score y)%Q).
Proof.
  cbn zeta. split; [by left|].
  destruct (greedySearch_spec
              [ {| span_text := utf16 "bc"; span_start := 1; span_end := 3;
                   span_label := utf16 "y"; span_score := (8 # 10)%Q |};
                {| span_text := utf16 "ab"; span_start := 0; span_end := 2;
                   span_label := utf16 "x"; span_score := (9 # 10)%Q |} ]
              true false) as (_ & _ & _ & _ & _ & H).
  apply H. by left.
Defined.

Lemma deduplicateEntities_spec_witness :
  let e2 := {| text := utf16 "abcde"; label := utf16 "y"; start := 0; end_ := 5;
               score := (8 # 10)%Q |} in
  let e3 := {| text := utf16 "defgh"; label := utf16 "y"; start := 3; end_ := 8;
               score := (7 # 10)%Q |} in
  e3 ∈ [e3; e2]
  ∧ (e3 ∈ GLiNER2Dedup.deduplicateEntities [e3; e2]
     ∨ ∃ y, y ∈ GLiNER2Dedup.deduplicateEntities [e3; e2]
            ∧ label e3 = label y ∧ start e3 < end_ y ∧ end_ e3 > start y
            ∧ (score e3 <= score y)%Q).
Proof.
  cbn zeta. split; [by left|].
  destruct (deduplicateEntities_spec
              [ {| text := utf16 "defgh"; label := utf16 "y"; start := 3; end_ := 8;
                   score := (7 # 10)%Q |};
                {| text := utf16 "abcde"; label := utf16 "y"; start := 0; end_ := 5;
                   score := (8 # 10)%Q |} ]) as (_ & _ & H & _).
  apply H. by left.
Defined.

Lemma prepareBatch_padding_witness :
  let texts := [utf16 "a b c"; utf16 "d"] in
  let entities := [utf16 "x"] in
  let words := map (λ text, map (λ t, t.1.1) (wordsOf text)) texts in
  (1 ≤ 2 ∧ ∀ word, 3 ≤ length (encode unitTokenizer word))
  ∧ ∃ batch w',
      prepareBatch 2 unitTokenizer texts entities world0 = (inr batch, w')
      ∧ Forall (λ n, n ≤ max_list (map (λ tokens, length tokens * 2) words))
          (textLengths batch)
      ∧ Forall (λ n, n ≤ max_list (map (λ tokens,
                  length (inputRow unitTokenizer (promptOf entities ++ tokens)))
                  words))
          (textLengths batch).
Proof.
  cbn zeta.
  assert (Henc : ∀ word : jsstring, 3 ≤ length (encode unitTokenizer word))
    by (intros; cbn; lia).
  split; [split; [lia|exact Henc]|].
  destruct (prepareBatch_padding 2 unitTokenizer [utf16 "a b c"; utf16 "d"]
              [utf16 "x"] world0) as (batch & w' & Hrun & Hb).
  cbn zeta in Hb. destruct Hb as (_ & _ & _ & _ & _ & _ & _ & Hspan & Htok).
  exists batch, w'. split; [exact Hrun|]. split; [apply Hspan; lia|by apply Htok].
Defined.

Lemma validation_before_collaborators_witness :
  (trim (utf16 " ") = [] ∨ [utf16 "x"] = [])
  ∧ (trim (utf16 "hi") ≠ [] ∧ [utf16 "x"] ≠ [])
  ∧ (∃ message,
       GLiNER2Runtime.classify (H := rationalOps) stubRuntime2 (utf16 " ") [utf16 "x"]
         None None world0 = (inl (ValidationError message), world0))
  ∧ noValidationError
      (GLiNER2Runtime.classify (H := rationalOps) stubRuntime2 (utf16 "hi")
         [utf16 "x"] None None).
Proof.
  assert (H1 : trim (utf16 " ") = [] ∨ [utf16 "x"] = []) by (left; reflexivity).
  assert (H2 : trim (utf16 "hi") ≠ []) by (vm_compute; discriminate).
  assert (H3 : [utf16 "x"] ≠ []) by discriminate.
  split; [exact H1|]. split; [by split|]. split.
  - destruct (validation_before_collaborators (H := rationalOps) stubRuntime1
                stubRuntime2 (utf16 " ") [utf16 "x"] None None world0) as [Hbad _].
    exact (proj2 (proj2 (Hbad H1))).
  - destruct (validation_before_collaborators (H := rationalOps) stubRuntime1
                stubRuntime2 (utf16 "hi") [utf16 "x"] None None world0) as [_ Hok].
    exact (proj2 (proj2 (Hok H2 H3))).
Defined.

Lemma buildSpansRow_mask_true_witness :
  true ∈ (buildSpansRow 2 2).2 ∧ true = true.
Proof.
  assert (Hin : true ∈ (buildSpansRow 2 2).2) by (by left).
  split; [exact Hin|]. exact (buildSpansRow_mask_true 2 2 true Hin).
Defined.
(* ===================================================================== *)
(** * Part III. Further properties of the program                         *)
(* ===================================================================== *)

(** ** What the tokens cover *)

Lemma matchStar_spaceFree (m : list N → list (list N)) :
  (∀ s rest, rest ∈ m s →
     ∃ pre, s = pre ++ rest ∧ Forall (λ c, isSpace c = false) pre) →
  ∀ fuel s rest, rest ∈ matchStar m fuel s →
    ∃ pre, s = pre ++ rest ∧ Forall (λ c, isSpace c = false) pre.
Proof.
  intros Hm. induction fuel as [|fuel IH]; intros s rest; cbn [matchStar].
  - intros ->%list_elem_of_singleton. by exists [].
  - rewrite elem_of_app, elem_of_flat_map.
    intros [(s' & Hs' & Hin)| ->%list_elem_of_singleton]; [|by exists []].
    destruct (length s' <? length s); [|by apply elem_of_nil in Hin].
    destruct (Hm _ _ Hs') as (pre1 & -> & H1).
    destruct (IH _ _ Hin) as (pre2 & -> & H2).
    exists (pre1 ++ pre2). split; [by rewrite app_assoc|by apply Forall_app].
Qed.

(** What a whitespace-free pattern matches holds no whitespace. *)
Lemma matches_spaceFree r s rest :
  spaceFree r → rest ∈ matches r s →
  ∃ pre, s = pre ++ rest ∧ Forall (λ c, isSpace c = false) pre.
Proof.
  revert s rest. induction r as [p| |r1 IH1 r2 IH2|r1 IH1 r2 IH2|r IH];
    intros s rest Hfree; cbn [matches spaceFree] in *.
  - destruct s as [|c s]; [by intros ?%elem_of_nil|].
    destruct (p c) eqn:Ep; [|by intros ?%elem_of_nil].
    intros ->%list_elem_of_singleton. exists [c]. split; [done|].
    constructor; [by apply Hfree|constructor].
  - intros ->%list_elem_of_singleton. by exists [].
  - destruct Hfree as [Hf1 Hf2]. rewrite elem_of_flat_map.
    intros (s' & Hs' & Hin).
    destruct (IH1 _ _ Hf1 Hs') as (pre1 & -> & H1).
    destruct (IH2 _ _ Hf2 Hin) as (pre2 & -> & H2).
    exists (pre1 ++ pre2). split; [by rewrite app_assoc|by apply Forall_app].
  - destruct Hfree as [Hf1 Hf2]. rewrite elem_of_app. intros [Hin|Hin]; eauto.
  - apply matchStar_spaceFree. intros s' rest'. by apply IH.
Qed.

Lemma firstRule_Some rules s rest :
  firstRule rules s = Some rest → ∃ r, r ∈ rules ∧ rest ∈ matches r s.
Proof.
  induction rules as [|r rules IH]; [done|]. cbn [firstRule].
  destruct (matches r s) as [|rest' l] eqn:E.
  - intros (r' & Hr' & Hin)%IH. exists r'. split; [by right|done].
  - intros [= ->]. exists r. split; [by left|]. rewrite E. by left.
Qed.

Lemma filter_all_space (l : list N) :
  Forall (λ c, isSpace c = true) l → filter (λ c, isSpace c = false) l = [].
Proof.
  induction 1 as [|c l Hc _ IH]; [done|].
  rewrite filter_cons, decide_False by congruence. exact IH.
Qed.

Lemma filter_no_space (l : list N) :
  Forall (λ c, isSpace c = false) l → filter (λ c, isSpace c = false) l = l.
Proof.
  induction 1 as [|c l Hc _ IH]; [done|].
  by rewrite filter_cons, decide_True, IH by done.
Qed.

Lemma gap_all_space rules (text : list N) pos index :
  nonSpace ∈ rules → index ≤ length text →
  (∀ p, pos ≤ p < index → firstRule rules (drop p text) = None) →
  Forall (λ c, isSpace c = true) (slice text pos index).
Proof.
  intros Hin Hlen Hgap. apply Forall_lookup_2. intros i c Hc.
  unfold slice in Hc. apply lookup_take_Some in Hc as [Hc Hi].
  rewrite lookup_drop in Hc.
  eapply unmatched_is_space; [done| |done]. apply Hgap. lia.
Qed.

Lemma drop_slice {A : Type} (l : list A) from to :
  from ≤ to → drop from l = slice l from to ++ drop to l.
Proof.
  intros Hle. unfold slice. replace (drop to l) with (drop (to - from) (drop from l)).
  - by rewrite take_drop.
  - rewrite drop_drop. f_equal. lia.
Qed.

Section Partition.
Context (rules : list regex).
Hypothesis has_nonSpace : nonSpace ∈ rules.
Hypothesis rules_spaceFree : Forall spaceFree rules.

(** The tokens from [pos] on, concatenated, are the text from [pos] on
    without its whitespace; every token is a non-empty whitespace-free slice
    of the text, and the tokens follow one another without overlap. *)
Lemma Tokenized_partition text pos tokens :
  Tokenized rules text pos tokens →
  concat (map (λ t, t.1.1) tokens) = filter (λ c, isSpace c = false) (drop pos text)
  ∧ Forall (λ t, pos ≤ t.1.2 ∧ t.1.2 < t.2 ∧ t.2 ≤ length text
                 ∧ t.1.1 = slice text t.1.2 t.2
                 ∧ Forall (λ c, isSpace c = false) t.1.1) tokens
  ∧ StronglySorted (λ a b, a.2 ≤ b.1.2) tokens.
Proof.
  induction 1 as [pos Hpos Hnone|pos index e tokens (Hi1 & Hi2 & Hi3) Hgap Hm Ht IH].
  - split; [|split; constructor]. cbn. symmetry. apply filter_all_space.
    apply Forall_lookup_2. intros i c Hc. rewrite lookup_drop in Hc.
    eapply unmatched_is_space; [done| |done]. apply Hnone.
    apply lookup_lt_Some in Hc. lia.
  - destruct IH as (IHc & IHf & IHs).
    assert (Htok : Forall (λ c, isSpace c = false) (slice text index e)).
    { destruct (firstRule_Some _ _ _ Hm) as (r & Hr & Hin).
      rewrite Forall_forall in rules_spaceFree.
      destruct (matches_spaceFree r _ _ (rules_spaceFree r Hr) Hin) as (pre & Hpre & Hfree).
      rewrite (drop_slice text index e) in Hpre by lia.
      apply app_inv_tail in Hpre. by rewrite Hpre. }
    split; [|split].
    + cbn [map concat fst]. rewrite IHc.
      rewrite (drop_slice text pos index), (drop_slice text index e) by lia.
      rewrite !filter_app.
      rewrite (filter_all_space (slice text pos index))
        by (eapply gap_all_space; [done|lia|done]).
      by rewrite (filter_no_space _ Htok).
    + constructor; [cbn; repeat split; [lia|lia|lia|done]|].
      eapply Forall_impl; [exact IHf|]. cbn. intros t (? & ? & ? & ? & ?).
      repeat split; [lia|lia|lia|done|done].
    + constructor; [done|]. eapply Forall_impl; [exact IHf|].
      cbn. intros t (? & _). lia.
Qed.
End Partition.

(** *** The rules of both patterns are whitespace-free *)

Lemma isSpace_ascii c : (33 ≤ c ≤ 126)%N → isSpace c = false.
Proof.
  intros Hc. destruct (isSpace c) eqn:E; [|done].
  apply isSpace_range in E. lia.
Qed.

Lemma spaceFree_nonSpace : spaceFree nonSpace.
Proof. intros c Hc. by apply negb_true_iff in Hc. Qed.

Lemma spaceFree_wordChar : spaceFree wordChar.
Proof. intros c Hc%isWordChar_range. apply isSpace_ascii. lia. Qed.

Lemma spaceFree_Plus r : spaceFree r → spaceFree (Plus r).
Proof. by split. Qed.

Lemma spaceFree_wordRun : spaceFree wordRun.
Proof.
  repeat split; try apply spaceFree_wordChar.
  intros c Hc. apply isSpace_ascii.
  apply orb_true_iff in Hc as [Hc|Hc]; apply N.eqb_eq in Hc; lia.
Qed.

Lemma inRange_iff lo hi c : inRange lo hi c = true ↔ (lo ≤ c ≤ hi)%N.
Proof. unfold inRange. rewrite andb_true_iff, !N.leb_le. done. Qed.

Ltac class_range :=
  let c := fresh "c" in let Hc := fresh "Hc" in
  intros c Hc; apply isSpace_ascii;
  unfold isLower, isUpper, isDigit in Hc;
  repeat match goal with
  | H : (_ || _) = true |- _ => apply orb_true_iff in H as [H|H]
  | H : (_ && _) = true |- _ => apply andb_true_iff in H as [? H]
  | H : inRange _ _ _ = true |- _ => apply inRange_iff in H
  | H : (_ =? _)%N = true |- _ => apply N.eqb_eq in H
  end; cbn in *; lia.

Lemma spaceFree_chr a : (33 ≤ N_of_ascii a ≤ 126)%N → spaceFree (chr a).
Proof. intros Ha c Hc. apply N.eqb_eq in Hc. subst. by apply isSpace_ascii. Qed.

Lemma spaceFree_chri a : (33 ≤ N_of_ascii a ≤ 126)%N → spaceFree (chri a).
Proof.
  intros Ha c Hc. apply isSpace_ascii. unfold chri, isLower, isUpper in *.
  repeat match goal with
  | H : (_ || _) = true |- _ => apply orb_true_iff in H as [H|H]
  | H : (_ && _) = true |- _ => apply andb_true_iff in H as [? H]
  | H : inRange _ _ _ = true |- _ => apply inRange_iff in H
  | H : (_ =? _)%N = true |- _ => apply N.eqb_eq in H
  end; lia.
Qed.

Lemma spaceFree_urlRule : spaceFree GLiNER2Splitter.urlRule.
Proof.
  unfold GLiNER2Splitter.urlRule, Opt. cbn [liti spaceFree Plus].
  repeat split;
    try apply spaceFree_nonSpace; try (apply spaceFree_chri; cbn; lia).
Qed.

Lemma spaceFree_emailRule : spaceFree GLiNER2Splitter.emailRule.
Proof.
  unfold GLiNER2Splitter.emailRule, AtLeast2, Plus. cbn [spaceFree].
  repeat split; try (apply spaceFree_chr; cbn; lia); class_range.
Qed.

Lemma spaceFree_mentionRule : spaceFree GLiNER2Splitter.mentionRule.
Proof.
  unfold GLiNER2Splitter.mentionRule, Plus. cbn [spaceFree].
  repeat split; try (apply spaceFree_chr; cbn; lia); class_range.
Qed.

Lemma split_tokens (text : jsstring) :
  ∃ tokens,
    (∀ lastIndex, GLiNER1Splitter.split lastIndex text = (Some tokens, 0))
    ∧ concat (map (λ t, t.1.1) tokens) = filter (λ c, isSpace c = false) text
    ∧ Forall (λ t, t.1.2 < t.2 ∧ t.2 ≤ length text
                   ∧ t.1.1 = slice text t.1.2 t.2
                   ∧ Forall (λ c, isSpace c = false) t.1.1) tokens
    ∧ StronglySorted (λ a b, a.2 ≤ b.1.2) tokens.
Proof.
  destruct (split_total text) as (tokens & Hs & Ht). exists tokens.
  split; [apply Hs|].
  destruct (Tokenized_partition [wordRun; nonSpace]) with (3 := Ht) as (Hc & Hf & Hsrt).
  - rewrite !elem_of_cons. auto.
  - repeat apply Forall_cons_2; [apply spaceFree_wordRun|apply spaceFree_nonSpace|constructor].
  - split; [exact Hc|]. split; [|done].
    eapply Forall_impl; [exact Hf|]. cbn. intros t (_ & ? & ? & ? & ?). done.
Qed.

Lemma splitWords_tokens (lowerText : jsstring) :
  ∃ tokens,
    GLiNER2Splitter.splitWords lowerText = Some tokens
    ∧ concat (map (λ t, t.1.1) tokens) = filter (λ c, isSpace c = false) lowerText
    ∧ Forall (λ t, t.1.2 < t.2 ∧ t.2 ≤ length lowerText
                   ∧ t.1.1 = slice lowerText t.1.2 t.2
                   ∧ Forall (λ c, isSpace c = false) t.1.1) tokens
    ∧ StronglySorted (λ a b, a.2 ≤ b.1.2) tokens.
Proof.
  destruct (splitWords_total lowerText) as (tokens & Hs & Ht). exists tokens.
  split; [apply Hs|].
  destruct (Tokenized_partition
              [GLiNER2Splitter.urlRule; GLiNER2Splitter.emailRule;
               GLiNER2Splitter.mentionRule; wordRun; nonSpace])
    with (3 := Ht) as (Hc & Hf & Hsrt).
  - rewrite !elem_of_cons. auto 10.
  - repeat apply Forall_cons_2;
      [apply spaceFree_urlRule|apply spaceFree_emailRule|apply spaceFree_mentionRule
      |apply spaceFree_wordRun|apply spaceFree_nonSpace|constructor].
  - split; [exact Hc|]. split; [|done].
    eapply Forall_impl; [exact Hf|]. cbn. intros t (_ & ? & ? & ? & ?). done.
Qed.

Lemma filter_nil_all_space (l : list N) :
  filter (λ c, isSpace c = false) l = [] ↔ Forall (λ c, isSpace c = true) l.
Proof.
  split; [|apply filter_all_space].
  induction l as [|c l IH]; [constructor|]. rewrite filter_cons.
  destruct (decide (isSpace c = false)) as [|Hc]; [done|].
  intros Hl. constructor; [by destruct (isSpace c)|by apply IH].
Qed.

Lemma tokens_nil_iff_blank (text : jsstring) (tokens : list (jsstring * nat * nat)) :
  concat (map (λ t, t.1.1) tokens) = filter (λ c, isSpace c = false) text →
  Forall (λ t, t.1.2 < t.2 ∧ t.2 ≤ length text
               ∧ t.1.1 = slice text t.1.2 t.2
               ∧ Forall (λ c, isSpace c = false) t.1.1) tokens →
  tokens = [] ↔ trim text = [].
Proof.
  intros Hc Hf. rewrite trim_nil, <- filter_nil_all_space, <- Hc. split; [by intros ->|].
  destruct tokens as [|t tokens]; [done|]. cbn [map concat].
  apply Forall_cons in Hf as [(Hlt & Hle & Ht & _) _].
  intros [Hnil _]%app_eq_nil. rewrite Hnil in Ht. symmetry in Ht.
  apply (f_equal length) in Ht. unfold slice in Ht.
  rewrite length_take, length_drop in Ht. cbn in Ht. lia.
Qed.

(** GLiNER1's [WhitespaceTokenSplitter.split] partitions the non-whitespace
    of the text: the tokens, concatenated, are the text with its whitespace
    removed; every token is a non-empty slice of the text without
    whitespace, at the offsets yielded with it, and the tokens are in text
    order without overlap. The RegExp object is left with [lastIndex] 0. *)
Theorem split_partitions_text (text : jsstring) (lastIndex : nat) :
  ∃ tokens,
    GLiNER1Splitter.split lastIndex text = (Some tokens, 0)
    ∧ concat (map (λ t, t.1.1) tokens) = filter (λ c, isSpace c = false) text
    ∧ Forall (λ t, t.1.2 < t.2 ∧ t.2 ≤ length text
                   ∧ t.1.1 = slice text t.1.2 t.2
                   ∧ Forall (λ c, isSpace c = false) t.1.1) tokens
    ∧ StronglySorted (λ a b, a.2 ≤ b.1.2) tokens.
Proof.
  destruct (split_tokens text) as (tokens & Hs & H). exists tokens.
  split; [apply Hs|exact H].
Qed.

(** The same for GLiNER2's [WORD_PATTERN], run by a fresh
    [createWordPattern()] to its end: URLs, e-mail addresses and mentions
    are single tokens, and still no non-whitespace code unit is lost or
    repeated. *)
Theorem splitWords_partitions_text (lowerText : jsstring) :
  ∃ tokens,
    GLiNER2Splitter.splitWords lowerText = Some tokens
    ∧ concat (map (λ t, t.1.1) tokens) = filter (λ c, isSpace c = false) lowerText
    ∧ Forall (λ t, t.1.2 < t.2 ∧ t.2 ≤ length lowerText
                   ∧ t.1.1 = slice lowerText t.1.2 t.2
                   ∧ Forall (λ c, isSpace c = false) t.1.1) tokens
    ∧ StronglySorted (λ a b, a.2 ≤ b.1.2) tokens.
Proof. apply splitWords_tokens. Qed.

(** The texts without a word are exactly the blank ones, which is what the
    validation guard [text.trim().length === 0] tests: both splitters yield
    no token if and only if the text is empty or all whitespace. *)
Theorem no_token_iff_blank (text : jsstring) (lastIndex : nat) :
  ((GLiNER1Splitter.split lastIndex text).1 = Some [] ↔ trim text = [])
  ∧ (GLiNER2Splitter.splitWords text = Some [] ↔ trim text = []).
Proof.
  split.
  - destruct (split_tokens text) as (tokens & Hs & Hc & Hf & _).
    rewrite Hs. cbn [fst]. rewrite <- (tokens_nil_iff_blank text tokens Hc Hf).
    split; [by intros [= ->]|by intros ->].
  - destruct (splitWords_tokens text) as (tokens & Hs & Hc & Hf & _).
    rewrite Hs. rewrite <- (tokens_nil_iff_blank text tokens Hc Hf).
    split; [by intros [= ->]|by intros ->].
Qed.
(** ** Thresholds and the selection loop *)

Section AcceptFilter.
Context {A : Type} (conflicts : A → A → bool).
Context (P : A → Prop) `{!∀ x, Decision (P x)}.

(** When the entries that satisfy [P] come first, selecting among them is
    selecting among all and keeping those that satisfy [P]. *)
Lemma acceptLoop_filter_prefix l :
  (∀ l1 x l2, l = l1 ++ x :: l2 → P x → Forall P l1) →
  acceptLoop conflicts (filter P l) = filter P (acceptLoop conflicts l).
Proof.
  induction l as [|x l IH] using rev_ind; [done|]. intros Hclosed.
  assert (IH' : acceptLoop conflicts (filter P l) = filter P (acceptLoop conflicts l)).
  { apply IH. intros l1 y l2 -> Hy.
    apply (Hclosed l1 y (l2 ++ [x])); [by rewrite <- app_assoc|done]. }
  rewrite filter_app, filter_cons, filter_nil.
  destruct (decide (P x)) as [Hx|Hx].
  - assert (Hall : Forall P l) by (apply (Hclosed l x []); done).
    assert (Hfl : filter P l = l).
    { clear -Hall. induction Hall as [|y l Hy _ IHl]; [done|].
      by rewrite filter_cons, decide_True, IHl by done. }
    assert (Hacc : Forall P (acceptLoop conflicts (l ++ [x]))).
    { apply Forall_forall. intros y Hy%acceptLoop_elem_of.
      apply elem_of_app in Hy as [Hy|Hy%list_elem_of_singleton]; [|by subst].
      rewrite Forall_forall in Hall. by apply Hall. }
    rewrite Hfl. symmetry. clear -Hacc.
    induction Hacc as [|y l' Hy _ IHl]; [done|].
    by rewrite filter_cons, decide_True, IHl by done.
  - rewrite app_nil_r, IH', acceptLoop_snoc.
    destruct (existsb _ _); [done|].
    by rewrite filter_app, filter_cons, decide_False, filter_nil, app_nil_r.
Qed.
End AcceptFilter.

Import GLiNER1Decoder.

Lemma filter_byStartAsc (P : RawSpan → Prop) `{!∀ x, Decision (P x)} l :
  filter P (jsSort byStartAsc l) = jsSort byStartAsc (filter P l).
Proof.
  apply (filter_jsSort byStartAsc (λ a b, span_start a ≤ span_start b));
    unfold byStartAsc; intros x y.
  - intros Hlt. apply (proj1 (signZ_sub_Lt _ _)) in Hlt. lia.
  - intros Hge. apply (proj1 (signZ_sub_not_Lt _ _)) in Hge. lia.
  - intros Hle Hlt. apply (proj1 (signZ_sub_Lt _ _)) in Hlt. lia.
Qed.

Lemma greedySearch_filter (t : Q) spans flatNer multiLabel :
  greedySearch (filter (λ r, Qle_bool t (span_score r) = true) spans) flatNer multiLabel
  = filter (λ r, Qle_bool t (span_score r) = true) (greedySearch spans flatNer multiLabel).
Proof.
  unfold greedySearch. cbn zeta.
  rewrite filter_byStartAsc, <- filter_byScoreDesc. f_equal.
  apply acceptLoop_filter_prefix. intros l1 x l2 Hl Hx.
  apply Forall_forall. intros y Hy.
  apply Qle_bool_iff. apply Qle_bool_iff in Hx.
  assert (Hyx : (span_score x <= span_score y)%Q).
  { eapply (StronglySorted_before (λ a b, (span_score b <= span_score a)%Q));
      [apply jsSort_byScoreDesc_sorted|]. by exists l1, l2. }
  lra.
Qed.

Section DecodeThreshold.
Context `{FloatOps}.
Context (maxWidth batchSize inputLength entityCount : nat).
Context (texts : list jsstring) (batchIds : list nat).
Context (charStartOffsets charEndOffsets : list (list nat)).
Context (idToClass : gmap nat jsstring) (modelOutput : list Q).
Context (t1 t2 : Q).
Hypothesis t1_le_t2 : (t1 <= t2)%Q.

#[local] Abbreviation candAt t :=
  (candidateAt maxWidth inputLength entityCount texts batchIds
     charStartOffsets charEndOffsets idToClass modelOutput t).
#[local] Abbreviation keeps := (λ r : RawSpan, Qle_bool t2 (span_score r) = true).

Lemma candidateAt_threshold idx :
  candAt t2 idx
  = candAt t1 idx ≫= λ '(b, r), if Qle_bool t2 (span_score r) then Some (b, r) else None.
Proof.
  unfold candidateAt. destruct (modelOutput !! idx) as [raw|]; [|done].
  cbn [mbind option_bind].
  destruct (0 <? inputLength * maxWidth * entityCount); [cbn [andb]|done].
  destruct (Qle_bool t2 (sigmoid raw)) eqn:E2.
  - assert (E1 : Qle_bool t1 (sigmoid raw) = true).
    { apply Qle_bool_iff. apply Qle_bool_iff in E2. lra. }
    rewrite E1.
    destruct (charStartOffsets !! _) as [starts|]; [|done].
    destruct (charEndOffsets !! _) as [ends|]; [|done].
    cbn [mbind option_bind].
    destruct (starts !! _) as [startChar|]; [|done].
    destruct (ends !! _) as [endChar|]; [|done].
    cbn [mbind option_bind span_score]. by rewrite E2.
  - destruct (Qle_bool t1 (sigmoid raw)); [|done].
    destruct (charStartOffsets !! _) as [starts|]; [|done].
    destruct (charEndOffsets !! _) as [ends|]; [|done].
    cbn [mbind option_bind].
    destruct (starts !! _) as [startChar|]; [|done].
    destruct (ends !! _) as [endChar|]; [|done].
    cbn [mbind option_bind span_score]. by rewrite E2.
Qed.

Lemma rowOf_threshold b (idxs : list nat) :
  omap (λ idx, '(b', r) ← candAt t2 idx; if decide (b' = b) then Some r else None) idxs
  = filter keeps
      (omap (λ idx, '(b', r) ← candAt t1 idx; if decide (b' = b) then Some r else None)
         idxs).
Proof.
  induction idxs as [|idx idxs IH]; [done|]. cbn [omap list_omap].
  rewrite candidateAt_threshold.
  destruct (candAt t1 idx) as [[b' r]|]; cbn [mbind option_bind]; [|exact IH].
  destruct (Qle_bool t2 (span_score r)) eqn:E; cbn [mbind option_bind].
  - destruct (decide (b' = b)); [|exact IH].
    by rewrite filter_cons, decide_True, IH by done.
  - destruct (decide (b' = b)); [|exact IH].
    rewrite filter_cons, decide_False by congruence. exact IH.
Qed.

Lemma extractSpans_threshold :
  length charStartOffsets ≤ batchSize →
  extractSpans maxWidth batchSize inputLength entityCount texts batchIds
    charStartOffsets charEndOffsets idToClass modelOutput t2
  = map (filter keeps) <$>
      extractSpans maxWidth batchSize inputLength entityCount texts batchIds
        charStartOffsets charEndOffsets idToClass modelOutput t1.
Proof.
  intros Hlen. rewrite !extractSpans_body.
  destruct (extractSpans_rows maxWidth batchSize inputLength entityCount texts batchIds
              charStartOffsets charEndOffsets idToClass modelOutput t1
              (length modelOutput) Hlen) as (spans1 & -> & Hl1 & Hr1).
  destruct (extractSpans_rows maxWidth batchSize inputLength entityCount texts batchIds
              charStartOffsets charEndOffsets idToClass modelOutput t2
              (length modelOutput) Hlen) as (spans2 & -> & Hl2 & Hr2).
  cbn [fmap option_fmap option_map]. f_equal. apply list_eq. intros b.
  rewrite list_lookup_fmap.
  destruct (decide (b < batchSize)) as [Hb|Hb].
  - rewrite Hr1, Hr2 by done. cbn [fmap option_fmap option_map]. f_equal.
    apply rowOf_threshold.
  - rewrite !(proj2 (lookup_ge_None _ _)) by lia. done.
Qed.

End DecodeThreshold.

Lemma decode_filter `{FloatOps}
    (maxWidth batchSize inputLength entityCount : nat)
    (texts : list jsstring) (batchIds : list nat)
    (charStartOffsets charEndOffsets : list (list nat))
    (idToClass : gmap nat jsstring) (modelOutput : list Q)
    (t1 t2 : Q) (flatNer multiLabel : option bool) :
  (t1 <= t2)%Q → length charStartOffsets ≤ batchSize →
  decode maxWidth batchSize inputLength entityCount texts batchIds
    charStartOffsets charEndOffsets idToClass modelOutput
    {| opt_threshold := Some t2; opt_flatNer := flatNer; opt_multiLabel := multiLabel |}
  = map (filter (λ r, Qle_bool t2 (span_score r) = true)) <$>
      decode maxWidth batchSize inputLength entityCount texts batchIds
        charStartOffsets charEndOffsets idToClass modelOutput
        {| opt_threshold := Some t1; opt_flatNer := flatNer;
           opt_multiLabel := multiLabel |}.
Proof.
  intros Ht Hlen. unfold decode. cbn [opt_threshold opt_flatNer opt_multiLabel].
  change (default DEFAULT_THRESHOLD (Some t2)) with t2.
  change (default DEFAULT_THRESHOLD (Some t1)) with t1.
  rewrite (extractSpans_threshold _ _ _ _ _ _ _ _ _ _ t1 t2 Ht Hlen).
  destruct (extractSpans _ _ _ _ _ _ _ _ _ _ t1) as [spans|];
    cbn [fmap option_fmap option_map mbind option_bind]; [|done]. f_equal.
  rewrite <- !list_fmap_compose. apply list_fmap_ext. intros _ row _. cbn.
  apply greedySearch_filter.
Qed.


(** For finite logits and finite thresholds, raising the threshold only
    removes entities: decoding with the threshold [t2] gives, example by
    example, the entities that decoding with a lower threshold [t1] gives,
    restricted to those with a score of at least [t2]. No entity appears,
    changes or moves because weaker candidates were dropped before the
    overlaps were resolved. *)
Theorem decode_threshold_monotone `{FloatOps}
    (maxWidth batchSize inputLength entityCount : nat)
    (texts : list jsstring) (batchIds : list nat)
    (charStartOffsets charEndOffsets : list (list nat))
    (idToClass : gmap nat jsstring) (modelOutput : list Q)
    (t1 t2 : Q) (flatNer multiLabel : option bool) :
  (t1 <= t2)%Q → length charStartOffsets ≤ batchSize →
  decode maxWidth batchSize inputLength entityCount texts batchIds
    charStartOffsets charEndOffsets idToClass modelOutput
    {| opt_threshold := Some t2; opt_flatNer := flatNer; opt_multiLabel := multiLabel |}
  = map (filter (λ r, Qle_bool t2 (span_score r) = true)) <$>
      decode maxWidth batchSize inputLength entityCount texts batchIds
        charStartOffsets charEndOffsets idToClass modelOutput
        {| opt_threshold := Some t1; opt_flatNer := flatNer;
           opt_multiLabel := multiLabel |}.
Proof. apply decode_filter. Qed.

Lemma decode_threshold_monotone_witness :
  ((1 # 2 <= 3 # 4)%Q ∧ length [[0; 3]] ≤ 1)
  ∧ decode (H := rationalOps) 2 1 2 1 [utf16 "ab cd"] [0] [[0; 3]] [[2; 5]]
      {[1 := utf16 "x"]} [3; -3; 3; 3]%Q
      {| opt_threshold := Some (3 # 4)%Q; opt_flatNer := None; opt_multiLabel := None |}
    = map (filter (λ r, Qle_bool (3 # 4) (span_score r) = true)) <$>
        decode (H := rationalOps) 2 1 2 1 [utf16 "ab cd"] [0] [[0; 3]] [[2; 5]]
          {[1 := utf16 "x"]} [3; -3; 3; 3]%Q
          {| opt_threshold := Some (1 # 2)%Q; opt_flatNer := None;
             opt_multiLabel := None |}.
Proof.
  assert (Ht : (1 # 2 <= 3 # 4)%Q) by (unfold Qle; cbn; lia).
  assert (Hl : length [[0; 3]] ≤ 1) by (cbn; lia).
  split; [by split|].
  exact (decode_threshold_monotone (H := rationalOps) 2 1 2 1 [utf16 "ab cd"] [0]
           [[0; 3]] [[2; 5]] {[1 := utf16 "x"]} [3; -3; 3; 3]%Q (1 # 2) (3 # 4)
           None None Ht Hl).
Defined.
(** ** Results and call traces *)

Lemma evaluates_ret {A : Type} (a : A) : evaluates (mret a) a [].
Proof. intros w. exists w. by rewrite app_nil_r. Qed.

Lemma evaluates_bind {A B : Type} (m : M A) (f : A → M B) a b evs1 evs2 :
  evaluates m a evs1 → evaluates (f a) b evs2 → evaluates (m ≫= f) b (evs1 ++ evs2).
Proof.
  intros Hm Hf w. destruct (Hm w) as (w1 & Hw1 & Hc1).
  destruct (Hf w1) as (w2 & Hw2 & Hc2). exists w2.
  rewrite bind_unfold, Hw1, Hw2, Hc2, Hc1. by rewrite app_assoc.
Qed.

Lemma evaluates_ret_bind {A B : Type} (a : A) (f : A → M B) b evs :
  evaluates (f a) b evs → evaluates (mret a ≫= f) b evs.
Proof. intros Hf w. exact (Hf w). Qed.

Lemma evaluates_emit ev : evaluates (emit ev) () [ev].
Proof. intros w. by eexists. Qed.

Lemma evaluates_eq {A : Type} (m : M A) a a' evs evs' :
  evaluates m a evs → a = a' → evs = evs' → evaluates m a' evs'.
Proof. by intros Hm <- <-. Qed.

Lemma evaluates_returns {A : Type} (m : M A) a evs :
  evaluates m a evs → returns m (λ x, x = a).
Proof. intros Hm w. destruct (Hm w) as (w' & Hw & _). by exists a, w'. Qed.

(** A loop over a list: the state after each prefix and the calls of each
    iteration. *)
Lemma evaluates_forEachM {A S : Type} (stF : list A → S) (ev : A → list event)
    (l : list A) (body : A → S → M S) :
  (∀ pre x post, l = pre ++ x :: post →
     evaluates (body x (stF pre)) (stF (pre ++ [x])) (ev x)) →
  evaluates (forEachM l body (stF [])) (stF l) (flat_map ev l).
Proof.
  intros Hstep.
  enough (Hgen : ∀ post pre, l = pre ++ post →
            evaluates (forEachM post body (stF pre)) (stF l) (flat_map ev post))
    by (by apply (Hgen l [])).
  induction post as [|x post IH]; intros pre Hl.
  - rewrite app_nil_r in Hl. subst pre. apply evaluates_ret.
  - cbn [forEachM flat_map]. eapply evaluates_bind; [by eapply Hstep|].
    apply (IH (pre ++ [x])). by rewrite <- app_assoc.
Qed.

Lemma flat_map_seq_lookup {A B : Type} (f : option A → list B) (l : list A) :
  flat_map (λ i, f (l !! i)) (seq 0 (length l)) = flat_map (λ x, f (Some x)) l.
Proof.
  enough (Hgen : ∀ pre, flat_map (λ i, f ((pre ++ l) !! i)) (seq (length pre) (length l))
                        = flat_map (λ x, f (Some x)) l) by apply (Hgen []).
  induction l as [|x l IH]; intros pre; [done|].
  cbn [length seq flat_map]. rewrite list_lookup_middle by done. f_equal.
  specialize (IH (pre ++ [x])). rewrite <- app_assoc, length_app in IH. cbn in IH.
  by rewrite Nat.add_1_r in IH.
Qed.

Import GLiNER1Lattice GLiNER1Processor.

Lemma splitM_evaluates text : evaluates (splitM text) (wordsOf text) [].
Proof.
  intros w. unfold splitM, wordsOf. destruct (split_total text) as (tokens & Hs & _).
  rewrite !Hs. cbn. eexists. split; [done|]. cbn. by rewrite app_nil_r.
Qed.

Lemma tokenizeTexts_evaluates texts :
  evaluates (tokenizeTexts texts)
    (map (λ text, map (λ t, t.1.1) (wordsOf text)) texts,
     map (λ text, map (λ t, t.1.2) (wordsOf text)) texts,
     map (λ text, map (λ t, t.2) (wordsOf text)) texts) [].
Proof.
  unfold tokenizeTexts.
  eapply evaluates_eq.
  - apply (evaluates_forEachM
      (λ pre, (map (λ text, map (λ t, t.1.1) (wordsOf text)) pre,
               map (λ text, map (λ t, t.1.2) (wordsOf text)) pre,
               map (λ text, map (λ t, t.2) (wordsOf text)) pre))
      (λ _, [])).
    intros pre text post _.
    eapply evaluates_eq; [eapply evaluates_bind; [apply splitM_evaluates|]| |].
    + rewrite push_triples. apply evaluates_ret.
    + by rewrite !map_app.
    + done.
  - done.
  - induction texts; [done|]. done.
Qed.

Section Encode.
Context (tokenizer : GLiNER1Tokenizer).

#[local] Abbreviation idsRow' := (inputRow tokenizer).

Lemma callEncode_evaluates word :
  evaluates (callEncode tokenizer word) (encode tokenizer word) [TokenizerCall word].
Proof.
  unfold callEncode.
  eapply evaluates_eq; [eapply evaluates_bind; [apply evaluates_emit|apply evaluates_ret]|..];
    done.
Qed.

Lemma wordCounterFrom_snoc p i c words word :
  wordCounterFrom tokenizer p i c (words ++ [word])
  = wordCounterFrom tokenizer p (i + length words)
      (wordCounterFrom tokenizer p i c words) [word].
Proof.
  revert i c. induction words as [|w words IH]; intros i c.
  - cbn [app length wordCounterFrom]. by rewrite Nat.add_0_r.
  - cbn [app length]. change (wordCounterFrom tokenizer p i c (w :: words ++ [word]))
      with (wordCounterFrom tokenizer p (S i)
              (wordCounterFrom tokenizer p i c [w]) (words ++ [word])).
    rewrite IH. replace (S i + length words) with (i + S (length words)) by lia.
    done.
Qed.

Lemma wordsMaskFrom_cons p i c w words :
  wordsMaskFrom tokenizer p i c (w :: words)
  = wordsMaskFrom tokenizer p i c [w]
    ++ wordsMaskFrom tokenizer p (S i) (wordCounterFrom tokenizer p i c [w]) words.
Proof. cbn [wordsMaskFrom]. by rewrite app_nil_r. Qed.

Lemma wordsMaskFrom_snoc p i c words word :
  wordsMaskFrom tokenizer p i c (words ++ [word])
  = wordsMaskFrom tokenizer p i c words
    ++ wordsMaskFrom tokenizer p (i + length words)
         (wordCounterFrom tokenizer p i c words) [word].
Proof.
  revert i c. induction words as [|w words IH]; intros i c.
  - cbn [app length]. by rewrite Nat.add_0_r.
  - cbn [app length]. rewrite wordsMaskFrom_cons, IH, (wordsMaskFrom_cons p i c w words).
    rewrite <- app_assoc. do 2 f_equal.
    replace (S i + length words) with (i + S (length words)) by lia. done.
Qed.

Lemma encodeInputs_evaluates inputTexts promptLengths p :
  (∀ i, i < length inputTexts → promptLengths !! i = Some p) →
  evaluates (encodeInputs tokenizer inputTexts promptLengths)
    (map idsRow' inputTexts,
     map (λ inputText, replicate (length (idsRow' inputText)) 1%Z) inputTexts,
     map (wordsMaskRow tokenizer p) inputTexts)
    (flat_map (λ inputText, map TokenizerCall inputText) inputTexts).
Proof.
  intros Hp. unfold encodeInputs.
  eapply evaluates_eq.
  - apply (evaluates_forEachM
      (λ pre, let done_ := take (length pre) inputTexts in
         (map idsRow' done_,
          map (λ inputText, replicate (length (idsRow' inputText)) 1%Z) done_,
          map (wordsMaskRow tokenizer p) done_))
      (λ batchIdx, map TokenizerCall (default [] (inputTexts !! batchIdx)))).
    intros pre batchIdx post Hseq. cbn zeta.
    apply seq_split_middle in Hseq as [-> Hlt].
    destruct (lookup_lt_is_Some_2 inputTexts (length pre)) as [tokens Ht]; [lia|].
    rewrite (Hp _ Hlt), Ht. cbn [assertDefined default].
    do 2 apply evaluates_ret_bind.
    eapply evaluates_eq; [eapply evaluates_bind| |].
    + apply (evaluates_forEachM
        (λ wpre, let words := take (length wpre) tokens in
           ([CLS_TOKEN_ID] ++ flat_map (subTokens tokenizer) words,
            replicate (length ([CLS_TOKEN_ID] ++ flat_map (subTokens tokenizer) words)) 1%Z,
            [PAD_VALUE] ++ wordsMaskFrom tokenizer p 0 1 words,
            wordCounterFrom tokenizer p 0 1 words))
        (λ wordIdx, map TokenizerCall (option_list (tokens !! wordIdx)))).
      intros wpre wordIdx wpost Hwseq. cbn zeta.
      apply seq_split_middle in Hwseq as [-> Hwlt].
      destruct (lookup_lt_is_Some_2 tokens (length wpre)) as [word Hw]; [lia|].
      rewrite Hw. cbn [assertDefined option_list map].
      apply evaluates_ret_bind.
      eapply evaluates_eq; [eapply evaluates_bind; [apply callEncode_evaluates|]| |done].
      * rewrite encodeWord_spec. apply evaluates_ret.
      * change (slice (encode tokenizer word) 1 (length (encode tokenizer word) - 1))
          with (subTokens tokenizer word).
        rewrite (length_app wpre). cbn [length].
        rewrite Nat.add_1_r, (take_S_r _ _ _ Hw), flat_map_app.
        cbn [flat_map]. rewrite app_nil_r.
        assert (Hk : length (take (length wpre) tokens) = length wpre)
          by (rewrite length_take; lia).
        rewrite wordsMaskFrom_snoc, wordCounterFrom_snoc, Hk. cbn [Nat.add].
        rewrite !pair_equal_spec. repeat split.
        -- rewrite !length_app, <- replicate_add. f_equal; lia.
        -- rewrite <- !app_assoc. do 2 f_equal. cbn [wordsMaskFrom].
           by rewrite app_nil_r.
    + cbn zeta. apply evaluates_ret.
    + cbn zeta. rewrite length_seq, firstn_all.
      rewrite (length_app pre). cbn [length].
      rewrite Nat.add_1_r, (take_S_r _ _ _ Ht), !map_app. cbn [map].
      assert (Hrow : ([CLS_TOKEN_ID] ++ flat_map (subTokens tokenizer) tokens)
                     ++ [sep_token_id tokenizer] = idsRow' tokens)
        by (unfold inputRow; by rewrite <- !app_assoc).
      rewrite Hrow. rewrite !pair_equal_spec. repeat split.
      do 2 f_equal. rewrite <- Hrow, (length_app (_ ++ _)), replicate_add. done.
    + rewrite app_nil_r.
      rewrite (flat_map_seq_lookup (λ o, map TokenizerCall (option_list o)) tokens).
      cbn [option_list]. clear. induction tokens as [|word tokens IH]; [done|].
      cbn [flat_map map app]. by rewrite IH.
  - cbn zeta. by rewrite length_seq, firstn_all.
  - rewrite (flat_map_seq_lookup (λ o, map TokenizerCall (default [] o)) inputTexts).
    done.
Qed.
End Encode.

Lemma prepareBatch_evaluates maxWidth tokenizer texts entities :
  evaluates (prepareBatch maxWidth tokenizer texts entities)
    (batchOf maxWidth tokenizer texts entities) (tokenizerCalls texts entities).
Proof.
  unfold prepareBatch.
  eapply evaluates_eq; [eapply evaluates_bind; [apply tokenizeTexts_evaluates|]| |].
  - cbn beta iota. rewrite buildInputSequences_spec.
    eapply evaluates_bind.
    + apply (encodeInputs_evaluates tokenizer _ _ (length (promptOf entities))).
      intros i Hi. rewrite !length_map in Hi.
      rewrite list_lookup_fmap.
      destruct (lookup_lt_is_Some_2 (map (λ text, map (λ t, t.1.1) (wordsOf text)) texts) i)
        as [x ->]; [by rewrite length_map|]. done.
    + cbn beta iota. rewrite buildSpans_rows. apply evaluates_ret.
  - unfold batchOf, wordTokens. cbn zeta. by rewrite !map_map.
  - unfold tokenizerCalls, wordTokens. rewrite app_nil_r. cbn [app].
    rewrite flat_map_concat_map, map_map, <- flat_map_concat_map. done.
Qed.

Section RunInference.
Import GLiNER1Decoder GLiNER1Runtime.
Context `{FloatOps} (rt : Runtime).

Lemma runInference_run texts entities threshold w :
  ∃ w', runInference rt texts entities threshold w
        = (inferenceOf rt texts entities threshold, w')
        ∧ calls w' = calls w ++ tokenizerCalls texts entities ++ [EngineCall "session"].
Proof.
  unfold runInference, inferenceOf.
  destruct (prepareBatch_evaluates (maxWidth rt) (tokenizer rt) texts entities w)
    as (w1 & Hw1 & Hc1).
  rewrite bind_unfold, Hw1. cbn zeta. unfold callSession.
  rewrite !bind_unfold. cbn [emit].
  set (w2 := {| calls := calls w1 ++ [EngineCall "session"];
                patternLastIndex := patternLastIndex w1 |}).
  exists w2. split; [|by subst w2; cbn; rewrite Hc1, <- app_assoc].
  destruct (session_run rt _) as [results|]; [|done].
  cbn [mret M_ret]. destruct (output ONNX_OUTPUT_LOGITS results) as [logits|]; [|done].
  cbn [batchOf batchTokens textLengths batchWordsStartIdx batchWordsEndIdx idToClass].
  unfold wordTokens. rewrite !length_map.
  destruct (decode _ _ _ _ _ _ _ _ _ _ _); done.
Qed.
End RunInference.
(** ** What the GLiNER1 runtime returns *)

Lemma StronglySorted_lookup {A : Type} (R : relation A) (l : list A) i j a b :
  StronglySorted R l → i < j → l !! i = Some a → l !! j = Some b → R a b.
Proof.
  intros Hs. revert i j. induction Hs as [|x l Hs IH Hx]; intros i j Hij Hi Hj.
  - by rewrite lookup_nil in Hi.
  - destruct j as [|j]; [lia|]. cbn in Hj. destruct i as [|i].
    + cbn in Hi. injection Hi as <-. rewrite Forall_forall in Hx. apply Hx.
      by eapply list_elem_of_lookup_2.
    + cbn in Hi. apply (IH i j); [lia|done..].
Qed.

Lemma wordsOf_tokens (input : jsstring) :
  Forall (λ t, t.1.2 < t.2 ∧ t.2 ≤ length input
               ∧ t.1.1 = slice input t.1.2 t.2
               ∧ Forall (λ c, isSpace c = false) t.1.1) (wordsOf input)
  ∧ StronglySorted (λ a b, a.2 ≤ b.1.2) (wordsOf input)
  ∧ concat (map (λ t, t.1.1) (wordsOf input)) = filter (λ c, isSpace c = false) input.
Proof.
  destruct (split_tokens input) as (tokens & Hs & Hc & Hf & Hsrt).
  unfold wordsOf. rewrite Hs. cbn. done.
Qed.

(** A span of words has its start offset before its end offset. *)
Lemma word_span_offsets (input : jsstring) first last sc ec :
  first ≤ last →
  (λ t, t.1.2) <$> wordsOf input !! first = Some sc →
  (λ t, t.2) <$> wordsOf input !! last = Some ec →
  sc < ec ∧ ec ≤ length input.
Proof.
  intros Hle Hf Hl. destruct (wordsOf_tokens input) as (Hall & Hsrt & _).
  destruct (wordsOf input !! first) as [[[tf sf] ef]|] eqn:Ef; [|done].
  destruct (wordsOf input !! last) as [[[tl sl] el]|] eqn:El; [|done].
  cbn in Hf, Hl. simplify_eq.
  pose proof (Forall_lookup_1 _ _ _ _ Hall Ef) as (H1 & _). cbn in H1.
  pose proof (Forall_lookup_1 _ _ _ _ Hall El) as (H2 & H3 & _). cbn in H2, H3.
  split; [|done]. destruct (decide (first = last)) as [->|Hne].
  - rewrite Ef in El. by simplify_eq.
  - pose proof (StronglySorted_lookup _ _ first last _ _ Hsrt ltac:(lia) Ef El) as Ho.
    cbn in Ho. lia.
Qed.

Section Postcondition.
Import GLiNER1Decoder GLiNER1Processor GLiNER1Runtime.
Context `{FloatOps} (rt : Runtime).

Lemma greedySearch_elem_of r spans flatNer multiLabel :
  r ∈ greedySearch spans flatNer multiLabel → r ∈ spans.
Proof.
  unfold greedySearch. cbn zeta. rewrite jsSort_elem_of.
  intros Hr%acceptLoop_elem_of. by apply jsSort_elem_of in Hr.
Qed.

Lemma greedySearch_flat_disjoint spans i j a b :
  i ≠ j →
  greedySearch spans true false !! i = Some a →
  greedySearch spans true false !! j = Some b →
  span_end a < span_start b ∨ span_end b < span_start a.
Proof.
  intros Hij Hi Hj.
  assert (Hc : overlaps true false a b = false).
  { eapply (NoConflict_lookup (overlaps true false) (greedySearch spans true false));
      [|done..].
    eapply NoConflict_perm; [symmetry; apply jsSort_perm|].
    apply acceptLoop_NoConflict, overlaps_sym. }
  pose proof (spansOverlap_table (span_start a) (span_end a) (span_start b)
                (span_end b) false false) as (H1 & H2 & H3 & H4).
  cbn zeta in *. unfold overlaps in Hc. cbn [negb] in Hc.
  destruct (decide (span_start a = span_start b ∧ span_end a = span_end b)) as [Hs|Hs].
  { rewrite (H1 Hs) in Hc. done. }
  destruct (decide (span_end b < span_start a ∨ span_end a < span_start b)) as [Hd|Hd].
  { lia. }
  rewrite (H4 Hs) in Hc; [done|lia|by left].
Qed.

Lemma inferenceOf_wellFormed texts labels threshold raw :
  inferenceOf rt texts labels threshold = inr raw →
  length raw = length texts
  ∧ ∀ i input row, texts !! i = Some input → raw !! i = Some row →
      entitiesWellFormed (maxWidth rt) input labels threshold (convertToEntities row).
Proof.
  unfold inferenceOf. cbn zeta.
  destruct (session_run rt _) as [results|]; [|done].
  destruct (output ONNX_OUTPUT_LOGITS results) as [logits|]; [|done].
  unfold decode. cbn [opt_threshold opt_flatNer opt_multiLabel].
  change (default GLiNER1Decoder.DEFAULT_THRESHOLD (Some threshold)) with threshold.
  change (default true None) with true. change (default false None) with false.
  rewrite extractSpans_body.
  destruct (extractSpans_rows (maxWidth rt) (length texts)
              (max_list (map length (wordTokens texts))) (length labels) texts
              (seq 0 (length texts))
              (map (λ text, map (λ t, t.1.2) (wordsOf text)) texts)
              (map (λ text, map (λ t, t.2) (wordsOf text)) texts)
              (buildIdToClass labels) logits threshold (length logits))
    as (spans & -> & Hlen & Hrows); [by rewrite length_map|].
  cbn [mbind option_bind]. intros [= <-].
  split; [by rewrite length_map|].
  intros i input row Hi Hrow.
  assert (Hilt : i < length texts) by (by eapply lookup_lt_Some).
  rewrite list_lookup_fmap, (Hrows i Hilt) in Hrow. cbn in Hrow.
  injection Hrow as <-.
  set (cands := omap _ _).
  unfold entitiesWellFormed, convertToEntities. split; [|split].
  - apply Forall_fmap, Forall_forall. intros r Hr%greedySearch_elem_of.
    subst cands. apply elem_of_rowOf in Hr as (idx & _ & Hc).
    apply cand_spec in Hc as (v & starts & ends & sc & ec & _ & Hpos & Hthr & _
                              & Hs & He & Hsc & Hec & ->).
    rewrite list_lookup_fmap, Hi in Hs, He. cbn in Hs, He.
    injection Hs as <-. injection He as <-.
    rewrite list_lookup_fmap in Hsc, Hec.
    cbn [text label start end_ score span_text span_label span_start span_end
         span_score compose].
    set (first := (idx / (maxWidth rt * length labels)) mod _) in *.
    set (width := (idx / length labels) mod maxWidth rt) in *.
    assert (Hw : width < maxWidth rt).
    { subst width. apply Nat.mod_upper_bound.
      destruct (maxWidth rt); [|done]. rewrite Nat.mul_0_r in Hpos. cbn in Hpos. lia. }
    destruct (word_span_offsets input first (first + width) sc ec) as [Hlt Hle];
      [lia|done..|].
    split; [exists first, (first + width); repeat split; [lia|lia|done|done]|].
    split; [done|]. split; [done|]. split; [|split; [|done]].
    + rewrite lookup_seq_lt by done. cbn. by rewrite Hi.
    + destruct (buildIdToClass_lookup labels) as [_ Hid]. rewrite Hid.
      assert (Hn : 0 < length labels).
      { destruct (length labels); [|lia]. rewrite Nat.mul_0_r in Hpos. lia. }
      destruct (lookup_lt_is_Some_2 labels (idx mod length labels)) as [l Hl].
      { apply Nat.mod_upper_bound. lia. }
      rewrite Hl. cbn. by eapply list_elem_of_lookup_2.
  - apply (StronglySorted_fmap _ (λ a b, span_start a ≤ span_start b)); [done|].
    apply jsSort_byStartAsc_sorted.
  - intros j k a b Hjk Ha Hb. rewrite list_lookup_fmap in Ha, Hb.
    destruct (greedySearch cands true false !! j) as [ra|] eqn:Era; [|done].
    destruct (greedySearch cands true false !! k) as [rb|] eqn:Erb; [|done].
    cbn in Ha, Hb. simplify_eq. cbn [start end_].
    by eapply greedySearch_flat_disjoint.
Qed.

End Postcondition.
(** ** The public operations of the GLiNER1 runtime *)

Section Gliner1Api.
Import GLiNER1Decoder GLiNER1Processor GLiNER1Runtime.
Context `{FloatOps} (rt : Runtime).

Lemma extractEntities_run input labels threshold w :
  trim input ≠ [] → labels ≠ [] →
  ∃ w', extractEntities rt input labels threshold w
        = (match inferenceOf rt [input] labels
                   (default GLiNER1Runtime.DEFAULT_THRESHOLD threshold) with
           | inl e => inl e
           | inr rawResult => inr (convertToEntities (default [] (rawResult !! 0)))
           end, w')
        ∧ calls w' = calls w ++ tokenizerCalls [input] labels ++ [EngineCall "session"].
Proof.
  intros Ht Hl. unfold extractEntities. cbn zeta.
  destruct (length (trim input) =? 0) eqn:E1.
  { apply length_zero_iff_nil' in E1. done. }
  destruct (length labels =? 0) eqn:E2.
  { apply length_zero_iff_nil' in E2. done. }
  destruct (runInference_run rt [input] labels
              (default GLiNER1Runtime.DEFAULT_THRESHOLD threshold) w) as (w' & Hrun & Hc).
  exists w'. rewrite bind_unfold, Hrun. split; [|done].
  by destruct (inferenceOf _ _ _ _).
Qed.

Lemma extractEntitiesBatch_run texts labels threshold w :
  texts ≠ [] → labels ≠ [] →
  ∃ w', extractEntitiesBatch rt texts labels threshold w
        = (match inferenceOf rt texts labels
                   (default GLiNER1Runtime.DEFAULT_THRESHOLD threshold) with
           | inl e => inl e
           | inr rawResult => inr (map convertToEntities rawResult)
           end, w')
        ∧ calls w' = calls w ++ tokenizerCalls texts labels ++ [EngineCall "session"].
Proof.
  intros Ht Hl. unfold extractEntitiesBatch. cbn zeta.
  destruct (length texts =? 0) eqn:E1.
  { apply length_zero_iff_nil' in E1. done. }
  destruct (length labels =? 0) eqn:E2.
  { apply length_zero_iff_nil' in E2. done. }
  destruct (runInference_run rt texts labels
              (default GLiNER1Runtime.DEFAULT_THRESHOLD threshold) w) as (w' & Hrun & Hc).
  exists w'. rewrite bind_unfold, Hrun. split; [|done].
  by destruct (inferenceOf _ _ _ _).
Qed.

Lemma extractEntities_validated input labels threshold w entities w' :
  extractEntities rt input labels threshold w = (inr entities, w') →
  trim input ≠ [] ∧ labels ≠ [].
Proof.
  unfold extractEntities. cbn zeta.
  destruct (length (trim input) =? 0) eqn:E1; [done|].
  destruct (length labels =? 0) eqn:E2; [done|]. intros _.
  split; intros Hn; rewrite Hn in *; done.
Qed.

Lemma extractEntitiesBatch_validated texts labels threshold w result w' :
  extractEntitiesBatch rt texts labels threshold w = (inr result, w') →
  texts ≠ [] ∧ labels ≠ [].
Proof.
  unfold extractEntitiesBatch. cbn zeta.
  destruct (length texts =? 0) eqn:E1; [done|].
  destruct (length labels =? 0) eqn:E2; [done|]. intros _.
  split; intros Hn; rewrite Hn in *; done.
Qed.

End Gliner1Api.

(** Whatever finite logits the model answers, and for a finite threshold,
    the entities that GLiNER1's [extractEntities] returns are well formed:
    each one starts at the start of a word of the text and ends at the end
    of the same or a later word, fewer than [maxWidth] words further; its text is the slice of the input
    between its offsets, which lie inside the input; its label is one of
    the requested labels; its score is at least the threshold (0.5 when
    none is given). The entities are in ascending order of start offset and
    no two of them overlap or touch. *)
Theorem extractEntities_wellFormed `{FloatOps} (rt : GLiNER1Runtime.Runtime)
    (input : jsstring) (labels : list jsstring) (threshold : option Q)
    (w w' : World) (entities : list Entity) :
  GLiNER1Runtime.extractEntities rt input labels threshold w = (inr entities, w') →
  entitiesWellFormed (GLiNER1Runtime.maxWidth rt) input labels
    (default GLiNER1Runtime.DEFAULT_THRESHOLD threshold) entities.
Proof.
  intros Hrun. destruct (extractEntities_validated rt _ _ _ _ _ _ Hrun) as [Ht Hl].
  destruct (extractEntities_run rt input labels threshold w Ht Hl) as (w1 & Hr & _).
  rewrite Hr in Hrun.
  destruct (inferenceOf _ _ _ _) as [e|raw] eqn:Ei; [done|].
  injection Hrun as <- _.
  destruct (inferenceOf_wellFormed rt _ _ _ _ Ei) as [Hlen Hrows].
  destruct raw as [|row [|]]; [done| |done]. cbn.
  by apply (Hrows 0 input row).
Qed.

(** Whatever finite logits the model answers, and for a finite threshold,
    the batch operation returns one list of entities per text, in order, and
    the list of each text is well formed for that text in the same sense,
    blank texts included (their list is empty). *)
Theorem extractEntitiesBatch_wellFormed `{FloatOps} (rt : GLiNER1Runtime.Runtime)
    (texts labels : list jsstring) (threshold : option Q)
    (w w' : World) (result : list (list Entity)) :
  GLiNER1Runtime.extractEntitiesBatch rt texts labels threshold w = (inr result, w') →
  length result = length texts
  ∧ ∀ i input entities, texts !! i = Some input → result !! i = Some entities →
      entitiesWellFormed (GLiNER1Runtime.maxWidth rt) input labels
        (default GLiNER1Runtime.DEFAULT_THRESHOLD threshold) entities.
Proof.
  intros Hrun. destruct (extractEntitiesBatch_validated rt _ _ _ _ _ _ Hrun) as [Ht Hl].
  destruct (extractEntitiesBatch_run rt texts labels threshold w Ht Hl) as (w1 & Hr & _).
  rewrite Hr in Hrun.
  destruct (inferenceOf _ _ _ _) as [e|raw] eqn:Ei; [done|].
  injection Hrun as <- _.
  destruct (inferenceOf_wellFormed rt _ _ _ _ Ei) as [Hlen Hrows].
  split; [by rewrite length_map|].
  intros i input entities Hi He. rewrite list_lookup_fmap in He.
  destruct (raw !! i) as [row|] eqn:Er; [|done]. cbn in He. injection He as <-.
  by apply (Hrows i input row).
Qed.

Lemma extractEntities_wellFormed_witness :
  ∃ entities w',
    GLiNER1Runtime.extractEntities (H := rationalOps) craftedRuntime1
      (utf16 "John works at Google in Seattle")
      [utf16 "person"; utf16 "organization"; utf16 "location"]
      (Some (1 # 2)%Q) world0 = (inr entities, w')
    ∧ entitiesWellFormed 12 (utf16 "John works at Google in Seattle")
        [utf16 "person"; utf16 "organization"; utf16 "location"] (1 # 2) entities.
Proof.
  eexists _, _. split; [vm_compute; reflexivity|].
  eapply (extractEntities_wellFormed (H := rationalOps) craftedRuntime1
            (utf16 "John works at Google in Seattle")
            [utf16 "person"; utf16 "organization"; utf16 "location"]
            (Some (1 # 2)%Q) world0).
  vm_compute. reflexivity.
Defined.

Lemma extractEntitiesBatch_wellFormed_witness :
  ∃ result w',
    GLiNER1Runtime.extractEntitiesBatch (H := rationalOps) craftedRuntime1
      [utf16 "John works at Google in Seattle"]
      [utf16 "person"; utf16 "organization"; utf16 "location"]
      (Some (1 # 2)%Q) world0 = (inr result, w')
    ∧ length result = 1.
Proof.
  eexists _, _. split; [vm_compute; reflexivity|].
  eapply (extractEntitiesBatch_wellFormed (H := rationalOps) craftedRuntime1
            [utf16 "John works at Google in Seattle"]
            [utf16 "person"; utf16 "organization"; utf16 "location"]
            (Some (1 # 2)%Q) world0).
  vm_compute. reflexivity.
Defined.

(** ** Calls, thresholds and tensors of the GLiNER1 runtime *)

Lemma fmap_filter_comm {A B : Type} (f : A → B) (P : B → Prop)
    `{!∀ y, Decision (P y)} (l : list A) :
  f <$> filter (λ x, P (f x)) l = filter P (f <$> l).
Proof.
  induction l as [|x l IH]; [done|]. cbn [fmap list_fmap].
  rewrite !filter_cons. destruct (decide (P (f x))); cbn; by rewrite IH.
Qed.

Lemma length_promptOf labels : length (promptOf labels) = 2 * length labels + 1.
Proof.
  unfold promptOf. rewrite length_app. cbn [length].
  rewrite (flat_map_constant_length (c := 2)) by done. lia.
Qed.

Lemma length_tokenizerCalls texts labels :
  length (tokenizerCalls texts labels)
  = sum_list (map (λ text, 2 * length labels + 1 + length (wordsOf text)) texts).
Proof.
  unfold tokenizerCalls, wordTokens.
  induction texts as [|text texts IH]; [done|].
  cbn [map flat_map sum_list sum_list_with].
  rewrite length_app, IH, !length_map, length_app, length_promptOf, length_map.
  done.
Qed.

(** One request, one inference call. After validation, GLiNER1's
    [extractEntities] and [extractEntitiesBatch] call the tokenizer once per
    prompt word and once per word of each text (the prompt is tokenized
    again for every text of a batch), and then call the session exactly
    once, whatever the number of texts and whether or not the call
    succeeds. *)
Theorem gliner1_call_trace `{FloatOps} (rt : GLiNER1Runtime.Runtime)
    (texts labels : list jsstring) (threshold : option Q) (w : World) :
  texts ≠ [] → labels ≠ [] →
  (∃ outcome w',
     GLiNER1Runtime.extractEntitiesBatch rt texts labels threshold w = (outcome, w')
     ∧ calls w' = calls w
         ++ flat_map (λ text, map TokenizerCall
                                (promptOf labels ++ map (λ t, t.1.1) (wordsOf text)))
              texts
         ++ [EngineCall "session"]
     ∧ length (calls w') = length (calls w)
         + sum_list (map (λ text, 2 * length labels + 1 + length (wordsOf text)) texts)
         + 1)
  ∧ ∀ input, trim input ≠ [] →
      ∃ outcome w',
        GLiNER1Runtime.extractEntities rt input labels threshold w = (outcome, w')
        ∧ calls w' = calls w
            ++ map TokenizerCall (promptOf labels ++ map (λ t, t.1.1) (wordsOf input))
            ++ [EngineCall "session"].
Proof.
  intros Ht Hl. split.
  - destruct (extractEntitiesBatch_run rt texts labels threshold w Ht Hl)
      as (w' & Hr & Hc).
    eexists _, w'. split; [exact Hr|]. split.
    + rewrite Hc. unfold tokenizerCalls, wordTokens.
      by rewrite flat_map_concat_map, map_map, <- flat_map_concat_map.
    + rewrite Hc, !length_app, length_tokenizerCalls. cbn. lia.
  - intros input Hi.
    destruct (extractEntities_run rt input labels threshold w Hi Hl) as (w' & Hr & Hc).
    eexists _, w'. split; [exact Hr|]. rewrite Hc.
    unfold tokenizerCalls, wordTokens. cbn [map flat_map]. by rewrite app_nil_r.
Qed.

Lemma gliner1_call_trace_witness :
  ([utf16 "a b"; utf16 "c"] ≠ [] ∧ [utf16 "x"] ≠ [])
  ∧ ∃ outcome w',
      GLiNER1Runtime.extractEntitiesBatch (H := rationalOps) stubRuntime1
        [utf16 "a b"; utf16 "c"] [utf16 "x"] None world0 = (outcome, w')
      ∧ length (calls w') = 0 + (2 * 1 + 1 + 2 + (2 * 1 + 1 + 1 + 0)) + 1.
Proof.
  split; [by split|].
  destruct (gliner1_call_trace (H := rationalOps) stubRuntime1
              [utf16 "a b"; utf16 "c"] [utf16 "x"] None world0)
    as [(outcome & w' & Hr & _ & Hn) _]; [done..|].
  exists outcome, w'. split; [exact Hr|exact Hn].
Defined.

Section Threshold1.
Import GLiNER1Decoder GLiNER1Processor GLiNER1Runtime.
Context `{FloatOps} (rt : Runtime).

Lemma inferenceOf_threshold texts labels t1 t2 :
  (t1 <= t2)%Q →
  inferenceOf rt texts labels t2
  = match inferenceOf rt texts labels t1 with
    | inl e => inl e
    | inr raw => inr (map (filter (λ r, Qle_bool t2 (span_score r) = true)) raw)
    end.
Proof.
  intros Ht. unfold inferenceOf. cbn zeta.
  destruct (session_run rt _) as [results|]; [|done].
  destruct (output ONNX_OUTPUT_LOGITS results) as [logits|]; [|done].
  rewrite (decode_filter _ _ _ _ _ _ _ _ _ _ t1 t2 None None Ht)
    by (by rewrite length_map).
  by destruct (decode _ _ _ _ _ _ _ _ _ _ _).
Qed.

Lemma convertToEntities_filter t raw :
  map convertToEntities (map (filter (λ r, Qle_bool t (span_score r) = true)) raw)
  = map (filter (λ e, Qle_bool t (score e) = true)) (map convertToEntities raw).
Proof.
  rewrite !map_map. apply map_ext. intros row. unfold convertToEntities.
  exact (fmap_filter_comm
           (λ span, {| text := span_text span; label := span_label span;
                       start := span_start span; end_ := span_end span;
                       score := span_score span |})
           (λ e, Qle_bool t (score e) = true) row).
Qed.

End Threshold1.

(** For a model that answers finite logits and for finite thresholds,
    raising the threshold of a request only removes entities from its
    answer: with [t1 <= t2], what [extractEntitiesBatch] returns for the
    threshold [t2] is what it returns for [t1] with the entities scoring
    below [t2] left out, text by text; errors are the same. *)
Theorem extractEntitiesBatch_threshold_monotone `{FloatOps}
    (rt : GLiNER1Runtime.Runtime) (texts labels : list jsstring) (t1 t2 : Q)
    (w : World) :
  (t1 <= t2)%Q →
  (GLiNER1Runtime.extractEntitiesBatch rt texts labels (Some t2) w).1
  = match (GLiNER1Runtime.extractEntitiesBatch rt texts labels (Some t1) w).1 with
    | inl e => inl e
    | inr result =>
        inr (map (filter (λ e, Qle_bool t2 (score e) = true)) result)
    end.
Proof.
  intros Ht.
  destruct (decide (texts = [])) as [->|Htexts]; [done|].
  destruct (decide (labels = [])) as [->|Hlabels].
  { unfold GLiNER1Runtime.extractEntitiesBatch. cbn zeta.
    destruct (length texts =? 0); done. }
  destruct (extractEntitiesBatch_run rt texts labels (Some t1) w Htexts Hlabels)
    as (w1 & -> & _).
  destruct (extractEntitiesBatch_run rt texts labels (Some t2) w Htexts Hlabels)
    as (w2 & -> & _).
  cbn [fst default from_option id].
  rewrite (inferenceOf_threshold rt texts labels t1 t2 Ht).
  destruct (inferenceOf rt texts labels t1) as [e|raw]; [done|].
  by rewrite convertToEntities_filter.
Qed.

Lemma extractEntitiesBatch_threshold_monotone_witness :
  (1 # 2 <= 9 # 10)%Q
  ∧ (GLiNER1Runtime.extractEntitiesBatch (H := rationalOps) craftedRuntime1
       [utf16 "John works at Google in Seattle"]
       [utf16 "person"; utf16 "organization"; utf16 "location"]
       (Some (9 # 10)%Q) world0).1
    = inr [[]].
Proof.
  assert (Ht : (1 # 2 <= 9 # 10)%Q) by (unfold Qle; cbn; lia).
  split; [exact Ht|].
  rewrite (extractEntitiesBatch_threshold_monotone (H := rationalOps) craftedRuntime1
             [utf16 "John works at Google in Seattle"]
             [utf16 "person"; utf16 "organization"; utf16 "location"]
             (1 # 2) (9 # 10) world0 Ht).
  vm_compute. reflexivity.
Defined.

Lemma length_concat_rect {A : Type} (rows : list (list A)) m :
  Forall (λ row, length row = m) rows →
  length (concat rows) = length rows * default 0 (length <$> rows !! 0).
Proof.
  intros Hrows. destruct rows as [|row0 rows]; [done|].
  cbn [lookup list_lookup fmap option_fmap option_map default from_option id].
  pose proof (Forall_inv Hrows) as H0. cbn beta in H0. rewrite H0.
  clear H0. induction Hrows as [|row rows' Hr _ IH]; [done|].
  cbn [concat length]. rewrite length_app, IH, Hr. lia.
Qed.

Lemma padArrays_rect {T : Type} (pad : T) (arrays : list (list T)) :
  length (GLiNER1Processor.padArrays pad arrays) = length arrays
  ∧ length (concat (GLiNER1Processor.padArrays pad arrays))
    = length arrays
      * default 0 (length <$> GLiNER1Processor.padArrays pad arrays !! 0).
Proof.
  destruct (padArrays_spec pad arrays) as (Hlen & Hrows & _). cbn zeta in Hrows.
  split; [done|]. rewrite <- Hlen. by eapply length_concat_rect.
Qed.

Lemma padArrays_row0 {T : Type} (pad : T) (arrays : list (list T)) :
  default 0 (length <$> GLiNER1Processor.padArrays pad arrays !! 0)
  = max_list (map length arrays).
Proof.
  destruct (padArrays_spec pad arrays) as (Hlen & Hrows & _). cbn zeta in Hrows.
  destruct (GLiNER1Processor.padArrays pad arrays) as [|row rows] eqn:E.
  - destruct arrays; [done|]. done.
  - cbn. by apply Forall_inv in Hrows.
Qed.

Lemma length_wordsMaskFrom tokenizer p i c words :
  length (wordsMaskFrom tokenizer p i c words)
  = length (flat_map (subTokens tokenizer) words).
Proof.
  revert i c. induction words as [|word words IH]; intros i c; [done|].
  cbn [wordsMaskFrom flat_map]. rewrite !length_app, IH. f_equal.
  destruct (i <? p); [by rewrite length_replicate|].
  destruct (subTokens tokenizer word); [done|]. cbn. by rewrite length_replicate.
Qed.

Lemma length_wordsMaskRow tokenizer p inputText :
  length (wordsMaskRow tokenizer p inputText) = length (inputRow tokenizer inputText).
Proof.
  unfold wordsMaskRow, inputRow. rewrite !length_app, length_wordsMaskFrom. done.
Qed.

(** The tensors handed to the session are rectangular: the batch that
    [prepareBatch] returns is turned by [buildTensors] into six tensors, each
    holding exactly as many elements as its [dims] announce, with the number
    of texts as first dimension; the three token tensors have the same
    dims, and so have (up to the trailing 2) the two span tensors. *)
Theorem buildTensors_rectangular (maxWidth : nat)
    (tokenizer : GLiNER1Processor.GLiNER1Tokenizer)
    (texts entities : list jsstring) (w : World) :
  ∃ batch w',
    GLiNER1Processor.prepareBatch maxWidth tokenizer texts entities w = (inr batch, w')
    ∧ let feeds := GLiNER1Runtime.buildTensors batch in
      Forall (λ t, tensorSize t = dimsProduct t
                   ∧ head (GLiNER1Runtime.tensor_dims t) = Some (length texts))
        [GLiNER1Runtime.input_ids feeds; GLiNER1Runtime.attention_mask feeds;
         GLiNER1Runtime.words_mask feeds; GLiNER1Runtime.text_lengths feeds;
         GLiNER1Runtime.span_idx feeds; GLiNER1Runtime.span_mask feeds]
      ∧ GLiNER1Runtime.tensor_dims (GLiNER1Runtime.attention_mask feeds)
        = GLiNER1Runtime.tensor_dims (GLiNER1Runtime.input_ids feeds)
      ∧ GLiNER1Runtime.tensor_dims (GLiNER1Runtime.words_mask feeds)
        = GLiNER1Runtime.tensor_dims (GLiNER1Runtime.input_ids feeds)
      ∧ GLiNER1Runtime.tensor_dims (GLiNER1Runtime.span_idx feeds)
        = GLiNER1Runtime.tensor_dims (GLiNER1Runtime.span_mask feeds) ++ [2].
Proof.
  destruct (prepareBatch_evaluates maxWidth tokenizer texts entities w) as (w' & Hw & _).
  exists (batchOf maxWidth tokenizer texts entities), w'. split; [exact Hw|].
  cbn zeta. unfold GLiNER1Runtime.buildTensors, tensorSize, dimsProduct.
  cbn [GLiNER1Runtime.input_ids GLiNER1Runtime.attention_mask GLiNER1Runtime.words_mask
       GLiNER1Runtime.text_lengths GLiNER1Runtime.span_idx GLiNER1Runtime.span_mask
       GLiNER1Runtime.tensor_data GLiNER1Runtime.tensor_dims foldr head
       batchOf GLiNER1Processor.inputsIds GLiNER1Processor.attentionMasks
       GLiNER1Processor.wordsMasks GLiNER1Processor.textLengths
       GLiNER1Processor.spanIdxs GLiNER1Processor.spanMasks].
  unfold GLiNER1Runtime.toBigIntFlat, GLiNER1Runtime.toBigIntFlat3D.
  rewrite padSpanArrays_padArrays.
  set (ids := map (λ tokens, inputRow tokenizer (promptOf entities ++ tokens)) _).
  set (att := map (λ tokens, replicate _ 1%Z) _).
  set (wm := map (λ tokens, wordsMaskRow tokenizer _ _) _).
  set (sp := map (λ tokens, (GLiNER1Lattice.buildSpansRow maxWidth (length tokens)).1) _).
  set (sm := map (λ tokens, map GLiNER1Processor.MaskBool _) _).
  destruct (padArrays_rect 0%Z ids) as [Hi1 Hi2].
  destruct (padArrays_rect 0%Z att) as [Ha1 Ha2].
  destruct (padArrays_rect 0%Z wm) as [Hw1 Hw2].
  destruct (padArrays_rect (0, 0) sp) as [Hs1 Hs2].
  destruct (padArrays_rect (GLiNER1Processor.MaskNum 0) sm) as [Hm1 Hm2].
  assert (Hn : length ids = length texts) by (subst ids; unfold wordTokens; by rewrite !length_map).
  assert (Hna : length att = length texts) by (subst att; unfold wordTokens; by rewrite !length_map).
  assert (Hnw : length wm = length texts) by (subst wm; unfold wordTokens; by rewrite !length_map).
  assert (Hns : length sp = length texts) by (subst sp; unfold wordTokens; by rewrite !length_map).
  assert (Hnm : length sm = length texts) by (subst sm; unfold wordTokens; by rewrite !length_map).
  rewrite !padArrays_row0 in *.
  assert (Hatt : map length att = map length ids).
  { subst att ids. rewrite !map_map. apply map_ext. intros tokens.
    by rewrite length_replicate. }
  assert (Hwm : map length wm = map length ids).
  { subst wm ids. rewrite !map_map. apply map_ext. intros tokens.
    apply length_wordsMaskRow. }
  assert (Hsm : map length sm = map length sp).
  { subst sm sp. rewrite !map_map. apply map_ext. intros tokens.
    rewrite length_map. destruct (length_buildSpansRow maxWidth (length tokens)). lia. }
  rewrite Hatt, Hwm, Hsm in *. rewrite Hi1, Hn.
  rewrite Hn in Hi2. rewrite Hna in Ha2. rewrite Hnw in Hw2. rewrite Hns in Hs2.
  rewrite Hnm in Hm2.
  split; [|done].
  repeat apply Forall_cons_2; try apply Forall_nil_2; (split; [|done]);
    cbn [GLiNER1Runtime.tensor_data GLiNER1Runtime.tensor_dims foldr].
  - rewrite Hi2. lia.
  - rewrite Ha2. lia.
  - rewrite Hw2. lia.
  - unfold wordTokens. rewrite !length_map. lia.
  - rewrite (flat_map_constant_length (c := 2)) by (by intros [??] _). rewrite Hs2. lia.
  - rewrite Hm2. lia.
Qed.

(** ** The batch operation validates the two lists only *)

Section BatchValidation.
Import GLiNER1Decoder GLiNER1Processor GLiNER1Runtime.
Context `{FloatOps} (rt : Runtime).

Lemma inferenceOf_noValidationError texts labels threshold e :
  inferenceOf rt texts labels threshold = inl e →
  ∀ message, e ≠ ValidationError message.
Proof.
  intros He.
  destruct (runInference_run rt texts labels threshold world0) as (w' & Hrun & _).
  rewrite He in Hrun.
  exact (runInference_noValidationError rt texts labels threshold world0 e w' Hrun).
Qed.

Lemma inferenceOf_returns texts labels threshold :
  (∀ feeds, ∃ results logits,
     session_run rt feeds = Some results
     ∧ output ONNX_OUTPUT_LOGITS results = Some logits) →
  ∃ raw, inferenceOf rt texts labels threshold = inr raw.
Proof.
  intros Hengine.
  destruct (runInference_returns rt texts labels threshold Hengine world0)
    as (raw & w' & Hrun & _).
  destruct (runInference_run rt texts labels threshold world0) as (w'' & Hrun' & _).
  rewrite Hrun in Hrun'. exists raw. by injection Hrun' as <- _.
Qed.

Lemma inferenceOf_blank texts labels threshold raw i input :
  inferenceOf rt texts labels threshold = inr raw →
  texts !! i = Some input → trim input = [] →
  convertToEntities <$> raw !! i = Some [].
Proof.
  intros Hraw Hi Hblank.
  destruct (inferenceOf_wellFormed rt texts labels threshold raw Hraw) as (Hlen & Hrows).
  destruct (lookup_lt_is_Some_2 raw i) as [row Hrow].
  { rewrite Hlen. by eapply lookup_lt_Some. }
  rewrite Hrow. cbn. f_equal.
  destruct (Hrows i input row Hi Hrow) as (Hall & _).
  destruct (convertToEntities row) as [|e entities]; [done|]. exfalso.
  apply Forall_cons_1 in Hall as [((first & last & _ & _ & Hfirst & _) & _) _].
  by rewrite (wordsOf_blank input Hblank), lookup_nil in Hfirst.
Qed.

End BatchValidation.

(** C10. [extractEntitiesBatch] validates only that the two lists are
    non-empty. An empty list of texts, and after it an empty list of labels,
    is rejected with a [ValidationError] before any call is made. With
    non-empty lists the call never ends with a [ValidationError], whatever
    the texts hold: it calls the tokenizer for the prompt and the words of
    every text, runs the session once, and its outcome is that of decoding
    the session's answer over the prepared batch ([inferenceOf]), every row
    converted to entities. A result has one slot per text, and the slot of an
    empty or whitespace-only text is empty; when the session answers with a
    [logits] output the call does return a result. The single-text
    [extractEntities] rejects an empty or whitespace-only text with a
    [ValidationError] before any call. *)
Theorem extractEntitiesBatch_blank_texts `{FloatOps}
    (rt : GLiNER1Runtime.Runtime) (texts labels : list jsstring)
    (threshold : option Q) (w : World) :
  (texts = [] →
   GLiNER1Runtime.extractEntitiesBatch rt texts labels threshold w
   = (inl (ValidationError "Texts cannot be empty"), w))
  ∧ (texts ≠ [] → labels = [] →
     GLiNER1Runtime.extractEntitiesBatch rt texts labels threshold w
     = (inl (ValidationError "Labels cannot be empty"), w))
  ∧ (texts ≠ [] → labels ≠ [] →
     ∃ outcome w',
       GLiNER1Runtime.extractEntitiesBatch rt texts labels threshold w = (outcome, w')
       ∧ (∀ message, outcome ≠ inl (ValidationError message))
       ∧ calls w'
         = calls w
           ++ flat_map (λ text, map TokenizerCall
                                  (promptOf labels ++ map (λ t, t.1.1) (wordsOf text)))
                texts
           ++ [EngineCall "session"]
       ∧ outcome
         = match inferenceOf rt texts labels
                   (default GLiNER1Runtime.DEFAULT_THRESHOLD threshold) with
           | inl e => inl e
           | inr rawResult => inr (map GLiNER1Runtime.convertToEntities rawResult)
           end
       ∧ (∀ result, outcome = inr result →
            length result = length texts
            ∧ ∀ i text, texts !! i = Some text → trim text = [] →
                result !! i = Some [])
       ∧ ((∀ feeds, ∃ results logits,
             GLiNER1Runtime.session_run rt feeds = Some results
             ∧ GLiNER1Runtime.output GLiNER1Runtime.ONNX_OUTPUT_LOGITS results
               = Some logits) →
          ∃ result, outcome = inr result))
  ∧ (∀ text, trim text = [] →
       GLiNER1Runtime.extractEntities rt text labels threshold w
       = (inl (ValidationError "Text cannot be empty"), w)).
Proof.
  split; [|split; [|split]].
  - intros ->. done.
  - intros Ht ->. unfold GLiNER1Runtime.extractEntitiesBatch. cbn zeta.
    by destruct texts.
  - intros Ht Hl.
    destruct (extractEntitiesBatch_run rt texts labels threshold w Ht Hl)
      as (w' & Hrun & Hcalls).
    eexists _, w'. split; [exact Hrun|].
    set (t := default GLiNER1Runtime.DEFAULT_THRESHOLD threshold) in *.
    split; [|split; [|split; [done|split]]].
    + intros message.
      destruct (inferenceOf rt texts labels t) as [e|raw] eqn:Ei; [|done].
      intros [= ->]. by eapply inferenceOf_noValidationError.
    + rewrite Hcalls. unfold tokenizerCalls, wordTokens.
      by rewrite flat_map_concat_map, map_map, <- flat_map_concat_map.
    + intros result.
      destruct (inferenceOf rt texts labels t) as [e|raw] eqn:Ei; [done|].
      intros [= <-].
      destruct (inferenceOf_wellFormed rt texts labels t raw Ei) as (Hlen & _).
      split; [by rewrite length_map|].
      intros i text Hi Hblank. rewrite list_lookup_fmap.
      by eapply inferenceOf_blank.
    + intros Hengine.
      destruct (inferenceOf_returns rt texts labels t Hengine) as (raw & ->).
      by eexists.
  - intros text Hb. unfold GLiNER1Runtime.extractEntities. cbn zeta. by rewrite Hb.
Qed.

Lemma extractEntitiesBatch_blank_texts_witness :
  ∃ entities w',
    GLiNER1Runtime.extractEntitiesBatch (H := rationalOps) craftedRuntime1
      [utf16 "John works at Google in Seattle"; utf16 "  "]
      [utf16 "person"; utf16 "organization"; utf16 "location"] None world0
    = (inr [entities; []], w')
    ∧ length entities = 3
    ∧ length (calls w') = 21
    ∧ GLiNER1Runtime.extractEntities (H := rationalOps) craftedRuntime1
        (utf16 "  ") [utf16 "person"; utf16 "organization"; utf16 "location"]
        None world0
      = (inl (ValidationError "Text cannot be empty"), world0)
    ∧ GLiNER1Runtime.extractEntitiesBatch (H := rationalOps) craftedRuntime1
        [] [utf16 "person"] None world0
      = (inl (ValidationError "Texts cannot be empty"), world0).
Proof.
  destruct (extractEntitiesBatch_blank_texts (H := rationalOps) craftedRuntime1
              [utf16 "John works at Google in Seattle"; utf16 "  "]
              [utf16 "person"; utf16 "organization"; utf16 "location"] None world0)
    as (_ & _ & Hrun & Hsingle).
  destruct Hrun as (outcome & w' & Hr & _ & Hcalls & Hout & Hres & Hret);
    [discriminate..|].
  destruct Hret as (result & ->).
  { intros feeds. eexists _, _. split; reflexivity. }
  destruct (Hres result eq_refl) as (Hlen & Hblank).
  pose proof (Hblank 1 (utf16 "  ") eq_refl eq_refl) as H1.
  destruct result as [|entities [|blank [|? ?]]]; try discriminate Hlen.
  cbn in H1. injection H1 as ->.
  exists entities, w'. split; [exact Hr|].
  split; [|split; [|split]].
  - revert Hout. vm_compute. by intros [= ->].
  - rewrite Hcalls. vm_compute. reflexivity.
  - by apply Hsingle.
  - by apply (extractEntitiesBatch_blank_texts (H := rationalOps) craftedRuntime1 []
                [utf16 "person"] None world0).
Defined.
(** ** The words mask *)

Section WordsMask.
Import GLiNER1Processor.
Context (tokenizer : GLiNER1Tokenizer).

#[local] Abbreviation sub := (subTokens tokenizer).
#[local] Abbreviation hasSub := (λ word : jsstring, subTokens tokenizer word ≠ []).

Lemma wordCounterFrom_cons p i c w words :
  wordCounterFrom tokenizer p i c (w :: words)
  = wordCounterFrom tokenizer p (S i) (wordCounterFrom tokenizer p i c [w]) words.
Proof. done. Qed.

Lemma wordCounterFrom_app p i c l1 l2 :
  wordCounterFrom tokenizer p i c (l1 ++ l2)
  = wordCounterFrom tokenizer p (i + length l1) (wordCounterFrom tokenizer p i c l1) l2.
Proof.
  revert i c. induction l1 as [|w l1 IH]; intros i c.
  - cbn [app length wordCounterFrom]. by rewrite Nat.add_0_r.
  - cbn [app length]. rewrite wordCounterFrom_cons, IH, (wordCounterFrom_cons p i c w l1).
    by replace (S i + length l1) with (i + S (length l1)) by lia.
Qed.

Lemma wordsMaskFrom_app p i c l1 l2 :
  wordsMaskFrom tokenizer p i c (l1 ++ l2)
  = wordsMaskFrom tokenizer p i c l1
    ++ wordsMaskFrom tokenizer p (i + length l1) (wordCounterFrom tokenizer p i c l1) l2.
Proof.
  revert i c. induction l1 as [|w l1 IH]; intros i c.
  - cbn [app length wordsMaskFrom wordCounterFrom]. by rewrite Nat.add_0_r.
  - cbn [app length]. rewrite wordsMaskFrom_cons, IH, (wordsMaskFrom_cons _ p i c w l1).
    rewrite <- app_assoc, (wordCounterFrom_cons p i c w l1).
    by replace (S i + length l1) with (i + S (length l1)) by lia.
Qed.

(** The prompt contributes zeros and leaves the counter alone. *)
Lemma wordsMaskFrom_prompt p i c l :
  i + length l ≤ p →
  wordsMaskFrom tokenizer p i c l = replicate (length (flat_map sub l)) 0%Z
  ∧ wordCounterFrom tokenizer p i c l = c.
Proof.
  revert i c. induction l as [|w l IH]; intros i c Hle; [done|].
  cbn [length] in Hle. cbn [wordsMaskFrom wordCounterFrom flat_map].
  destruct (Nat.ltb_spec i p) as [_|?]; [|lia]. cbn [orb].
  destruct (IH (S i) c) as [-> ->]; [lia|]. split; [|done].
  by rewrite length_app, replicate_add.
Qed.

(** Past the prompt, the words with a sub-token are numbered from the
    counter on. *)
Lemma wordCounterFrom_text p i c words :
  p ≤ i →
  wordCounterFrom tokenizer p i c words
  = (c + Z.of_nat (length (filter hasSub words)))%Z.
Proof.
  revert i c. induction words as [|w words IH]; intros i c Hle.
  - cbn. lia.
  - rewrite wordCounterFrom_cons, IH by lia. cbn [wordCounterFrom].
    destruct (Nat.ltb_spec i p) as [?|_]; [lia|]. cbn [orb].
    rewrite filter_cons. destruct (decide (sub w ≠ [])) as [Hw|Hw].
    + destruct (sub w); [done|]. cbn. lia.
    + apply dec_stable in Hw. rewrite Hw. cbn. lia.
Qed.

Lemma wordsMaskFrom_text_filter p i c words :
  p ≤ i → (0 < c)%Z →
  filter (λ z, z ≠ 0%Z) (wordsMaskFrom tokenizer p i c words)
  = map (λ j, (c + Z.of_nat j)%Z) (seq 0 (length (filter hasSub words))).
Proof.
  revert i c. induction words as [|w words IH]; intros i c Hle Hc; [done|].
  rewrite wordsMaskFrom_cons, filter_app, IH by (rewrite ?wordCounterFrom_text; lia).
  cbn [wordsMaskFrom wordCounterFrom]. rewrite app_nil_r.
  destruct (Nat.ltb_spec i p) as [?|_]; [lia|]. cbn [orb].
  rewrite (filter_cons _ w). destruct (decide (sub w ≠ [])) as [Hw|Hw].
  - destruct (sub w) as [|z rest]; [done|]. cbn [length Nat.eqb].
    rewrite filter_cons, decide_True by lia.
    assert (Hz : filter (λ z, z ≠ 0%Z) (replicate (length rest) 0%Z) = []).
    { clear. induction (length rest) as [|n IHn]; [done|]. cbn [replicate].
      by rewrite filter_cons, decide_False by (intros Hn; by apply Hn). }
    rewrite Hz. cbn [app length seq map]. f_equal; [f_equal; lia|].
    rewrite <- seq_shift, map_map. apply map_ext. intros j. lia.
  - apply dec_stable in Hw. rewrite Hw. cbn [length Nat.eqb app filter].
    done.
Qed.

Lemma wordsMaskFrom_text_lookup p i c words k word :
  p ≤ i → words !! k = Some word → sub word ≠ [] →
  wordsMaskFrom tokenizer p i c words !! length (flat_map sub (take k words))
  = Some (c + Z.of_nat (length (filter hasSub (take k words))))%Z.
Proof.
  intros Hle Hk Hw.
  pose proof (take_drop_middle words k word Hk) as Hsplit.
  remember (take k words) as pre eqn:Hpre. remember (drop (S k) words) as post.
  rewrite <- Hsplit.
  rewrite wordsMaskFrom_app, lookup_app_r by (by rewrite length_wordsMaskFrom).
  rewrite length_wordsMaskFrom, Nat.sub_diag, wordCounterFrom_text by done.
  cbn [wordsMaskFrom]. destruct (Nat.ltb_spec (i + length pre) p) as [?|_]; [lia|].
  destruct (sub word); [done|]. done.
Qed.

End WordsMask.

Lemma filter_nonzero_replicate n :
  filter (λ z : Z, z ≠ 0%Z) (replicate n 0%Z) = [].
Proof.
  induction n as [|n IH]; [done|]. cbn [replicate].
  by rewrite filter_cons, decide_False by (intros Hn; by apply Hn).
Qed.

Lemma padArrays_lookup {T E : Type} (pad : T) (f : E → list T) (examples : list E) i e :
  examples !! i = Some e →
  ∃ n, GLiNER1Processor.padArrays pad (map f examples) !! i
       = Some (f e ++ replicate n pad).
Proof.
  intros He. unfold GLiNER1Processor.padArrays. cbn zeta. eexists.
  rewrite (list_lookup_fmap (λ arr, arr ++ _)), list_lookup_fmap, He. done.
Qed.

(** The words mask numbers the words of the text. In the row of a text, the
    cell at the first sub-token of a word of the text holds the 1-based
    number of that word among the words of the text that have a sub-token;
    every other cell (start token, prompt, further sub-tokens, separator,
    padding) holds 0; the row of token ids holds that first sub-token at the
    same position. *)
Theorem wordsMask_numbers_words (maxWidth : nat)
    (tokenizer : GLiNER1Processor.GLiNER1Tokenizer)
    (texts entities : list jsstring) (w : World) :
  ∃ batch w',
    GLiNER1Processor.prepareBatch maxWidth tokenizer texts entities w = (inr batch, w')
    ∧ ∀ i input, texts !! i = Some input →
        ∃ ids mask,
          GLiNER1Processor.inputsIds batch !! i = Some ids
          ∧ GLiNER1Processor.wordsMasks batch !! i = Some mask
          ∧ let words := map (λ t, t.1.1) (wordsOf input) in
            let numbered := λ l : list jsstring,
              length (filter (λ word, subTokens tokenizer word ≠ []) l) in
            let position := λ k,
              1 + length (flat_map (subTokens tokenizer)
                            (promptOf entities ++ take k words)) in
            filter (λ z, z ≠ 0%Z) mask = map Z.of_nat (seq 1 (numbered words))
            ∧ ∀ k word, words !! k = Some word → subTokens tokenizer word ≠ [] →
                mask !! position k = Some (Z.of_nat (1 + numbered (take k words)))
                ∧ ids !! position k = head (subTokens tokenizer word).
Proof.
  destruct (prepareBatch_evaluates maxWidth tokenizer texts entities w) as (w' & Hw & _).
  exists (batchOf maxWidth tokenizer texts entities), w'. split; [exact Hw|].
  intros i input Hi.
  assert (Hbt : wordTokens texts !! i = Some (map (λ t, t.1.1) (wordsOf input))).
  { unfold wordTokens. by rewrite list_lookup_fmap, Hi. }
  cbn [batchOf GLiNER1Processor.inputsIds GLiNER1Processor.wordsMasks].
  destruct (padArrays_lookup 0%Z
              (λ tokens, inputRow tokenizer (promptOf entities ++ tokens)) _ _ _ Hbt)
    as (n1 & ->).
  destruct (padArrays_lookup 0%Z
              (λ tokens, wordsMaskRow tokenizer (length (promptOf entities))
                           (promptOf entities ++ tokens)) _ _ _ Hbt)
    as (n2 & ->).
  eexists _, _. split; [done|]. split; [done|]. cbn zeta.
  set (words := map (λ t, t.1.1) (wordsOf input)).
  set (prompt := promptOf entities).
  destruct (wordsMaskFrom_prompt tokenizer (length prompt) 0 1 prompt) as [Hp Hc]; [lia|].
  assert (Hrow : wordsMaskRow tokenizer (length prompt) (prompt ++ words)
                 = [0%Z] ++ (replicate (length (flat_map (subTokens tokenizer) prompt)) 0%Z
                   ++ wordsMaskFrom tokenizer (length prompt) (length prompt) 1 words)
                   ++ [0%Z]).
  { unfold wordsMaskRow. by rewrite wordsMaskFrom_app, Hp, Hc. }
  rewrite Hrow. split.
  - rewrite !filter_app, !filter_nonzero_replicate, wordsMaskFrom_text_filter by lia.
    rewrite filter_cons, decide_False, filter_nil by (intros Hn; by apply Hn).
    cbn [app]. rewrite !app_nil_r, <- seq_shift, map_map. apply map_ext. intros j. lia.
  - intros k word Hk Hsub. split.
    + rewrite flat_map_app, length_app, <- !app_assoc.
      rewrite (lookup_app_r [0%Z]) by (cbn [length]; lia).
      rewrite lookup_app_r by (rewrite length_replicate; cbn [length]; lia).
      rewrite length_replicate. cbn [length].
      match goal with |- _ !! ?n = _ =>
        replace n with (length (flat_map (subTokens tokenizer) (take k words))) by lia
      end.
      apply lookup_app_l_Some.
      rewrite (wordsMaskFrom_text_lookup tokenizer _ _ _ _ k word) by done.
      f_equal. lia.
    + unfold inputRow. rewrite <- !app_assoc.
      rewrite (lookup_app_r [GLiNER1Processor.CLS_TOKEN_ID]) by (cbn [length]; lia).
      cbn [length].
      match goal with |- _ !! ?n = _ =>
        replace n with (length (flat_map (subTokens tokenizer)
                                  (prompt ++ take k words))) by lia
      end.
      pose proof (take_drop_middle words k word Hk) as Hsplit.
      remember (take k words) as pre. remember (drop (S k) words) as post.
      remember (length (flat_map (subTokens tokenizer) (prompt ++ pre))) as n eqn:Hn.
      rewrite <- Hsplit.
      replace (prompt ++ pre ++ word :: post) with ((prompt ++ pre) ++ word :: post)
        by (by rewrite <- app_assoc).
      rewrite (flat_map_app _ (prompt ++ pre)). cbn [flat_map]. rewrite <- !app_assoc.
      rewrite lookup_app_r by lia. rewrite Hn, Nat.sub_diag.
      destruct (subTokens tokenizer word); done.
Qed.
(** ** The GLiNER2 runtime: schema prefix and tokenization *)

Lemma evaluates_forEachM_from {A S : Type} (stF : list A → S) (ev : A → list event)
    (l : list A) (body : A → S → M S) (st : S) :
  st = stF [] →
  (∀ pre x post, l = pre ++ x :: post →
     evaluates (body x (stF pre)) (stF (pre ++ [x])) (ev x)) →
  evaluates (forEachM l body st) (stF l) (flat_map ev l).
Proof. intros ->. apply evaluates_forEachM. Qed.

Lemma flat_map_singleton {A B : Type} (f : A → B) (l : list A) :
  flat_map (λ x, [f x]) l = map f l.
Proof. induction l as [|x l IH]; [done|]. cbn. by rewrite IH. Qed.

Section Gliner2Tokens.
Import GLiNER2Lattice GLiNER2Decoder GLiNER2Runtime.
Context (rt : Runtime).

Lemma callTokenizer_evaluates s :
  evaluates (callTokenizer rt s) (idsOf rt s) [TokenizerCall s].
Proof.
  unfold callTokenizer.
  eapply evaluates_eq; [eapply evaluates_bind; [apply evaluates_emit|apply evaluates_ret]|..];
    done.
Qed.

Lemma schemaLabels_snoc labelTokenId labels label :
  schemaLabels rt labelTokenId (labels ++ [label])
  = schemaLabels rt labelTokenId labels ++ labelTokenId :: idsOf rt label.
Proof. unfold schemaLabels. rewrite flat_map_app. cbn. by rewrite app_nil_r. Qed.

Lemma buildSchemaInput_evaluates taskName labels labelTokenId :
  evaluates (buildSchemaInput rt taskName labels labelTokenId)
    (schemaTokens rt taskName labels labelTokenId,
     schemaPositions rt taskName labels labelTokenId)
    (schemaCalls taskName labels).
Proof.
  unfold buildSchemaInput. cbn zeta.
  eapply evaluates_eq.
  - eapply evaluates_bind; [apply callTokenizer_evaluates|].
    eapply evaluates_bind; [apply callTokenizer_evaluates|].
    eapply evaluates_bind.
    + apply (evaluates_forEachM_from
        (λ pre, (schemaHead rt taskName ++ schemaLabels rt labelTokenId pre,
                 map (λ i, length (schemaHead rt taskName)
                           + length (schemaLabels rt labelTokenId (take i pre)))
                     (seq 0 (length pre))))
        (λ label, [TokenizerCall label])).
      { unfold schemaHead. cbn [schemaLabels flat_map length seq map].
        by rewrite app_nil_r, <- !app_assoc. }
      intros pre label post Hl. cbn zeta.
      eapply evaluates_eq;
        [eapply evaluates_bind; [apply callTokenizer_evaluates|apply evaluates_ret]| |done].
      rewrite schemaLabels_snoc, (length_app pre [label]). cbn [length].
      rewrite Nat.add_1_r, seq_S, map_app. cbn [map Nat.add].
      rewrite pair_equal_spec. split.
      * rewrite <- !app_assoc. done.
      * f_equal.
        -- apply map_ext_in. intros i Hi%in_seq.
           by rewrite take_app_le by lia.
        -- rewrite length_app, take_app_length. done.
    + cbn beta iota. eapply evaluates_bind; [apply callTokenizer_evaluates|].
      apply evaluates_ret.
  - unfold schemaTokens, schemaPositions. rewrite pair_equal_spec. split.
    + rewrite <- !app_assoc. done.
    + apply map_ext_in. intros i Hi%in_seq.
      done.
  - unfold schemaCalls. by rewrite flat_map_singleton.
Qed.

End Gliner2Tokens.

Section Gliner2Words.
Import GLiNER2Lattice GLiNER2Decoder GLiNER2Runtime.
Context (rt : Runtime).

Lemma wordMatches_evaluates text :
  evaluates (wordMatches (toLowerCase rt text)) (wordsOf2 rt text) [].
Proof.
  intros w. unfold wordMatches, wordsOf2.
  destruct (splitWords_total (toLowerCase rt text)) as (tokens & -> & _).
  exists w. cbn. by rewrite app_nil_r.
Qed.

Lemma tokenizeText_evaluates text :
  evaluates (tokenizeText rt text)
    (flat_map (λ t, idsOf rt t.1.1) (wordsOf2 rt text))
    (map (λ t, TokenizerCall t.1.1) (wordsOf2 rt text)).
Proof.
  unfold tokenizeText. cbn zeta.
  eapply evaluates_eq; [eapply evaluates_bind; [apply wordMatches_evaluates|]|done|].
  - apply (evaluates_forEachM_from
      (λ pre, flat_map (λ t, idsOf rt t.1.1) pre) (λ t, [TokenizerCall t.1.1])); [done|].
    intros pre [[word index] e] post _.
    eapply evaluates_eq;
      [eapply evaluates_bind; [apply callTokenizer_evaluates|apply evaluates_ret]| |done].
    rewrite flat_map_app. cbn. by rewrite app_nil_r.
  - cbn [app]. apply (flat_map_singleton (λ t, TokenizerCall t.1.1)).
Qed.

Lemma tokenizeWords_evaluates text :
  evaluates (tokenizeWords rt text)
    (flat_map (λ t, idsOf rt t.1.1) (wordsOf2 rt text),
     map (λ t, (t.1.2, t.1.2 + length t.1.1)) (wordsOf2 rt text),
     map (λ k, length (flat_map (λ t, idsOf rt t.1.1) (take k (wordsOf2 rt text))))
         (seq 0 (length (wordsOf2 rt text))))
    (map (λ t, TokenizerCall t.1.1) (wordsOf2 rt text)).
Proof.
  unfold tokenizeWords. cbn zeta.
  eapply evaluates_eq; [eapply evaluates_bind; [apply wordMatches_evaluates|]| |].
  - eapply evaluates_bind.
    + apply (evaluates_forEachM_from
        (λ pre, (flat_map (λ t, idsOf rt t.1.1) pre,
                 map (λ t, (t.1.2, t.1.2 + length t.1.1)) pre,
                 map (λ k, length (flat_map (λ t, idsOf rt t.1.1) (take k pre)))
                     (seq 0 (length pre)),
                 length (flat_map (λ t, idsOf rt t.1.1) pre)))
        (λ t, [TokenizerCall t.1.1])); [done|].
      intros pre [[word index] e] post _. cbn zeta.
      eapply evaluates_eq;
        [eapply evaluates_bind; [apply callTokenizer_evaluates|apply evaluates_ret]| |done].
      rewrite flat_map_app, !map_app, (length_app pre). cbn [length flat_map map fst snd].
      rewrite Nat.add_1_r, seq_S, map_app, app_nil_r. cbn [map Nat.add].
      rewrite !pair_equal_spec. repeat split.
      * f_equal; [|by rewrite take_app_length].
        apply map_ext_in. intros k Hk%in_seq. by rewrite take_app_le by lia.
      * by rewrite length_app.
    + cbn beta iota. apply evaluates_ret.
  - done.
  - cbn [app]. rewrite app_nil_r. apply (flat_map_singleton (λ t, TokenizerCall t.1.1)).
Qed.

End Gliner2Words.
(** ** Gathering rows of hidden states (gliner2/utils.ts) *)

Lemma forRangeM_total {S : Type} n (f : nat → S → S) (st : S) :
  forRangeM n (λ i s, Some (f i s)) st = Some (forRange n f st).
Proof.
  induction n as [|n IH]; [done|]. by rewrite forRangeM_S, forRange_S, IH.
Qed.

Section Fill.
Context {A : Type} (width : nat) (cell : nat → nat → option A) (value : nat → nat → A).

Lemma fillRow_steps i (pre old post : list A) k :
  k ≤ width → length old = width →
  (∀ j, j < k → cell i j = Some (value i j)) →
  forRangeM k (λ j st, v ← cell i j; Some (<[length pre + j := v]> st))
    (pre ++ old ++ post)
  = Some (pre ++ map (value i) (seq 0 k) ++ drop k old ++ post).
Proof.
  intros Hk Hold. induction k as [|k IH]; intros Hcell.
  - by rewrite drop_0.
  - rewrite forRangeM_S, IH by (intros; try apply Hcell; lia).
    cbn [mbind option_bind]. rewrite (Hcell k) by lia. cbn [mbind option_bind]. f_equal.
    rewrite insert_app_r.
    assert (Hlt : length (map (value i) (seq 0 k)) = k) by (by rewrite length_map, length_seq).
    rewrite <- Hlt at 1. rewrite <- (Nat.add_0_r (length (map _ _))), insert_app_r.
    f_equal. rewrite seq_S, map_app, <- app_assoc. f_equal. cbn [app map Nat.add].
    destruct (lookup_lt_is_Some_2 old k) as [o Ho]; [lia|].
    by rewrite (drop_S old o k Ho).
Qed.

Lemma fill_rows (d : A) n :
  (∀ i j, i < n → j < width → cell i j = Some (value i j)) →
  forRangeM n (λ i st,
    forRangeM width (λ j st, v ← cell i j; Some (<[i * width + j := v]> st)) st)
    (replicate (n * width) d)
  = Some (flat_map (λ i, map (value i) (seq 0 width)) (seq 0 n)).
Proof.
  intros Hcell.
  enough (Hk : ∀ k, k ≤ n →
    forRangeM k (λ i st,
      forRangeM width (λ j st, v ← cell i j; Some (<[i * width + j := v]> st)) st)
      (replicate (n * width) d)
    = Some (flat_map (λ i, map (value i) (seq 0 width)) (seq 0 k)
            ++ replicate ((n - k) * width) d)).
  { rewrite (Hk n) by done. by rewrite Nat.sub_diag, app_nil_r. }
  induction k as [|k IH]; intros Hle.
  - cbn. by rewrite Nat.sub_0_r.
  - rewrite forRangeM_S, IH by lia. cbn [mbind option_bind].
    set (done_ := flat_map _ (seq 0 k)).
    assert (Hlen : length done_ = k * width) by (subst done_; apply length_row_major).
    replace ((n - k) * width) with (width + (n - S k) * width)
      by (replace (n - k) with (S (n - S k)) by lia; cbn; lia).
    rewrite replicate_add, <- Hlen.
    rewrite (fillRow_steps k done_ (replicate width d) _ width);
      [|done|by rewrite length_replicate|intros; apply Hcell; lia].
    f_equal. rewrite seq_S, flat_map_app. cbn [flat_map Nat.add].
    rewrite app_nil_r, <- app_assoc. do 2 f_equal.
    by rewrite <- (length_replicate width d) at 1; rewrite drop_all.
Qed.
End Fill.

(** Two nested loops that store a value into every cell of a zero-filled
    array build the row-major comprehension of the values. *)
Lemma forRange_fill {A : Type} (width : nat) (value : nat → nat → A) (d : A) n :
  forRange n (λ i st,
    forRange width (λ j st, <[i * width + j := value i j]> st) st)
    (replicate (n * width) d)
  = flat_map (λ i, map (value i) (seq 0 width)) (seq 0 n).
Proof.
  apply (inj Some). rewrite <- (fill_rows width (λ i j, Some (value i j)) value d n) by done.
  rewrite <- forRangeM_total. apply forRangeM_ext. intros i st _.
  by rewrite <- forRangeM_total.
Qed.

Lemma flat_map_rows_seq {B : Type} (f : nat → B) (h start n : nat) :
  flat_map (λ i, map (λ j, f ((start + i) * h + j)) (seq 0 h)) (seq 0 n)
  = map (λ k, f (start * h + k)) (seq 0 (n * h)).
Proof.
  induction n as [|n IH]; [done|].
  rewrite seq_S, flat_map_app, IH. cbn [flat_map Nat.add]. rewrite app_nil_r.
  replace (S n * h) with (n * h + h) by lia.
  rewrite seq_app, map_app. f_equal. cbn [Nat.add].
  replace (seq (n * h) h) with (Nat.add (n * h) <$> seq 0 h)
    by (rewrite fmap_add_seq; f_equal; lia).
  rewrite <- list_fmap_compose.
  apply map_ext. intros j. cbn. f_equal. lia.
Qed.

(** The cells of a window of the source are all numbers exactly when the
    window is empty or lies inside the source. *)
Lemma mapM_window (source : list Q) (offset n : nat) :
  mapM id (map (λ k, source !! (offset + k)) (seq 0 n))
  = if decide (n = 0 ∨ offset + n ≤ length source)
    then Some (take n (drop offset source))
    else None.
Proof.
  destruct (decide (n = 0 ∨ _)) as [Hin|Hout].
  - apply mapM_Some_2, Forall2_same_length_lookup_2.
    + rewrite length_map, length_seq, length_take, length_drop.
      destruct Hin as [->|Hin]; lia.
    + intros i x y Hx Hy. rewrite list_lookup_fmap in Hx.
      pose proof (lookup_lt_Some _ _ _ Hy) as Hi. rewrite length_take in Hi.
      rewrite lookup_seq_lt in Hx by lia. cbn in Hx. injection Hx as <-.
      rewrite lookup_take_lt, lookup_drop in Hy by lia. done.
  - apply mapM_None_2, Exists_exists. exists None. split; [|done].
    apply list_elem_of_fmap. exists (n - 1). split.
    + symmetry. apply lookup_ge_None. lia.
    + apply elem_of_seq. lia.
Qed.

Lemma mapM_app_id {A : Type} (l1 l2 : list (option A)) :
  mapM id (l1 ++ l2) = k1 ← mapM id l1; k2 ← mapM id l2; Some (k1 ++ k2).
Proof.
  induction l1 as [|[x|] l1 IH]; cbn.
  - by destruct (mapM id l2).
  - rewrite IH. destruct (mapM id l1); [|done]. cbn. by destruct (mapM id l2).
  - done.
Qed.

(** [sliceHiddenStates] returns [length * hiddenSize] cells: cell [k] is
    cell [startIdx * hiddenSize + k] of the source, and [NaN] where the
    source has no such cell. So all cells are numbers, and the result is
    the slice of the source from cell [startIdx * hiddenSize] on, exactly
    when there is nothing to copy or the source has at least
    [(startIdx + length) * hiddenSize] cells. *)
Theorem sliceHiddenStates_spec (source : list Q) (startIdx length_ hiddenSize : nat) :
  let result := GLiNER2Runtime.sliceHiddenStates source startIdx length_ hiddenSize in
  result = map (λ k, source !! (startIdx * hiddenSize + k))
             (seq 0 (length_ * hiddenSize))
  ∧ mapM id result
    = if decide (length_ * hiddenSize = 0
                 ∨ (startIdx + length_) * hiddenSize ≤ length source)
      then Some (take (length_ * hiddenSize) (drop (startIdx * hiddenSize) source))
      else None.
Proof.
  cbn zeta.
  assert (Hform : GLiNER2Runtime.sliceHiddenStates source startIdx length_ hiddenSize
                  = map (λ k, source !! (startIdx * hiddenSize + k))
                      (seq 0 (length_ * hiddenSize))).
  { unfold GLiNER2Runtime.sliceHiddenStates. cbn zeta.
    rewrite (forRange_fill hiddenSize
               (λ i j, source !! ((startIdx + i) * hiddenSize + j))).
    apply (flat_map_rows_seq (λ k, source !! k)). }
  split; [exact Hform|]. rewrite Hform, mapM_window.
  destruct (decide (length_ * hiddenSize = 0 ∨ _)) as [H1|H1];
    destruct (decide (length_ * hiddenSize = 0 ∨ _)) as [H2|H2]; try done; exfalso.
  - apply H2. destruct H1 as [H1|H1]; [by left|right; lia].
  - apply H1. destruct H2 as [H2|H2]; [by left|right; lia].
Qed.

(** [copyEmbeddings] gathers, in the order of [positions], rows of
    [hiddenSize] cells: cell [j] of the row of a position is cell
    [position * hiddenSize + j] of the source, and [NaN] where the source
    has no such cell. So all cells are numbers, and the rows are those of
    the source, exactly when every requested row lies inside the source. *)
Theorem copyEmbeddings_spec (source : list Q) (positions : list nat) (hiddenSize : nat) :
  let result := GLiNER2Runtime.copyEmbeddings source positions hiddenSize in
  result = flat_map (λ position,
             map (λ j, source !! (position * hiddenSize + j)) (seq 0 hiddenSize))
             positions
  ∧ mapM id result
    = if decide (hiddenSize = 0
                 ∨ Forall (λ position, (position + 1) * hiddenSize ≤ length source)
                     positions)
      then Some (flat_map (λ position,
                   take hiddenSize (drop (position * hiddenSize) source)) positions)
      else None.
Proof.
  cbn zeta.
  assert (Hform : GLiNER2Runtime.copyEmbeddings source positions hiddenSize
                  = flat_map (λ position,
                      map (λ j, source !! (position * hiddenSize + j)) (seq 0 hiddenSize))
                      positions).
  { unfold GLiNER2Runtime.copyEmbeddings. cbn zeta.
    rewrite (forRange_fill hiddenSize
               (λ i j, source !! (default 0 (positions !! i) * hiddenSize + j))).
    apply (flat_map_seq_lookup
             (λ o, map (λ j, source !! (default 0 o * hiddenSize + j)) (seq 0 hiddenSize))
             positions). }
  split; [exact Hform|]. rewrite Hform. clear Hform.
  induction positions as [|p positions IH].
  - cbn. by destruct (decide _) as [?|Hn]; [|exfalso; apply Hn; right].
  - cbn [flat_map]. rewrite mapM_app_id, mapM_window, IH.
    destruct (decide (hiddenSize = 0 ∨ p * hiddenSize + hiddenSize ≤ length source))
      as [Hp|Hp].
    + cbn [mbind option_bind].
      destruct (decide (hiddenSize = 0 ∨ Forall _ positions)) as [Hr|Hr].
      * cbn. rewrite decide_True; [done|].
        destruct Hp as [->|Hp]; [by left|]. destruct Hr as [->|Hr]; [by left|].
        right. constructor; [lia|done].
      * cbn. rewrite decide_False; [done|].
        intros [->|Hall]; apply Hr; [by left|right]. by inversion Hall.
    + cbn. rewrite decide_False; [done|].
      intros [->|Hall]; apply Hp; [by left|right]. inversion Hall; subst. lia.
Qed.
(** ** Filling a score matrix (gliner2/decoder.ts) *)

Section DotProduct.
Context `{FloatOps}.

Lemma dotProduct_loop (a b : list Q) oa ob k acc :
  oa + k ≤ length a → ob + k ≤ length b →
  forRangeM k (λ i dotProduct,
    x ← a !! (oa + i); y ← b !! (ob + i); Some (fadd dotProduct (fmul x y))) acc
  = Some (fold_left (λ dotProduct '(x, y), fadd dotProduct (fmul x y))
            (zip (take k (drop oa a)) (take k (drop ob b))) acc).
Proof.
  induction k as [|k IH]; intros Ha Hb; [done|].
  rewrite forRangeM_S, IH by lia. cbn [mbind option_bind].
  destruct (lookup_lt_is_Some_2 a (oa + k)) as [x Hx]; [lia|].
  destruct (lookup_lt_is_Some_2 b (ob + k)) as [y Hy]; [lia|].
  rewrite Hx, Hy. cbn [mbind option_bind]. f_equal.
  assert (Hx' : drop oa a !! k = Some x) by (by rewrite lookup_drop).
  assert (Hy' : drop ob b !! k = Some y) by (by rewrite lookup_drop).
  rewrite (take_S_r _ _ _ Hx'), (take_S_r _ _ _ Hy').
  rewrite zip_with_app by (rewrite !length_take, !length_drop; lia).
  by rewrite fold_left_app.
Qed.

(** The matrix [computeDotProductScores] returns, cell by cell. *)
Lemma computeDotProductScores_form (spanRep labelRep : list Q)
    (spanCount labelCount hiddenSize : nat) :
  GLiNER2Runtime.computeDotProductScores spanRep labelRep spanCount labelCount hiddenSize
  = flat_map (λ spanIdx,
      map (λ labelIdx,
             (λ dotProduct, fround (sigmoid dotProduct)) <$>
               forRangeM hiddenSize (λ hiddenIdx dotProduct,
                 a ← spanRep !! (spanIdx * hiddenSize + hiddenIdx);
                 b ← labelRep !! (labelIdx * hiddenSize + hiddenIdx);
                 Some (fadd dotProduct (fmul a b))) 0%Q)
          (seq 0 labelCount)) (seq 0 spanCount).
Proof.
  unfold GLiNER2Runtime.computeDotProductScores. cbn zeta.
  apply (forRange_fill labelCount
    (λ spanIdx labelIdx,
       (λ dotProduct, fround (sigmoid dotProduct)) <$>
         forRangeM hiddenSize (λ hiddenIdx dotProduct,
           a ← spanRep !! (spanIdx * hiddenSize + hiddenIdx);
           b ← labelRep !! (labelIdx * hiddenSize + hiddenIdx);
           Some (fadd dotProduct (fmul a b))) 0%Q)).
Qed.

Lemma length_computeDotProductScores (spanRep labelRep : list Q)
    (spanCount labelCount hiddenSize : nat) :
  length (GLiNER2Runtime.computeDotProductScores spanRep labelRep spanCount
            labelCount hiddenSize) = spanCount * labelCount.
Proof. rewrite computeDotProductScores_form. apply length_row_major. Qed.

(** Every cell is the rounded sigmoid of some number, or [NaN]. *)
Lemma computeDotProductScores_cell (spanRep labelRep : list Q)
    (spanCount labelCount hiddenSize : nat) idx (c : Q) :
  GLiNER2Runtime.computeDotProductScores spanRep labelRep spanCount labelCount hiddenSize
    !! idx = Some (Some c) →
  ∃ dotProduct, c = fround (sigmoid dotProduct).
Proof.
  rewrite computeDotProductScores_form. intros Hc%list_elem_of_lookup_2.
  apply elem_of_flat_map in Hc as (spanIdx & _ & Hc).
  apply list_elem_of_fmap in Hc as (labelIdx & Hc & _).
  destruct (forRangeM hiddenSize _ _) as [dotProduct|]; [|done].
  cbn in Hc. injection Hc as ->. by exists dotProduct.
Qed.

End DotProduct.

(** [computeDotProductScores] fills every cell of the score matrix, once:
    given representations with [spanCount] and [labelCount] rows of
    [hiddenSize] cells, the result has [spanCount * labelCount] cells, and the
    cell of span [s] and label [l], at index [s * labelCount + l], is the
    sigmoid of the dot product of row [s] of the span representations and row
    [l] of the label representations, rounded to single precision; no cell
    is [NaN]. *)
Theorem computeDotProductScores_cells `{FloatOps} (spanRep labelRep : list Q)
    (spanCount labelCount hiddenSize : nat) :
  spanCount * hiddenSize ≤ length spanRep →
  labelCount * hiddenSize ≤ length labelRep →
  let scores :=
    GLiNER2Runtime.computeDotProductScores spanRep labelRep spanCount labelCount
      hiddenSize in
  length scores = spanCount * labelCount
  ∧ ∀ spanIdx labelIdx, spanIdx < spanCount → labelIdx < labelCount →
      scores !! (spanIdx * labelCount + labelIdx)
      = Some (Some (fround (sigmoid
                              (dotProductOf (matrixRow spanRep hiddenSize spanIdx)
                                 (matrixRow labelRep hiddenSize labelIdx))))).
Proof.
  intros Hs Hl. cbn zeta. split; [apply length_computeDotProductScores|].
  intros spanIdx labelIdx Hsi Hli. rewrite computeDotProductScores_form.
  rewrite (lookup_row_major _ spanCount labelCount spanIdx labelIdx Hsi Hli).
  rewrite dotProduct_loop by nia. done.
Qed.

Lemma computeDotProductScores_cells_witness :
  (2 * 2 ≤ length [1; 2; 3; 4]%Q ∧ 1 * 2 ≤ length [1; 0]%Q)
  ∧ let scores :=
      GLiNER2Runtime.computeDotProductScores (H := rationalOps) [1; 2; 3; 4]%Q [1; 0]%Q
        2 1 2 in
    length scores = 2 * 1
    ∧ scores !! 1 = Some (Some (4 # 5)%Q).
Proof.
  assert (H1 : 2 * 2 ≤ length [1; 2; 3; 4]%Q) by (cbn; lia).
  assert (H2 : 1 * 2 ≤ length [1; 0]%Q) by (cbn; lia).
  split; [by split|].
  destruct (computeDotProductScores_cells (H := rationalOps) [1; 2; 3; 4]%Q [1; 0]%Q
              2 1 2 H1 H2) as (Hlen & Hcells).
  cbn zeta. split; [exact Hlen|].
  etrans; [exact (Hcells 1 0 ltac:(lia) ltac:(lia))|]. vm_compute. reflexivity.
Defined.
(** ** Decoding entities (gliner2/decoder.ts) *)

Lemma forRangeM_inv_idx {S : Type} (P : nat → S → Prop) n
    (body : nat → S → option S) st r :
  P 0 st → (∀ i s s', i < n → P i s → body i s = Some s' → P (Datatypes.S i) s') →
  forRangeM n body st = Some r → P n r.
Proof.
  intros H0 Hstep. revert r. induction n as [|n IH]; intros r.
  - cbn. by intros [= <-].
  - rewrite forRangeM_S. destruct (forRangeM n body st) as [s|] eqn:E; [|done].
    cbn [mbind option_bind]. intros Hr. apply (Hstep n s r); [lia| |done].
    apply IH; [|done]. intros i s0 s' Hi. apply Hstep. lia.
Qed.

Section DecodeEntities.
Import GLiNER2Dedup GLiNER2Decoder.
Context (scoreData : NerScoreData) (wordCount : nat) (labels : list jsstring).
Context (wordOffsets : list (nat * nat)) (input : jsstring) (threshold : Q).

#[local] Abbreviation candidate2 :=
  (entityCandidate scoreData wordCount labels wordOffsets input threshold).

Lemma decodeEntities_candidates out :
  decodeEntities scoreData wordCount labels wordOffsets input threshold = Some out →
  ∃ candidates,
    out = deduplicateEntities candidates
    ∧ (∀ e, e ∈ candidates →
         ∃ spanIdx labelIdx, spanIdx < spanCount scoreData ∧ labelIdx < length labels
                             ∧ candidate2 spanIdx labelIdx e)
    ∧ (∀ spanIdx labelIdx e, spanIdx < spanCount scoreData → labelIdx < length labels →
         candidate2 spanIdx labelIdx e → e ∈ candidates).
Proof.
  unfold decodeEntities. cbn zeta.
  destruct (forRangeM (spanCount scoreData) _ []) as [candidates|] eqn:E; [|done].
  cbn [mbind option_bind]. intros [= <-]. exists candidates. split; [done|].
  revert E.
  apply (forRangeM_inv_idx (λ k entities,
    (∀ e, e ∈ entities →
       ∃ spanIdx labelIdx, spanIdx < k ∧ labelIdx < length labels
                           ∧ candidate2 spanIdx labelIdx e)
    ∧ (∀ spanIdx labelIdx e, spanIdx < k → labelIdx < length labels →
         candidate2 spanIdx labelIdx e → e ∈ entities))).
  { split; [by intros e ?%elem_of_nil|]. intros; lia. }
  intros spanIdx entities entities' Hk [Hsound Hcomplete].
  assert (Hskip : entities' = entities →
    (∀ l e, ¬ candidate2 spanIdx l e) →
    (∀ e, e ∈ entities' →
       ∃ s l, s < S spanIdx ∧ l < length labels ∧ candidate2 s l e)
    ∧ (∀ s l e, s < S spanIdx → l < length labels →
         candidate2 s l e → e ∈ entities')).
  { intros -> Hnone. split.
    - intros e (s & l & ? & ? & ?)%Hsound. exists s, l. split; [lia|done].
    - intros s l e Hs Hl Hc. destruct (decide (s = spanIdx)) as [->|].
      + by destruct (Hnone l e).
      + apply (Hcomplete s l); [lia|done..]. }
  destruct (reaches (wordSpanStart scoreData !! spanIdx) wordCount) eqn:Ers.
  { cbn [orb]. intros [= <-]. apply Hskip; [done|].
    intros l e (sw & ew & so & eo & Hsw' & _ & ? & _). rewrite Hsw' in Ers.
    cbn in Ers. apply Nat.leb_le in Ers. lia. }
  destruct (reaches (wordSpanEnd scoreData !! spanIdx) wordCount) eqn:Ere.
  { cbn [orb]. intros [= <-]. apply Hskip; [done|].
    intros l e (sw & ew & so & eo & _ & Hew' & _ & ? & _). rewrite Hew' in Ere.
    cbn in Ere. apply Nat.leb_le in Ere. lia. }
  cbn [orb]. intros Hinner.
  assert (Hin :
    (∀ e, e ∈ entities' →
       ∃ s l, (s < spanIdx ∨ s = spanIdx ∧ l < length labels) ∧ l < length labels
              ∧ candidate2 s l e)
    ∧ (∀ s l e, (s < spanIdx ∨ s = spanIdx ∧ l < length labels) → l < length labels →
         candidate2 s l e → e ∈ entities')).
  { revert Hinner.
    apply (forRangeM_inv_idx (λ m entities,
      (∀ e, e ∈ entities →
         ∃ s l, (s < spanIdx ∨ s = spanIdx ∧ l < m) ∧ l < length labels
                ∧ candidate2 s l e)
      ∧ (∀ s l e, (s < spanIdx ∨ s = spanIdx ∧ l < m) → l < length labels →
           candidate2 s l e → e ∈ entities))).
    - split.
      + intros e (s & l & ? & ? & ?)%Hsound. exists s, l. split; [lia|done].
      + intros s l e [Hs|[_ ?]] Hl Hc; [|lia]. by apply (Hcomplete s l).
    - intros labelIdx ents ents' Hl [Hs1 Hc1].
      assert (Hnext : ents' = ents →
        (∀ e, ¬ candidate2 spanIdx labelIdx e) →
        (∀ e, e ∈ ents' →
           ∃ s l, (s < spanIdx ∨ s = spanIdx ∧ l < S labelIdx) ∧ l < length labels
                  ∧ candidate2 s l e)
        ∧ (∀ s l e, (s < spanIdx ∨ s = spanIdx ∧ l < S labelIdx) → l < length labels →
             candidate2 s l e → e ∈ ents')).
      { intros -> Hnone. split.
        - intros e (s & l & ? & ? & ?)%Hs1. exists s, l. split; [lia|done].
        - intros s l e Hsl Hll Hc.
          destruct (decide (s = spanIdx ∧ l = labelIdx)) as [[-> ->]|Hne].
          + by destruct (Hnone e).
          + apply (Hc1 s l); [lia|done..]. }
      destruct (scores scoreData !! _) as [[sc|]|] eqn:Esc.
      2:{ intros [= <-]. apply Hnext; [done|].
          intros e (sw & ew & so' & eo' & _ & _ & _ & _ & Hsc & _). congruence. }
      2:{ intros [= <-]. apply Hnext; [done|].
          intros e (sw & ew & so' & eo' & _ & _ & _ & _ & Hsc & _). congruence. }
      destruct (Qle_bool threshold sc) eqn:Et.
      + destruct (wordSpanStart scoreData !! spanIdx) as [startWord|] eqn:Es; [|done].
        destruct (wordSpanEnd scoreData !! spanIdx) as [endWord|] eqn:Ee;
          [|cbn; by destruct (wordOffsets !! startWord)].
        cbn [mbind option_bind].
        destruct (wordOffsets !! startWord) as [so|] eqn:Eso; [|done].
        destruct (wordOffsets !! endWord) as [eo|] eqn:Eeo; [|done].
        destruct (labels !! labelIdx) as [label|] eqn:El; [|done].
        cbn [mbind option_bind]. intros [= <-].
        cbn in Ers, Ere. apply Nat.leb_gt in Ers, Ere. split.
        * intros e [He|He%list_elem_of_singleton]%elem_of_app.
          -- destruct (Hs1 e He) as (s & l & ? & ? & ?). exists s, l.
             split; [lia|done].
          -- subst e. exists spanIdx, labelIdx. split; [lia|]. split; [done|].
             exists startWord, endWord, so, eo. cbn.
             apply Qle_bool_iff in Et. repeat split; try done; lia.
        * intros s l e Hsl Hll Hc. apply elem_of_app.
          destruct (decide (s = spanIdx ∧ l = labelIdx)) as [[-> ->]|Hne].
          -- right. apply list_elem_of_singleton.
             destruct Hc as (sw & ew & so' & eo' & ? & ? & _ & _ & ? & _ & ? & ? & ? & ? & ? & ?).
             simplify_eq. destruct e. cbn in *. by simplify_eq.
          -- left. apply (Hc1 s l); [lia|done..].
      + intros [= <-]. apply Hnext; [done|].
        intros e (sw & ew & so' & eo' & _ & _ & _ & _ & Hsc & Hthr & _).
        rewrite Esc in Hsc. injection Hsc as ->.
        apply Qle_bool_iff in Hthr. congruence. }
  destruct Hin as [Hs2 Hc2]. split.
  - intros e (s & l & Hsl & ? & ?)%Hs2. exists s, l. split; [lia|done].
  - intros s l e Hs Hl Hc. apply (Hc2 s l); [|done..].
    destruct (decide (s = spanIdx)); [right|left]; lia.
Qed.

End DecodeEntities.


Lemma generateSpans_lookup n w idx sw ew :
  GLiNER2Lattice.spanStart (GLiNER2Lattice.generateSpans n w) !! idx = Some sw →
  GLiNER2Lattice.spanEnd (GLiNER2Lattice.generateSpans n w) !! idx = Some ew →
  ∃ i j, i < n ∧ j < w ∧ idx = i * w + j
         ∧ sw = (if bool_decide (i + j < n) then i else 0)
         ∧ ew = (if bool_decide (i + j < n) then i + j else 0).
Proof.
  rewrite generateSpans_comprehension. cbn zeta.
  cbn [GLiNER2Lattice.spanStart GLiNER2Lattice.spanEnd]. intros Hs He.
  pose proof (lookup_lt_Some _ _ _ Hs) as Hlt. rewrite length_row_major in Hlt.
  assert (Hw : 0 < w) by (destruct w; [lia|lia]).
  exists (idx / w), (idx mod w).
  assert (Hi : idx / w < n) by (apply Nat.Div0.div_lt_upper_bound; lia).
  assert (Hj : idx mod w < w) by (apply Nat.mod_upper_bound; lia).
  assert (Hidx : idx = idx / w * w + idx mod w)
    by (rewrite (Nat.div_mod_eq idx w) at 1; lia).
  split; [done|]. split; [done|]. split; [done|].
  rewrite Hidx in Hs, He.
  rewrite (lookup_row_major (λ i j, if bool_decide (i + j < n) then i else 0)) in Hs
    by done.
  rewrite (lookup_row_major (λ i j, if bool_decide (i + j < n) then i + j else 0)) in He
    by done.
  by simplify_eq.
Qed.

Lemma generateSpans_padded n w i j :
  i < n → j < w → n ≤ i + j →
  GLiNER2Lattice.spanStart (GLiNER2Lattice.generateSpans n w) !! (i * w + j) = Some 0
  ∧ GLiNER2Lattice.spanEnd (GLiNER2Lattice.generateSpans n w) !! (i * w + j) = Some 0
  ∧ i * w + j < GLiNER2Lattice.numSpans (GLiNER2Lattice.generateSpans n w).
Proof.
  intros Hi Hj Hpad. rewrite generateSpans_comprehension. cbn zeta.
  cbn [GLiNER2Lattice.spanStart GLiNER2Lattice.spanEnd GLiNER2Lattice.numSpans].
  rewrite (lookup_row_major (λ i j, if bool_decide (i + j < n) then i else 0)) by done.
  rewrite (lookup_row_major (λ i j, if bool_decide (i + j < n) then i + j else 0)) by done.
  rewrite bool_decide_eq_false_2 by lia. rewrite length_row_major.
  split; [done|]. split; [done|]. nia.
Qed.

Lemma deduplicateEntities_dominated candidates x :
  x ∈ candidates →
  ∃ y, y ∈ GLiNER2Dedup.deduplicateEntities candidates
       ∧ (score x <= score y)%Q
       ∧ (y = x ∨ (label x = label y ∧ start x < end_ y ∧ start y < end_ x)).
Proof.
  intros Hx. rewrite deduplicateEntities_unfold.
  assert (Hxs : x ∈ jsSort GLiNER2Dedup.byScoreDesc candidates)
    by (by apply jsSort_elem_of).
  destruct (acceptLoop_dominated GLiNER2Dedup.sameLabelIntersect _ x Hxs)
    as [Hk|(y & Hy & Hc & Hb)].
  - exists x. split; [done|]. split; [lra|by left].
  - exists y. split; [done|].
    apply sameLabelIntersect_true in Hc as (? & ? & ?). split.
    + eapply (StronglySorted_before (λ a b, (score b <= score a)%Q)); [|done].
      apply jsSort_entities_sorted.
    + right. repeat split; [done|lia|lia].
Qed.

(** The lattice of [generateSpans] has no mask, and [decodeEntities] treats
    its padded entries, the pairs [(0, 0)], as spans of the first word. A
    score that reaches the threshold at a padded lattice position therefore
    yields a candidate for the first word: the result holds an entity with
    that label and at least that score which is the first word or
    intersects it. *)
Theorem decodeEntities_padded_span (n w : nat) (cells : list (option Q))
    (labels : list jsstring) (wordOffsets : list (nat * nat)) (input : jsstring)
    (threshold : Q) (out : list Entity) (i j l : nat) (name : jsstring) (s : Q)
    (first : nat * nat) :
  i < n → j < w → n ≤ i + j →
  labels !! l = Some name →
  cells !! ((i * w + j) * length labels + l) = Some (Some s) →
  (threshold <= s)%Q →
  wordOffsets !! 0 = Some first →
  GLiNER2Decoder.decodeEntities
    {| GLiNER2Decoder.scores := cells;
       GLiNER2Decoder.wordSpanStart :=
         GLiNER2Lattice.spanStart (GLiNER2Lattice.generateSpans n w);
       GLiNER2Decoder.wordSpanEnd :=
         GLiNER2Lattice.spanEnd (GLiNER2Lattice.generateSpans n w);
       GLiNER2Decoder.spanCount :=
         GLiNER2Lattice.numSpans (GLiNER2Lattice.generateSpans n w) |}
    n labels wordOffsets input threshold = Some out →
  ∃ e, e ∈ out ∧ label e = name ∧ (s <= score e)%Q
       ∧ ((start e = first.1 ∧ end_ e = first.2)
          ∨ (start e < first.2 ∧ first.1 < end_ e)).
Proof.
  intros Hi Hj Hpad Hl Hs Ht Hfirst Hout.
  destruct (decodeEntities_candidates _ _ _ _ _ _ _ Hout) as (candidates & -> & _ & Hcomplete).
  destruct (generateSpans_padded n w i j Hi Hj Hpad) as (Hss & Hse & Hlt).
  set (x := {| text := slice input first.1 first.2; label := name;
               start := first.1; end_ := first.2; score := s |}).
  assert (Hx : x ∈ candidates).
  { apply (Hcomplete (i * w + j) l); [done|by eapply lookup_lt_Some|].
    exists 0, 0, first, first. cbn. repeat split; try done; lia. }
  destruct (deduplicateEntities_dominated candidates x Hx) as (y & Hy & Hsc & Hrel).
  exists y. split; [done|]. destruct Hrel as [->|(Hlab & Hse' & Hes)].
  - split; [done|]. split; [done|]. by left.
  - split; [done|]. split; [done|]. right. cbn in *. lia.
Qed.

Lemma decodeEntities_padded_span_witness :
  (0 < 1 ∧ 1 < 2 ∧ 1 ≤ 0 + 1)
  ∧ ∃ e, e ∈ [ {| text := utf16 "ab"; label := utf16 "x"; start := 0; end_ := 2;
                  score := (9 # 10)%Q |} ]
         ∧ label e = utf16 "x" ∧ (9 # 10 <= score e)%Q
         ∧ ((start e = 0 ∧ end_ e = 2) ∨ (start e < 2 ∧ 0 < end_ e)).
Proof.
  split; [lia|].
  apply (decodeEntities_padded_span 1 2 [Some (1 # 10); Some (9 # 10)]%Q
           [utf16 "x"] [(0, 2)]
           (utf16 "ab") (1 # 2) _ 0 1 0 (utf16 "x") (9 # 10) (0, 2)).
  all: try lia; try reflexivity.
  unfold Qle. cbn. lia.
Defined.
(** ** The GLiNER2 runtime: a call that returns *)

Lemma bind_inr {A B : Type} (m : M A) (f : A → M B) w b w' :
  (m ≫= f) w = (inr b, w') → ∃ a w1, m w = (inr a, w1) ∧ f a w1 = (inr b, w').
Proof.
  rewrite bind_unfold. destruct (m w) as [[e|a] w1]; [done|]. intros Hf. by exists a, w1.
Qed.

Lemma evaluates_bind_inr {A B : Type} (m : M A) (f : A → M B) a evs w b w' :
  evaluates m a evs → (m ≫= f) w = (inr b, w') →
  ∃ w1, calls w1 = calls w ++ evs ∧ f a w1 = (inr b, w').
Proof.
  intros Hm. rewrite bind_unfold. destruct (Hm w) as (w1 & -> & Hc).
  intros Hf. by exists w1.
Qed.

Lemma orTypeError_inr {A : Type} (x : option A) w a w' :
  orTypeError x w = (inr a, w') → x = Some a ∧ w' = w.
Proof. destruct x; [|done]. by intros [= -> ->]. Qed.

Lemma callEngine_inr session result w outputs w' :
  GLiNER2Runtime.callEngine session result w = (inr outputs, w') →
  result = Some outputs ∧ calls w' = calls w ++ [EngineCall session].
Proof.
  unfold GLiNER2Runtime.callEngine. rewrite bind_unfold. cbn.
  destruct result; [|done]. by intros [= -> <-].
Qed.

Lemma getFirstOutput_inr result w data w' :
  GLiNER2Runtime.getFirstOutput result w = (inr data, w') →
  w' = w ∧ ∃ name rest, result = (name, data) :: rest.
Proof.
  destruct result as [|[name d] rest]; [done|]. intros [= -> ->]. eauto.
Qed.

Lemma session_inr session result w data w' :
  (GLiNER2Runtime.callEngine session result ≫= GLiNER2Runtime.getFirstOutput) w
  = (inr data, w') →
  calls w' = calls w ++ [EngineCall session]
  ∧ ∃ name rest, result = Some ((name, data) :: rest).
Proof.
  intros (outputs & w1 & (-> & Hc)%callEngine_inr & (-> & name & rest & ->)%getFirstOutput_inr)%bind_inr.
  eauto.
Qed.

Lemma validateInput_inr text labels w u w' :
  GLiNER2Runtime.validateInput text labels w = (inr u, w') →
  w' = w ∧ trim text ≠ [] ∧ labels ≠ [].
Proof.
  unfold GLiNER2Runtime.validateInput.
  destruct (length (trim text) =? 0) eqn:Et; [done|].
  destruct (length labels =? 0) eqn:El; [done|].
  intros [= <- <-]. apply Nat.eqb_neq in Et, El.
  split; [done|]. split; intros E; rewrite E in *; cbn in *; lia.
Qed.

Lemma wordsOf2_tokens rt input :
  Forall (λ t, t.1.2 < t.2 ∧ t.2 ≤ length (GLiNER2Runtime.toLowerCase rt input)
               ∧ t.2 = t.1.2 + length t.1.1
               ∧ t.1.1 = slice (GLiNER2Runtime.toLowerCase rt input) t.1.2 t.2
               ∧ Forall (λ c, isSpace c = false) t.1.1) (wordsOf2 rt input)
  ∧ StronglySorted (λ a b, a.2 ≤ b.1.2) (wordsOf2 rt input).
Proof.
  destruct (splitWords_tokens (GLiNER2Runtime.toLowerCase rt input))
    as (tokens & Hs & _ & Hf & Hsrt).
  unfold wordsOf2. rewrite Hs. cbn. split; [|done].
  eapply Forall_impl; [exact Hf|]. cbn. intros [[word s] e] (? & ? & Hw & ?). cbn in *.
  repeat split; try done.
  rewrite Hw. unfold slice. rewrite length_take, length_drop. lia.
Qed.

Section Gliner2Run.
Import GLiNER2Lattice GLiNER2Decoder GLiNER2Runtime.
Context `{FloatOps} (rt : Runtime).

Lemma extractEntities_inr text labels threshold w out w' :
  extractEntities rt text labels threshold w = (inr out, w') →
  trim text ≠ [] ∧ labels ≠ []
  ∧ ((out = [] ∧ textTokens rt text = []
      ∧ calls w' = calls w ++ requestCalls rt NER_TASK_NAME labels text
                   ++ [EngineCall "encoder"])
     ∨ (∃ cells,
          textTokens rt text ≠ []
          ∧ (∃ spanRepresentations transformedLabels,
               cells
               = computeDotProductScores spanRepresentations transformedLabels
                   (numSpans (generateSpans (length (wordsOf2 rt text))
                                (maxWidth (config rt))))
                   (length labels) (hiddenSize (config rt)))
          ∧ decodeEntities
              {| scores := cells;
                 wordSpanStart :=
                   spanStart (generateSpans (length (wordsOf2 rt text))
                                (maxWidth (config rt)));
                 wordSpanEnd :=
                   spanEnd (generateSpans (length (wordsOf2 rt text))
                              (maxWidth (config rt)));
                 spanCount :=
                   numSpans (generateSpans (length (wordsOf2 rt text))
                               (maxWidth (config rt))) |}
              (length (wordsOf2 rt text)) labels
              (map (λ t, (t.1.2, t.1.2 + length t.1.1)) (wordsOf2 rt text))
              text (default DEFAULT_THRESHOLD threshold) = Some out
          ∧ calls w' = calls w ++ requestCalls rt NER_TASK_NAME labels text
                       ++ [EngineCall "encoder"; EngineCall "span_rep";
                           EngineCall "count_embed"])).
Proof.
  unfold extractEntities. cbn zeta.
  intros (u & w0 & (-> & Ht & Hl)%validateInput_inr & Hrun)%bind_inr.
  split; [done|]. split; [done|].
  apply (evaluates_bind_inr _ _ _ _ _ _ _
           (buildSchemaInput_evaluates rt NER_TASK_NAME labels (token_E (config rt))))
    in Hrun as (w1 & Hc1 & Hrun).
  cbn beta iota in Hrun.
  apply (evaluates_bind_inr _ _ _ _ _ _ _ (tokenizeWords_evaluates rt text))
    in Hrun as (w2 & Hc2 & Hrun).
  cbn beta iota in Hrun. fold (textTokens rt text) in Hrun.
  apply bind_inr in Hrun as (hiddenStates & w3 & Henc & Hrun).
  unfold encode in Henc. cbn zeta in Henc.
  apply session_inr in Henc as (Hc3 & _).
  assert (Hcalls : calls w3 = calls w ++ requestCalls rt NER_TASK_NAME labels text
                              ++ [EngineCall "encoder"]).
  { rewrite Hc3, Hc2, Hc1. unfold requestCalls. by rewrite <- !app_assoc. }
  rewrite length_map, length_app in Hrun.
  replace (_ + length (textTokens rt text) - _) with (length (textTokens rt text))
    in Hrun by lia.
  destruct (_ || _) eqn:Eempty.
  { injection Hrun as <- <-. left. split; [done|]. split; [|done].
    apply orb_true_iff in Eempty as [Hn%Nat.eqb_eq|Hn%Nat.eqb_eq].
    - by destruct (textTokens rt text).
    - unfold textTokens. by destruct (wordsOf2 rt text). }
  right. apply orb_false_iff in Eempty as (Htok%Nat.eqb_neq & _).
  apply bind_inr in Hrun as (scoreData & w6 & Hscores & (Hdec & ->)%orTypeError_inr).
  unfold computeNerScores in Hscores. cbn zeta in Hscores.
  apply bind_inr in Hscores as (spanReps & w7 & Hspan & Hscores).
  unfold getSpanRepresentations in Hspan. apply session_inr in Hspan as (Hc7 & _).
  apply bind_inr in Hscores as (transformed & w8 & Htr & Hscores).
  unfold transformLabelEmbeddings in Htr. apply session_inr in Htr as (Hc8 & _).
  injection Hscores as <- <-.
  eexists. split; [by intros E; rewrite E in Htok|].
  split; [by exists spanReps, transformed|]. split; [exact Hdec|].
  rewrite Hc8, Hc7, Hcalls. by rewrite <- !app_assoc.
Qed.

End Gliner2Run.

Section Gliner2Classify.
Import GLiNER2Lattice GLiNER2Decoder GLiNER2Runtime.
Context `{FloatOps} (rt : Runtime).

Lemma classify_inr text labels threshold multiLabel w result w' :
  classify rt text labels threshold multiLabel w = (inr result, w') →
  trim text ≠ [] ∧ labels ≠ []
  ∧ (∃ logits,
       result
       = if default false multiLabel
         then decodeMultiLabel logits labels (default DEFAULT_THRESHOLD threshold)
         else decodeSingleLabel logits labels)
  ∧ calls w' = calls w ++ requestCalls rt CLASSIFICATION_TASK_NAME labels text
               ++ [EngineCall "encoder"; EngineCall "classifier"].
Proof.
  unfold classify. cbn zeta.
  intros (u & w0 & (-> & Ht & Hl)%validateInput_inr & Hrun)%bind_inr.
  split; [done|]. split; [done|].
  apply (evaluates_bind_inr _ _ _ _ _ _ _
           (buildSchemaInput_evaluates rt CLASSIFICATION_TASK_NAME labels
              (token_L (config rt))))
    in Hrun as (w1 & Hc1 & Hrun).
  cbn beta iota in Hrun.
  apply (evaluates_bind_inr _ _ _ _ _ _ _ (tokenizeText_evaluates rt text))
    in Hrun as (w2 & Hc2 & Hrun).
  apply bind_inr in Hrun as (hiddenStates & w3 & Henc & Hrun).
  unfold encode in Henc. cbn zeta in Henc.
  apply session_inr in Henc as (Hc3 & _).
  apply bind_inr in Hrun as (logits & w5 & Hcls & Hrun).
  unfold runClassifier in Hcls. apply session_inr in Hcls as (Hc5 & _).
  assert (Hcalls : calls w5 = calls w ++ requestCalls rt CLASSIFICATION_TASK_NAME labels text
                              ++ [EngineCall "encoder"; EngineCall "classifier"]).
  { rewrite Hc5, Hc3, Hc2, Hc1. unfold requestCalls. by rewrite <- !app_assoc. }
  injection Hrun as <- <-. split; [by exists logits|done].
Qed.

End Gliner2Classify.



Lemma session_returns session result w :
  answers result →
  ∃ data w', (GLiNER2Runtime.callEngine session result ≫= GLiNER2Runtime.getFirstOutput) w
             = (inr data, w').
Proof.
  intros ([name data] & rest & ->). unfold GLiNER2Runtime.callEngine.
  rewrite !bind_unfold. cbn. by eexists _, _.
Qed.

Tactic Notation "session_runs" ident(w) constr(Hanswers) "as" simple_intropattern(pat) :=
  match goal with
  | |- context [GLiNER2Runtime.callEngine ?session ?result ≫= ?k] =>
      destruct (session_returns session result w ltac:(apply Hanswers)
                : ∃ data w', (GLiNER2Runtime.callEngine session result ≫= k) w
                             = (inr data, w')) as pat
  end.

Section Gliner2Returns.
Import GLiNER2Lattice GLiNER2Decoder GLiNER2Runtime.
Context `{FloatOps} (rt : Runtime).



End Gliner2Returns.

(** For sessions that answer finite numbers, of whatever length, a GLiNER2
    [extractEntities] call that returns gives entities that are well formed
    for the text: each runs from the start of a word to the end
    of the same or a later word, fewer than [maxWidth] words apart; its text
    is the slice of the given text between offsets measured on the
    lower-cased text; its label was requested and its score reaches the
    threshold. The list is in descending order of score and no two entities
    of one label intersect. A score cell that is [NaN], because an array was
    read outside its bounds on the way, gives no entity. *)
Theorem gliner2_extractEntities_wellFormed `{FloatOps} (rt : GLiNER2Runtime.Runtime)
    (text : jsstring) (labels : list jsstring) (threshold : option Q)
    (w w' : World) (out : list Entity) :
  GLiNER2Runtime.extractEntities rt text labels threshold w = (inr out, w') →
  entitiesWellFormed2 rt text labels
    (default GLiNER2Runtime.DEFAULT_THRESHOLD threshold) out.
Proof.
  intros (_ & _ & [(-> & _)|(cells & _ & _ & Hdec & _)])%extractEntities_inr.
  { split; [constructor|]. split; [constructor|]. intros i j a b _ Hi. by rewrite lookup_nil in Hi. }
  destruct (decodeEntities_candidates _ _ _ _ _ _ _ Hdec) as (candidates & -> & Hsound & _).
  rewrite deduplicateEntities_unfold.
  destruct (wordsOf2_tokens rt text) as (Hall & Hsrt).
  split; [|split].
  - apply Forall_forall. intros e He%acceptLoop_elem_of%jsSort_elem_of.
    destruct (Hsound e He) as (spanIdx & labelIdx & _ & _ & Hc).
    destruct Hc as (sw & ew & so & eo & Hs & He' & Hsw & Hew & _ & Hthr & Hso & Heo
                    & Hlab & Hst & Hen & Htxt).
    cbn in Hs, He'.
    destruct (generateSpans_lookup _ _ _ _ _ Hs He') as (i & j & Hi & Hj & _ & -> & ->).
    rewrite list_lookup_fmap in Hso, Heo.
    destruct (wordsOf2 rt text !! _) as [[[wf sf] ef]|] eqn:Ef in Hso; [|done].
    destruct (wordsOf2 rt text !! _) as [[[wl sl] el]|] eqn:El in Heo; [|done].
    cbn in Hso, Heo. simplify_eq.
    pose proof (Forall_lookup_1 _ _ _ _ Hall Ef) as (Hf1 & Hf2 & Hf3 & _).
    pose proof (Forall_lookup_1 _ _ _ _ Hall El) as (Hl1 & Hl2 & Hl3 & _).
    cbn in Hf1, Hf2, Hf3, Hl1, Hl2, Hl3. cbn [fst snd] in Hst, Hen, Htxt.
    rewrite Htxt, Hst, Hen. clear Htxt Hst Hen.
    assert (Hord : sf < sl + length wl).
    { case_bool_decide.
      - destruct (decide (j = 0)) as [->|Hj0].
        + rewrite Nat.add_0_r, Ef in El. injection El as -> -> ->. lia.
        + pose proof (StronglySorted_lookup _ _ i (i + j) _ _ Hsrt ltac:(lia) Ef El) as Ho.
          cbn in Ho. lia.
      - rewrite Ef in El. injection El as -> -> ->. lia. }
    split; [|split; [lia|split; [lia|split; [done|split]]]].
    + case_bool_decide.
      * exists i, (i + j). rewrite Ef, El. cbn. split; [lia|]. split; [lia|].
        split; [done|]. by rewrite Hl3.
      * exists 0, 0. rewrite Ef. cbn. split; [lia|]. split; [lia|].
        rewrite Ef in El. injection El as -> -> ->.
        split; [done|]. by rewrite Hl3.
    + by eapply list_elem_of_lookup_2.
    + done.
  - eapply StronglySorted_sublist; [apply acceptLoop_sublist|apply jsSort_entities_sorted].
  - intros i j a b Hij Hi Hj Hc.
    assert (Hn : GLiNER2Dedup.sameLabelIntersect a b = false).
    { eapply (NoConflict_lookup GLiNER2Dedup.sameLabelIntersect _ i j a b); [|done..].
      apply acceptLoop_NoConflict, sameLabelIntersect_sym. }
    assert (Ht : GLiNER2Dedup.sameLabelIntersect a b = true); [|congruence].
    apply sameLabelIntersect_true. destruct Hc as (? & ? & ?). repeat split; [done|lia|lia].
Qed.

Lemma gliner2_extractEntities_wellFormed_witness :
  ∃ entities w',
    GLiNER2Runtime.extractEntities (H := rationalOps) craftedRuntime2
      (utf16 "ada writes") [utf16 "person"] None world0 = (inr entities, w')
    ∧ entities ≠ []
    ∧ entitiesWellFormed2 craftedRuntime2 (utf16 "ada writes") [utf16 "person"]
        (1 # 2) entities.
Proof.
  eexists _, _. split; [vm_compute; reflexivity|]. split; [done|].
  eapply (gliner2_extractEntities_wellFormed (H := rationalOps) craftedRuntime2
            (utf16 "ada writes") [utf16 "person"] None world0).
  vm_compute. reflexivity.
Defined.





(** Sessions that answer with arrays that are too short: the reads outside
    them give [undefined], the arrays filled from them hold [NaN], and the
    calls return. In single-label mode the one entry holds [undefined]; in
    multi-label mode and for entities, no score passes the threshold. *)
Example short_session_outputs :
  (GLiNER2Runtime.classify (H := rationalOps) shortRuntime2
     (utf16 "ada writes") [utf16 "poem"; utf16 "prose"] None None world0).1
  = inr {[ utf16 "poem" := None ]}
  ∧ (GLiNER2Runtime.classify (H := rationalOps) shortRuntime2
       (utf16 "ada writes") [utf16 "poem"; utf16 "prose"] None (Some true) world0).1
    = inr ∅
  ∧ (GLiNER2Runtime.extractEntities (H := rationalOps) shortRuntime2
       (utf16 "ada writes") [utf16 "person"] None world0).1
    = inr [].
Proof. repeat split; vm_compute; reflexivity. Qed.

(** For sessions that answer finite numbers, of whatever length, the result
    of a GLiNER2 [classify] call that returns maps requested labels only. In single-label mode (the default) it has exactly one entry,
    whatever the threshold, which is not consulted; the entry holds a number
    or [undefined]. In multi-label mode every entry holds a number that
    reaches the threshold, and the label ['__proto__'] is never an entry. *)
Theorem gliner2_classify_result `{FloatOps} (rt : GLiNER2Runtime.Runtime)
    (text : jsstring) (labels : list jsstring) (threshold : option Q)
    (multiLabel : option bool) (w w' : World)
    (result : GLiNER2Decoder.ClassificationResult) :
  GLiNER2Runtime.classify rt text labels threshold multiLabel w = (inr result, w') →
  (∀ l v, result !! l = Some v → l ∈ labels)
  ∧ (multiLabel ≠ Some true → ∃ l v, result = {[ l := v ]})
  ∧ (multiLabel = Some true →
     result !! utf16 "__proto__" = None
     ∧ ∀ l v, result !! l = Some v →
         ∃ p, v = Some p
              ∧ (default GLiNER2Runtime.DEFAULT_THRESHOLD threshold <= p)%Q).
Proof.
  intros (_ & Hlabels & (logits & ->) & _)%classify_inr.
  destruct multiLabel as [[|]|]; cbn [default].
  - unfold GLiNER2Decoder.decodeMultiLabel. cbn zeta.
    destruct (decodeMultiLabel_inv (sigmoidArray logits) labels
                (default GLiNER2Runtime.DEFAULT_THRESHOLD threshold) (length labels))
      as (Hinv & _).
    cbn zeta in Hinv. split; [|split; [done|]].
    + intros l v (_ & i & p & _ & Hl & _)%Hinv. by eapply list_elem_of_lookup_2.
    + intros _. split.
      * match goal with |- ?m !! ?l = None => destruct (m !! l) as [v|] eqn:Em end;
          [|done].
        by destruct (Hinv _ v Em) as (Hne & _).
      * intros l v (_ & i & p & _ & _ & _ & -> & Hp)%Hinv. by exists p.
  - destruct (decodeSingleLabel_entry logits labels Hlabels) as (l & v & -> & Hl & _).
    split; [|split; [by eauto|done]].
    intros l' v' [<- _]%lookup_singleton_Some. done.
  - destruct (decodeSingleLabel_entry logits labels Hlabels) as (l & v & -> & Hl & _).
    split; [|split; [by eauto|done]].
    intros l' v' [<- _]%lookup_singleton_Some. done.
Qed.

Lemma gliner2_classify_result_witness :
  ∃ result w',
    GLiNER2Runtime.classify (H := rationalOps) craftedRuntime2
      (utf16 "ada writes") [utf16 "poem"; utf16 "prose"] (Some 1%Q) None world0
    = (inr result, w')
    ∧ (∀ l v, result !! l = Some v → l ∈ [utf16 "poem"; utf16 "prose"])
    ∧ ∃ l v, result = {[ l := v ]}.
Proof.
  eexists _, _. split; [vm_compute; reflexivity|].
  destruct (gliner2_classify_result (H := rationalOps) craftedRuntime2
              (utf16 "ada writes") [utf16 "poem"; utf16 "prose"] (Some 1%Q) None world0
              _ _ eq_refl) as (Hkeys & Hone & _).
  split; [exact Hkeys|]. by apply Hone.
Defined.
(** ** The GLiNER2 runtime: where the labels and the words sit in the input *)

Lemma take_drop_app_mid {A : Type} (pre mid post : list A) n :
  n = length pre → take (length mid) (drop n (pre ++ mid ++ post)) = mid.
Proof. intros ->. by rewrite drop_app_length, take_app_length. Qed.

Lemma StronglySorted_seq_map (f : nat → nat) (R : relation nat) n :
  (∀ i j, i < j → j < n → R (f i) (f j)) →
  StronglySorted R (map f (seq 0 n)).
Proof.
  intros Hf. induction n as [|n IH]; [constructor|].
  rewrite seq_S, map_app. cbn [map Nat.add].
  assert (Hpre : StronglySorted R (map f (seq 0 n))) by (apply IH; intros; apply Hf; lia).
  clear IH. revert Hpre.
  assert (Hall : Forall (λ x, R x (f n)) (map f (seq 0 n))).
  { apply Forall_forall. intros x (i & -> & Hi%elem_of_seq)%list_elem_of_fmap.
    apply Hf; lia. }
  revert Hall. generalize (map f (seq 0 n)) as l. intros l.
  induction l as [|x l IHl]; intros Hall Hs.
  - repeat constructor.
  - cbn. inversion Hs; subst. inversion Hall; subst.
    constructor; [by apply IHl|]. apply Forall_app. split; [done|by repeat constructor].
Qed.

(** The schema prefix that [buildSchemaInput] returns, for every tokenizer:
    there is one position per label, in increasing order; position [i] holds
    the marker token and is followed by the ids of label [i]; the prefix ends
    with the [SEP_TEXT] token. *)
Theorem buildSchemaInput_layout (rt : GLiNER2Runtime.Runtime) (taskName : jsstring)
    (labels : list jsstring) (labelTokenId : Z) (w : World) :
  ∃ tokens labelPositions w',
    GLiNER2Runtime.buildSchemaInput rt taskName labels labelTokenId w
    = (inr (tokens, labelPositions), w')
    ∧ length labelPositions = length labels
    ∧ (∀ i name p, labels !! i = Some name → labelPositions !! i = Some p →
         tokens !! p = Some labelTokenId
         ∧ take (length (idsOf rt name)) (drop (S p) tokens) = idsOf rt name)
    ∧ StronglySorted lt labelPositions
    ∧ last tokens = Some (GLiNER2Runtime.token_SEP_TEXT (GLiNER2Runtime.config rt)).
Proof.
  destruct (buildSchemaInput_evaluates rt taskName labels labelTokenId w) as (w' & Hr & _).
  eexists _, _, w'. split; [exact Hr|].
  unfold schemaPositions, schemaTokens. split; [by rewrite length_map, length_seq|].
  split; [|split].
  - intros i name p Hl Hp. rewrite list_lookup_fmap in Hp.
    pose proof (lookup_lt_Some _ _ _ Hl) as Hlt.
    rewrite lookup_seq_lt in Hp by done. cbn in Hp. injection Hp as <-.
    assert (Hmid : schemaLabels rt labelTokenId labels
                   = schemaLabels rt labelTokenId (take i labels)
                     ++ [labelTokenId] ++ idsOf rt name
                     ++ schemaLabels rt labelTokenId (drop (S i) labels)).
    { rewrite <- (take_drop_middle labels i name Hl) at 1.
      unfold schemaLabels. by rewrite flat_map_app. }
    rewrite Hmid. fold (schemaLabels rt labelTokenId (take i labels)).
    remember (schemaLabels rt labelTokenId (take i labels)) as before eqn:Hb.
    remember (schemaHead rt taskName) as head eqn:Hh.
    rewrite <- !app_assoc, (app_assoc head before).
    split.
    + rewrite lookup_app_r by (rewrite length_app; lia).
      rewrite length_app. by replace (_ - _) with 0 by lia.
    + rewrite (app_assoc (head ++ before) [labelTokenId]).
      apply take_drop_app_mid. rewrite !length_app. cbn. lia.
  - apply StronglySorted_seq_map. intros i j Hij Hj.
    assert (Hlt : length (schemaLabels rt labelTokenId (take i labels))
                  < length (schemaLabels rt labelTokenId (take j labels))); [|lia].
    destruct (lookup_lt_is_Some_2 labels i ltac:(lia)) as [name Hname].
    replace (take j labels) with (take i labels ++ name :: take (j - S i) (drop (S i) labels)).
    { unfold schemaLabels. rewrite flat_map_app, length_app. cbn. lia. }
    rewrite <- (take_drop_middle labels i name Hname) at 3.
    rewrite take_app_ge by (rewrite length_take; lia).
    rewrite length_take, Nat.min_l by lia.
    replace (j - i) with (S (j - S i)) by lia. done.
  - rewrite !app_assoc. apply last_snoc.
Qed.

(** What [tokenizeWords] returns, for every tokenizer: one offset pair and
    one token position per word; the offsets delimit, in the lower-cased
    text, non-empty whitespace-free words that follow one another without
    overlap; position [k] is where the ids of word [k] start in the token
    list. [tokenizeText], which [classify] uses, returns the same tokens. *)
Theorem tokenizeWords_layout (rt : GLiNER2Runtime.Runtime) (text : jsstring) (w : World) :
  ∃ tokens wordOffsets firstTokenPositions w',
    GLiNER2Runtime.tokenizeWords rt text w
    = (inr (tokens, wordOffsets, firstTokenPositions), w')
    ∧ (GLiNER2Runtime.tokenizeText rt text w).1 = inr tokens
    ∧ length firstTokenPositions = length wordOffsets
    ∧ (∀ k off p, wordOffsets !! k = Some off → firstTokenPositions !! k = Some p →
         let word := slice (GLiNER2Runtime.toLowerCase rt text) off.1 off.2 in
         off.1 < off.2 ∧ off.2 ≤ length (GLiNER2Runtime.toLowerCase rt text)
         ∧ Forall (λ c, isSpace c = false) word
         ∧ take (length (idsOf rt word)) (drop p tokens) = idsOf rt word)
    ∧ StronglySorted (λ a b, a.2 ≤ b.1) wordOffsets.
Proof.
  destruct (tokenizeWords_evaluates rt text w) as (w' & Hr & _).
  destruct (tokenizeText_evaluates rt text w) as (w'' & Hr' & _).
  eexists _, _, _, w'. split; [exact Hr|]. split; [by rewrite Hr'|].
  destruct (wordsOf2_tokens rt text) as (Hall & Hsrt).
  split; [by rewrite !length_map, length_seq|]. split.
  - intros k off p Hoff Hp. rewrite list_lookup_fmap in Hoff. rewrite list_lookup_fmap in Hp.
    destruct (wordsOf2 rt text !! k) as [[[word s] e]|] eqn:Ek; [|done].
    pose proof (lookup_lt_Some _ _ _ Ek) as Hlt.
    rewrite lookup_seq_lt in Hp by done. cbn in Hoff, Hp. simplify_eq.
    pose proof (Forall_lookup_1 _ _ _ _ Hall Ek) as (H1 & H2 & H3 & H4 & H5).
    cbn [fst snd] in H1, H2, H3, H4, H5. cbn [fst snd]. rewrite <- H3, <- H4.
    split; [done|]. split; [done|]. split; [done|].
    rewrite <- (take_drop_middle _ _ _ Ek) at 2. rewrite flat_map_app. cbn [flat_map fst snd].
    apply (take_drop_app_mid _ (idsOf rt word)). done.
  - rewrite (map_ext_in _ (λ t : jsstring * nat * nat, (t.1.2, t.2))).
    + apply (StronglySorted_fmap _ (λ a b : jsstring * nat * nat, a.2 ≤ b.1.2));
        [|exact Hsrt].
      by intros [[? ?] ?] [[? ?] ?].
    + intros t Ht%list_elem_of_In. rewrite Forall_forall in Hall.
      destruct (Hall t Ht) as (_ & _ & -> & _). done.
Qed.
(** ** Scores lie between 0 and 1 *)

Section UnitInterval.
Context `{FloatOps}.
Hypothesis laws : unitIntervalLaws.

Lemma sigmoid_unit (x : Q) : (0 <= sigmoid x <= 1)%Q.
Proof.
  destruct laws as (Hexp & _ & Hneg & _ & _ & Hadd & Hdiv & _).
  unfold sigmoid. destruct (Qle_bool 0 x) eqn:Ex.
  - apply Qle_bool_iff in Ex.
    destruct (Hexp (fneg x) (Hneg x Ex)) as [He0 He1].
    destruct (Hadd 1%Q (Math_exp (fneg x)) ltac:(lra) He0) as [Ha _].
    apply Hdiv; lra.
  - assert (Hx : (x <= 0)%Q).
    { apply Qlt_le_weak, Qnot_le_lt. rewrite <- Qle_bool_iff. congruence. }
    destruct (Hexp x Hx) as [He0 He1].
    destruct (Hadd 1%Q (Math_exp x) ltac:(lra) He0) as [Ha Hb].
    cbn zeta. apply Hdiv; lra.
Qed.

Lemma fround_sigmoid_unit (x : Q) : (0 <= fround (sigmoid x) <= 1)%Q.
Proof.
  destruct laws as (_ & _ & _ & _ & _ & _ & _ & Hround). apply Hround, sigmoid_unit.
Qed.

Lemma sigmoidArray_unit values :
  Forall (λ p, (0 <= p <= 1)%Q) (sigmoidArray values).
Proof.
  unfold sigmoidArray. apply Forall_forall.
  intros p (v & -> & _)%list_elem_of_fmap. apply fround_sigmoid_unit.
Qed.

(** The running maximum of [softmax] bounds every value. *)
Lemma softmax_max values m0 m :
  fold_left (λ (maxVal : option Q) val,
      match maxVal with
      | None => Some val
      | Some m => if Qlt_bool m val then Some val else Some m
      end) values m0 = Some m →
  (∀ m', m0 = Some m' → (m' <= m)%Q)
  ∧ Forall (λ v, (v <= m)%Q) values
  ∧ (m0 = Some m ∨ m ∈ values).
Proof.
  revert m0. induction values as [|v values IH]; intros m0; cbn [fold_left].
  - intros ->. split; [by intros m' [= ->]; lra|]. split; [constructor|by left].
  - intros Hf. destruct (IH _ Hf) as (Hle & Hall & Hin). split; [|split].
    + intros m' ->. destruct (Qlt_bool m' v) eqn:E.
      * apply Qlt_bool_iff in E. pose proof (Hle v eq_refl) as Hv. clear -E Hv. lra.
      * by apply Hle.
    + constructor; [|done]. destruct m0 as [m'|]; [|by apply Hle].
      destruct (Qlt_bool m' v) eqn:E; [by apply Hle|].
      apply Qlt_bool_false in E. pose proof (Hle m' eq_refl). lra.
    + destruct Hin as [Hin|Hin]; [|right; by right].
      destruct m0 as [m'|]; [|injection Hin as ->; right; left].
      destruct (Qlt_bool m' v); injection Hin as ->; [right; left|by left].
Qed.

Lemma sum_ge (expVals : list Q) (s0 : Q) :
  (0 <= s0)%Q → Forall (λ e, (0 <= e)%Q) expVals →
  let sum := fold_left (λ sum expVal, fadd sum expVal) expVals s0 in
  (s0 <= sum)%Q ∧ Forall (λ e, (e <= sum)%Q) expVals.
Proof.
  destruct laws as (_ & _ & _ & _ & _ & Hadd & _ & _).
  revert s0. induction expVals as [|e expVals IH]; intros s0 Hs0 Hall; cbn.
  - split; [lra|constructor].
  - inversion Hall as [|? ? He Hall']; subst.
    destruct (Hadd s0 e Hs0 He) as [H1 H2].
    assert (Hs1 : (0 <= fadd s0 e)%Q) by (clear -Hs0 H1; lra).
    destruct (IH (fadd s0 e) Hs1 Hall') as [H3 H4]. cbn zeta in H3, H4.
    split; [lra|]. constructor; [lra|done].
Qed.

Lemma softmax_unit values :
  Forall (λ p, (0 <= p <= 1)%Q) (softmax values).
Proof.
  pose proof laws as (Hexp & Hexp0 & _ & Hsub & Hsub0 & Hadd & Hdiv & Hround).
  unfold softmax.
  destruct (fold_left _ values None) as [m|] eqn:Em; [|constructor].
  destruct (softmax_max _ _ _ Em) as (_ & Hall & [Hin|Hin]); [done|]. cbn zeta.
  set (expVals := map (λ v, Math_exp (fsub v m)) values).
  assert (Hrange : Forall (λ e, (0 <= e <= 1)%Q) expVals).
  { apply Forall_forall. intros e (v & -> & Hv)%list_elem_of_fmap.
    rewrite Forall_forall in Hall. apply Hexp, Hsub, Hall, Hv. }
  assert (Hone : 1%Q ∈ expVals).
  { apply list_elem_of_fmap. exists m. split; [|done]. by rewrite Hsub0, Hexp0. }
  destruct (sum_ge expVals 0%Q ltac:(lra)) as [Hs0 Hsum].
  { eapply Forall_impl; [exact Hrange|]. cbn. intros; lra. }
  cbn zeta in Hs0, Hsum. set (sum := fold_left _ expVals 0%Q) in *.
  assert (H1 : (1 <= sum)%Q) by (rewrite Forall_forall in Hsum; by apply Hsum).
  apply Forall_forall. intros p (e & -> & He)%list_elem_of_fmap.
  rewrite Forall_forall in Hrange. pose proof (Hround e (Hrange e He)).
  apply Hround, Hdiv; lra.
Qed.

End UnitInterval.

Section UnitInterval1.
Import GLiNER1Decoder GLiNER1Processor GLiNER1Runtime.
Context `{FloatOps} (rt : Runtime).
Hypothesis laws : unitIntervalLaws.

Lemma inferenceOf_unit texts labels threshold raw :
  inferenceOf rt texts labels threshold = inr raw →
  Forall (Forall (λ e, (0 <= score e <= 1)%Q)) (map convertToEntities raw).
Proof.
  unfold inferenceOf. cbn zeta.
  destruct (session_run rt _) as [results|]; [|done].
  destruct (output ONNX_OUTPUT_LOGITS results) as [logits|]; [|done].
  unfold decode. cbn [opt_threshold opt_flatNer opt_multiLabel].
  change (default GLiNER1Decoder.DEFAULT_THRESHOLD (Some threshold)) with threshold.
  change (default true None) with true. change (default false None) with false.
  rewrite extractSpans_body.
  destruct (extractSpans_rows (maxWidth rt) (length texts)
              (max_list (map length (wordTokens texts))) (length labels) texts
              (seq 0 (length texts))
              (map (λ text, map (λ t, t.1.2) (wordsOf text)) texts)
              (map (λ text, map (λ t, t.2) (wordsOf text)) texts)
              (buildIdToClass labels) logits threshold (length logits))
    as (spans & -> & Hlen & Hrows); [by rewrite length_map|].
  cbn [mbind option_bind]. intros [= <-].
  rewrite !Forall_fmap. apply Forall_lookup. intros i row Hrow.
  assert (Hilt : i < length texts).
  { rewrite <- Hlen. by eapply lookup_lt_Some. }
  rewrite (Hrows i Hilt) in Hrow. injection Hrow as <-.
  cbn [compose]. unfold convertToEntities. rewrite Forall_fmap.
  apply Forall_forall. intros r Hr%greedySearch_elem_of.
  apply elem_of_rowOf in Hr as (idx & _ & Hc).
  apply cand_spec in Hc as (v & starts & ends & sc & ec & _ & _ & _ & _ & _ & _ & _ & _ & ->).
  cbn. by apply sigmoid_unit.
Qed.

End UnitInterval1.

(** Under the rounding laws of [unitIntervalLaws] and for sessions that
    answer finite numbers, every score that a public operation returns lies
    between 0 and 1: the scores of the entities of GLiNER1's
    [extractEntities] and [extractEntitiesBatch] and of GLiNER2's
    [extractEntities], and the scores of GLiNER2's [classify] in both modes.
    A value that [classify] returns is not a number ([undefined]) in
    single-label mode only. [sigmoid] evaluates the exponential at
    non-positive arguments only, and [softmax] after subtracting the
    maximum. *)
Theorem scores_unit_interval `{FloatOps} :
  unitIntervalLaws →
  (∀ rt texts labels threshold w result w',
     GLiNER1Runtime.extractEntitiesBatch rt texts labels threshold w = (inr result, w') →
     Forall (Forall (λ e, (0 <= score e <= 1)%Q)) result)
  ∧ (∀ rt text labels threshold w entities w',
       GLiNER1Runtime.extractEntities rt text labels threshold w = (inr entities, w') →
       Forall (λ e, (0 <= score e <= 1)%Q) entities)
  ∧ (∀ rt text labels threshold w entities w',
       GLiNER2Runtime.extractEntities rt text labels threshold w = (inr entities, w') →
       Forall (λ e, (0 <= score e <= 1)%Q) entities)
  ∧ (∀ rt text labels threshold multiLabel w result w',
       GLiNER2Runtime.classify rt text labels threshold multiLabel w = (inr result, w') →
       ∀ l v, result !! l = Some v →
         match v with
         | Some p => (0 <= p <= 1)%Q
         | None => multiLabel ≠ Some true
         end).
Proof.
  intros laws. split; [|split; [|split]].
  - intros rt texts labels threshold w result w' Hrun.
    destruct (extractEntitiesBatch_validated rt _ _ _ _ _ _ Hrun) as [Ht Hl].
    destruct (extractEntitiesBatch_run rt texts labels threshold w Ht Hl) as (w1 & Hr & _).
    rewrite Hr in Hrun.
    destruct (inferenceOf _ _ _ _) as [e|raw] eqn:Ei; [done|].
    injection Hrun as <- _. by eapply inferenceOf_unit.
  - intros rt text labels threshold w entities w' Hrun.
    destruct (extractEntities_validated rt _ _ _ _ _ _ Hrun) as [Ht Hl].
    destruct (extractEntities_run rt text labels threshold w Ht Hl) as (w1 & Hr & _).
    rewrite Hr in Hrun.
    destruct (inferenceOf _ _ _ _) as [e|raw] eqn:Ei; [done|].
    injection Hrun as <- _.
    pose proof (inferenceOf_unit rt laws _ _ _ _ Ei) as Hall.
    destruct raw as [|row raw]; [constructor|]. cbn in Hall |- *.
    by inversion Hall.
  - intros rt text labels threshold w entities w'
      (_ & _ & [(-> & _)|(cells & _ & (sr & tl & ->) & Hdec & _)])%extractEntities_inr;
      [constructor|].
    destruct (decodeEntities_candidates _ _ _ _ _ _ _ Hdec) as (candidates & -> & Hsound & _).
    rewrite deduplicateEntities_unfold.
    apply Forall_forall. intros e He%acceptLoop_elem_of%jsSort_elem_of.
    destruct (Hsound e He) as (spanIdx & labelIdx & _ & _ & Hc).
    destruct Hc as (sw & ew & so & eo & _ & _ & _ & _ & Hcell & _).
    cbn in Hcell. apply computeDotProductScores_cell in Hcell as (dotProduct & ->).
    by apply fround_sigmoid_unit.
  - intros rt text labels threshold multiLabel w result w'
      (_ & Hlabels & (logits & ->) & _)%classify_inr l v Hv.
    destruct multiLabel as [[|]|]; cbn [default] in Hv.
    + unfold GLiNER2Decoder.decodeMultiLabel in Hv. cbn zeta in Hv.
      destruct (decodeMultiLabel_inv (sigmoidArray logits) labels
                  (default GLiNER2Runtime.DEFAULT_THRESHOLD threshold) (length labels))
        as (Hinv & _).
      cbn zeta in Hinv. apply Hinv in Hv as (_ & i & p & _ & _ & Hpi & -> & _).
      pose proof (sigmoidArray_unit laws logits) as Hall.
      rewrite Forall_forall in Hall. apply Hall. by eapply list_elem_of_lookup_2.
    + destruct (decodeSingleLabel_entry logits labels Hlabels) as (l' & v' & E & _ & Hin).
      rewrite E in Hv. apply lookup_singleton_Some in Hv as [_ <-].
      destruct v' as [p|]; [|done].
      pose proof (softmax_unit laws logits) as Hall.
      rewrite Forall_forall in Hall. by apply Hall.
    + destruct (decodeSingleLabel_entry logits labels Hlabels) as (l' & v' & E & _ & Hin).
      rewrite E in Hv. apply lookup_singleton_Some in Hv as [_ <-].
      destruct v' as [p|]; [|done].
      pose proof (softmax_unit laws logits) as Hall.
      rewrite Forall_forall in Hall. by apply Hall.
Qed.

Lemma rationalOps_unitIntervalLaws : unitIntervalLaws (H := rationalOps).
Proof.
  unfold unitIntervalLaws. cbn [Math_exp fadd fsub fdiv fneg fround rationalOps].
  split; [|split; [|split; [|split; [|split; [|split; [|split]]]]]].
  - intros y Hy. destruct (Qle_bool 0 y) eqn:E.
    + apply Qle_bool_iff in E. rewrite Qred_correct. lra.
    + rewrite Qred_correct.
      assert (Hlt : (y < 0)%Q).
      { apply Qnot_le_lt. rewrite <- Qle_bool_iff. congruence. }
      split.
      * apply Qle_shift_div_l; lra.
      * apply Qle_shift_div_r; lra.
  - reflexivity.
  - intros x Hx. rewrite Qred_correct. lra.
  - intros v m Hv. rewrite Qred_correct. lra.
  - intros m. change 0%Q with (Qred 0). apply Qred_complete. lra.
  - intros a b Ha Hb. rewrite Qred_correct. split; lra.
  - intros a b [Ha Hab] Hb. rewrite Qred_correct. split.
    + apply Qle_shift_div_l; lra.
    + apply Qle_shift_div_r; lra.
  - intros v Hv. by rewrite Qred_correct.
Qed.

Lemma scores_unit_interval_witness :
  unitIntervalLaws (H := rationalOps)
  ∧ (∃ entities w',
       GLiNER2Runtime.extractEntities (H := rationalOps) craftedRuntime2
         (utf16 "ada writes") [utf16 "person"] None world0 = (inr entities, w')
       ∧ entities ≠ []
       ∧ Forall (λ e, (0 <= score e <= 1)%Q) entities)
  ∧ ∃ result w' l p,
      GLiNER2Runtime.classify (H := rationalOps) craftedRuntime2
        (utf16 "ada writes") [utf16 "poem"; utf16 "prose"] None None world0
      = (inr result, w')
      ∧ result !! l = Some (Some p) ∧ (0 <= p <= 1)%Q.
Proof.
  split; [exact rationalOps_unitIntervalLaws|].
  destruct (scores_unit_interval (H := rationalOps) rationalOps_unitIntervalLaws)
    as (_ & _ & Hex & Hcl).
  split.
  - eexists _, _. split; [vm_compute; reflexivity|]. split; [done|].
    eapply (Hex craftedRuntime2 (utf16 "ada writes") [utf16 "person"] None world0).
    vm_compute. reflexivity.
  - eexists _, _, (utf16 "poem"), _. split; [vm_compute; reflexivity|].
    split; [vm_compute; reflexivity|].
    refine (Hcl craftedRuntime2 (utf16 "ada writes") [utf16 "poem"; utf16 "prose"]
              None None world0 _ _ _ (utf16 "poem") (Some _) _);
      vm_compute; reflexivity.
Defined.
(** ** GLiNER2: raising the threshold *)

Lemma forRangeM_sim {S T : Type} (f : S → T) n (body1 : nat → S → option S)
    (body2 : nat → T → option T) st r :
  (∀ i s s', i < n → body1 i s = Some s' → body2 i (f s) = Some (f s')) →
  forRangeM n body1 st = Some r →
  forRangeM n body2 (f st) = Some (f r).
Proof.
  intros Hsim. revert r. induction n as [|n IH]; intros r.
  - unfold forRangeM. cbn. intros Hr. by simplify_eq.
  - rewrite !forRangeM_S.
    destruct (forRangeM n body1 st) as [s|] eqn:E; [|done]. cbn [mbind option_bind].
    intros Hb. rewrite (IH (λ i s s' Hi, Hsim i s s' ltac:(lia)) s eq_refl).
    cbn [mbind option_bind]. apply Hsim; [lia|done].
Qed.

Lemma filter_byScoreDesc2 (P : Entity → Prop) `{!∀ x, Decision (P x)} l :
  filter P (jsSort GLiNER2Dedup.byScoreDesc l)
  = jsSort GLiNER2Dedup.byScoreDesc (filter P l).
Proof.
  apply (filter_jsSort GLiNER2Dedup.byScoreDesc (λ a b, (score b <= score a)%Q));
    unfold GLiNER2Dedup.byScoreDesc; intros x y.
  - intros Hlt. apply (proj1 (signQ_sub_Lt _ _)) in Hlt. lra.
  - intros Hge. by apply (proj1 (signQ_sub_not_Lt _ _)) in Hge.
  - intros Hle Hlt. apply (proj1 (signQ_sub_Lt _ _)) in Hlt. lra.
Qed.

Lemma deduplicateEntities_filter (t : Q) entities :
  GLiNER2Dedup.deduplicateEntities (filter (λ e, Qle_bool t (score e) = true) entities)
  = filter (λ e, Qle_bool t (score e) = true) (GLiNER2Dedup.deduplicateEntities entities).
Proof.
  rewrite !deduplicateEntities_unfold, <- filter_byScoreDesc2.
  apply acceptLoop_filter_prefix. intros l1 x l2 Hl Hx.
  apply Forall_forall. intros y Hy.
  apply Qle_bool_iff. apply Qle_bool_iff in Hx.
  assert (Hyx : (score x <= score y)%Q).
  { eapply (StronglySorted_before (λ a b, (score b <= score a)%Q));
      [apply jsSort_entities_sorted|]. by exists l1, l2. }
  lra.
Qed.

Lemma decodeEntities_threshold scoreData wordCount labels wordOffsets input
    (t1 t2 : Q) out :
  (t1 <= t2)%Q →
  GLiNER2Decoder.decodeEntities scoreData wordCount labels wordOffsets input t1
  = Some out →
  GLiNER2Decoder.decodeEntities scoreData wordCount labels wordOffsets input t2
  = Some (filter (λ e, Qle_bool t2 (score e) = true) out).
Proof.
  intros Ht. unfold GLiNER2Decoder.decodeEntities. cbn zeta.
  destruct (forRangeM (GLiNER2Decoder.spanCount scoreData) _ []) as [c1|] eqn:E1; [|done].
  cbn [mbind option_bind]. intros [= <-].
  match goal with
  | |- forRangeM _ ?b [] ≫= _ = _ =>
      apply (forRangeM_sim (filter (λ e, Qle_bool t2 (score e) = true))) with
        (body2 := b) in E1
  end.
  - rewrite filter_nil in E1. rewrite E1. cbn. by rewrite deduplicateEntities_filter.
  - intros spanIdx s s' _. cbn zeta.
    destruct (_ || _); [by intros [= <-]|].
    apply forRangeM_sim. intros labelIdx e e' _.
    destruct (GLiNER2Decoder.scores scoreData !! _) as [[sc|]|];
      [|by intros [= <-]..].
    destruct (Qle_bool t2 sc) eqn:E2.
    + assert (E1' : Qle_bool t1 sc = true).
      { apply Qle_bool_iff. apply Qle_bool_iff in E2. lra. }
      rewrite E1'.
      destruct (GLiNER2Decoder.wordSpanStart scoreData !! spanIdx ≫= (wordOffsets !!.))
        as [so|]; [|done].
      destruct (GLiNER2Decoder.wordSpanEnd scoreData !! spanIdx ≫= (wordOffsets !!.))
        as [eo|]; [|done].
      destruct (labels !! labelIdx) as [l|]; [|done]. cbn. intros [= <-].
      by rewrite filter_app, filter_cons, decide_True, filter_nil by done.
    + destruct (Qle_bool t1 sc); [|by intros [= <-]].
      destruct (GLiNER2Decoder.wordSpanStart scoreData !! spanIdx ≫= (wordOffsets !!.))
        as [so|]; [|done].
      destruct (GLiNER2Decoder.wordSpanEnd scoreData !! spanIdx ≫= (wordOffsets !!.))
        as [eo|]; [|done].
      destruct (labels !! labelIdx) as [l|]; [|done]. cbn. intros [= <-].
      rewrite filter_app, filter_cons, decide_False, filter_nil, app_nil_r; [done|].
      cbn. congruence.
Qed.

Lemma bind_transfer {A B C : Type} (m : M A) (k1 : A → M B) (k2 : A → M C) w b1 b2 w' :
  (∀ a w1, k1 a w1 = (inr b1, w') → k2 a w1 = (inr b2, w')) →
  (m ≫= k1) w = (inr b1, w') → (m ≫= k2) w = (inr b2, w').
Proof.
  intros Hk. rewrite !bind_unfold. destruct (m w) as [[e|a] w1]; [done|]. apply Hk.
Qed.

(** For sessions that answer finite numbers, of whatever length, raising the
    threshold of a GLiNER2 request only removes entities from its answer: if
    [extractEntities] returns for the threshold [t1] and [t1 <= t2], then for
    [t2] it returns the same entities without those scoring below [t2], in
    the same order. A score cell that is [NaN] gives no entity for either
    threshold. *)
Theorem gliner2_extractEntities_threshold_monotone `{FloatOps}
    (rt : GLiNER2Runtime.Runtime) (text : jsstring) (labels : list jsstring)
    (t1 t2 : Q) (w w' : World) (out : list Entity) :
  (t1 <= t2)%Q →
  GLiNER2Runtime.extractEntities rt text labels (Some t1) w = (inr out, w') →
  GLiNER2Runtime.extractEntities rt text labels (Some t2) w
  = (inr (filter (λ e, Qle_bool t2 (score e) = true) out), w').
Proof.
  intros Ht. unfold GLiNER2Runtime.extractEntities. cbn zeta.
  change (default GLiNER2Runtime.DEFAULT_THRESHOLD (Some t1)) with t1.
  change (default GLiNER2Runtime.DEFAULT_THRESHOLD (Some t2)) with t2.
  apply bind_transfer. intros _ w0.
  apply bind_transfer. intros [schemaTokens labelPositions] w1.
  apply bind_transfer. intros [[textTokens wordOffsets] firstTokenPositions] w2.
  apply bind_transfer. intros hiddenStates w3.
  destruct (_ || _).
  { intros [= <- <-]. done. }
  apply bind_transfer. intros scoreData w6.
  intros (Hdec & ->)%orTypeError_inr.
  by rewrite (decodeEntities_threshold _ _ _ _ _ t1 t2 out Ht Hdec).
Qed.

Lemma gliner2_extractEntities_threshold_monotone_witness :
  (1 # 2 <= 9 # 10)%Q
  ∧ (∃ out w',
       GLiNER2Runtime.extractEntities (H := rationalOps) craftedRuntime2
         (utf16 "ada writes") [utf16 "person"] (Some (1 # 2)%Q) world0 = (inr out, w')
       ∧ out ≠ [])
  ∧ ∃ w',
      GLiNER2Runtime.extractEntities (H := rationalOps) craftedRuntime2
        (utf16 "ada writes") [utf16 "person"] (Some (9 # 10)%Q) world0 = (inr [], w').
Proof.
  assert (Ht : (1 # 2 <= 9 # 10)%Q) by (unfold Qle; cbn; lia).
  split; [exact Ht|]. split.
  { eexists _, _. split; [vm_compute; reflexivity|done]. }
  eexists.
  etrans.
  { eapply (gliner2_extractEntities_threshold_monotone (H := rationalOps) craftedRuntime2
              (utf16 "ada writes") [utf16 "person"] (1 # 2) (9 # 10) world0 _ _ Ht).
    vm_compute. reflexivity. }
  vm_compute. reflexivity.
Defined.
(** ** Loading the configuration *)

Section Configuration.
Import GLiNER2Configuration.
Context (host : Host).

Lemma rethrowInvalid_inl {A : Type} file (body : thrown + A) e :
  rethrowInvalid file body = inl e → ∃ message, e = ConfigurationError message.
Proof.
  destruct body as [[message|message]|a]; cbn; intros [= <-]; eauto.
Qed.

Lemma rethrowInvalid_inr {A : Type} file (body : thrown + A) a :
  rethrowInvalid file body = inr a → body = inr a.
Proof. by destruct body as [[message|message]|a']. Qed.

Lemma loadTransformerConfig_inl path e :
  loadTransformerConfig host path = inl e → ∃ message, e = ConfigurationError message.
Proof.
  unfold loadTransformerConfig. cbn zeta.
  destruct (negb _); [intros [= <-]; eauto|]. apply rethrowInvalid_inl.
Qed.

Lemma loadGliner2Config_inl path e :
  loadGliner2Config host path = inl e → ∃ message, e = ConfigurationError message.
Proof.
  unfold loadGliner2Config. cbn zeta.
  destruct (negb _); [intros [= <-]; eauto|]. apply rethrowInvalid_inl.
Qed.

Lemma load_inl path maxWidthOption e :
  load host path maxWidthOption = inl e → ∃ message, e = ConfigurationError message.
Proof.
  unfold load.
  destruct (loadTransformerConfig host path) as [e1|transformerConfig] eqn:E1.
  { intros [= <-]. by eapply loadTransformerConfig_inl. }
  destruct (loadGliner2Config host path) as [e2|gliner2Config] eqn:E2; [|done].
  intros [= <-]. by eapply loadGliner2Config_inl.
Qed.

(** What [loadGliner2Config] has checked when it returns. *)
Lemma loadGliner2Config_inr path file :
  loadGliner2Config host path = inr file →
  ∃ config,
    getMember host config "max_width" = inr (Some (JNumber (max_width file)))
    ∧ getMember host config "special_tokens" = inr (Some (special_tokens file))
    ∧ getMember host config "onnx_files" = inr (Some (onnx_files file))
    ∧ isObject (Some (special_tokens file)) = true
    ∧ isObject (Some (onnx_files file)) = true
    ∧ Forall (λ token, hasMember (special_tokens file) token = true)
        REQUIRED_SPECIAL_TOKENS.
Proof.
  unfold loadGliner2Config. cbn zeta.
  destruct (negb _); [done|]. intros Hbody%rethrowInvalid_inr. revert Hbody.
  destruct (readFileSync host _) as [?|content]; [done|].
  destruct (JSON_parse host content) as [?|config]; [done|].
  destruct (getMember host config "max_width") as [?|[[| |n| | |]|]] eqn:Ew; try done.
  destruct (getMember host config "special_tokens") as [?|[specialTokens|]] eqn:Es;
    [done| |done].
  destruct (negb (isObject (Some specialTokens))) eqn:Eo; [done|].
  destruct (0 <? length _) eqn:Em; [done|].
  destruct (getMember host config "onnx_files") as [?|[onnxFiles|]] eqn:Ef; [done| |done].
  destruct (negb (isObject (Some onnxFiles))) eqn:Eo'; [done|].
  intros [= <-]. cbn. exists config.
  apply negb_false_iff in Eo, Eo'. apply Nat.ltb_ge in Em.
  repeat split; try done.
  apply Forall_forall. intros token Htoken.
  destruct (hasMember specialTokens token) eqn:Eh; [done|]. exfalso.
  assert (Hin : In token (List.filter (λ token, negb (hasMember specialTokens token))
                            REQUIRED_SPECIAL_TOKENS)).
  { apply filter_In. split; [by apply list_elem_of_In|by rewrite Eh]. }
  destruct (List.filter _ _); [done|cbn in Em; lia].
Qed.

Lemma hasMember_getMember value key :
  hasMember value key = true → ∃ v, getMember host value key = inr (Some v).
Proof.
  destruct value as [| | | | |members]; try done. cbn.
  intros Hin%bool_decide_eq_true.
  apply list_elem_of_fmap in Hin as ([k v] & -> & Hin). cbn.
  assert (Hf : (k, v) ∈ filter (λ m : string * json, m.1 = k) members).
  { apply list_elem_of_filter. by split. }
  destruct (filter _ members) as [|m l] using rev_ind; [by apply elem_of_nil in Hf|].
  rewrite last_snoc. cbn. eauto.
Qed.

End Configuration.

(** Loading a configuration fails with a [ConfigurationError] only: a file
    that cannot be read, text that is not JSON and JSON that is [null] are
    all reported as one, since both loaders wrap what they catch. So does
    asking a loaded configuration for the files of a precision, which
    otherwise returns the truthy value stored under that precision. *)
Theorem configuration_errors (host : GLiNER2Configuration.Host) (path : string)
    (maxWidthOption : option GLiNER2Configuration.number) :
  match GLiNER2Configuration.load host path maxWidthOption with
  | inl e => ∃ message, e = GLiNER2Configuration.ConfigurationError message
  | inr config =>
      ∀ precision,
        match GLiNER2Configuration.getOnnxFiles host config precision with
        | inl e => ∃ message, e = GLiNER2Configuration.ConfigurationError message
        | inr files =>
            GLiNER2Configuration.getMember host (GLiNER2Configuration.onnxFiles config)
              (GLiNER2Configuration.precisionKey precision) = inr (Some files)
            ∧ GLiNER2Configuration.falsy (Some files) = false
        end
  end.
Proof.
  destruct (GLiNER2Configuration.load host path maxWidthOption) as [e|config] eqn:El.
  { by eapply load_inl. }
  intros precision. unfold GLiNER2Configuration.load in El.
  destruct (GLiNER2Configuration.loadTransformerConfig host path) as [?|tc]; [done|].
  destruct (GLiNER2Configuration.loadGliner2Config host path) as [?|file] eqn:Ef; [done|].
  injection El as <-.
  destruct (loadGliner2Config_inr host path file Ef) as (_ & _ & _ & _ & _ & Hobj & _).
  unfold GLiNER2Configuration.getOnnxFiles. cbn [GLiNER2Configuration.onnxFiles].
  destruct (_ =? 0); [eauto|].
  destruct (GLiNER2Configuration.onnx_files file) as [| | | |items|members]; try done.
  - cbn. eauto.
  - cbn [GLiNER2Configuration.getMember].
    destruct (snd <$> last _) as [files|]; [|eauto].
    destruct (GLiNER2Configuration.falsy (Some files)) eqn:Efalsy; [eauto|done].
Qed.

(** A configuration that [load] returns has every special token the
    runtime reads (['[P]'], ['[L]'], ['[E]'], ['[SEP_TEXT]']) as a member of
    its [specialTokens], an object or array as [onnxFiles], the model path it
    was loaded from, and the maximum width of the options when they give
    one. *)
Theorem load_validates (host : GLiNER2Configuration.Host) (path : string)
    (maxWidthOption : option GLiNER2Configuration.number)
    (config : GLiNER2Configuration.GLiNER2Config) :
  GLiNER2Configuration.load host path maxWidthOption = inr config →
  GLiNER2Configuration.modelPath config = path
  ∧ (∀ token, token ∈ GLiNER2Configuration.REQUIRED_SPECIAL_TOKENS →
       ∃ value,
         GLiNER2Configuration.getMember host (GLiNER2Configuration.specialTokens config)
           token = inr (Some value))
  ∧ GLiNER2Configuration.isObject (Some (GLiNER2Configuration.onnxFiles config)) = true
  ∧ (∀ n, maxWidthOption = Some n → GLiNER2Configuration.maxWidth config = n).
Proof.
  unfold GLiNER2Configuration.load.
  destruct (GLiNER2Configuration.loadTransformerConfig host path) as [?|tc]; [done|].
  destruct (GLiNER2Configuration.loadGliner2Config host path) as [?|file] eqn:Ef; [done|].
  intros [= <-]. cbn.
  destruct (loadGliner2Config_inr host path file Ef) as (_ & _ & _ & _ & _ & Hobj & Hall).
  split; [done|]. split; [|split; [done|]].
  - intros token Htoken. apply hasMember_getMember.
    rewrite Forall_forall in Hall. by apply Hall.
  - by intros n ->.
Qed.

Lemma load_validates_witness :
  ∃ config,
    GLiNER2Configuration.load craftedHost "model" None = inr config
    ∧ GLiNER2Configuration.modelPath config = "model"%string
    ∧ ∃ value,
        GLiNER2Configuration.getMember craftedHost
          (GLiNER2Configuration.specialTokens config) "[SEP_TEXT]" = inr (Some value).
Proof.
  eexists. split; [vm_compute; reflexivity|].
  destruct (load_validates craftedHost "model" None _ eq_refl) as (Hpath & Htokens & _).
  split; [exact Hpath|]. apply Htokens.
  unfold GLiNER2Configuration.REQUIRED_SPECIAL_TOKENS. rewrite !elem_of_cons. auto.
Defined.
